(** * Field-level envelope encryption and configuration resolution

    A shallow embedding of [src/crypto.js], the preview function
    [listSensitiveFields] of [src/cli-encrypt.js] and the resolver
    [loadConfig] of [src/load-config.js], together with the properties of
    the specification that were settled against them.

    Conventions of the embedding.
    - A JavaScript string is modelled by [string], the sequence of bytes
      of its UTF-8 encoding, an unpaired surrogate being written in the
      generalised encoding; [Buffer.from(s, 'utf8')], which replaces
      unpaired surrogates, and [buf.toString('utf8')], which replaces
      ill-formed sequences, are the two conversions between [string]
      and [list byte].
    - A JavaScript value of a configuration document is a [node].
    - A thrown [Error] (or a rejected promise) is [Throw message]; a
      returned value (or a fulfilled promise) is [Ok value].
    - The primitives of [node:crypto] are parameters of a section, with
      their functional contracts as hypotheses.
    - The [nconf] provider is modelled as one document addressed by key
      paths and, in module [Live], as the store of the environment
      before the object graph of the file, for the properties of the
      resolver that read what [config.set] wrote. *)

From Stdlib Require Import Strings.String Strings.Ascii Strings.Byte List Bool Arith NArith ZArith Lia.
From Stdlib Require Import DecimalString DecimalNat.
Import ListNotations.
Local Open Scope string_scope.
Local Open Scope list_scope.

Set Implicit Arguments.

(* ===================================================================== *)
(** ** Results of calls that may throw *)
(* ===================================================================== *)

Inductive result (A : Type) : Type :=
| Ok (value : A)
| Throw (message : string).

Arguments Ok {A} value.
Arguments Throw {A} message.

Definition bindR {A B} (r : result A) (k : A -> result B) : result B :=
  match r with
  | Ok a => k a
  | Throw m => Throw m
  end.

Definition mapR {A B} (f : A -> B) (r : result A) : result B :=
  bindR r (fun a => Ok (f a)).

(** [Promise.all(items.map(f))] for a function without shared state:
    all results in order when every item is fulfilled, and a rejection
    when one is rejected.  Where several items are rejected,
    [Promise.all] reports the rejection that comes first in time and
    [allR] the one of the first such item: where a statement below
    names the message of a rejected traversal, every rejection that the
    traversal can meet there carries that message. *)
Definition allR {A B} (f : A -> result B) : list A -> result (list B) :=
  fix go (l : list A) : result (list B) :=
    match l with
    | [] => Ok []
    | x :: r =>
        match f x with
        | Throw m => Throw m
        | Ok y => match go r with
                  | Throw m => Throw m
                  | Ok ys => Ok (y :: ys)
                  end
        end
    end.

(* ===================================================================== *)
(** ** JavaScript strings *)
(* ===================================================================== *)

Module JsString.

(** [s.startsWith(p)] *)
Fixpoint startsWith (s p : string) {struct p} : bool :=
  match p with
  | EmptyString => true
  | String c p' =>
      match s with
      | EmptyString => false
      | String d s' => Ascii.eqb c d && startsWith s' p'
      end
  end.

(** [s.includes(p)] *)
Fixpoint includes (s p : string) : bool :=
  startsWith s p ||
  match s with
  | EmptyString => false
  | String _ s' => includes s' p
  end.

(** [s.slice(n)] for [0 <= n] *)
Fixpoint slice (s : string) (n : nat) {struct n} : string :=
  match n with
  | O => s
  | S n' => match s with
            | EmptyString => EmptyString
            | String _ s' => slice s' n'
            end
  end.

Definition rev (s : string) : string :=
  string_of_list_ascii (List.rev (list_ascii_of_string s)).

(** [s.endsWith(p)] *)
Definition endsWith (s p : string) : bool :=
  startsWith (rev s) (rev p).

(** The white space and line terminators that [String.prototype.trim]
    removes, as UTF-8 byte sequences: TAB, LF, VT, FF, CR, SP, U+00A0,
    U+1680, U+2000 to U+200A, U+2028, U+2029, U+202F, U+205F, U+3000
    and U+FEFF. *)
Definition whiteSpace : list string :=
  List.map string_of_list_byte
    [ [x09]; [x0a]; [x0b]; [x0c]; [x0d]; [x20];
      [xc2; xa0];
      [xe1; x9a; x80];
      [xe2; x80; x80]; [xe2; x80; x81]; [xe2; x80; x82]; [xe2; x80; x83];
      [xe2; x80; x84]; [xe2; x80; x85]; [xe2; x80; x86]; [xe2; x80; x87];
      [xe2; x80; x88]; [xe2; x80; x89]; [xe2; x80; x8a];
      [xe2; x80; xa8]; [xe2; x80; xa9]; [xe2; x80; xaf];
      [xe2; x81; x9f];
      [xe3; x80; x80];
      [xef; xbb; xbf] ]%byte.

(** The length of the white-space character [s] starts with, if any. *)
Definition leadingSpace (ws : list string) (s : string) : option nat :=
  option_map String.length (List.find (startsWith s) ws).

(** [s.trimStart()]; every white-space character has at most three
    bytes, so the string left after one is a proper suffix reached in
    at most three steps of the structural recursion. *)
Fixpoint trimStartWith (ws : list string) (s : string) : string :=
  match s with
  | EmptyString => EmptyString
  | String _ s1 =>
      match leadingSpace ws s with
      | Some 1 => trimStartWith ws s1
      | Some 2 => match s1 with
                  | String _ s2 => trimStartWith ws s2
                  | EmptyString => s
                  end
      | Some 3 => match s1 with
                  | String _ (String _ s3) => trimStartWith ws s3
                  | _ => s
                  end
      | _ => s
      end
  end.

Definition trimStart (s : string) : string := trimStartWith whiteSpace s.

Definition trimEnd (s : string) : string :=
  rev (trimStartWith (List.map rev whiteSpace) (rev s)).

(** [s.trim()] *)
Definition trim (s : string) : string := trimEnd (trimStart s).

(** [`${n}`] for a non-negative integer [n] *)
Definition ofNat (n : nat) : string := NilZero.string_of_uint (Nat.to_uint n).

Definition isEmpty (s : string) : bool :=
  match s with
  | EmptyString => true
  | String _ _ => false
  end.

End JsString.


(* ===================================================================== *)
(** ** Buffers and the base64 codec of [Buffer] *)
(* ===================================================================== *)

Definition Buffer : Type := list byte.

(** [buf.subarray(start, end)] *)
Definition subarray (buf : Buffer) (start stop : nat) : Buffer :=
  firstn (stop - start) (skipn start buf).

(** [buf.subarray(start)] *)
Definition subarrayFrom (buf : Buffer) (start : nat) : Buffer :=
  skipn start buf.

(* ===================================================================== *)
(** ** UTF-8 *)
(* ===================================================================== *)

(** A JavaScript string is a sequence of UTF-16 code units.  It is
    modelled by [string], the bytes of its UTF-8 encoding; an unpaired
    surrogate, a code unit from U+D800 to U+DFFF that is not half of a
    pair and that UTF-8 does not encode, is written with the three bytes
    of the generalised encoding, [ED A0..BF 80..BF].  The strings that
    the code concatenates are separated by ASCII literals, and the
    prefixes that it tests and cuts off are ASCII, so that these
    operations are the same on the bytes. *)
Module Utf8.

(** [lo <= b <= hi] *)
Definition between (lo hi : N) (b : byte) : bool :=
  (lo <=? Byte.to_N b)%N && (Byte.to_N b <=? hi)%N.

(** A byte that continues a sequence: [80..BF]. *)
Definition continuation (b : byte) : bool := between 0x80%N 0xBF%N b.

(** The well-formed sequences of UTF-8 (Unicode, table 3-7), by their
    first byte: the number of bytes that follow it and the range of the
    first of them; the later ones are continuation bytes.  [C0], [C1]
    and [F5..FF] start no sequence, and the ranges after [E0], [ED],
    [F0] and [F4] exclude the overlong forms, the surrogates and the
    values past U+10FFFF. *)
Definition lead (b : byte) : option (nat * (N * N)) :=
  if between 0x00%N 0x7F%N b then Some (0, (0x80%N, 0xBF%N))
  else if between 0xC2%N 0xDF%N b then Some (1, (0x80%N, 0xBF%N))
  else if between 0xE0%N 0xE0%N b then Some (2, (0xA0%N, 0xBF%N))
  else if between 0xED%N 0xED%N b then Some (2, (0x80%N, 0x9F%N))
  else if between 0xE1%N 0xEF%N b then Some (2, (0x80%N, 0xBF%N))
  else if between 0xF0%N 0xF0%N b then Some (3, (0x90%N, 0xBF%N))
  else if between 0xF1%N 0xF3%N b then Some (3, (0x80%N, 0xBF%N))
  else if between 0xF4%N 0xF4%N b then Some (3, (0x80%N, 0x8F%N))
  else None.

(** U+FFFD, the replacement character. *)
Definition replacement : Buffer := [xef; xbf; xbd].

(** The decoder in the middle of a sequence: the bytes read so far, the
    number of bytes still to come and the range of the next one. *)
Record pending : Type := {
  seen : Buffer;
  needed : nat;
  lower : N;
  upper : N
}.

(** A byte read between two sequences. *)
Definition start (b : byte) : Buffer * option pending :=
  match lead b with
  | Some (0, _) => ([b], None)
  | Some (n, (lo, hi)) =>
      ([], Some {| seen := [b]; needed := n; lower := lo; upper := hi |})
  | None => (replacement, None)
  end.

(** One step of the decoder (WHATWG Encoding, UTF-8 decoder, with
    errors replaced): a byte that cannot continue the sequence ends it
    with one replacement character and is read again as the start of the
    next. *)
Definition step (st : option pending) (b : byte) : Buffer * option pending :=
  match st with
  | None => start b
  | Some p =>
      if between (lower p) (upper p) b then
        match needed p with
        | 0 | 1 => (seen p ++ [b], None)
        | S n => ([], Some {| seen := seen p ++ [b]; needed := n;
                              lower := 0x80%N; upper := 0xBF%N |})
        end
      else let (out, st') := start b in (replacement ++ out, st')
  end.

(** A sequence cut short by the end of the input is replaced too. *)
Fixpoint decodeFrom (st : option pending) (buf : Buffer) : Buffer :=
  match buf with
  | [] => match st with
          | Some _ => replacement
          | None => []
          end
  | b :: r => let (out, st') := step st b in out ++ decodeFrom st' r
  end.

Definition decode (buf : Buffer) : Buffer := decodeFrom None buf.

(** The encoder, on the bytes that model a string: an unpaired surrogate
    ([ED A0..BF 80..BF]) is encoded as U+FFFD; every other character has
    the bytes that model it. *)
Fixpoint encode (s : Buffer) : Buffer :=
  match s with
  | [] => []
  | b :: r =>
      match r with
      | c1 :: c2 :: r2 =>
          if between 0xED%N 0xED%N b && between 0xA0%N 0xBF%N c1 && continuation c2
          then replacement ++ encode r2
          else b :: encode r
      | _ => b :: encode r
      end
  end.

(** Well-formed UTF-8. *)
Fixpoint valid (buf : Buffer) : bool :=
  match buf with
  | [] => true
  | b :: r =>
      match lead b with
      | Some (0, _) => valid r
      | Some (1, (lo, hi)) =>
          match r with
          | c1 :: r1 => between lo hi c1 && valid r1
          | _ => false
          end
      | Some (2, (lo, hi)) =>
          match r with
          | c1 :: c2 :: r2 => between lo hi c1 && continuation c2 && valid r2
          | _ => false
          end
      | Some (3, (lo, hi)) =>
          match r with
          | c1 :: c2 :: c3 :: r3 =>
              between lo hi c1 && continuation c2 && continuation c3 && valid r3
          | _ => false
          end
      | _ => false
      end
  end.

End Utf8.

(** [Buffer.from(s, 'utf8')], also the bytes that [cipher.update(s,
    'utf8')] enciphers, and [buf.toString('utf8')]. *)
Definition utf8Bytes (s : string) : Buffer := Utf8.encode (list_byte_of_string s).
Definition utf8String (buf : Buffer) : string := string_of_list_byte (Utf8.decode buf).

(** A string without unpaired surrogates: its bytes are well-formed
    UTF-8. *)
Definition wellFormed (s : string) : bool := Utf8.valid (list_byte_of_string s).

Module Base64.

Definition alphabet : list ascii :=
  list_ascii_of_string
    "ABCDEFGHIJKLMNOPQRSTUVWXYZabcdefghijklmnopqrstuvwxyz0123456789+/".

Definition pad : ascii := "="%char.

Definition charOfSextet (n : N) : ascii := nth (N.to_nat n) alphabet pad.

(** The decoder of [Buffer] accepts the standard and the URL-safe
    alphabet and skips every other character. *)
Definition sextetOfChar (c : ascii) : option N :=
  let n := N_of_ascii c in
  if (65 <=? n)%N && (n <=? 90)%N then Some (n - 65)%N
  else if (97 <=? n)%N && (n <=? 122)%N then Some (n - 71)%N
  else if (48 <=? n)%N && (n <=? 57)%N then Some (n + 4)%N
  else if (n =? 43)%N || (n =? 45)%N then Some 62%N
  else if (n =? 47)%N || (n =? 95)%N then Some 63%N
  else None.

Definition byteOfN (n : N) : byte :=
  match Byte.of_N (n mod 256)%N with
  | Some b => b
  | None => x00
  end.

(** Three bytes as four groups of six bits. *)
Definition sextets3 (a b c : N) : N * N * N * N :=
  (a / 4, (a mod 4) * 16 + b / 16, (b mod 16) * 4 + c / 64, c mod 64)%N.

(** [buf.toString('base64')] *)
Fixpoint encode (buf : Buffer) : string :=
  match buf with
  | [] => EmptyString
  | [a] =>
      let '(s0, s1, _, _) := sextets3 (Byte.to_N a) 0%N 0%N in
      String (charOfSextet s0) (String (charOfSextet s1)
        (String pad (String pad EmptyString)))
  | [a; b] =>
      let '(s0, s1, s2, _) := sextets3 (Byte.to_N a) (Byte.to_N b) 0%N in
      String (charOfSextet s0) (String (charOfSextet s1)
        (String (charOfSextet s2) (String pad EmptyString)))
  | a :: b :: c :: rest =>
      let '(s0, s1, s2, s3) := sextets3 (Byte.to_N a) (Byte.to_N b) (Byte.to_N c) in
      String (charOfSextet s0) (String (charOfSextet s1)
        (String (charOfSextet s2) (String (charOfSextet s3) (encode rest))))
  end.

(** The six-bit groups of a base64 text, up to the first padding
    character. *)
Fixpoint sextets (s : string) : list N :=
  match s with
  | EmptyString => []
  | String c s' =>
      if Ascii.eqb c pad then []
      else match sextetOfChar c with
           | Some n => n :: sextets s'
           | None => sextets s'
           end
  end.

Fixpoint bytesOfSextets (l : list N) : Buffer :=
  match l with
  | s0 :: s1 :: s2 :: s3 :: rest =>
      byteOfN (s0 * 4 + s1 / 16)
      :: byteOfN ((s1 mod 16) * 16 + s2 / 4)
      :: byteOfN ((s2 mod 4) * 64 + s3)
      :: bytesOfSextets rest
  | [s0; s1; s2] =>
      [byteOfN (s0 * 4 + s1 / 16); byteOfN ((s1 mod 16) * 16 + s2 / 4)]
  | [s0; s1] => [byteOfN (s0 * 4 + s1 / 16)]
  | _ => []
  end%N.

(** [Buffer.from(s, 'base64')] *)
Definition decode (s : string) : Buffer := bytesOfSextets (sextets s).

End Base64.

(* ===================================================================== *)
(** ** Values of a configuration document *)
(* ===================================================================== *)

(** A JavaScript value as [yaml.load] and [nconf] hand it to the code:
    scalars, arrays, plain objects and, for a timestamp of the YAML file
    (an unquoted [2024-01-01]), a [Date].  An object is the list of its
    entries, in the order of [Object.entries]; the keys of the entries of
    one object are pairwise distinct.  A [Date] is an object too: it
    carries its time value, in milliseconds, and its own enumerable
    properties, of which [yaml.load] gives it none and which only an
    assignment through [config.set] can add.  Numbers are never inspected
    by the code and are kept as integers.  The values of explicit YAML
    tags ([!!binary], [!!set], [!!omap], [!!pairs]) are not part of the
    model. *)
#[local] Set Warnings "-register-all".

Inductive node : Type :=
| Undefined
| Null
| Boolean (b : bool)
| Number (n : Z)
| Str (s : string)
| Arr (items : list node)
| Obj (entries : list (string * node))
| Date (time : Z) (entries : list (string * node)).

(** A string that may be absent ([undefined]): an argument that a caller
    may omit, or a variable of [process.env]. *)
Definition valueOf (o : option string) : node :=
  match o with
  | Some s => Str s
  | None => Undefined
  end.

(** JavaScript truthiness, [!!v]. *)
Definition truthy (v : node) : bool :=
  match v with
  | Undefined | Null => false
  | Boolean b => b
  | Number n => negb (Z.eqb n 0)
  | Str s => negb (JsString.isEmpty s)
  | Arr _ | Obj _ | Date _ _ => true
  end.

Definition stringOf (o : option string) : string :=
  match o with
  | Some s => s
  | None => EmptyString
  end.

(* ===================================================================== *)
(** ** Constants of [crypto.js] *)
(* ===================================================================== *)

Definition ALGORITHM : string := "aes-256-gcm".
Definition KEY_LENGTH : nat := 32.
Definition IV_LENGTH : nat := 12.
Definition SALT_LENGTH : nat := 32.
Definition AUTH_TAG_LENGTH : nat := 16.
Definition PBKDF2_ITERATIONS : N := 100000.
Definition PBKDF2_DIGEST : string := "sha256".
Definition ENCRYPTED_PREFIX : string := "encrypted:v1:".

(** [isEncrypted(text)]: [typeof text === 'string' &&
    text.startsWith(ENCRYPTED_PREFIX)] *)
Definition isEncrypted (text : node) : bool :=
  match text with
  | Str s => JsString.startsWith s ENCRYPTED_PREFIX
  | _ => false
  end.

(* ===================================================================== *)
(** ** The sensitivity predicate on paths *)
(* ===================================================================== *)

(** The regular expressions of [sensitivePatterns] are literals, some
    anchored at the end of the input: [/lit/] and [/lit$/]. *)
Inductive RegExp : Type :=
| Containing (literal : string)
| Ending (literal : string).

(** [pattern.test(s)] *)
Definition test (pattern : RegExp) (s : string) : bool :=
  match pattern with
  | Containing literal => JsString.includes s literal
  | Ending literal => JsString.endsWith s literal
  end.

Definition sensitivePatterns : list RegExp :=
  [ Containing ".credentials.";
    Ending ".credentials";
    Ending ".password";
    Ending ".tokenApi";
    Ending ".token";
    Ending ".secret";
    Ending ".apiKey" ].

(** [sensitivePatterns.some((pattern) => pattern.test(path))] *)
Definition isSensitive (path : string) : bool :=
  existsb (fun pattern => test pattern path) sensitivePatterns.

(** [`${path}[${index}]`] *)
Definition indexPath (path : string) (index : nat) : string :=
  path ++ "[" ++ JsString.ofNat index ++ "]".

(** [path ? `${path}.${key}` : key] *)
Definition keyPath (path key : string) : string :=
  if JsString.isEmpty path then key else path ++ "." ++ key.

(** [isSensitive && obj.trim() !== ''] *)
Definition wantsEncryption (path s : string) : bool :=
  isSensitive path && negb (JsString.isEmpty (JsString.trim s)).

(* ===================================================================== *)
(** ** [listSensitiveFields] of [cli-encrypt.js] *)
(* ===================================================================== *)

(** [items.forEach((item, index) => body(item, index))] on a state that
    the body updates, here the array [fields]. *)
Definition forEachIndexed {A S} (body : nat -> A -> S -> S)
  : nat -> list A -> S -> S :=
  fix go (index : nat) (l : list A) (st : S) : S :=
    match l with
    | [] => st
    | item :: r => go (Datatypes.S index) r (body index item st)
    end.

(** The function pushes onto [fields] and returns it; it assigns to
    nothing else, in particular to no part of [obj]. *)
Fixpoint listSensitiveFields (obj : node) (path : string) (fields : list string)
  {struct obj} : list string :=
  match obj with
  | Undefined | Null => fields
  | Str s =>
      if wantsEncryption path s && negb (isEncrypted obj)
      then fields ++ [path]
      else fields
  | Arr items =>
      forEachIndexed
        (fun index item acc => listSensitiveFields item (indexPath path index) acc)
        0 items fields
  | Obj entries | Date _ entries =>
      forEachIndexed
        (fun _ entry acc =>
           listSensitiveFields (snd entry) (keyPath path (fst entry)) acc)
        0 entries fields
  | Boolean _ | Number _ => fields
  end.

(** The concatenation of [f index x x'] over the items of two lists at
    the same position. *)
Definition concatZip {A} (f : nat -> A -> A -> list string)
  : nat -> list A -> list A -> list string :=
  fix go (index : nat) (l l' : list A) : list string :=
    match l, l' with
    | x :: r, x' :: r' => f index x x' ++ go (S index) r r'
    | _, _ => []
    end.

(** The paths of the string leaves of [before] that [after], a document
    of the same shape, holds a different string at: the leaves that a
    rewriting pass from [before] to [after] replaced.  This is the
    specification that [listSensitiveFields] is compared with. *)
Fixpoint replacedPaths (before after : node) (path : string) {struct before}
  : list string :=
  match before, after with
  | Str s, Str s' => if String.eqb s s' then [] else [path]
  | Arr items, Arr items' =>
      concatZip (fun index item item' =>
                   replacedPaths item item' (indexPath path index))
                0 items items'
  | Obj entries, Obj entries' | Date _ entries, Obj entries' =>
      concatZip (fun _ entry entry' =>
                   replacedPaths (snd entry) (snd entry') (keyPath path (fst entry)))
                0 entries entries'
  | _, _ => []
  end.

(* ===================================================================== *)
(** ** [hasEncryptedValues] of [load-config.js] *)
(* ===================================================================== *)

Fixpoint hasEncryptedValues (obj : node) : bool :=
  match obj with
  | Undefined | Null => false
  | Str _ => isEncrypted obj
  | Arr items => existsb hasEncryptedValues items
  | Obj entries | Date _ entries =>
      existsb (fun entry => hasEncryptedValues (snd entry)) entries
  | Boolean _ | Number _ => false
  end.

(* ===================================================================== *)
(** ** The configuration provider ([nconf]) *)
(* ===================================================================== *)

(** The provider is modelled as the single document that [config.get]
    reads and [config.set] writes, once [loadConfig] has installed the
    environment, file and default layers.  A key ['a:b:c'] is the list of
    its segments; the segment of an array element is its index in
    decimal. *)
Module Config.

Definition key : Type := list string.

(** The index that a property name denotes on an array: the canonical
    decimal numerals only. *)
Definition arrayIndex (name : string) : option nat :=
  match NilZero.uint_of_string name with
  | Some d =>
      let i := Nat.of_uint d in
      if String.eqb (JsString.ofNat i) name then Some i else None
  | None => None
  end.

Fixpoint lookup (name : string) (entries : list (string * node)) : option node :=
  match entries with
  | [] => None
  | (k, v) :: r => if String.eqb k name then Some v else lookup name r
  end.

(** [Object.hasOwnProperty.call(target, name) ? target[name] : undefined]
    on an object or an array; [None] when the property is not there. *)
Definition ownProperty (target : node) (name : string) : option node :=
  match target with
  | Obj entries | Date _ entries => lookup name entries
  | Arr items =>
      match arrayIndex name with
      | Some i => nth_error items i
      | None => None
      end
  | _ => None
  end.

(** [config.get(key)]: walk down the segments, [undefined] as soon as
    one is missing or the value reached is not an object. *)
Fixpoint get (target : node) (path : key) : node :=
  match path with
  | [] => target
  | name :: rest =>
      match ownProperty target name with
      | Some child => get child rest
      | None => Undefined
      end
  end.

Fixpoint upsert (name : string) (value : node) (entries : list (string * node))
  : list (string * node) :=
  match entries with
  | [] => [(name, value)]
  | (k, v) :: r =>
      if String.eqb k name then (k, value) :: r
      else (k, v) :: upsert name value r
  end.

(** [items[i] = value], which lengthens the array when [i] is past its
    end. *)
Fixpoint assignIndex (i : nat) (value : node) (items : list node) : list node :=
  match i, items with
  | O, [] => [value]
  | O, _ :: r => value :: r
  | S i', [] => Undefined :: assignIndex i' value []
  | S i', x :: r => x :: assignIndex i' value r
  end.

(** [target[name] = value] on an object or an array.  A property of an
    array that is not an index is not part of the document model and the
    assignment leaves the array as it is. *)
Definition assign (target : node) (name : string) (value : node) : node :=
  match target with
  | Obj entries => Obj (upsert name value entries)
  | Date time entries => Date time (upsert name value entries)
  | Arr items =>
      match arrayIndex name with
      | Some i => Arr (assignIndex i value items)
      | None => target
      end
  | _ => target
  end.

(** [typeof v === 'object'] for a truthy [v] *)
Definition isObject (v : node) : bool :=
  match v with
  | Arr _ | Obj _ | Date _ _ => true
  | _ => false
  end.

(** [config.set(key, value)], the loop of the in-memory store: every
    segment but the last is descended into, after the value there is
    replaced by [{}] unless it is a truthy object ([objectAt]); the last
    segment is assigned.  With the empty key the store itself is
    replaced, by an object only. *)
Definition objectAt (target : node) (name : string) : node :=
  match ownProperty target name with
  | Some c => if isObject c then c else Obj []
  | None => Obj []
  end.

Fixpoint set (target : node) (path : key) (value : node) : node :=
  match path with
  | [] => if isObject value then value else target
  | [name] => assign target name value
  | name :: rest => assign target name (set (objectAt target name) rest value)
  end.

(** [config.required(keys)] *)
Definition required (keys : list key) (cfg : node) : result unit :=
  let missing :=
    filter (fun k => match get cfg k with Undefined => true | _ => false end) keys in
  match missing with
  | [] => Ok tt
  | _ =>
      Throw ("Missing required keys: "
             ++ String.concat ", " (List.map (String.concat ":") missing))
  end.

End Config.

(* ===================================================================== *)
(** ** [applyCredentialEnvOverrides] of [load-config.js] *)
(* ===================================================================== *)

(** [process.env]: the value of a variable, when it is set. *)
Definition Env : Type := string -> option string.

(** [if (value) config.set(key, value)] *)
Definition setIfTruthy (k : Config.key) (value : option string) (cfg : node) : node :=
  if truthy (valueOf value) then Config.set cfg k (Str (stringOf value)) else cfg.

Definition bankVariable (bankIndex : nat) (field : string) : string :=
  "BANK_" ++ JsString.ofNat bankIndex ++ "_" ++ field.

Definition creditCardVariable (bankIndex ccIndex : nat) (field : string) : string :=
  "BANK_" ++ JsString.ofNat bankIndex ++ "_CC_" ++ JsString.ofNat ccIndex ++ "_" ++ field.

Definition bankKey (bankIndex : nat) (field : string) : Config.key :=
  ["banks"; JsString.ofNat bankIndex; "credentials"; field].

Definition creditCardKey (bankIndex ccIndex : nat) (field : string) : Config.key :=
  ["banks"; JsString.ofNat bankIndex; "creditCards"; JsString.ofNat ccIndex;
   "credentials"; field].

(** The four overrides of the bank at [bankIndex]. *)
Definition overrideBank (env : Env) (bankIndex : nat) (cfg : node) : node :=
  let bankUsername := env (bankVariable bankIndex "USERNAME") in
  let bankPassword := env (bankVariable bankIndex "PASSWORD") in
  let bankId := env (bankVariable bankIndex "ID") in
  let bankUserCode := env (bankVariable bankIndex "USERCODE") in
  let cfg := setIfTruthy (bankKey bankIndex "username") bankUsername cfg in
  let cfg := setIfTruthy (bankKey bankIndex "password") bankPassword cfg in
  let cfg := setIfTruthy (bankKey bankIndex "id") bankId cfg in
  setIfTruthy (bankKey bankIndex "userCode") bankUserCode cfg.

(** The body of [creditCards.forEach((cc, ccIndex) => ...)]. *)
Definition overrideCreditCard (env : Env) (bankIndex ccIndex : nat) (cfg : node) : node :=
  let ccUsername := env (creditCardVariable bankIndex ccIndex "USERNAME") in
  let ccPassword := env (creditCardVariable bankIndex ccIndex "PASSWORD") in
  let ccId := env (creditCardVariable bankIndex ccIndex "ID") in
  let ccCard6Digits := env (creditCardVariable bankIndex ccIndex "CARD6DIGITS") in
  let cfg := setIfTruthy (creditCardKey bankIndex ccIndex "username") ccUsername cfg in
  let cfg := setIfTruthy (creditCardKey bankIndex ccIndex "password") ccPassword cfg in
  let cfg := setIfTruthy (creditCardKey bankIndex ccIndex "id") ccId cfg in
  setIfTruthy (creditCardKey bankIndex ccIndex "card6Digits") ccCard6Digits cfg.

(** [value.forEach(...)] exists on arrays only. *)
Definition notAFunction (what : string) : string := what ++ ".forEach is not a function".

(** [bank.creditCards || []], then the list to iterate over; reading a
    property of [undefined] or [null] throws. *)
Definition creditCardsOf (bank : node) : result (list node) :=
  match bank with
  | Undefined => Throw "Cannot read properties of undefined (reading 'creditCards')"
  | Null => Throw "Cannot read properties of null (reading 'creditCards')"
  | Obj entries | Date _ entries =>
      match Config.lookup "creditCards" entries with
      | Some creditCards =>
          if truthy creditCards then
            match creditCards with
            | Arr ccs => Ok ccs
            | _ => Throw (notAFunction "creditCards")
            end
          else Ok []
      | None => Ok []
      end
  | _ => Ok []
  end.

(** The body of [banks.forEach((bank, bankIndex) => ...)]; [bank] is the
    element of the array that [config.get('banks')] returned. *)
Definition overrideEntry (env : Env) (bankIndex : nat) (bank : node) (cfg : node)
  : result node :=
  let cfg := overrideBank env bankIndex cfg in
  bindR (creditCardsOf bank) (fun creditCards =>
    Ok (forEachIndexed (fun ccIndex _ c => overrideCreditCard env bankIndex ccIndex c)
          0 creditCards cfg)).

(** [forEach] with a body that may throw: the first exception ends the
    loop. *)
Definition forEachThrowing {A S} (body : nat -> A -> S -> result S)
  : nat -> list A -> S -> result S :=
  fix go (index : nat) (l : list A) (st : S) : result S :=
    match l with
    | [] => Ok st
    | item :: r => bindR (body index item st) (go (Datatypes.S index) r)
    end.

Definition applyCredentialEnvOverrides (env : Env) (cfg : node) : result node :=
  let banks := Config.get cfg ["banks"] in
  if truthy banks then
    match banks with
    | Arr entries => forEachThrowing (overrideEntry env) 0 entries cfg
    | _ => Throw (notAFunction "banks")
    end
  else Ok cfg.

(* ===================================================================== *)
(** ** [countEncryptedFields] of [cli-encrypt.js] *)
(* ===================================================================== *)

(** The counters [{ encrypted, total }]. *)
Module Counts.

Record t : Type := { encrypted : nat; total : nat }.

End Counts.

(** The default of the parameter [count]: [{ encrypted: 0, total: 0 }]. *)
Definition noCount : Counts.t := {| Counts.encrypted := 0; Counts.total := 0 |}.

(** Every call copies [count] into a fresh [result]; the loops copy the
    counters of the recursive call back into [result].  Only
    [result.encrypted] is ever incremented. *)
Fixpoint countEncryptedFields (obj : node) (count : Counts.t) {struct obj} : Counts.t :=
  let result := {| Counts.encrypted := Counts.encrypted count;
                   Counts.total := Counts.total count |} in
  match obj with
  | Undefined | Null => result
  | Str _ =>
      if isEncrypted obj
      then {| Counts.encrypted := Counts.encrypted result + 1;
              Counts.total := Counts.total result |}
      else result
  | Arr items =>
      forEachIndexed
        (fun _ item result =>
           let next := countEncryptedFields item result in
           {| Counts.encrypted := Counts.encrypted next;
              Counts.total := Counts.total next |})
        0 items result
  | Obj entries | Date _ entries =>
      forEachIndexed
        (fun _ entry result =>
           let next := countEncryptedFields (snd entry) result in
           {| Counts.encrypted := Counts.encrypted next;
              Counts.total := Counts.total next |})
        0 entries result
  | Boolean _ | Number _ => result
  end.

(* ===================================================================== *)
(** ** The command line of [cli-encrypt.js] *)
(* ===================================================================== *)

Definition HELP_TEXT : string := "
Israeli Bank Firefly Importer - Configuration Encryption Tool

This tool encrypts sensitive credentials in your configuration file using AES-256-GCM encryption.

USAGE:
  israeli-bank-firefly-encrypt [options]

OPTIONS:
  --input, -i <file>     Input configuration file (default: config.yaml)
  --output, -o <file>    Output encrypted file (default: config.encrypted.yaml)
  --decrypt, -d          Decrypt instead of encrypt (for verification)
  --encrypt-value, -e    Encrypt a single value (interactive)
  --help, -h             Show this help message

EXAMPLES:
  # Encrypt a config file
  israeli-bank-firefly-encrypt -i config.yaml -o config.encrypted.yaml

  # Encrypt a single value (for manual insertion)
  israeli-bank-firefly-encrypt --encrypt-value

  # Verify decryption works (prints decrypted values - use carefully!)
  israeli-bank-firefly-encrypt -i config.encrypted.yaml --decrypt

SECURITY NOTES:
  - The master password is NEVER stored - you must remember it
  - Use a strong password (16+ characters recommended)
  - Keep the encrypted config file; delete the plaintext one
  - Set MASTER_PASSWORD environment variable for automated runs
".

(** The object [options] of [parseArgs]; [input] and [output] are
    [undefined] when [--input] or [--output] is the last argument. *)
Module Options.

Record t : Type := {
  input : option string;
  output : option string;
  decrypt : bool;
  encryptValue : bool;
  help : bool
}.

Definition initial : t :=
  {| input := Some "config.yaml";
     output := Some "config.encrypted.yaml";
     decrypt := false;
     encryptValue := false;
     help := false |}.

Definition withInput (value : option string) (o : t) : t :=
  {| input := value; output := output o; decrypt := decrypt o;
     encryptValue := encryptValue o; help := help o |}.

Definition withOutput (value : option string) (o : t) : t :=
  {| input := input o; output := value; decrypt := decrypt o;
     encryptValue := encryptValue o; help := help o |}.

Definition withDecrypt (o : t) : t :=
  {| input := input o; output := output o; decrypt := true;
     encryptValue := encryptValue o; help := help o |}.

Definition withEncryptValue (o : t) : t :=
  {| input := input o; output := output o; decrypt := decrypt o;
     encryptValue := true; help := help o |}.

Definition withHelp (o : t) : t :=
  {| input := input o; output := output o; decrypt := decrypt o;
     encryptValue := encryptValue o; help := true |}.

End Options.

(** What [parseArgs] ends with: the options, or the argument that it
    reports as an unknown option before it calls [process.exit(1)]. *)
Inductive Parsed : Type :=
| Parsed_options (options : Options.t)
| Parsed_unknown (arg : string).

(** The loop of [parseArgs], from the argument at [i] on; an argument
    that follows [--input], [-i], [--output] or [-o] is taken as the
    value and skipped by [i += 1]. *)
Fixpoint parseFrom (args : list string) (options : Options.t) {struct args} : Parsed :=
  match args with
  | [] => Parsed_options options
  | arg :: rest =>
      if String.eqb arg "--input" || String.eqb arg "-i" then
        match rest with
        | [] => Parsed_options (Options.withInput None options)
        | value :: rest' => parseFrom rest' (Options.withInput (Some value) options)
        end
      else if String.eqb arg "--output" || String.eqb arg "-o" then
        match rest with
        | [] => Parsed_options (Options.withOutput None options)
        | value :: rest' => parseFrom rest' (Options.withOutput (Some value) options)
        end
      else if String.eqb arg "--decrypt" || String.eqb arg "-d" then
        parseFrom rest (Options.withDecrypt options)
      else if String.eqb arg "--encrypt-value" || String.eqb arg "-e" then
        parseFrom rest (Options.withEncryptValue options)
      else if String.eqb arg "--help" || String.eqb arg "-h" then
        parseFrom rest (Options.withHelp options)
      else if JsString.startsWith arg "-" then Parsed_unknown arg
      else parseFrom rest options
  end.

(** [parseArgs()], for [process.argv] equal to [argv]. *)
Definition parseArgs (argv : list string) : Parsed :=
  parseFrom (skipn 2 argv) Options.initial.

(** [s.length]: the number of UTF-16 code units of the string whose
    UTF-8 bytes are [s]; a continuation byte adds nothing, the first
    byte of a four-byte sequence stands for a surrogate pair. *)
Definition utf16Units (c : ascii) : nat :=
  let n := nat_of_ascii c in
  if ((128 <=? n) && (n <? 192))%nat then 0
  else if (240 <=? n)%nat then 2
  else 1.

Fixpoint utf16Length (s : string) : nat :=
  match s with
  | EmptyString => 0
  | String c s' => utf16Units c + utf16Length s'
  end.

(** [s.toLowerCase()] on the letters A to Z; the bytes of the other
    characters are kept.  The code compares the result with ['y'] and
    ['timeouterror'] and searches it for ['timeout']: the characters
    outside ASCII that lower-case to an ASCII letter are U+212A (to k)
    and U+0130 (to i followed by U+0307), which can make none of these
    tests succeed or fail. *)
Definition lowerCase (c : ascii) : ascii :=
  let n := nat_of_ascii c in
  if ((65 <=? n) && (n <=? 90))%nat then ascii_of_nat (n + 32) else c.

Fixpoint toLowerCase (s : string) : string :=
  match s with
  | EmptyString => EmptyString
  | String c s' => String (lowerCase c) (toLowerCase s')
  end.

(** A line printed by [console.log] or by [console.error]. *)
Inductive Line : Type :=
| Log (text : string)
| Error (text : string).

(** The file system and the YAML library, as the tool calls them:
    [readFile(path, 'utf8')], [yaml.load(content)], [yaml.dump(value,
    options)] with the options of the tool, and [writeFile(path, content,
    'utf8')]; each may throw.  A path is absent when [--input] or
    [--output] was the last argument. *)
Record Platform : Type := {
  readFile : option string -> result string;
  yamlLoad : string -> result node;
  yamlDump : node -> result string;
  writeFile : option string -> string -> result unit
}.

(* ===================================================================== *)
(** ** [logConfigSnapshot] of [index.js] *)
(* ===================================================================== *)

(** [value.name], for the names that the code reads ([type],
    [startDate], [timeout], [creditCards], [credentials], [name],
    [lastImport], [parentBankIndex]): none of them is a property of a
    string, a number, a boolean or an array, or an inherited property of
    a [Date]; reading a property of [undefined] or [null] throws. *)
Definition property (value : node) (name : string) : result node :=
  match value with
  | Undefined =>
      Throw ("Cannot read properties of undefined (reading '" ++ name ++ "')")
  | Null => Throw ("Cannot read properties of null (reading '" ++ name ++ "')")
  | Obj entries | Date _ entries =>
      Ok match Config.lookup name entries with
         | Some v => v
         | None => Undefined
         end
  | _ => Ok Undefined
  end.

(** [value ?? null] *)
Definition orNull (value : node) : node :=
  match value with
  | Undefined | Null => Null
  | _ => value
  end.

(** [value || fallback] *)
Definition orElse (value fallback : node) : node :=
  if truthy value then value else fallback.

(** [items.map((item, index) => f(item, index))] with a callback that
    may throw. *)
Definition mapThrowing {A B} (f : nat -> A -> result B) : nat -> list A -> result (list B) :=
  fix go (index : nat) (l : list A) : result (list B) :=
    match l with
    | [] => Ok []
    | item :: r =>
        bindR (f index item) (fun y =>
        bindR (go (S index) r) (fun ys => Ok (y :: ys)))
    end.

(** [value.map(...)] exists on arrays only. *)
Definition itemsOf (what : string) (value : node) : result (list node) :=
  match value with
  | Arr items => Ok items
  | _ => Throw (what ++ ".map is not a function")
  end.

(** The object built for a credit card [cc] at index [j]. *)
Definition cardSnapshot (j : nat) (cc : node) : result node :=
  bindR (property cc "type") (fun type =>
  bindR (property cc "startDate") (fun startDate =>
  bindR (property cc "timeout") (fun timeout =>
    Ok (Obj [ ("index", Number (Z.of_nat j));
              ("type", type);
              ("startDate", orNull startDate);
              ("timeout", orNull timeout) ])))).

(** The object built for a bank [b] at index [i]. *)
Definition bankSnapshot (i : nat) (b : node) : result node :=
  bindR (property b "type") (fun type =>
  bindR (property b "startDate") (fun startDate =>
  bindR (property b "timeout") (fun timeout =>
  bindR (property b "creditCards") (fun creditCards =>
  bindR (itemsOf "(b.creditCards || [])" (orElse creditCards (Arr []))) (fun ccs =>
  bindR (mapThrowing cardSnapshot 0 ccs) (fun cards =>
    Ok (Obj [ ("index", Number (Z.of_nat i));
              ("type", type);
              ("startDate", orNull startDate);
              ("timeout", orNull timeout);
              ("creditCards", Arr cards) ]))))))).

(** [logConfigSnapshot()]: the object that is handed to the logger. *)
Definition logConfigSnapshot (env : Env) (cfg : node) : result node :=
  let configFile := orElse (valueOf (env "CONFIG_FILE")) (Str "./config.yaml") in
  let scraper := orElse (Config.get cfg ["scraper"]) (Obj []) in
  let banks := orElse (Config.get cfg ["banks"]) (Arr []) in
  bindR (property scraper "startDate") (fun scraperStartDate =>
  bindR (property scraper "timeout") (fun scraperTimeout =>
  bindR (itemsOf "banks" banks) (fun entries =>
  bindR (mapThrowing bankSnapshot 0 entries) (fun snapshots =>
    Ok (Obj [ ("configFile", configFile);
              ("scraperStartDate", orNull scraperStartDate);
              ("scraperTimeout", orNull scraperTimeout);
              ("banks", Arr snapshots) ]))))).

(* ===================================================================== *)
(** ** [importer/scrapper.js]: the accounts to scrape *)
(* ===================================================================== *)

(** The [moment] library, as the code uses it: a moment is the instant
    it stands for, in milliseconds, when it is valid; [moment(value)]
    parses a value, [moment()] is the present instant, and
    [subtract(n, 'days')] and [subtract(n, 'years')] move a valid
    moment. *)
Record Moment : Type := {
  instant : node -> option Z;
  present : Z;
  subtractDays : nat -> Z -> Z;
  subtractYears : nat -> Z -> Z
}.

(** [a.isBefore(b)], which is false when either moment is invalid. *)
Definition isBefore (a b : option Z) : bool :=
  match a, b with
  | Some x, Some y => Z.ltb x y
  | _, _ => false
  end.

(** [moment.isValid()] *)
Definition isValid (a : option Z) : bool :=
  match a with
  | Some _ => true
  | None => false
  end.

(** [if (start) { const m = moment(start); if (m.isValid() &&
    fallback.isBefore(m)) fallback = m; }] *)
Definition noEarlierThan (library : Moment) (start : node) (fallback : option Z)
  : option Z :=
  if truthy start then
    let startMoment := instant library start in
    if isValid startMoment && isBefore fallback startMoment then startMoment
    else fallback
  else fallback.

(** [getScrapFrom(account)]; the debug message is not modelled. *)
Definition getScrapFrom (library : Moment) (cfg : node) (account : node)
  : result (option Z) :=
  bindR (property account "lastImport") (fun lastImport =>
    let fallback :=
      if truthy lastImport
      then option_map (subtractDays library 7) (instant library lastImport)
      else Some (subtractYears library 5 (present library)) in
    let configuredStart := Config.get cfg ["scraper"; "startDate"] in
    let fallback := noEarlierThan library configuredStart fallback in
    bindR (property account "startDate") (fun startDate =>
      Ok (noEarlierThan library startDate fallback))).

(** [toUserOptions(item, index)]; [index] is absent when the item is a
    bank. *)
Definition toUserOptions (item : node) (index : option nat) : result node :=
  bindR (property item "type") (fun type =>
  bindR (property item "credentials") (fun credentials =>
  bindR (property item "name") (fun name =>
  bindR (property item "startDate") (fun startDate =>
  bindR (property item "timeout") (fun timeout =>
    Ok (Obj ([ ("type", type); ("credentials", credentials) ]
             ++ match index with
                | Some i => [ ("parentBankIndex", Number (Z.of_nat i)) ]
                | None => []
                end
             ++ [ ("name", name); ("startDate", startDate); ("timeout", timeout) ]))))))).

(** The constant [accountDetails] of [enrichAccount(accounts,
    currentAccount)]. *)
Definition accountDetails (currentAccount : node) : result node :=
  bindR (property currentAccount "parentBankIndex") (fun parentBankIndex =>
  bindR (property currentAccount "type") (fun type =>
    match parentBankIndex with
    | Undefined => Ok (Obj [ ("type", type); ("kind", Str "bank") ])
    | _ => Ok (Obj [ ("type", type); ("kind", Str "credit-card") ])
    end)).

(** [items.flatMap((item, index) => f(item, index))] with a callback
    that may throw. *)
Definition flatMapThrowing {A B} (f : nat -> A -> result (list B))
  : nat -> list A -> result (list B) :=
  fix go (index : nat) (l : list A) : result (list B) :=
    match l with
    | [] => Ok []
    | item :: r =>
        bindR (f index item) (fun ys =>
        bindR (go (S index) r) (fun rest => Ok (ys ++ rest)))
    end.

(** The callback of [flatMap] in [getFlatUsers]: the bank, then its
    credit cards. *)
Definition usersOfBank (i : nat) (bank : node) : result (list node) :=
  bindR (toUserOptions bank None) (fun user =>
  bindR (property bank "creditCards") (fun creditCards =>
  bindR (itemsOf "(bank.creditCards || [])" (orElse creditCards (Arr []))) (fun ccs =>
  bindR (mapThrowing (fun _ cc => toUserOptions cc (Some i)) 0 ccs) (fun cards =>
    Ok (user :: cards))))).

(** [!useOnlyAccounts || useOnlyAccounts.includes(x.name)], for a list
    of account names. *)
Definition selected (useOnlyAccounts : option (list string)) (x : node) : bool :=
  match useOnlyAccounts with
  | None => true
  | Some names =>
      match Config.get x ["name"] with
      | Str name => existsb (String.eqb name) names
      | _ => false
      end
  end.

(** [{...x, name: value}] for an object [x]. *)
Definition withProperty (name : string) (value : node) (x : node) : node :=
  match x with
  | Obj entries | Date _ entries => Obj (Config.upsert name value entries)
  | _ => x
  end.

(** An element of the array that [getFlatUsers] returns: the object
    with the property [scrapFrom], a moment, kept beside it. *)
Record FlatUser : Type := { userOptions : node; scrapFrom : option Z }.

(** [getFlatUsers(useOnlyAccounts, state, since)]; [getLastImport] is
    the function of [last-import-helper.js] applied to [state] and
    [since]. *)
Definition getFlatUsers (library : Moment) (getLastImport : node -> node) (cfg : node)
  (useOnlyAccounts : option (list string)) : result (list FlatUser) :=
  let banks := Config.get cfg ["banks"] in
  if negb (truthy banks) then Throw "No banks in config"
  else
    match banks with
    | Arr entries =>
        bindR (flatMapThrowing usersOfBank 0 entries) (fun users =>
          let users := filter (selected useOnlyAccounts) users in
          let users := List.map (fun x => withProperty "lastImport" (getLastImport x) x)
                                users in
          allR (fun x => mapR (fun from => {| userOptions := x; scrapFrom := from |})
                              (getScrapFrom library cfg x))
               users)
    | _ => Throw "config.get(...).flatMap is not a function"
    end.

(* ===================================================================== *)
(** ** The messages and the required keys of [loadConfig] *)
(* ===================================================================== *)

Definition LF : string := String (ascii_of_nat 10) EmptyString.

Definition MASTER_PASSWORD_REQUIRED : string :=
  "Encrypted credentials detected but MASTER_PASSWORD environment variable is not set."
  ++ LF ++ "Please set MASTER_PASSWORD to decrypt credentials.".

Definition failedToDecrypt (message : string) : string :=
  "Failed to decrypt credentials: " ++ message
  ++ LF ++ "Please verify your MASTER_PASSWORD is correct.".

Definition requiredKeys : list Config.key :=
  [ ["firefly"]; ["firefly"; "baseUrl"]; ["firefly"; "tokenApi"]; ["banks"] ].

(* ===================================================================== *)
(** ** The configuration as an object graph *)
(* ===================================================================== *)

(** [yaml.load] gives to every alias ([*a]) of the file the object of
    its anchor ([&a]), so that several keys of the configuration may
    lead to one object.  [config.set] assigns into the object that its
    key leads to, and what it writes is then read under every key that
    leads there.  The functions of [load-config.js] are embedded a
    second time here, over this graph and with the store of the
    environment before it; over a document without aliases, and with no
    variable of [envMap] set, they are the functions over [node] (lemma
    [loadConfig_unshared]).

    The store of the provider is the value at its root and a table of
    the objects that are shared.  A value of the graph is
    - [Owned t]: a part of the document in which nothing is shared, as
      the tree [t];
    - an array, an object or a [Date] that one place holds and whose
      parts may be shared;
    - [Shared a]: the object in cell [a] of the table.
    The object of a cell refers to the cells before it only: an alias
    follows its anchor in the file, where the object of the anchor is
    complete.  A recursive alias, which gives a cyclic object on which
    the traversals of the code do not return, is outside the model. *)
Module Live.

Inductive value : Type :=
| Owned (tree : node)
| Array (items : list value)
| Object (entries : list (string * value))
| DateObject (time : Z) (entries : list (string * value))
| Shared (a : nat).

Record store : Type := { cells : list value; top : value }.

(** The store of a document without aliases. *)
Definition unshared (cfg : node) : store := {| cells := []; top := Owned cfg |}.

(** The tree that a value unfolds to, given the tree of every cell. *)
Definition unfold (shared : nat -> node) : value -> node :=
  fix go (v : value) : node :=
    match v with
    | Owned t => t
    | Array items => Arr (List.map go items)
    | Object entries => Obj (List.map (fun entry => (fst entry, go (snd entry))) entries)
    | DateObject time entries =>
        Date time (List.map (fun entry => (fst entry, go (snd entry))) entries)
    | Shared a => shared a
    end.

(** The tree of cell [a]; its object sees the cells before it.  The
    number of cells bounds the number of references that are followed
    one inside the other. *)
Fixpoint readCell (fuel : nat) (cells : list value) (a : nat) {struct fuel} : node :=
  match fuel with
  | O => Undefined
  | S fuel' =>
      match nth_error cells a with
      | Some c => unfold (readCell fuel' (firstn a cells)) c
      | None => Undefined
      end
  end.

(** What the code sees when it reads a value: the tree below it. *)
Definition read (cells : list value) (v : value) : node :=
  unfold (readCell (length cells) cells) v.

Fixpoint lookup (name : string) (entries : list (string * value)) : option value :=
  match entries with
  | [] => None
  | (k, v) :: r => if String.eqb k name then Some v else lookup name r
  end.

Fixpoint upsert (name : string) (child : value) (entries : list (string * value))
  : list (string * value) :=
  match entries with
  | [] => [(name, child)]
  | (k, v) :: r =>
      if String.eqb k name then (k, child) :: r
      else (k, v) :: upsert name child r
  end.

Fixpoint assignIndex (i : nat) (child : value) (items : list value) : list value :=
  match i, items with
  | O, [] => [child]
  | O, _ :: r => child :: r
  | S i', [] => Owned Undefined :: assignIndex i' child []
  | S i', x :: r => x :: assignIndex i' child r
  end.

(** The object that a value stands for, and the cells that it sees. *)
Definition deref (cells : list value) (v : value) : list value * value :=
  match v with
  | Shared a =>
      match nth_error cells a with
      | Some c => (firstn a cells, c)
      | None => (cells, Owned Undefined)
      end
  | _ => (cells, v)
  end.

(** [target[name]], when [target] has the property. *)
Definition ownProperty (target : value) (name : string) : option value :=
  match target with
  | Owned t => option_map Owned (Config.ownProperty t name)
  | Object entries | DateObject _ entries => lookup name entries
  | Array items =>
      match Config.arrayIndex name with
      | Some i => nth_error items i
      | None => None
      end
  | Shared _ => None
  end.

(** [get(key)] of the store of the file, as the tree below the value
    that the key leads to. *)
Fixpoint getFrom (cells : list value) (v : value) (path : Config.key) : node :=
  match path with
  | [] => read cells v
  | name :: rest =>
      let (view, target) := deref cells v in
      match ownProperty target name with
      | Some child => getFrom view child rest
      | None => Undefined
      end
  end.

Definition stored (st : store) (key : Config.key) : node :=
  getFrom (cells st) (top st) key.

(** [typeof v === 'object'] for a truthy [v] *)
Definition isObject (v : value) : bool :=
  match v with
  | Owned t => Config.isObject t
  | _ => true
  end.

(** The object under [name] that [config.set] descends into: the one
    that is there, or a new [{}]. *)
Definition objectAt (target : value) (name : string) : value :=
  match ownProperty target name with
  | Some c => if isObject c then c else Owned (Obj [])
  | None => Owned (Obj [])
  end.

(** [target[name] = child] on an array, an object or a [Date] whose
    parts may be shared. *)
Definition assign (target : value) (name : string) (child : value) : value :=
  match target with
  | Object entries => Object (upsert name child entries)
  | DateObject time entries => DateObject time (upsert name child entries)
  | Array items =>
      match Config.arrayIndex name with
      | Some i => Array (assignIndex i child items)
      | None => target
      end
  | _ => target
  end.

(** [config.set(key, x)] for a string or a new object [x], the loop of
    the in-memory store.  Below an [Owned] part it is [Config.set]; where
    the key leads through [Shared a], the assignment is made in the
    object of cell [a], whichever key led there. *)
Fixpoint setFrom (cells : list value) (v : value) (path : Config.key) (x : node)
  {struct path} : list value * value :=
  match path with
  | [] => (cells, if Config.isObject x then Owned x else v)
  | name :: rest =>
      let inside (view : list value) (target : value) : list value * value :=
        match target with
        | Owned t => (view, Owned (Config.set t path x))
        | Shared _ => (view, target)
        | _ =>
            match rest with
            | [] => (view, assign target name (Owned x))
            | _ :: _ =>
                let (view', child) := setFrom view (objectAt target name) rest x in
                (view', assign target name child)
            end
        end in
      match v with
      | Shared a =>
          match nth_error cells a with
          | Some c =>
              let (view, c') := inside (firstn a cells) c in
              (view ++ c' :: skipn (S a) cells, v)
          | None => (cells, v)
          end
      | _ => inside cells v
      end
  end.

Definition set (st : store) (key : Config.key) (x : node) : store :=
  let (cells', top') := setFrom (cells st) (top st) key x in
  {| cells := cells'; top := top' |}.

(** The provider asks its stores in turn.  The first is the store of
    the environment: it holds the variables of [envMap] that are set,
    each under its key, and [config.set] does not write it.  The second
    is the store of the file, which [config.set] writes.  A string of
    the first store is the answer, whatever the file holds; an object of
    the first store is merged with what the file holds, the values of
    the environment winning.  After these come the defaults of
    [default.json] and the overrides that [loadConfig] builds from the
    same variables; they are asked where the first two stores hold
    nothing or an object, and are left out. *)
Definition envMap : list (string * Config.key) :=
  [ ("FIREFLY_BASE_URL", ["firefly"; "baseUrl"]);
    ("FIREFLY_TOKEN_API", ["firefly"; "tokenApi"]);
    ("CRON", ["cron"]);
    ("SCRAPER_PARALLEL", ["scraper"; "parallel"]);
    ("SCRAPER_TIMEOUT", ["scraper"; "timeout"]);
    ("SCRAPER_START_DATE", ["scraper"; "startDate"]);
    ("LOG_LEVEL", ["log"; "level"]) ].

(** The store of the environment; the order of its keys, which is that
    of [process.env], is not the order here. *)
Definition environmentStore (env : Env) : node :=
  fold_left (fun store entry =>
               match env (fst entry) with
               | Some value => Config.set store (snd entry) (Str value)
               | None => store
               end)
            envMap (Obj []).

(** The merge of an object of the store of the environment with the
    value of the file: the properties of the file when it holds an
    object there, then those of the environment.  (At the key of the
    root, which [load-config.js] does not read, the library merges the
    objects below as well.) *)
Definition merge (fromFile : node) (additions : list (string * node)) : node :=
  let base :=
    match fromFile with
    | Obj entries | Date _ entries => entries
    | _ => []
    end in
  Obj (fold_left (fun entries entry => Config.upsert (fst entry) (snd entry) entries)
         additions base).

(** [config.get(key)] *)
Definition get (env : Env) (st : store) (key : Config.key) : node :=
  match Config.get (environmentStore env) key with
  | Undefined => stored st key
  | Obj additions => merge (stored st key) additions
  | fromEnvironment => fromEnvironment
  end.

(** [config.required(keys)] *)
Definition required (env : Env) (keys : list Config.key) (st : store) : result unit :=
  let missing :=
    filter (fun k => match get env st k with Undefined => true | _ => false end) keys in
  match missing with
  | [] => Ok tt
  | _ =>
      Throw ("Missing required keys: "
             ++ String.concat ", " (List.map (String.concat ":") missing))
  end.

(** [if (value) config.set(key, value)] *)
Definition setIfTruthy (k : Config.key) (value : option string) (st : store) : store :=
  if truthy (valueOf value) then set st k (Str (stringOf value)) else st.

Definition overrideBank (env : Env) (bankIndex : nat) (st : store) : store :=
  let bankUsername := env (bankVariable bankIndex "USERNAME") in
  let bankPassword := env (bankVariable bankIndex "PASSWORD") in
  let bankId := env (bankVariable bankIndex "ID") in
  let bankUserCode := env (bankVariable bankIndex "USERCODE") in
  let st := setIfTruthy (bankKey bankIndex "username") bankUsername st in
  let st := setIfTruthy (bankKey bankIndex "password") bankPassword st in
  let st := setIfTruthy (bankKey bankIndex "id") bankId st in
  setIfTruthy (bankKey bankIndex "userCode") bankUserCode st.

Definition overrideCreditCard (env : Env) (bankIndex ccIndex : nat) (st : store) : store :=
  let ccUsername := env (creditCardVariable bankIndex ccIndex "USERNAME") in
  let ccPassword := env (creditCardVariable bankIndex ccIndex "PASSWORD") in
  let ccId := env (creditCardVariable bankIndex ccIndex "ID") in
  let ccCard6Digits := env (creditCardVariable bankIndex ccIndex "CARD6DIGITS") in
  let st := setIfTruthy (creditCardKey bankIndex ccIndex "username") ccUsername st in
  let st := setIfTruthy (creditCardKey bankIndex ccIndex "password") ccPassword st in
  let st := setIfTruthy (creditCardKey bankIndex ccIndex "id") ccId st in
  setIfTruthy (creditCardKey bankIndex ccIndex "card6Digits") ccCard6Digits st.

(** [bank.creditCards || []], then the list to iterate over.  [bank] is
    the element that the loop handed to the body; when it is an object,
    the key [banks:bankIndex] of the file still leads to it after the
    assignments of the body, which replace no object by another, and the
    property is read from it as it is then. *)
Definition creditCardsOf (bankIndex : nat) (bank : node) (st : store)
  : result (list node) :=
  match bank with
  | Undefined => Throw "Cannot read properties of undefined (reading 'creditCards')"
  | Null => Throw "Cannot read properties of null (reading 'creditCards')"
  | _ =>
      if Config.isObject bank then
        let creditCards := stored st ["banks"; JsString.ofNat bankIndex; "creditCards"] in
        if truthy creditCards then
          match creditCards with
          | Arr ccs => Ok ccs
          | _ => Throw (notAFunction "creditCards")
          end
        else Ok []
      else Ok []
  end.

(** The body of [banks.forEach((bank, bankIndex) => ...)]: [forEach]
    reads the element of the array when it reaches it.  The array is
    the one of the file: the environment holds nothing under [banks]. *)
Definition overrideEntry (env : Env) (bankIndex : nat) (st : store) : result store :=
  let bank := stored st ["banks"; JsString.ofNat bankIndex] in
  let st := overrideBank env bankIndex st in
  bindR (creditCardsOf bankIndex bank st) (fun creditCards =>
    Ok (forEachIndexed (fun ccIndex _ s => overrideCreditCard env bankIndex ccIndex s)
          0 creditCards st)).

Definition applyCredentialEnvOverrides (env : Env) (st : store) : result store :=
  let banks := get env st ["banks"] in
  if truthy banks then
    match banks with
    | Arr entries =>
        forEachThrowing (fun bankIndex _ s => overrideEntry env bankIndex s) 0 entries st
    | _ => Throw (notAFunction "banks")
    end
  else Ok st.

Section Decryption.

(** [decryptObject] of [crypto.js], which reads the value it is given
    and builds a new one. *)
Variable decryptObject : node -> option string -> result node.

Variable env : Env.

Definition decryptBanksConfig (masterPassword : option string) (st : store)
  : result store :=
  let banks := get env st ["banks"] in
  if negb (truthy banks) then Ok st
  else
    bindR (decryptObject banks masterPassword) (fun decryptedBanks =>
      Ok (set st ["banks"] decryptedBanks)).

Definition decryptFireflyConfig (masterPassword : option string) (st : store)
  : result store :=
  let tokenApi := get env st ["firefly"; "tokenApi"] in
  if truthy tokenApi && isEncrypted tokenApi then
    bindR (decryptObject tokenApi masterPassword) (fun decrypted =>
      Ok (set st ["firefly"; "tokenApi"] decrypted))
  else Ok st.

(** The part of [loadConfig] from the check for encrypted values on. *)
Definition decryptIfNeeded (st : store) : result store :=
  let banks := get env st ["banks"] in
  let tokenApi := get env st ["firefly"; "tokenApi"] in
  let needsDecryption := hasEncryptedValues banks || isEncrypted tokenApi in
  if needsDecryption then
    let masterPassword := env "MASTER_PASSWORD" in
    if negb (truthy (valueOf masterPassword))
    then Throw MASTER_PASSWORD_REQUIRED
    else
      match bindR (decryptBanksConfig masterPassword st)
                  (decryptFireflyConfig masterPassword) with
      | Ok st' => Ok st'
      | Throw message => Throw (failedToDecrypt message)
      end
  else Ok st.

(** [loadConfig], from [config.required] on, over the store of the
    configuration file. *)
Definition loadConfig (st : store) : result store :=
  bindR (required env requiredKeys st) (fun _ =>
  bindR (applyCredentialEnvOverrides env st) (fun st =>
  decryptIfNeeded st)).

End Decryption.

End Live.

(* ===================================================================== *)
(** ** The primitives of [node:crypto] *)
(* ===================================================================== *)

(** What deciphering does: [createDecipheriv] and [setAuthTag] may throw
    before the [try] block of [decrypt] is entered; inside it,
    [decipher.update] and [decipher.final] either return the plaintext or
    throw. *)
Inductive Deciphered : Type :=
| Plain (plaintext : Buffer)
| SetupThrows (message : string)
| FinalThrows (message : string).

(** The message of the error that [decipher.final] throws when the
    authentication tag does not verify. *)
Definition UNAUTHENTIC : string := "Unsupported state or unable to authenticate data".

(** A small instance of the primitives, used to run the functions on
    concrete inputs: the derived key is the password followed by the
    salt, cut or padded to the key length; the ciphertext is the
    plaintext reversed; the tag is cut from the key and the nonce. *)
Module Sample.

Definition entropy : Type := nat.

Definition randomBytes (size : nat) (e : entropy) : Buffer * entropy :=
  (repeat (Base64.byteOfN (N.of_nat e)) size, S e).

Definition pbkdf2 (password : string) (salt : Buffer) (iterations : N)
  (keylen : nat) (digest : string) : Buffer :=
  firstn keylen (utf8Bytes password ++ salt ++ repeat x00 keylen).

Definition tagOf (key iv : Buffer) : Buffer :=
  firstn AUTH_TAG_LENGTH (key ++ iv ++ repeat x00 AUTH_TAG_LENGTH).

Definition cipher (algorithm : string) (key iv plaintext : Buffer) : Buffer * Buffer :=
  (List.rev plaintext, tagOf key iv).

Definition bufferEqb (a b : Buffer) : bool :=
  if list_eq_dec Byte.byte_eq_dec a b then true else false.

Definition decipher (algorithm : string) (key iv authTag ciphertext : Buffer) : Deciphered :=
  if bufferEqb authTag (tagOf key iv) then Plain (List.rev ciphertext)
  else FinalThrows UNAUTHENTIC.

End Sample.

(* ===================================================================== *)
(** ** [crypto.js] *)
(* ===================================================================== *)

Definition PLAINTEXT_REQUIRED : string := "Plaintext and master password are required".
Definition ENCRYPTED_TEXT_REQUIRED : string := "Encrypted text and master password are required".
Definition NOT_ENCRYPTED : string := "Text is not in encrypted format".
Definition DECRYPTION_FAILED : string :=
  "Decryption failed: Invalid master password or corrupted data".

Section Crypto.

(** The state of the random generator behind [crypto.randomBytes]. *)
Variable entropy : Type.

(** [crypto.randomBytes(size)] *)
Variable randomBytes : nat -> entropy -> Buffer * entropy.

(** [crypto.pbkdf2(password, salt, iterations, keylen, digest, callback)],
    the key passed to the callback. *)
Variable pbkdf2 : string -> Buffer -> N -> nat -> string -> Buffer.

(** [createCipheriv(algorithm, key, iv)], then [update(plaintext)],
    [final()] and [getAuthTag()]: the ciphertext and the tag. *)
Variable cipher : string -> Buffer -> Buffer -> Buffer -> Buffer * Buffer.

(** [createDecipheriv(algorithm, key, iv)], [setAuthTag(authTag)], then
    [update(ciphertext)] and [final()]. *)
Variable decipher : string -> Buffer -> Buffer -> Buffer -> Buffer -> Deciphered.

(** A computation that draws random bytes and may throw. *)
Definition M (A : Type) : Type := entropy -> result (A * entropy).

Definition ret {A} (a : A) : M A := fun e => Ok (a, e).

Definition raise {A} (message : string) : M A := fun _ => Throw message.

Definition bind {A B} (m : M A) (k : A -> M B) : M B :=
  fun e =>
    match m e with
    | Ok (a, e') => k a e'
    | Throw message => Throw message
    end.

Definition draw (size : nat) : M Buffer := fun e => Ok (randomBytes size e).

Notation "x <- m ;; k" := (bind m (fun x => k))
  (at level 61, m at next level, right associativity).

(** [Promise.all(items.map((item, index) => f(item, index)))]: the calls
    are made in the order of the items, and each call draws its random
    bytes before it first awaits. *)
Definition allM {A B} (f : nat -> A -> M B) : nat -> list A -> M (list B) :=
  fix go (index : nat) (l : list A) : M (list B) :=
    match l with
    | [] => ret []
    | item :: r =>
        y <- f index item ;;
        ys <- go (S index) r ;;
        ret (y :: ys)
    end.

Definition deriveKey (password : string) (salt : Buffer) : Buffer :=
  pbkdf2 password salt PBKDF2_ITERATIONS KEY_LENGTH PBKDF2_DIGEST.

Definition encrypt (plaintext masterPassword : option string) : M string :=
  if negb (truthy (valueOf plaintext)) || negb (truthy (valueOf masterPassword))
  then raise PLAINTEXT_REQUIRED
  else
    salt <- draw SALT_LENGTH ;;
    iv <- draw IV_LENGTH ;;
    let key := deriveKey (stringOf masterPassword) salt in
    let '(encrypted, authTag) := cipher ALGORITHM key iv (utf8Bytes (stringOf plaintext)) in
    let combined := salt ++ iv ++ authTag ++ encrypted in
    ret (ENCRYPTED_PREFIX ++ Base64.encode combined)%string.

Definition decrypt (encryptedText masterPassword : option string) : result string :=
  if negb (truthy (valueOf encryptedText)) || negb (truthy (valueOf masterPassword))
  then Throw ENCRYPTED_TEXT_REQUIRED
  else if negb (isEncrypted (valueOf encryptedText))
  then Throw NOT_ENCRYPTED
  else
    let base64Data := JsString.slice (stringOf encryptedText) (String.length ENCRYPTED_PREFIX) in
    let combined := Base64.decode base64Data in
    let offset := 0 in
    let salt := subarray combined offset (offset + SALT_LENGTH) in
    let offset := offset + SALT_LENGTH in
    let iv := subarray combined offset (offset + IV_LENGTH) in
    let offset := offset + IV_LENGTH in
    let authTag := subarray combined offset (offset + AUTH_TAG_LENGTH) in
    let offset := offset + AUTH_TAG_LENGTH in
    let ciphertext := subarrayFrom combined offset in
    let key := deriveKey (stringOf masterPassword) salt in
    match decipher ALGORITHM key iv authTag ciphertext with
    | Plain decrypted => Ok (utf8String decrypted)
    | SetupThrows message => Throw message
    | FinalThrows message =>
        if JsString.includes message "Unsupported state" || JsString.includes message "auth"
        then Throw DECRYPTION_FAILED
        else Throw message
    end.

(** The children of an array or an object are processed by
    [Promise.all]; the result lists them in the order of the source
    (the order of the keys of the rebuilt object is immaterial). *)
Fixpoint decryptObject (obj : node) (masterPassword : option string) {struct obj}
  : result node :=
  match obj with
  | Undefined | Null => Ok obj
  | Str s =>
      if isEncrypted obj then mapR Str (decrypt (Some s) masterPassword)
      else Ok obj
  | Arr items =>
      mapR Arr (allR (fun item => decryptObject item masterPassword) items)
  | Obj entries | Date _ entries =>
      mapR Obj
        (allR (fun entry =>
                 mapR (pair (fst entry)) (decryptObject (snd entry) masterPassword))
              entries)
  | Boolean _ | Number _ => Ok obj
  end.

(** The same traversal, with the path of each node accumulated on the
    way down; every call of [encrypt] draws its random bytes when it is
    made, in the order of the depth-first traversal. *)
Fixpoint encryptSensitiveFields (obj : node) (masterPassword : option string)
  (path : string) {struct obj} : M node :=
  match obj with
  | Undefined | Null => ret obj
  | Str s =>
      if isEncrypted obj then ret obj
      else if wantsEncryption path s
      then (envelope <- encrypt (Some s) masterPassword ;; ret (Str envelope))
      else ret obj
  | Arr items =>
      items' <- allM (fun index item =>
                        encryptSensitiveFields item masterPassword (indexPath path index))
                     0 items ;;
      ret (Arr items')
  | Obj entries | Date _ entries =>
      entries' <- allM (fun _ entry =>
                          let newPath := keyPath path (fst entry) in
                          value <- encryptSensitiveFields (snd entry) masterPassword newPath ;;
                          ret (fst entry, value))
                       0 entries ;;
      ret (Obj entries')
  | Boolean _ | Number _ => ret obj
  end.

(* ===================================================================== *)
(** ** [loadConfig] of [load-config.js] *)
(* ===================================================================== *)

Definition decryptBanksConfig (masterPassword : option string) (cfg : node) : result node :=
  let banks := Config.get cfg ["banks"] in
  if negb (truthy banks) then Ok cfg
  else
    bindR (decryptObject banks masterPassword) (fun decryptedBanks =>
      Ok (Config.set cfg ["banks"] decryptedBanks)).

Definition decryptFireflyConfig (masterPassword : option string) (cfg : node) : result node :=
  let tokenApi := Config.get cfg ["firefly"; "tokenApi"] in
  if truthy tokenApi && isEncrypted tokenApi then
    bindR (decryptObject tokenApi masterPassword) (fun decrypted =>
      Ok (Config.set cfg ["firefly"; "tokenApi"] decrypted))
  else Ok cfg.

(** The part of [loadConfig] from the check for encrypted values on. *)
Definition decryptIfNeeded (env : Env) (cfg : node) : result node :=
  let banks := Config.get cfg ["banks"] in
  let tokenApi := Config.get cfg ["firefly"; "tokenApi"] in
  let needsDecryption := hasEncryptedValues banks || isEncrypted tokenApi in
  if needsDecryption then
    let masterPassword := env "MASTER_PASSWORD" in
    if negb (truthy (valueOf masterPassword))
    then Throw MASTER_PASSWORD_REQUIRED
    else
      match bindR (decryptBanksConfig masterPassword cfg)
                  (decryptFireflyConfig masterPassword) with
      | Ok cfg' => Ok cfg'
      | Throw message => Throw (failedToDecrypt message)
      end
  else Ok cfg.

(** [loadConfig], from [config.required] on; [cfg] is the document that
    the provider serves once the layers are installed. *)
Definition loadConfig (env : Env) (cfg : node) : result node :=
  bindR (Config.required requiredKeys cfg) (fun _ =>
  bindR (applyCredentialEnvOverrides env cfg) (fun cfg =>
  decryptIfNeeded env cfg)).


(* ===================================================================== *)
(** ** Vocabulary of the specification *)
(* ===================================================================== *)

(** The envelope that [encrypt] builds for plaintext [p] and secret [s]
    once it has drawn [salt] and [iv]. *)
Definition envelopeOf (p s : string) (salt iv : Buffer) : string :=
  let sealed := cipher ALGORITHM (deriveKey s salt) iv (utf8Bytes p) in
  ENCRYPTED_PREFIX ++ Base64.encode (salt ++ iv ++ snd sealed ++ fst sealed)%list.

(** The contracts of the primitives, as one proposition: [randomBytes]
    returns as many bytes as asked for, [pbkdf2] returns a key of the
    length asked for, the authentication tag has [AUTH_TAG_LENGTH] bytes,
    and deciphering with the key, nonce and tag of the encryption returns
    the plaintext. *)
Definition meetsContracts : Prop :=
  (forall size e, length (fst (randomBytes size e)) = size)
  /\ (forall password salt iterations keylen digest,
        length (pbkdf2 password salt iterations keylen digest) = keylen)
  /\ (forall key iv plaintext,
        length (snd (cipher ALGORITHM key iv plaintext)) = AUTH_TAG_LENGTH)
  /\ (forall key iv plaintext,
        length key = KEY_LENGTH -> length iv = IV_LENGTH ->
        decipher ALGORITHM key iv
          (snd (cipher ALGORITHM key iv plaintext))
          (fst (cipher ALGORITHM key iv plaintext)) = Plain plaintext).

(** The error taxonomy of the specification.  The code throws plain
    [Error] objects; the kind of one is read off its message.  No message
    of the code announces an unsupported format version. *)
Inductive ErrorKind : Type :=
| InvalidInput
| NotEncrypted
| AuthenticationFailed
| UnsupportedFormatVersion
| MissingRequiredConfig
| MasterSecretRequired
| DecryptionFailed
| OtherError.

Definition errorKind (message : string) : ErrorKind :=
  if String.eqb message PLAINTEXT_REQUIRED || String.eqb message ENCRYPTED_TEXT_REQUIRED
  then InvalidInput
  else if String.eqb message NOT_ENCRYPTED then NotEncrypted
  else if String.eqb message DECRYPTION_FAILED then AuthenticationFailed
  else if String.eqb message MASTER_PASSWORD_REQUIRED then MasterSecretRequired
  else if JsString.startsWith message "Failed to decrypt credentials: " then DecryptionFailed
  else if JsString.startsWith message "Missing required keys: " then MissingRequiredConfig
  else OtherError.

(** An argument that is empty or absent. *)
Definition missing (o : option string) : Prop := o = None \/ o = Some EmptyString.

(** The address of a node below another: the keys and indices to follow,
    and the path string that the traversals accumulate along them. *)
Inductive step : Type :=
| Key (name : string)
| Index (i : nat).

Definition child (d : node) (st : step) : option node :=
  match st, d with
  | Key name, Obj entries | Key name, Date _ entries => Config.lookup name entries
  | Index i, Arr items => nth_error items i
  | _, _ => None
  end.

Fixpoint descend (d : node) (address : list step) : option node :=
  match address with
  | [] => Some d
  | st :: rest =>
      match child d st with
      | Some c => descend c rest
      | None => None
      end
  end.

Definition extend (path : string) (st : step) : string :=
  match st with
  | Key name => keyPath path name
  | Index i => indexPath path i
  end.

Definition accumulated (path : string) (address : list step) : string :=
  fold_left extend address path.

(** The sensitivity predicate in the words of the specification: the
    path ends with [.credentials] or contains [.credentials.], or ends
    with one of [.password], [.tokenApi], [.token], [.secret],
    [.apiKey]. *)
Definition sensitivePath (path : string) : Prop :=
  JsString.endsWith path ".credentials" = true
  \/ JsString.includes path ".credentials." = true
  \/ JsString.endsWith path ".password" = true
  \/ JsString.endsWith path ".tokenApi" = true
  \/ JsString.endsWith path ".token" = true
  \/ JsString.endsWith path ".secret" = true
  \/ JsString.endsWith path ".apiKey" = true.

(** Two keys diverge when they part at some segment: neither addresses
    a node on the way to, or below, the node of the other. *)
Definition diverge (p q : Config.key) : Prop :=
  exists r a b p' q', p = r ++ a :: p' /\ q = r ++ b :: q' /\ a <> b.

(** The keys that the decryption step of [loadConfig] does not address. *)
Definition outsideDecryption (p : Config.key) : Prop :=
  diverge p ["banks"] /\ diverge p ["firefly"; "tokenApi"].

(** The value of a leaf after [if (value) config.set(key, value)]: the
    variable when it is set to a non-empty string, the value that was
    there otherwise. *)
Definition overridden (variable : option string) (before : node) : node :=
  if truthy (valueOf variable) then Str (stringOf variable) else before.

(** Every byte, and every buffer of a given length: the keys of
    [KEY_LENGTH] bytes are finitely many. *)
Definition allBytes : list byte :=
  List.map (fun n => Base64.byteOfN (N.of_nat n)) (seq 0 256).

Fixpoint buffersOfLength (n : nat) : list Buffer :=
  match n with
  | O => [[]]
  | S n' => flat_map (fun b => List.map (cons b) (buffersOfLength n')) allBytes
  end.

(** The document of the path-targeting example:
    [{credentials: {username: "u", password: "p"}, name: "n"}]. *)
Definition exampleDocument : node :=
  Obj [ ("credentials", Obj [("username", Str "u"); ("password", Str "p")]);
        ("name", Str "n") ].

(* ===================================================================== *)
(** ** Sample documents and environments *)
(* ===================================================================== *)

(** An environment given by the variables that are set. *)
Definition envOf (variables : list (string * string)) : Env :=
  fun name =>
    match List.find (fun binding => String.eqb (fst binding) name) variables with
    | Some binding => Some (snd binding)
    | None => None
    end.

(** The configuration of the setup guide. *)
Definition guideConfig : node :=
  Obj [ ("firefly",
         Obj [ ("baseUrl", Str "http://your-firefly-instance:8080");
               ("tokenApi", Str "your-firefly-api-token") ]);
        ("banks",
         Arr [ Obj [ ("type", Str "leumi");
                     ("credentials",
                      Obj [ ("username", Str "your-username");
                            ("password", Str "your-password") ]);
                     ("creditCards",
                      Arr [ Obj [ ("type", Str "isracard");
                                  ("credentials",
                                   Obj [ ("id", Str "123456789");
                                         ("card6Digits", Str "123456");
                                         ("password", Str "your-cc-password") ]) ] ]) ] ]);
        ("cron", Str "0 6 * * *") ].

(** A configuration without encrypted values, with file values at the
    password leaves. *)
Definition fileConfig : node :=
  Obj [ ("firefly", Obj [ ("baseUrl", Str "http://firefly:8080"); ("tokenApi", Str "token") ]);
        ("banks",
         Arr [ Obj [ ("type", Str "leumi");
                     ("credentials",
                      Obj [ ("username", Str "user"); ("password", Str "fileval") ]);
                     ("creditCards",
                      Arr [ Obj [ ("type", Str "isracard");
                                  ("credentials",
                                   Obj [ ("id", Str "1"); ("password", Str "ccfileval") ]) ] ]) ] ]) ].

(** The same configuration with an envelope at [firefly.tokenApi]. *)
Definition lockedConfig : node :=
  Config.set fileConfig ["firefly"; "tokenApi"] (Str "encrypted:v1:QUJD").

(** The same configuration with an envelope outside the [banks] subtree
    and the [firefly.tokenApi] leaf. *)
Definition strayConfig : node :=
  Config.set fileConfig ["scraper"; "secret"] (Str "encrypted:v1:QUJD").

(** Two lists related item by item, the relation knowing the index of
    the items. *)
Inductive Forall2i {A B} (R : nat -> A -> B -> Prop) : nat -> list A -> list B -> Prop :=
| Forall2i_nil (i : nat) : Forall2i R i [] []
| Forall2i_cons (i : nat) (x : A) (y : B) (l : list A) (l' : list B) :
    R i x y -> Forall2i R (S i) l l' -> Forall2i R i (x :: l) (y :: l').

(** The shape of a document: its arrays, its objects with their keys in
    order, and its scalars, the contents of the strings left out; a
    [Date] has the shape of the plain object with its entries. *)
Fixpoint shape (d : node) : node :=
  match d with
  | Str _ => Str EmptyString
  | Arr items => Arr (List.map shape items)
  | Obj entries | Date _ entries =>
      Obj (List.map (fun entry => (fst entry, shape (snd entry))) entries)
  | _ => d
  end.

(** The number of string leaves of a document that carry the prefix. *)
Fixpoint encryptedLeaves (d : node) : nat :=
  match d with
  | Str _ => if isEncrypted d then 1 else 0
  | Arr items => list_sum (List.map encryptedLeaves items)
  | Obj entries | Date _ entries =>
      list_sum (List.map (fun entry => encryptedLeaves (snd entry)) entries)
  | _ => 0
  end.

(** A document as the traversals of [crypto.js] rebuild it when they
    have no string to rewrite: arrays and objects item by item and entry
    by entry, and in the place of a [Date] the plain object
    [const result = {}] filled with its entries, none for a timestamp
    of the YAML file. *)
Fixpoint rebuilt (d : node) : node :=
  match d with
  | Arr items => Arr (List.map rebuilt items)
  | Obj entries | Date _ entries =>
      Obj (List.map (fun entry => (fst entry, rebuilt (snd entry))) entries)
  | _ => d
  end.

(** A document whose strings hold no unpaired surrogate. *)
Fixpoint wellFormedStrings (d : node) : bool :=
  match d with
  | Str s => wellFormed s
  | Arr items => forallb wellFormedStrings items
  | Obj entries | Date _ entries =>
      forallb (fun entry => wellFormedStrings (snd entry)) entries
  | _ => true
  end.

(** A document that holds no [Date]. *)
Fixpoint plainData (d : node) : bool :=
  match d with
  | Arr items => forallb plainData items
  | Obj entries => forallb (fun entry => plainData (snd entry)) entries
  | Date _ _ => false
  | _ => true
  end.

(** A configuration with values that are not strings. *)
Definition scraperConfig : node :=
  Obj [ ("firefly", Obj [ ("baseUrl", Str "http://firefly:8080"); ("tokenApi", Str "token") ]);
        ("scraper",
         Obj [ ("parallel", Boolean true); ("timeout", Number 60000);
               ("startDate", Null) ]);
        ("banks", Arr []) ].

(** No variable of the credential overrides is set to a non-empty
    string. *)
Definition noCredentialVariables (env : Env) : Prop :=
  (forall i field, missing (env (bankVariable i field)))
  /\ (forall i j field, missing (env (creditCardVariable i j field))).

(** The keys of the [credentials] mappings of a bank and of a credit
    card. *)
Definition bankCredentials (bankIndex : nat) : Config.key :=
  ["banks"; JsString.ofNat bankIndex; "credentials"].

Definition creditCardCredentials (bankIndex ccIndex : nat) : Config.key :=
  ["banks"; JsString.ofNat bankIndex; "creditCards"; JsString.ofNat ccIndex; "credentials"].

(** The variables of the credential overrides, by the suffix of their
    names, and the leaves of the [credentials] mapping that they are
    written to. *)
Definition bankFields : list (string * string) :=
  [ ("USERNAME", "username"); ("PASSWORD", "password"); ("ID", "id");
    ("USERCODE", "userCode") ].

Definition creditCardFields : list (string * string) :=
  [ ("USERNAME", "username"); ("PASSWORD", "password"); ("ID", "id");
    ("CARD6DIGITS", "card6Digits") ].

(** The configuration holds a mapping under a key. *)
Definition hasMapping (cfg : node) (q : Config.key) : Prop :=
  exists entries, Config.get cfg q = Obj entries.

(** A configuration whose credentials are left to the environment. *)
Definition envOnlyConfig : node :=
  Obj [ ("firefly", Obj [ ("baseUrl", Str "http://firefly:8080"); ("tokenApi", Str "token") ]);
        ("banks",
         Arr [ Obj [ ("type", Str "leumi");
                     ("credentials", Obj []);
                     ("creditCards",
                      Arr [ Obj [ ("type", Str "isracard");
                                  ("credentials", Obj [ ("id", Str "1") ]) ] ]) ] ]) ].

(* ===================================================================== *)
(** ** The tool at the terminal: [cli-encrypt.js] *)
(* ===================================================================== *)

(** The world of a run: the state of the random generator, the answers
    that the operator gives to the prompts still to come, the lines
    printed by [console.log] and [console.error] so far, and the files
    written so far.  The echo of the prompts is not recorded; an answer
    is what [prompt] resolves with, so the keys of a hidden prompt, among
    them Ctrl+C, are not told apart. *)
Record World : Type := {
  random : entropy;
  typed : list string;
  printed : list Line;
  written : list (option string * string)
}.

(** How a step ends: it returns, it calls [process.exit], or it awaits
    a prompt that no answer is left for. *)
Inductive Outcome (A : Type) : Type :=
| Returns (value : A) (w : World)
| Exits (code : nat) (w : World)
| Waits (w : World).

Arguments Returns {A} value w.
Arguments Exits {A} code w.
Arguments Waits {A} w.

Definition worldOf {A} (o : Outcome A) : World :=
  match o with
  | Returns _ w | Exits _ w | Waits w => w
  end.

Definition Cli (A : Type) : Type := World -> Outcome A.

Definition andThen {A B} (m : Cli A) (k : A -> Cli B) : Cli B :=
  fun w =>
    match m w with
    | Returns a w' => k a w'
    | Exits code w' => Exits code w'
    | Waits w' => Waits w'
    end.

Notation "x <~ m ;; k" := (andThen m (fun x => k))
  (at level 61, m at next level, right associativity).

Definition print (line : Line) : Cli unit :=
  fun w => Returns tt {| random := random w; typed := typed w;
                         printed := printed w ++ [line]; written := written w |}.

(** [console.log(text)] and [console.error(text)] *)
Definition log (text : string) : Cli unit := print (Log text).
Definition logError (text : string) : Cli unit := print (Error text).

(** [process.exit(code)] *)
Definition exit {A} (code : nat) : Cli A := fun w => Exits code w.

(** [await prompt(question, hidden)] *)
Definition prompt (question : string) (hidden : bool) : Cli string :=
  fun w =>
    match typed w with
    | [] => Waits w
    | answer :: rest =>
        Returns answer {| random := random w; typed := rest;
                          printed := printed w; written := written w |}
    end.

(** [`${path}`] *)
Definition show (path : option string) : string :=
  match path with
  | Some s => s
  | None => "undefined"
  end.

Definition promptMasterPassword (confirm : bool) : Cli string :=
  password <~ prompt "Enter master password: " true ;;
  if (utf16Length password <? 8)%nat then
    _ <~ logError "Error: Password must be at least 8 characters long" ;;
    exit 1
  else if confirm then
    confirmPassword <~ prompt "Confirm master password: " true ;;
    if negb (String.eqb password confirmPassword) then
      _ <~ logError "Error: Passwords do not match" ;;
      exit 1
    else fun w => Returns password w
  else fun w => Returns password w.

(** [fields.forEach((field) => console.log(`  - ${field}`))] *)
Definition logFields (fields : list string) : Cli unit :=
  forEachIndexed (fun _ field (before : Cli unit) => _ <~ before ;; log ("  - " ++ field))
    0 fields (fun w => Returns tt w).

(** The [catch] of the [try] blocks of the tool. *)
Definition encryptionFailed {A} (message : string) : Cli A :=
  _ <~ logError (LF ++ "Encryption failed: " ++ message) ;;
  exit 1.

(** The [try] block of [encryptConfig]. *)
Definition encryptAndWrite (io : Platform) (config : node) (masterPassword : string)
  (outputFile : option string) : Cli unit :=
  fun w =>
    match encryptSensitiveFields config (Some masterPassword) EmptyString (random w) with
    | Throw message => encryptionFailed message w
    | Ok (encryptedConfig, e') =>
        let w1 := {| random := e'; typed := typed w;
                     printed := printed w; written := written w |} in
        match yamlDump io encryptedConfig with
        | Throw message => encryptionFailed message w1
        | Ok outputContent =>
            match writeFile io outputFile outputContent with
            | Throw message => encryptionFailed message w1
            | Ok _ =>
                let w2 := {| random := e'; typed := typed w; printed := printed w;
                             written := written w ++ [(outputFile, outputContent)] |} in
                let counts := countEncryptedFields encryptedConfig noCount in
                (_ <~ log (LF ++ "Success! Encrypted "
                              ++ JsString.ofNat (Counts.encrypted counts)
                              ++ " sensitive field(s).") ;;
                 _ <~ log ("Output written to: " ++ show outputFile) ;;
                 _ <~ log (LF ++ "IMPORTANT:") ;;
                 _ <~ log "  1. Delete or secure the original plaintext config file" ;;
                 _ <~ log "  2. Set MASTER_PASSWORD environment variable for automated runs" ;;
                 log "  3. Update CONFIG_FILE to point to the encrypted file") w2
            end
        end
    end.

Definition encryptConfig (io : Platform) (inputFile outputFile : option string) : Cli unit :=
  _ <~ log (LF ++ "Reading configuration from: " ++ show inputFile) ;;
  match readFile io inputFile with
  | Throw message =>
      _ <~ logError ("Error reading file: " ++ message) ;;
      exit 1
  | Ok configContent =>
      match yamlLoad io configContent with
      | Throw message =>
          _ <~ logError ("Error parsing YAML: " ++ message) ;;
          exit 1
      | Ok config =>
          let sensitiveFields := listSensitiveFields config EmptyString [] in
          if (length sensitiveFields =? 0)%nat then
            _ <~ log (LF ++ "No sensitive fields found to encrypt.") ;;
            _ <~ log "Fields already encrypted or no credentials present." ;;
            exit 0
          else
            _ <~ log (LF ++ "The following sensitive fields will be encrypted:") ;;
            _ <~ logFields sensitiveFields ;;
            proceed <~ prompt (LF ++ "Proceed with encryption? (y/N): ") false ;;
            if negb (String.eqb (toLowerCase proceed) "y") then
              _ <~ log "Aborted." ;;
              exit 0
            else
              masterPassword <~ promptMasterPassword true ;;
              _ <~ log (LF ++ "Encrypting sensitive fields...") ;;
              encryptAndWrite io config masterPassword outputFile
      end
  end.

Definition encryptSingleValue : Cli unit :=
  _ <~ log (LF ++ "Encrypt a single value") ;;
  _ <~ log ("(Useful for manually adding encrypted values to config)" ++ LF) ;;
  value <~ prompt "Enter value to encrypt: " false ;;
  if JsString.isEmpty value then
    _ <~ logError "Error: Value cannot be empty" ;;
    exit 1
  else
    masterPassword <~ promptMasterPassword true ;;
    fun w =>
      match encrypt (Some value) (Some masterPassword) (random w) with
      | Throw message => encryptionFailed message w
      | Ok (envelope, e') =>
          (_ <~ log (LF ++ "Encrypted value (copy this to your config):") ;;
           log envelope)
            {| random := e'; typed := typed w;
               printed := printed w; written := written w |}
      end.

(** [main()], for [process.argv] equal to [argv]. *)
Definition main (io : Platform) (argv : list string) : Cli unit :=
  match parseArgs argv with
  | Parsed_unknown arg =>
      _ <~ logError ("Unknown option: " ++ arg) ;;
      exit 1
  | Parsed_options options =>
      if Options.help options then
        _ <~ log HELP_TEXT ;;
        exit 0
      else if Options.encryptValue options then
        _ <~ encryptSingleValue ;;
        exit 0
      else if Options.decrypt options then
        _ <~ log (LF ++ "Decrypt mode is for verification only.") ;;
        _ <~ log ("WARNING: This will display decrypted credentials!" ++ LF) ;;
        proceed <~ prompt "Are you sure? (y/N): " false ;;
        if negb (String.eqb (toLowerCase proceed) "y") then exit 0
        else
          _ <~ log (LF ++ "To verify decryption, run the importer with MASTER_PASSWORD set.") ;;
          _ <~ log "Check logs for successful credential loading." ;;
          exit 0
      else encryptConfig io (Options.input options) (Options.output options)
  end.

(** The spellings of the options that [parseArgs] knows. *)
Definition knownOptions : list string :=
  [ "--input"; "-i"; "--output"; "-o"; "--decrypt"; "-d";
    "--encrypt-value"; "-e"; "--help"; "-h" ].

(** The world after more lines were printed. *)
Definition printedMore (lines : list Line) (w : World) : World :=
  {| random := random w; typed := typed w;
     printed := printed w ++ lines; written := written w |}.

(** A step that writes no file, however it ends. *)
Definition keepsFiles {A} (m : Cli A) : Prop :=
  forall w, written (worldOf (m w)) = written w.

(** A platform to run the tool on: the files named hold the documents
    given, the content of a file being its name, and every document is
    dumped to the same text. *)
Definition platformOf (documents : list (string * node)) : Platform :=
  {| readFile := fun path =>
       match path with
       | Some name =>
           if existsb (fun file => String.eqb (fst file) name) documents then Ok name
           else Throw ("ENOENT: no such file or directory, open '" ++ name ++ "'")
       | None => Throw "The path argument must be of type string. Received undefined"
       end;
     yamlLoad := fun text =>
       match List.find (fun file => String.eqb (fst file) text) documents with
       | Some file => Ok (snd file)
       | None => Throw "unexpected end of the stream"
       end;
     yamlDump := fun _ => Ok "yaml";
     writeFile := fun path _ =>
       match path with
       | Some _ => Ok tt
       | None => Throw "The path argument must be of type string. Received undefined"
       end |}.

(** The segment of a key that a step stands for. *)
Definition keyOf (st : step) : string :=
  match st with
  | Key name => name
  | Index i => JsString.ofNat i
  end.

(** The keys whose values [logConfigSnapshot] reads: [startDate] and
    [timeout] of [scraper], and [type], [startDate] and [timeout] of a
    bank and of a credit card of a bank. *)
Definition snapshotKey (p : Config.key) : Prop :=
  (exists field, In field ["startDate"; "timeout"] /\ p = ["scraper"; field])
  \/ (exists i field, In field ["type"; "startDate"; "timeout"]
        /\ p = ["banks"; JsString.ofNat i; field])
  \/ (exists i j field, In field ["type"; "startDate"; "timeout"]
        /\ p = ["banks"; JsString.ofNat i; "creditCards"; JsString.ofNat j; field]).

(** The credit cards of a bank of the configuration. *)
Definition cardsOf (bank : node) : list node :=
  match Config.get bank ["creditCards"] with
  | Arr ccs => ccs
  | _ => []
  end.

(** The kind that [enrichAccount] gives to the accounts scraped for a
    user. *)
Definition kindOf (user : node) : node :=
  match accountDetails user with
  | Ok details => Config.get details ["kind"]
  | Throw _ => Undefined
  end.

(** A [moment] library to run the functions on: a number is the instant
    it gives in milliseconds, nothing else parses; a day has 86400000
    milliseconds and a year 365 days. *)
Definition sampleMoment : Moment :=
  {| instant := fun value =>
                  match value with Number t | Date t _ => Some t | _ => None end;
     present := 1767225600000;
     subtractDays := fun n t => (t - Z.of_nat n * 86400000)%Z;
     subtractYears := fun n t => (t - Z.of_nat n * 31536000000)%Z |}.

(** The variables that [applyCredentialEnvOverrides] reads for a
    configuration, each with the key it is written to: those of bank
    [i] and of its credit card [j], where the configuration holds a
    [credentials] mapping. *)
Inductive credentialVariable (cfg : node) : string -> Config.key -> Prop :=
  | ofBank (i : nat) (V f : string) :
      hasMapping cfg (bankCredentials i) -> In (V, f) bankFields ->
      credentialVariable cfg (bankVariable i V) (bankKey i f)
  | ofCreditCard (i j : nat) (V f : string) :
      hasMapping cfg (creditCardCredentials i j) -> In (V, f) creditCardFields ->
      credentialVariable cfg (creditCardVariable i j V) (creditCardKey i j f).

(** A configuration whose accounts are named, but for one credit card. *)
Definition namedConfig : node :=
  Obj [ ("banks",
         Arr [ Obj [ ("type", Str "leumi"); ("name", Str "main");
                     ("credentials", Obj [ ("username", Str "dana") ]);
                     ("creditCards",
                      Arr [ Obj [ ("type", Str "isracard"); ("name", Str "card");
                                  ("credentials", Obj [ ("id", Str "1") ]) ];
                            Obj [ ("type", Str "max");
                                  ("credentials", Obj [ ("id", Str "2") ]) ] ]) ];
               Obj [ ("type", Str "hapoalim"); ("name", Str "savings");
                     ("credentials", Obj [ ("userCode", Str "u") ]) ] ]) ].

(** Variables for [envOnlyConfig]: the user name of the bank in the
    clear, and the password of its credit card as the envelope that the
    sample primitives build for the master password. *)
Definition sealedVariables : Env :=
  envOf [ ("MASTER_PASSWORD", "master password");
          ("BANK_0_USERNAME", "dana");
          ("BANK_0_CC_0_PASSWORD",
           "encrypted:v1:AAAAAAAAAAAAAAAAAAAAAAAAAAAAAAAAAAAAAAAAAAAFBQUFBQUFBQUFBQVtYXN0ZXIgcGFzc3dvcmQAMnJldG51aA==") ].

(** The string of one unpaired surrogate, U+D800, and the string of the
    replacement character, U+FFFD. *)
Definition loneSurrogate : string := string_of_list_byte [xed; xa0; x80]%byte.

Definition replacementCharacter : string := string_of_list_byte Utf8.replacement.

(** An environment with the master password only. *)
Definition masterOnly : Env := envOf [ ("MASTER_PASSWORD", "master password") ].

(** The envelope that the sample primitives build for ["hunter2"] and
    the master password of [masterOnly]. *)
Definition sealedHunter2 : string :=
  "encrypted:v1:AAAAAAAAAAAAAAAAAAAAAAAAAAAAAAAAAAAAAAAAAAAFBQUFBQUFBQUFBQVtYXN0ZXIgcGFzc3dvcmQAMnJldG51aA==".

(** A configuration as the tool writes it, with an envelope at the
    password of its bank and at [firefly.tokenApi], and with a string
    that carries the prefix outside these two places. *)
Definition sealedConfig : node :=
  Obj [ ("firefly",
         Obj [ ("baseUrl", Str "http://firefly:8080"); ("tokenApi", Str sealedHunter2) ]);
        ("banks",
         Arr [ Obj [ ("type", Str "leumi");
                     ("credentials",
                      Obj [ ("username", Str "user"); ("password", Str sealedHunter2) ]) ] ]);
        ("scraper", Obj [ ("secret", Str "encrypted:v1:QUJD") ]) ].

(** A configuration whose bank has a timestamp that the file gives
    without quotes: [yaml.load] makes a [Date] of it. *)
Definition datedConfig : node :=
  Obj [ ("firefly", Obj [ ("baseUrl", Str "http://firefly:8080"); ("tokenApi", Str "token") ]);
        ("banks",
         Arr [ Obj [ ("type", Str "leumi");
                     ("startDate", Date 1704067200000 []);
                     ("credentials",
                      Obj [ ("username", Str "user"); ("password", Str "fileval") ]) ] ]) ].

(** The store of a file in which the two banks take their credentials
    from one anchor:
    [shared: &c {username: user, password: fileval}],
    [banks: [{type: leumi, credentials: *c}, {type: hapoalim, credentials: *c}]]. *)
Definition sharedCredentials : Live.store :=
  {| Live.cells :=
       [ Live.Owned (Obj [ ("username", Str "user"); ("password", Str "fileval") ]) ];
     Live.top :=
       Live.Object
         [ ("firefly",
            Live.Owned (Obj [ ("baseUrl", Str "http://firefly:8080");
                              ("tokenApi", Str "token") ]));
           ("shared", Live.Shared 0);
           ("banks",
            Live.Array
              [ Live.Object [ ("type", Live.Owned (Str "leumi"));
                              ("credentials", Live.Shared 0) ];
                Live.Object [ ("type", Live.Owned (Str "hapoalim"));
                              ("credentials", Live.Shared 0) ] ]) ] |}.

(** The store of a file in which a second key takes the mapping of
    [firefly] from its anchor:
    [firefly: &f {baseUrl: ..., tokenApi: encrypted:v1:...}], [backup: *f],
    [banks: []]. *)
Definition sharedFirefly : Live.store :=
  {| Live.cells :=
       [ Live.Owned (Obj [ ("baseUrl", Str "http://firefly:8080");
                           ("tokenApi", Str sealedHunter2) ]) ];
     Live.top :=
       Live.Object
         [ ("firefly", Live.Shared 0);
           ("backup", Live.Shared 0);
           ("banks", Live.Owned (Arr [])) ] |}.

(* ===================================================================== *)
(** * Properties *)
(* ===================================================================== *)

(** The primitives are assumed to meet their contracts; a property that
    depends on them says so in its statement. *)
Hypothesis contracts : meetsContracts.

(** ** The base64 codec *)

Lemma byteOfN_to_N (x : byte) : Base64.byteOfN (Byte.to_N x) = x.
Proof.
  unfold Base64.byteOfN.
  pose proof (Byte.to_N_bounded x) as Hb.
  rewrite N.mod_small by lia.
  now rewrite Byte.of_to_N.
Qed.

Lemma charOfSextet_sextetOfChar (n : N) :
  (n < 64)%N ->
  Ascii.eqb (Base64.charOfSextet n) Base64.pad = false /\ Base64.sextetOfChar (Base64.charOfSextet n) = Some n.
Proof.
  intros Hn.
  assert (Hall : forall k, (k < 64)%nat ->
            Ascii.eqb (Base64.charOfSextet (N.of_nat k)) Base64.pad = false
            /\ Base64.sextetOfChar (Base64.charOfSextet (N.of_nat k)) = Some (N.of_nat k)).
  { intros k Hk.
    do 64 (destruct k as [|k]; [split; vm_compute; reflexivity|]).
    lia. }
  specialize (Hall (N.to_nat n)).
  rewrite N2Nat.id in Hall. apply Hall. lia.
Qed.

Lemma sextets_cons (n : N) (s : string) :
  (n < 64)%N -> Base64.sextets (String (Base64.charOfSextet n) s) = n :: Base64.sextets s.
Proof.
  intros Hn. destruct (charOfSextet_sextetOfChar Hn) as [Hp Hs].
  cbn [Base64.sextets]. now rewrite Hp, Hs.
Qed.

Lemma sextets3_spec (a b c : N) :
  (a < 256)%N -> (b < 256)%N -> (c < 256)%N ->
  let '(s0, s1, s2, s3) := Base64.sextets3 a b c in
  (s0 < 64 /\ s1 < 64 /\ s2 < 64 /\ s3 < 64 /\
   (s0 * 4 + s1 / 16) mod 256 = a /\
   ((s1 mod 16) * 16 + s2 / 4) mod 256 = b /\
   ((s2 mod 4) * 64 + s3) mod 256 = c)%N.
Proof.
  intros Ha Hb Hc. unfold Base64.sextets3.
  repeat split; zify; Z.to_euclidean_division_equations; lia.
Qed.

Lemma list_ind3 (A : Type) (P : list A -> Prop) :
  P [] -> (forall a, P [a]) -> (forall a b, P [a; b]) ->
  (forall a b c rest, P rest -> P (a :: b :: c :: rest)) ->
  forall l, P l.
Proof.
  intros H0 H1 H2 H3.
  fix IH 1.
  intros [|a [|b [|c rest]]].
  - exact H0.
  - apply H1.
  - apply H2.
  - apply H3, IH.
Qed.

Lemma to_N_lt (x : byte) : (Byte.to_N x < 256)%N.
Proof. pose proof (Byte.to_N_bounded x). lia. Qed.

Lemma byteOfN_mod (n : N) (x : byte) : (n mod 256)%N = Byte.to_N x -> Base64.byteOfN n = x.
Proof.
  intros H. unfold Base64.byteOfN. rewrite H. now rewrite Byte.of_to_N.
Qed.

(** Decoding what [toString('base64')] produced gives the bytes back. *)
Lemma decode_encode (buf : Buffer) : Base64.decode (Base64.encode buf) = buf.
Proof.
  unfold Base64.decode.
  induction buf as [|a|a b|a b c rest IH] using list_ind3.
  - reflexivity.
  - cbn [Base64.encode].
    pose proof (sextets3_spec (to_N_lt a) (b := 0%N) (c := 0%N) eq_refl eq_refl) as H.
    destruct (Base64.sextets3 (Byte.to_N a) 0 0) as [[[s0 s1] s2] s3].
    destruct H as (H0 & H1 & _ & _ & Ha & _).
    rewrite !sextets_cons by assumption.
    cbn. f_equal. now apply byteOfN_mod.
  - cbn [Base64.encode].
    pose proof (sextets3_spec (to_N_lt a) (to_N_lt b) (c := 0%N) eq_refl) as H.
    destruct (Base64.sextets3 (Byte.to_N a) (Byte.to_N b) 0) as [[[s0 s1] s2] s3].
    destruct H as (H0 & H1 & H2 & _ & Ha & Hb & _).
    rewrite !sextets_cons by assumption.
    cbn. f_equal; [|f_equal]; now apply byteOfN_mod.
  - cbn [Base64.encode].
    pose proof (sextets3_spec (to_N_lt a) (to_N_lt b) (to_N_lt c)) as H.
    destruct (Base64.sextets3 (Byte.to_N a) (Byte.to_N b) (Byte.to_N c)) as [[[s0 s1] s2] s3].
    destruct H as (H0 & H1 & H2 & H3 & Ha & Hb & Hc).
    rewrite !sextets_cons by assumption.
    cbn [Base64.bytesOfSextets]. rewrite IH.
    f_equal; [|f_equal; [|f_equal]]; now apply byteOfN_mod.
Qed.


(** ** Strings and buffers *)

Lemma startsWith_append (p s : string) : JsString.startsWith (p ++ s) p = true.
Proof.
  induction p as [|c p IH]; [reflexivity|].
  cbn. now rewrite Ascii.eqb_refl, IH.
Qed.

Lemma slice_append (p s : string) : JsString.slice (p ++ s) (String.length p) = s.
Proof. induction p as [|c p IH]; [reflexivity|]. exact IH. Qed.

Lemma isEmpty_false (s : string) : s <> EmptyString -> JsString.isEmpty s = false.
Proof. destruct s; [congruence | reflexivity]. Qed.

Lemma isEmpty_true (s : string) : JsString.isEmpty s = true -> s = EmptyString.
Proof. destruct s; [reflexivity | discriminate]. Qed.

Lemma subarray_app (a b r : Buffer) (start stop : nat) :
  length a = start -> start + length b = stop ->
  subarray (a ++ b ++ r) start stop = b.
Proof.
  intros <- <-. unfold subarray.
  rewrite skipn_app, skipn_all, Nat.sub_diag. cbn [skipn app].
  replace (length a + length b - length a) with (length b) by lia.
  now rewrite firstn_app, Nat.sub_diag, firstn_all, app_nil_r.
Qed.

Lemma subarrayFrom_app (a r : Buffer) (start : nat) :
  length a = start -> subarrayFrom (a ++ r) start = r.
Proof.
  intros <-. unfold subarrayFrom.
  now rewrite skipn_app, skipn_all, Nat.sub_diag.
Qed.

(** The envelope is parsed back into the four fields it was built from. *)
Lemma envelope_fields (salt iv authTag encrypted : Buffer) :
  length salt = SALT_LENGTH -> length iv = IV_LENGTH ->
  length authTag = AUTH_TAG_LENGTH ->
  let combined := salt ++ iv ++ authTag ++ encrypted in
  subarray combined 0 (0 + SALT_LENGTH) = salt
  /\ subarray combined (0 + SALT_LENGTH) (0 + SALT_LENGTH + IV_LENGTH) = iv
  /\ subarray combined (0 + SALT_LENGTH + IV_LENGTH)
       (0 + SALT_LENGTH + IV_LENGTH + AUTH_TAG_LENGTH) = authTag
  /\ subarrayFrom combined (0 + SALT_LENGTH + IV_LENGTH + AUTH_TAG_LENGTH) = encrypted.
Proof.
  intros Hs Hi Ht combined. subst combined.
  unfold SALT_LENGTH, IV_LENGTH, AUTH_TAG_LENGTH in *.
  repeat split.
  - apply (subarray_app [] salt); [reflexivity | cbn; lia].
  - apply (subarray_app salt iv); [assumption | lia].
  - rewrite (app_assoc salt iv).
    apply (subarray_app (salt ++ iv) authTag); [rewrite length_app|]; lia.
  - rewrite (app_assoc salt iv), (app_assoc (salt ++ iv) authTag).
    apply subarrayFrom_app. rewrite !length_app. lia.
Qed.

(* ===================================================================== *)
(** ** The cipher engine *)
(* ===================================================================== *)

Lemma randomBytes_length (size : nat) (e : entropy) :
  length (fst (randomBytes size e)) = size.
Proof. apply contracts. Qed.

Lemma pbkdf2_length (password : string) (salt : Buffer) (iterations : N)
  (keylen : nat) (digest : string) :
  length (pbkdf2 password salt iterations keylen digest) = keylen.
Proof. apply contracts. Qed.

Lemma authTag_length (key iv plaintext : Buffer) :
  length (snd (cipher ALGORITHM key iv plaintext)) = AUTH_TAG_LENGTH.
Proof. apply contracts. Qed.

Lemma decipher_cipher (key iv plaintext : Buffer) :
  length key = KEY_LENGTH -> length iv = IV_LENGTH ->
  decipher ALGORITHM key iv
    (snd (cipher ALGORITHM key iv plaintext))
    (fst (cipher ALGORITHM key iv plaintext)) = Plain plaintext.
Proof. apply contracts. Qed.

(** *** UTF-8 *)

Lemma between_spec (lo hi : N) (b : byte) :
  Utf8.between lo hi b = true <-> (lo <= Byte.to_N b <= hi)%N.
Proof.
  unfold Utf8.between. rewrite andb_true_iff, !N.leb_le. tauto.
Qed.

Lemma between_false (lo hi : N) (b : byte) :
  Utf8.between lo hi b = false <-> (Byte.to_N b < lo \/ hi < Byte.to_N b)%N.
Proof.
  unfold Utf8.between. rewrite andb_false_iff, !N.leb_gt. tauto.
Qed.

(** After the first byte [ED] the range of the next byte ends below
    the surrogates. *)
Lemma lead_inv (b : byte) (k : nat) (lo hi : N) :
  Utf8.lead b = Some (k, (lo, hi)) ->
  Utf8.between 0xED%N 0xED%N b = true -> (hi < 0xA0)%N.
Proof.
  intros Hlead Hb. apply between_spec in Hb. unfold Utf8.lead in Hlead.
  repeat match type of Hlead with
         | (if ?c then _ else _) = _ => destruct c eqn:?
         end;
    try discriminate Hlead; injection Hlead as <- <- <-;
    repeat match goal with
           | H : Utf8.between _ _ _ = true |- _ => apply between_spec in H
           | H : Utf8.between _ _ _ = false |- _ => apply between_false in H
           end;
    lia.
Qed.

Lemma encode_cons (b : byte) (r : Buffer) :
  Utf8.between 0xED 0xED b = false -> Utf8.encode (b :: r) = b :: Utf8.encode r.
Proof.
  intros H. destruct r as [|c1 [|c2 r2]]; try reflexivity.
  cbn [Utf8.encode]. now rewrite H.
Qed.

Lemma encode_cons2 (b c1 : byte) (r : Buffer) :
  Utf8.between 0xA0 0xBF c1 = false ->
  Utf8.encode (b :: c1 :: r) = b :: Utf8.encode (c1 :: r).
Proof.
  intros H. destruct r as [|c2 r2]; try reflexivity.
  cbn [Utf8.encode]. now rewrite H, andb_false_r.
Qed.

Lemma continuation_not_lead (c : byte) :
  Utf8.continuation c = true -> Utf8.between 0xED 0xED c = false.
Proof.
  intros H. apply between_spec in H. apply between_false. lia.
Qed.

Lemma between_continuation (lo hi : N) (c : byte) :
  (0x80 <= lo)%N -> (hi <= 0xBF)%N ->
  Utf8.between lo hi c = true -> Utf8.continuation c = true.
Proof.
  intros Hlo Hhi H. apply between_spec in H. apply between_spec. lia.
Qed.

Lemma lead_bounds (b : byte) (k : nat) (lo hi : N) :
  Utf8.lead b = Some (k, (lo, hi)) -> (0x80 <= lo)%N /\ (hi <= 0xBF)%N.
Proof.
  unfold Utf8.lead.
  repeat match goal with
         | |- context [if Utf8.between ?l ?h b then _ else _] =>
             destruct (Utf8.between l h b)
         end;
    intros [= <- <- <-] || discriminate; lia.
Qed.

(** The first byte of a sequence is kept by the encoder, and so are the
    bytes that follow it. *)
Lemma encode_lead (b : byte) (k : nat) (lo hi : N) (c1 : byte) (r : Buffer) :
  Utf8.lead b = Some (k, (lo, hi)) -> Utf8.between lo hi c1 = true ->
  Utf8.encode (b :: c1 :: r) = b :: Utf8.encode (c1 :: r).
Proof.
  intros Hlead Hc1.
  destruct (Utf8.between 0xED 0xED b) eqn:Hb.
  - apply encode_cons2. pose proof (@lead_inv b k lo hi Hlead Hb) as Hhi. apply between_spec in Hc1. apply between_false. lia.
  - now apply encode_cons.
Qed.

Lemma encode_valid (n : nat) :
  forall buf, length buf <= n -> Utf8.valid buf = true -> Utf8.encode buf = buf.
Proof.
  induction n as [|n IH]; intros buf Hn H.
  - destruct buf; [reflexivity | cbn in Hn; lia].
  - destruct buf as [|b r]; [reflexivity|].
    cbn [Utf8.valid] in H. cbn [length] in Hn.
    destruct (Utf8.lead b) as [[k [lo hi]]|] eqn:Hlead; [|discriminate H].
    destruct (@lead_bounds b k lo hi Hlead) as [Hlo Hhi].
    destruct k as [|[|[|[|k]]]]; try discriminate H.
    + assert (Hb : Utf8.between 0xED 0xED b = false).
      { unfold Utf8.lead in Hlead.
        destruct (Utf8.between 0 127 b) eqn:E; [|
          repeat match type of Hlead with
                 | (if ?c then _ else _) = _ => destruct c; try discriminate Hlead
                 end].
        apply between_spec in E. apply between_false. lia. }
      rewrite encode_cons by exact Hb. f_equal. apply IH; [lia | exact H].
    + destruct r as [|c1 r1]; [discriminate H|].
      apply andb_prop in H. destruct H as [H1 H].
      rewrite (@encode_lead b _ lo hi c1 _ Hlead H1).
      rewrite encode_cons
        by (apply continuation_not_lead; exact (@between_continuation lo hi c1 Hlo Hhi H1)).
      do 2 f_equal. apply IH; [cbn in Hn; lia | exact H].
    + destruct r as [|c1 [|c2 r2]]; try discriminate H.
      apply andb_prop in H. destruct H as [H H3].
      apply andb_prop in H. destruct H as [H1 H2].
      rewrite (@encode_lead b _ lo hi c1 _ Hlead H1).
      rewrite encode_cons
        by (apply continuation_not_lead; exact (@between_continuation lo hi c1 Hlo Hhi H1)).
      rewrite encode_cons by (apply continuation_not_lead; exact H2).
      do 3 f_equal. apply IH; [cbn in Hn; lia | exact H3].
    + destruct r as [|c1 [|c2 [|c3 r3]]]; try discriminate H.
      apply andb_prop in H. destruct H as [H H4].
      apply andb_prop in H. destruct H as [H H3].
      apply andb_prop in H. destruct H as [H1 H2].
      rewrite (@encode_lead b _ lo hi c1 _ Hlead H1).
      rewrite encode_cons
        by (apply continuation_not_lead; exact (@between_continuation lo hi c1 Hlo Hhi H1)).
      rewrite encode_cons by (apply continuation_not_lead; exact H2).
      rewrite encode_cons by (apply continuation_not_lead; exact H3).
      do 4 f_equal. apply IH; [cbn in Hn; lia | exact H4].
Qed.

Lemma decode_valid (n : nat) :
  forall buf, length buf <= n -> Utf8.valid buf = true -> Utf8.decode buf = buf.
Proof.
  unfold Utf8.decode.
  induction n as [|n IH]; intros buf Hn H.
  - destruct buf; [reflexivity | cbn in Hn; lia].
  - destruct buf as [|b r]; [reflexivity|].
    cbn [Utf8.valid] in H. cbn [length] in Hn.
    cbn [Utf8.decodeFrom Utf8.step]. unfold Utf8.start.
    destruct (Utf8.lead b) as [[k [lo hi]]|] eqn:Hlead; [|discriminate H].
    destruct k as [|[|[|[|k]]]]; try discriminate H.
    + cbn [app]. f_equal. apply IH; [lia | exact H].
    + destruct r as [|c1 r1]; [discriminate H|].
      apply andb_prop in H. destruct H as [H1 H].
      cbn [app Utf8.decodeFrom Utf8.step Utf8.lower Utf8.upper Utf8.needed Utf8.seen].
      rewrite H1. cbn [app]. do 2 f_equal. apply IH; [cbn in Hn; lia | exact H].
    + destruct r as [|c1 [|c2 r2]]; try discriminate H.
      apply andb_prop in H. destruct H as [H H3].
      apply andb_prop in H. destruct H as [H1 H2].
      cbn [app Utf8.decodeFrom Utf8.step Utf8.lower Utf8.upper Utf8.needed Utf8.seen].
      rewrite H1.
      cbn [app Utf8.decodeFrom Utf8.step Utf8.lower Utf8.upper Utf8.needed Utf8.seen].
      unfold Utf8.continuation in H2. rewrite H2. cbn [app].
      do 3 f_equal. apply IH; [cbn in Hn; lia | exact H3].
    + destruct r as [|c1 [|c2 [|c3 r3]]]; try discriminate H.
      apply andb_prop in H. destruct H as [H H4].
      apply andb_prop in H. destruct H as [H H3].
      apply andb_prop in H. destruct H as [H1 H2].
      cbn [app Utf8.decodeFrom Utf8.step Utf8.lower Utf8.upper Utf8.needed Utf8.seen].
      rewrite H1.
      cbn [app Utf8.decodeFrom Utf8.step Utf8.lower Utf8.upper Utf8.needed Utf8.seen].
      unfold Utf8.continuation in H2, H3. rewrite H2.
      cbn [app Utf8.decodeFrom Utf8.step Utf8.lower Utf8.upper Utf8.needed Utf8.seen].
      rewrite H3. cbn [app].
      do 4 f_equal. apply IH; [cbn in Hn; lia | exact H4].
Qed.

(** A well-formed string is encoded by its own bytes and decoded from
    them. *)
Lemma utf8String_utf8Bytes (s : string) :
  wellFormed s = true -> utf8String (utf8Bytes s) = s.
Proof.
  unfold wellFormed, utf8String, utf8Bytes. intros H.
  rewrite (@encode_valid _ _ (Nat.le_refl _) H), (@decode_valid _ _ (Nat.le_refl _) H).
  apply string_of_list_byte_of_string.
Qed.

Lemma truthy_Some (s : string) : truthy (valueOf (Some s)) = negb (JsString.isEmpty s).
Proof. reflexivity. Qed.

(** [encrypt] on non-empty arguments draws a salt, then a nonce, and
    returns the envelope built from them. *)
Lemma encrypt_ok (p s : string) (e : entropy) :
  p <> EmptyString -> s <> EmptyString ->
  encrypt (Some p) (Some s) e
  = Ok (envelopeOf p s (fst (randomBytes SALT_LENGTH e))
          (fst (randomBytes IV_LENGTH (snd (randomBytes SALT_LENGTH e)))),
        snd (randomBytes IV_LENGTH (snd (randomBytes SALT_LENGTH e)))).
Proof.
  intros Hp Hs. unfold encrypt, envelopeOf.
  rewrite !truthy_Some, !isEmpty_false by assumption. cbn [negb orb].
  unfold bind, draw, ret.
  destruct (randomBytes SALT_LENGTH e) as [salt e1]. cbn [fst snd].
  destruct (randomBytes IV_LENGTH e1) as [iv e2]. cbn [fst snd stringOf].
  destruct (cipher ALGORITHM (deriveKey s salt) iv (utf8Bytes p)) as [encrypted authTag].
  reflexivity.
Qed.

Lemma envelope_isEncrypted (x : string) : isEncrypted (Str (ENCRYPTED_PREFIX ++ x)) = true.
Proof. apply startsWith_append. Qed.

(** Decrypting an envelope with the secret it was built with. *)
Lemma decrypt_envelopeOf (p s : string) (salt iv : Buffer) :
  s <> EmptyString ->
  length salt = SALT_LENGTH -> length iv = IV_LENGTH ->
  decrypt (Some (envelopeOf p s salt iv)) (Some s) = Ok (utf8String (utf8Bytes p)).
Proof.
  intros Hs Hsalt Hiv. unfold decrypt, envelopeOf.
  set (key := deriveKey s salt).
  set (sealed := cipher ALGORITHM key iv (utf8Bytes p)).
  rewrite !truthy_Some, (isEmpty_false Hs).
  change (JsString.isEmpty (ENCRYPTED_PREFIX ++ _)) with false.
  cbn [negb orb valueOf stringOf].
  rewrite envelope_isEncrypted. cbn [negb].
  rewrite slice_append, decode_encode.
  destruct (@envelope_fields salt iv (snd sealed) (fst sealed) Hsalt Hiv
              (authTag_length key iv (utf8Bytes p))) as (E1 & E2 & E3 & E4).
  rewrite E1, E2, E3, E4.
  fold key. subst sealed.
  now rewrite decipher_cipher; [|apply pbkdf2_length|assumption].
Qed.

(** For a plaintext without unpaired surrogates the result is the
    plaintext. *)
Lemma decrypt_envelopeOf_wellFormed (p s : string) (salt iv : Buffer) :
  wellFormed p = true -> s <> EmptyString ->
  length salt = SALT_LENGTH -> length iv = IV_LENGTH ->
  decrypt (Some (envelopeOf p s salt iv)) (Some s) = Ok p.
Proof.
  intros Hp Hs Hsalt Hiv.
  now rewrite decrypt_envelopeOf, utf8String_utf8Bytes.
Qed.

(** C1, as the code has it.  Round trip: for every non-empty plaintext
    [p] and every non-empty secret [s], [encrypt(p, s)] returns an
    envelope, and [decrypt] of that envelope with [s] returns the string
    that the UTF-8 bytes of [p] decode to; this is exactly [p] when [p]
    holds no unpaired surrogate. *)
Theorem decrypt_encrypt_roundtrip (p s : string) (e : entropy) :
  p <> EmptyString -> s <> EmptyString ->
  exists envelope e',
    encrypt (Some p) (Some s) e = Ok (envelope, e')
    /\ decrypt (Some envelope) (Some s) = Ok (utf8String (utf8Bytes p))
    /\ (wellFormed p = true -> decrypt (Some envelope) (Some s) = Ok p).
Proof.
  intros Hp Hs.
  eexists _, _. split; [|split].
  - apply encrypt_ok; assumption.
  - apply decrypt_envelopeOf; [assumption | apply randomBytes_length ..].
  - intros Hw. apply decrypt_envelopeOf_wellFormed;
      [assumption | assumption | apply randomBytes_length ..].
Qed.

(** C10.  [decrypt] with an empty or absent envelope, or an empty or
    absent secret, throws the invalid-input error, whatever the other
    argument is and whatever the primitives would do: the check precedes
    the prefix check, the parsing and the key derivation.  The error is
    not the one reported for text that is not encrypted. *)
Theorem decrypt_requires_inputs (encryptedText masterPassword : option string) :
  missing encryptedText \/ missing masterPassword ->
  decrypt encryptedText masterPassword = Throw ENCRYPTED_TEXT_REQUIRED
  /\ errorKind ENCRYPTED_TEXT_REQUIRED = InvalidInput
  /\ ENCRYPTED_TEXT_REQUIRED <> NOT_ENCRYPTED.
Proof.
  intros H. split; [|split; [reflexivity | discriminate]].
  unfold decrypt.
  destruct H as [[-> | ->] | [-> | ->]]; cbn [valueOf truthy JsString.isEmpty negb orb];
    try reflexivity.
  all: now rewrite orb_true_r.
Qed.

(** C3, as the code has it.  A non-empty string that does not begin with
    the exact prefix ["encrypted:v1:"], in particular one that begins
    with ["encrypted:v2:"], is rejected by [decrypt] as text that is not
    encrypted; it is never parsed as a v1 envelope, and the code has no
    error for an unsupported version. *)
Theorem decrypt_other_version (text secret rest : string) :
  secret <> EmptyString ->
  (text <> EmptyString /\ isEncrypted (Str text) = false
   \/ text = ("encrypted:v2:" ++ rest)%string) ->
  decrypt (Some text) (Some secret) = Throw NOT_ENCRYPTED
  /\ errorKind NOT_ENCRYPTED = NotEncrypted.
Proof.
  intros Hs H. split; [|reflexivity].
  assert (Ht : text <> EmptyString /\ isEncrypted (Str text) = false).
  { destruct H as [H | ->]; [exact H|]. split; [discriminate | reflexivity]. }
  destruct Ht as [Hne Henc].
  unfold decrypt.
  rewrite !truthy_Some, !isEmpty_false by assumption.
  cbn [negb orb valueOf]. now rewrite Henc.
Qed.

(* ===================================================================== *)
(** ** The tree codec *)
(* ===================================================================== *)

(** Induction on documents, with the hypothesis for every item of an
    array and every value of an object. *)
Lemma node_induction (P : node -> Prop) :
  P Undefined -> P Null ->
  (forall b, P (Boolean b)) -> (forall n, P (Number n)) -> (forall s, P (Str s)) ->
  (forall items, Forall P items -> P (Arr items)) ->
  (forall entries, Forall (fun entry => P (snd entry)) entries -> P (Obj entries)) ->
  (forall time entries,
     Forall (fun entry => P (snd entry)) entries -> P (Date time entries)) ->
  forall d, P d.
Proof.
  intros HU HN HB HZ HS HA HO HD.
  fix IH 1.
  intros [| |b|n|s|items|entries|time entries].
  - exact HU.
  - exact HN.
  - apply HB.
  - apply HZ.
  - apply HS.
  - apply HA. induction items as [|x r IHr]; constructor; [apply IH | exact IHr].
  - apply HO. induction entries as [|[k v] r IHr]; constructor; [apply IH | exact IHr].
  - apply HD. induction entries as [|[k v] r IHr]; constructor; [apply IH | exact IHr].
Qed.

Lemma bind_Ok {A B} (m : M A) (k : A -> M B) (e e' : entropy) (b : B) :
  bind m k e = Ok (b, e') ->
  exists a e1, m e = Ok (a, e1) /\ k a e1 = Ok (b, e').
Proof.
  unfold bind. destruct (m e) as [[a e1]|msg]; [|discriminate].
  intros H. now exists a, e1.
Qed.

Lemma ret_Ok {A} (a b : A) (e e' : entropy) : ret a e = Ok (b, e') -> a = b /\ e = e'.
Proof. unfold ret. intros [= -> ->]. now split. Qed.

Lemma allM_nil_Ok {A B} (f : nat -> A -> M B) i e l' e' :
  allM f i [] e = Ok (l', e') -> l' = [] /\ e' = e.
Proof. cbn. intros H. apply ret_Ok in H. destruct H; now subst. Qed.

Lemma allM_cons_Ok {A B} (f : nat -> A -> M B) i x r e l' e' :
  allM f i (x :: r) e = Ok (l', e') ->
  exists y e1 ys, f i x e = Ok (y, e1) /\ allM f (S i) r e1 = Ok (ys, e') /\ l' = y :: ys.
Proof.
  cbn [allM]. intros H.
  apply bind_Ok in H. destruct H as (y & e1 & Hy & H).
  apply bind_Ok in H. destruct H as (ys & e2 & Hys & H).
  apply ret_Ok in H. destruct H as [<- <-].
  now exists y, e1, ys.
Qed.

(** What [encryptSensitiveFields] does with a string leaf. *)
Lemma encryptSensitiveFields_Str (s : string) mp path :
  encryptSensitiveFields (Str s) mp path
  = if wantsEncryption path s && negb (isEncrypted (Str s))
    then bind (encrypt (Some s) mp) (fun envelope => ret (Str envelope))
    else ret (Str s).
Proof.
  cbn [encryptSensitiveFields].
  destruct (isEncrypted (Str s)); [now rewrite andb_false_r|].
  now rewrite andb_true_r.
Qed.

(** Whatever [encrypt] returns carries the prefix. *)
Lemma encrypt_isEncrypted plaintext mp e envelope e' :
  encrypt plaintext mp e = Ok (envelope, e') -> isEncrypted (Str envelope) = true.
Proof.
  unfold encrypt.
  destruct (negb (truthy (valueOf plaintext)) || negb (truthy (valueOf mp)));
    [discriminate|].
  unfold bind, draw, ret.
  destruct (randomBytes SALT_LENGTH e) as [salt e1].
  destruct (randomBytes IV_LENGTH e1) as [iv e2].
  destruct (cipher _ _ _ _) as [encrypted authTag].
  intros [= <- _]. apply envelope_isEncrypted.
Qed.

(** The relation between a string leaf and what the pass puts in its
    place. *)
Lemma encryptSensitiveFields_leaf (s : string) mp path e d' e' :
  encryptSensitiveFields (Str s) mp path e = Ok (d', e') ->
  exists s', d' = Str s'
    /\ (wantsEncryption path s && negb (isEncrypted (Str s)) = true ->
        isEncrypted (Str s') = true /\ s' <> s)
    /\ (wantsEncryption path s && negb (isEncrypted (Str s)) = false ->
        s' = s /\ e' = e).
Proof.
  rewrite encryptSensitiveFields_Str.
  destruct (wantsEncryption path s && negb (isEncrypted (Str s))) eqn:Hc.
  - intros H. apply bind_Ok in H. destruct H as (envelope & e1 & Henc & H).
    apply ret_Ok in H. destruct H as [<- <-].
    exists envelope. split; [reflexivity|]. split; [|discriminate].
    intros _. pose proof (encrypt_isEncrypted _ _ _ Henc) as Hen.
    split; [exact Hen|]. intros ->.
    apply andb_prop in Hc. destruct Hc as [_ Hc]. now rewrite Hen in Hc.
  - intros H. apply ret_Ok in H. destruct H as [<- <-].
    exists s. split; [reflexivity|]. split; [discriminate|]. now intros _.
Qed.

Lemma bind_run {A B} (m : M A) (k : A -> M B) (e e1 : entropy) (a : A) :
  m e = Ok (a, e1) -> bind m k e = k a e1.
Proof. unfold bind. now intros ->. Qed.

(** A pass over a list whose items are fixed points of the item pass is
    a fixed point of the list pass and draws nothing. *)
Lemma allM_fixed {A} (f : nat -> A -> M A) (l : list A) :
  Forall (fun x => forall i e y e', f i x e = Ok (y, e') ->
                   forall e2, f i y e2 = Ok (y, e2)) l ->
  forall i e l' e', allM f i l e = Ok (l', e') ->
  forall e2, allM f i l' e2 = Ok (l', e2).
Proof.
  induction 1 as [|x r Hx _ IH]; intros i e l' e' H e2.
  - apply allM_nil_Ok in H. destruct H as [-> _]. reflexivity.
  - apply allM_cons_Ok in H. destruct H as (y & e1 & ys & Hy & Hys & ->).
    cbn [allM].
    erewrite bind_run by (eapply Hx; exact Hy).
    erewrite bind_run by (eapply IH; exact Hys).
    reflexivity.
Qed.

(** C7.  [encryptSensitiveFields] is idempotent: when a pass over a
    document [d], started at any path, returns [d'], a second pass over
    [d'] with the same secret returns [d'] again and draws no random
    bytes: every leaf that the first pass encrypted carries the prefix
    and is skipped, every other leaf is left alone again. *)
Theorem encryptSensitiveFields_idempotent (d : node) :
  forall mp path e d' e',
    encryptSensitiveFields d mp path e = Ok (d', e') ->
    forall e2, encryptSensitiveFields d' mp path e2 = Ok (d', e2).
Proof.
  induction d as [| |b|n|s|items IH|entries IH|time entries IH] using node_induction;
    intros mp path e d' e' H e2.
  1-4: cbn in H; apply ret_Ok in H; destruct H as [<- _]; reflexivity.
  - destruct (encryptSensitiveFields_leaf _ _ _ _ H) as (s' & -> & Hyes & Hno).
    rewrite encryptSensitiveFields_Str.
    destruct (wantsEncryption path s && negb (isEncrypted (Str s))) eqn:Hc.
    + destruct (Hyes eq_refl) as [Hen _]. now rewrite Hen, andb_false_r.
    + destruct (Hno eq_refl) as [-> _]. now rewrite Hc.
  - cbn [encryptSensitiveFields] in H |- *.
    apply bind_Ok in H. destruct H as (items' & e1 & Hall & H).
    apply ret_Ok in H. destruct H as [<- <-].
    cbn [encryptSensitiveFields].
    erewrite bind_run; [reflexivity|].
    eapply allM_fixed; [|exact Hall].
    eapply Forall_impl; [|exact IH].
    intros item Hitem i e0 y e0' Hy e3. eapply Hitem; exact Hy.
  - cbn [encryptSensitiveFields] in H |- *.
    apply bind_Ok in H. destruct H as (entries' & e1 & Hall & H).
    apply ret_Ok in H. destruct H as [<- <-].
    cbn [encryptSensitiveFields].
    erewrite bind_run; [reflexivity|].
    eapply allM_fixed; [|exact Hall].
    eapply Forall_impl; [|exact IH].
    intros [k v] Hv i e0 y e0' Hy e3. cbn [fst snd] in *.
    apply bind_Ok in Hy. destruct Hy as (v' & e4 & Hv' & Hy).
    apply ret_Ok in Hy. destruct Hy as [<- <-]. cbn [fst snd].
    erewrite bind_run; [reflexivity|]. exact (Hv _ _ _ _ _ Hv' e3).
  - cbn [encryptSensitiveFields] in H |- *.
    apply bind_Ok in H. destruct H as (entries' & e1 & Hall & H).
    apply ret_Ok in H. destruct H as [<- <-].
    cbn [encryptSensitiveFields].
    erewrite bind_run; [reflexivity|].
    eapply allM_fixed; [|exact Hall].
    eapply Forall_impl; [|exact IH].
    intros [k v] Hv i e0 y e0' Hy e3. cbn [fst snd] in *.
    apply bind_Ok in Hy. destruct Hy as (v' & e4 & Hv' & Hy).
    apply ret_Ok in Hy. destruct Hy as [<- <-]. cbn [fst snd].
    erewrite bind_run; [reflexivity|]. exact (Hv _ _ _ _ _ Hv' e3).
Qed.

(** A pass over a list returns when the pass over each item does. *)
Lemma allM_total {A B} (f : nat -> A -> M B) (l : list A) :
  Forall (fun x => forall i e, exists y e', f i x e = Ok (y, e')) l ->
  forall i e, exists l' e', allM f i l e = Ok (l', e').
Proof.
  induction 1 as [|x r Hx _ IH]; intros i e.
  - now exists [], e.
  - destruct (Hx i e) as (y & e1 & Hy).
    destruct (IH (S i) e1) as (ys & e2 & Hys).
    exists (y :: ys), e2. cbn [allM].
    erewrite bind_run by exact Hy. erewrite bind_run by exact Hys. reflexivity.
Qed.

Lemma wantsEncryption_nonempty (path s : string) :
  wantsEncryption path s = true -> s <> EmptyString.
Proof.
  unfold wantsEncryption. intros H ->.
  apply andb_prop in H. destruct H as [_ H]. discriminate H.
Qed.

(** With a non-empty secret the pass returns a document, whatever the
    document it is given. *)
Lemma encryptSensitiveFields_total (d : node) (s : string) :
  s <> EmptyString ->
  forall path e, exists d' e', encryptSensitiveFields d (Some s) path e = Ok (d', e').
Proof.
  intros Hs.
  induction d as [| |b|n|v|items IH|entries IH|time entries IH] using node_induction; intros path e.
  1-4: eexists _, _; reflexivity.
  - rewrite encryptSensitiveFields_Str.
    destruct (wantsEncryption path v && negb (isEncrypted (Str v))) eqn:Hc.
    + apply andb_prop in Hc. destruct Hc as [Hw _].
      eexists _, _. erewrite bind_run; [reflexivity|].
      apply encrypt_ok; [now apply (wantsEncryption_nonempty path) | exact Hs].
    + eexists _, _; reflexivity.
  - cbn [encryptSensitiveFields].
    destruct (@allM_total _ _
                (fun index item => encryptSensitiveFields item (Some s) (indexPath path index))
                items) with (i := 0) (e := e) as (items' & e' & Hall).
    { eapply Forall_impl; [|exact IH]. intros item Hitem i e0. apply Hitem. }
    eexists _, _. erewrite bind_run by exact Hall. reflexivity.
  - cbn [encryptSensitiveFields].
    destruct (@allM_total _ _
                (fun (_ : nat) entry =>
                   bind (encryptSensitiveFields (snd entry) (Some s) (keyPath path (fst entry)))
                        (fun value => ret (fst entry, value)))
                entries) with (i := 0) (e := e) as (entries' & e' & Hall).
    { eapply Forall_impl; [|exact IH]. intros [k v] Hv i e0. cbn [fst snd] in *.
      destruct (Hv (keyPath path k) e0) as (v' & e1 & Hv').
      eexists _, _. erewrite bind_run by exact Hv'. reflexivity. }
    eexists _, _. erewrite bind_run by exact Hall. reflexivity.
  - cbn [encryptSensitiveFields].
    destruct (@allM_total _ _
                (fun (_ : nat) entry =>
                   bind (encryptSensitiveFields (snd entry) (Some s) (keyPath path (fst entry)))
                        (fun value => ret (fst entry, value)))
                entries) with (i := 0) (e := e) as (entries' & e' & Hall).
    { eapply Forall_impl; [|exact IH]. intros [k v] Hv i e0. cbn [fst snd] in *.
      destruct (Hv (keyPath path k) e0) as (v' & e1 & Hv').
      eexists _, _. erewrite bind_run by exact Hv'. reflexivity. }
    eexists _, _. erewrite bind_run by exact Hall. reflexivity.
Qed.

(** The preview of a list agrees with the rewrite of the list when the
    preview of each item agrees with the rewrite of the item. *)
Lemma forEachIndexed_allM {A}
  (f : nat -> A -> M A) (g : nat -> A -> list string -> list string)
  (h : nat -> A -> A -> list string) (l : list A) :
  Forall (fun x => forall i e y e' acc,
            f i x e = Ok (y, e') -> g i x acc = acc ++ h i x y) l ->
  forall i e l' e' acc,
    allM f i l e = Ok (l', e') ->
    forEachIndexed g i l acc = acc ++ concatZip h i l l'.
Proof.
  induction 1 as [|x r Hx _ IH]; intros i e l' e' acc H.
  - cbn. now rewrite app_nil_r.
  - apply allM_cons_Ok in H. destruct H as (y & e1 & ys & Hy & Hys & ->).
    cbn [forEachIndexed concatZip].
    rewrite (Hx _ _ _ _ acc Hy), (IH _ _ _ _ _ Hys).
    now rewrite app_assoc.
Qed.

Lemma listSensitiveFields_replacedPaths (d : node) :
  forall mp path e d' e' fields,
    encryptSensitiveFields d mp path e = Ok (d', e') ->
    listSensitiveFields d path fields = fields ++ replacedPaths d d' path.
Proof.
  induction d as [| |b|n|s|items IH|entries IH|time entries IH] using node_induction;
    intros mp path e d' e' fields H.
  1-4: cbn in H; apply ret_Ok in H; destruct H as [<- _]; cbn; now rewrite app_nil_r.
  - destruct (encryptSensitiveFields_leaf _ _ _ _ H) as (s' & -> & Hyes & Hno).
    cbn [listSensitiveFields replacedPaths].
    destruct (wantsEncryption path s && negb (isEncrypted (Str s))) eqn:Hc.
    + destruct (Hyes eq_refl) as [_ Hne].
      destruct (String.eqb_spec s s') as [->|_]; [now elim Hne | reflexivity].
    + destruct (Hno eq_refl) as [-> _].
      now rewrite String.eqb_refl, app_nil_r.
  - cbn [encryptSensitiveFields] in H.
    apply bind_Ok in H. destruct H as (items' & e1 & Hall & H).
    apply ret_Ok in H. destruct H as [<- <-].
    cbn [listSensitiveFields replacedPaths].
    eapply forEachIndexed_allM; [|exact Hall].
    eapply Forall_impl; [|exact IH].
    intros item Hitem i e0 y e0' acc Hy. eapply Hitem; exact Hy.
  - cbn [encryptSensitiveFields] in H.
    apply bind_Ok in H. destruct H as (entries' & e1 & Hall & H).
    apply ret_Ok in H. destruct H as [<- <-].
    cbn [listSensitiveFields replacedPaths].
    eapply forEachIndexed_allM; [|exact Hall].
    eapply Forall_impl; [|exact IH].
    intros [k v] Hv i e0 y e0' acc Hy. cbn [fst snd] in *.
    apply bind_Ok in Hy. destruct Hy as (v' & e4 & Hv' & Hy).
    apply ret_Ok in Hy. destruct Hy as [<- <-]. cbn [fst snd].
    eapply Hv; exact Hv'.
  - cbn [encryptSensitiveFields] in H.
    apply bind_Ok in H. destruct H as (entries' & e1 & Hall & H).
    apply ret_Ok in H. destruct H as [<- <-].
    cbn [listSensitiveFields replacedPaths].
    eapply forEachIndexed_allM; [|exact Hall].
    eapply Forall_impl; [|exact IH].
    intros [k v] Hv i e0 y e0' acc Hy. cbn [fst snd] in *.
    apply bind_Ok in Hy. destruct Hy as (v' & e4 & Hv' & Hy).
    apply ret_Ok in Hy. destruct Hy as [<- <-]. cbn [fst snd].
    eapply Hv; exact Hv'.
Qed.

(** C8.  The preview and the rewrite agree: for every document [d] and
    every non-empty secret [s], [encryptSensitiveFields(d, s)] returns a
    document [d'], and [listSensitiveFields(d)] is exactly the list of
    the paths of the string leaves that differ between [d] and [d'], in
    the order of the traversal.  The preview takes the document as a
    value and returns only the list of paths. *)
Theorem listSensitiveFields_previews_rewrite (d : node) (s : string) (e : entropy) :
  s <> EmptyString ->
  exists d' e',
    encryptSensitiveFields d (Some s) EmptyString e = Ok (d', e')
    /\ listSensitiveFields d EmptyString [] = replacedPaths d d' EmptyString.
Proof.
  intros Hs.
  destruct (encryptSensitiveFields_total d Hs EmptyString e) as (d' & e' & H).
  exists d', e'. split; [exact H|].
  exact (listSensitiveFields_replacedPaths _ _ _ _ [] H).
Qed.

Lemma allM_nth {A B} (f : nat -> A -> M B) (l : list A) :
  forall i e l' e', allM f i l e = Ok (l', e') ->
  forall n x, nth_error l n = Some x ->
  exists y e1 e1', nth_error l' n = Some y /\ f (i + n) x e1 = Ok (y, e1').
Proof.
  induction l as [|a r IH]; intros i e l' e' H n x Hn.
  - destruct n; discriminate.
  - apply allM_cons_Ok in H. destruct H as (y & e1 & ys & Hy & Hys & ->).
    destruct n as [|n].
    + injection Hn as <-. exists y, e, e1. rewrite Nat.add_0_r. now split.
    + destruct (IH _ _ _ _ Hys n x Hn) as (y' & e2 & e2' & Hn' & Hf).
      exists y', e2, e2'. split; [exact Hn'|].
      now rewrite Nat.add_succ_r.
Qed.

Lemma allM_lookup (mp : option string) (path name : string) (l : list (string * node)) :
  forall i e l' e',
    allM (fun (_ : nat) entry =>
            bind (encryptSensitiveFields (snd entry) mp (keyPath path (fst entry)))
                 (fun value => ret (fst entry, value))) i l e = Ok (l', e') ->
  forall c, Config.lookup name l = Some c ->
  exists c' e1 e1',
    Config.lookup name l' = Some c'
    /\ encryptSensitiveFields c mp (keyPath path name) e1 = Ok (c', e1').
Proof.
  induction l as [|[k v] r IH]; intros i e l' e' H c Hc.
  - discriminate.
  - apply allM_cons_Ok in H. destruct H as (y & e1 & ys & Hy & Hys & ->).
    cbn [fst snd] in Hy.
    apply bind_Ok in Hy. destruct Hy as (v' & e2 & Hv' & Hy).
    apply ret_Ok in Hy. destruct Hy as [<- <-].
    cbn [Config.lookup] in Hc |- *.
    destruct (String.eqb_spec k name) as [->|Hk].
    + injection Hc as <-. now exists v', e, e2.
    + exact (IH _ _ _ _ Hys c Hc).
Qed.

(** The pass over a document is the pass over each of its children, at
    the path extended by the step to the child. *)
Lemma child_encryptSensitiveFields (d : node) mp path e d' e' (st : step) (c : node) :
  encryptSensitiveFields d mp path e = Ok (d', e') ->
  child d st = Some c ->
  exists c' e1 e1',
    child d' st = Some c'
    /\ encryptSensitiveFields c mp (extend path st) e1 = Ok (c', e1').
Proof.
  intros H Hc.
  destruct st as [name|n]; destruct d; try discriminate Hc; cbn [child] in Hc.
  - cbn [encryptSensitiveFields] in H.
    apply bind_Ok in H. destruct H as (entries' & e1 & Hall & H).
    apply ret_Ok in H. destruct H as [<- <-].
    eapply allM_lookup; [exact Hall | exact Hc].
  - cbn [encryptSensitiveFields] in H.
    apply bind_Ok in H. destruct H as (entries' & e1 & Hall & H).
    apply ret_Ok in H. destruct H as [<- <-].
    eapply allM_lookup; [exact Hall | exact Hc].
  - cbn [encryptSensitiveFields] in H.
    apply bind_Ok in H. destruct H as (items' & e1 & Hall & H).
    apply ret_Ok in H. destruct H as [<- <-].
    exact (allM_nth _ _ _ _ Hall _ Hc).
Qed.

Lemma descend_encryptSensitiveFields (address : list step) :
  forall d mp path e d' e' c,
    encryptSensitiveFields d mp path e = Ok (d', e') ->
    descend d address = Some c ->
    exists c' e1 e1',
      descend d' address = Some c'
      /\ encryptSensitiveFields c mp (accumulated path address) e1 = Ok (c', e1').
Proof.
  induction address as [|st rest IH]; intros d mp path e d' e' c H Hc.
  - injection Hc as <-. now exists d', e, e'.
  - cbn [descend] in Hc |- *.
    destruct (child d st) as [c0|] eqn:Hst; [|discriminate].
    destruct (child_encryptSensitiveFields _ _ _ _ _ H Hst) as (c0' & e1 & e1' & Hst' & H0).
    rewrite Hst'. eapply IH; [exact H0 | exact Hc].
Qed.

Lemma isSensitive_iff (path : string) : isSensitive path = true <-> sensitivePath path.
Proof.
  unfold isSensitive, sensitivePatterns, sensitivePath.
  cbn [existsb test]. rewrite !orb_true_iff. intuition discriminate.
Qed.

(** C2.  The code at the example of the claim.  For the document
    [{credentials: {username: "u", password: "p"}, name: "n"}] and a
    non-empty secret, [encryptSensitiveFields] replaces the leaf at
    [credentials.password] with an envelope and returns the leaf at
    [credentials.username] as it is, in the clear, where the example of
    the claim and the docstring of the function (fields matching
    [credentials.*]) have it encrypted: [keyPath] gives to a key of the
    root a path without the leading dot that the patterns ask for, so
    that ["credentials.username"] does not contain [".credentials."],
    while the same leaf below any other key is replaced.  The rule of
    the claim holds of the code with the patterns as they are: the
    string leaf at any address of any document is replaced exactly when
    its accumulated path matches the sensitivity predicate, it is
    non-empty after trimming, and it is not already encrypted; what
    replaces it is an envelope. *)
Theorem encryptSensitiveFields_targets (s : string) (e : entropy) :
  s <> EmptyString ->
  (let salt := fst (randomBytes SALT_LENGTH e) in
   let e1 := snd (randomBytes SALT_LENGTH e) in
   let iv := fst (randomBytes IV_LENGTH e1) in
   encryptSensitiveFields exampleDocument (Some s) EmptyString e
   = Ok (Obj [ ("credentials",
                Obj [("username", Str "u");
                     ("password", Str (envelopeOf "p" s salt iv))]);
               ("name", Str "n") ],
         snd (randomBytes IV_LENGTH e1)))
  /\ (forall mp d e0 d' e', encryptSensitiveFields d mp EmptyString e0 = Ok (d', e') ->
      forall address v, descend d address = Some (Str v) ->
      exists v',
        descend d' address = Some (Str v')
        /\ (v' <> v <->
            sensitivePath (accumulated EmptyString address)
            /\ JsString.trim v <> EmptyString
            /\ isEncrypted (Str v) = false)
        /\ (v' <> v -> isEncrypted (Str v') = true)).
Proof.
  intros Hs. split.
  - cbv zeta. unfold exampleDocument.
    cbn [encryptSensitiveFields allM fst snd].
    change (keyPath EmptyString "credentials") with "credentials".
    change (keyPath EmptyString "name") with "name".
    change (keyPath "credentials" "username") with "credentials.username".
    change (keyPath "credentials" "password") with "credentials.password".
    change (isEncrypted (Str "u")) with false.
    change (isEncrypted (Str "p")) with false.
    change (isEncrypted (Str "n")) with false.
    replace (wantsEncryption "credentials.username" "u") with false
      by (vm_compute; reflexivity).
    replace (wantsEncryption "credentials.password" "p") with true
      by (vm_compute; reflexivity).
    replace (wantsEncryption "name" "n") with false by (vm_compute; reflexivity).
    cbv iota. unfold bind, ret. cbv beta iota.
    rewrite encrypt_ok by (assumption || discriminate).
    reflexivity.
  - intros mp d e0 d' e' H address v Hv.
    destruct (descend_encryptSensitiveFields _ _ _ _ _ H Hv) as (c' & e1 & e1' & Hc' & Hleaf).
    destruct (encryptSensitiveFields_leaf _ _ _ _ Hleaf) as (v' & -> & Hyes & Hno).
    exists v'. split; [exact Hc'|].
    set (path := accumulated EmptyString address) in *.
    assert (Hcond : wantsEncryption path v && negb (isEncrypted (Str v)) = true
                    <-> sensitivePath path /\ JsString.trim v <> EmptyString
                        /\ isEncrypted (Str v) = false).
    { unfold wantsEncryption. rewrite !andb_true_iff, isSensitive_iff, !negb_true_iff.
      split.
      - intros [[Hp Ht] Hen]. repeat split; try assumption.
        intros Ht'. now rewrite Ht' in Ht.
      - intros (Hp & Ht & Hen). repeat split; try assumption.
        now apply isEmpty_false. }
    destruct (wantsEncryption path v && negb (isEncrypted (Str v))) eqn:Hc.
    + destruct (Hyes eq_refl) as [Hen Hne]. split; [|now intros _].
      split; [intros _; now apply Hcond | now intros _].
    + destruct (Hno eq_refl) as [-> _]. split; [|now intros Hne].
      split; [now intros Hne|]. intros Hyes'. apply Hcond in Hyes'. discriminate.
Qed.

(* ===================================================================== *)
(** ** The configuration provider *)
(* ===================================================================== *)

Lemma to_uint_nonnil (i : nat) : Nat.to_uint i <> Decimal.Nil.
Proof.
  intros H. pose proof (Unsigned.of_to i) as Hi. rewrite H in Hi.
  cbn in Hi. subst i. discriminate H.
Qed.

Lemma arrayIndex_ofNat (i : nat) : Config.arrayIndex (JsString.ofNat i) = Some i.
Proof.
  unfold Config.arrayIndex, JsString.ofNat.
  rewrite NilZero.usu by apply to_uint_nonnil.
  rewrite Unsigned.of_to. now rewrite String.eqb_refl.
Qed.

Lemma arrayIndex_inv (name : string) (i : nat) :
  Config.arrayIndex name = Some i -> name = JsString.ofNat i.
Proof.
  unfold Config.arrayIndex.
  destruct (NilZero.uint_of_string name) as [d|]; [|discriminate].
  destruct (String.eqb_spec (JsString.ofNat (Nat.of_uint d)) name) as [E|]; [|discriminate].
  intros [= <-]. now symmetry.
Qed.

Lemma ofNat_inj (i j : nat) : JsString.ofNat i = JsString.ofNat j -> i = j.
Proof.
  intros H. pose proof (arrayIndex_ofNat i) as Hi.
  rewrite H, arrayIndex_ofNat in Hi. now injection Hi.
Qed.

Lemma get_nonobject (t : node) (p : Config.key) :
  Config.isObject t = false -> p <> [] -> Config.get t p = Undefined.
Proof.
  intros Ht Hp. destruct p as [|name rest]; [congruence|].
  destruct t; try discriminate Ht; reflexivity.
Qed.

Lemma get_Undefined (p : Config.key) : Config.get Undefined p = Undefined.
Proof. destruct p; reflexivity. Qed.

Lemma get_app (p q : Config.key) : forall t, Config.get t (p ++ q) = Config.get (Config.get t p) q.
Proof.
  induction p as [|name rest IH]; intros t; [reflexivity|].
  cbn [app Config.get]. destruct (Config.ownProperty t name); [apply IH|].
  now rewrite get_Undefined.
Qed.

Lemma lookup_upsert_same (name : string) (v : node) (entries : list (string * node)) :
  Config.lookup name (Config.upsert name v entries) = Some v.
Proof.
  induction entries as [|[k x] r IH]; cbn.
  - now rewrite String.eqb_refl.
  - destruct (String.eqb_spec k name) as [->|Hk]; cbn.
    + now rewrite String.eqb_refl.
    + destruct (String.eqb_spec k name); [contradiction | exact IH].
Qed.

Lemma lookup_upsert_other (a b : string) (v : node) (entries : list (string * node)) :
  a <> b -> Config.lookup a (Config.upsert b v entries) = Config.lookup a entries.
Proof.
  intros Hab. induction entries as [|[k x] r IH]; cbn.
  - destruct (String.eqb_spec b a); [congruence | reflexivity].
  - destruct (String.eqb_spec k b) as [->|Hk]; cbn.
    + destruct (String.eqb_spec b a); [congruence | reflexivity].
    + destruct (String.eqb_spec k a); [reflexivity | exact IH].
Qed.

Lemma nth_error_assignIndex_same (i : nat) (v : node) (items : list node) :
  nth_error (Config.assignIndex i v items) i = Some v.
Proof.
  revert items. induction i as [|i IH]; intros [|x r]; cbn; auto.
Qed.

(** Reading an index of an array after another index was assigned: a
    slot that the assignment added only to lengthen the array holds
    [undefined], which is also what reading past the end gives. *)
Lemma get_assignIndex_other (i j : nat) (v : node) (items : list node) (rest : Config.key) :
  i <> j ->
  match nth_error (Config.assignIndex j v items) i with
  | Some c => Config.get c rest
  | None => Undefined
  end
  = match nth_error items i with
    | Some c => Config.get c rest
    | None => Undefined
    end.
Proof.
  revert i items. induction j as [|j IH]; intros i items Hij.
  - destruct i as [|i]; [congruence|]. destruct items as [|x r]; cbn; [|reflexivity].
    now destruct i.
  - destruct i as [|i]; destruct items as [|x r]; cbn [Config.assignIndex nth_error].
    + apply get_Undefined.
    + reflexivity.
    + rewrite IH by congruence. now destruct i.
    + apply IH. congruence.
Qed.

(** [target[b] = value] does not change what is read under another
    property [a]. *)
Lemma get_assign_other (t : node) (a b : string) (v : node) (rest : Config.key) :
  a <> b ->
  Config.get (Config.assign t b v) (a :: rest) = Config.get t (a :: rest).
Proof.
  intros Hab. destruct t; try reflexivity; cbn [Config.assign].
  - destruct (Config.arrayIndex b) as [j|] eqn:Hb; [|reflexivity].
    cbn [Config.get Config.ownProperty].
    destruct (Config.arrayIndex a) as [i|] eqn:Ha; [|reflexivity].
    apply get_assignIndex_other. intros ->.
    apply arrayIndex_inv in Ha, Hb. congruence.
  - cbn [Config.get Config.ownProperty]. now rewrite lookup_upsert_other.
  - cbn [Config.get Config.ownProperty]. now rewrite lookup_upsert_other.
Qed.

Lemma set_cons (t : node) (name : string) (rest : Config.key) (v : node) :
  Config.set t (name :: rest) v
  = Config.assign t name
      (match rest with
       | [] => v
       | _ => Config.set (Config.objectAt t name) rest v
       end).
Proof. destruct rest; reflexivity. Qed.

Lemma set_cons_deep (t : node) (name : string) (rest : Config.key) (v : node) :
  rest <> [] ->
  Config.set t (name :: rest) v
  = Config.assign t name (Config.set (Config.objectAt t name) rest v).
Proof. destruct rest; [congruence | reflexivity]. Qed.

Lemma get_objectAt (t : node) (name : string) (rest : Config.key) :
  rest <> [] ->
  Config.get (Config.objectAt t name) rest = Config.get t (name :: rest).
Proof.
  intros Hrest. unfold Config.objectAt. cbn [Config.get].
  destruct (Config.ownProperty t name) as [c|].
  - destruct (Config.isObject c) eqn:Hc; [reflexivity|].
    rewrite (@get_nonobject c rest Hc Hrest).
    destruct rest; [congruence | reflexivity].
  - destruct rest; [congruence | reflexivity].
Qed.

(** Reading under the property that was just assigned. *)
Lemma get_assign_same (t : node) (name : string) (v : node) (rest : Config.key) :
  (forall items, t = Arr items -> Config.arrayIndex name <> None) ->
  Config.isObject t = true ->
  Config.get (Config.assign t name v) (name :: rest) = Config.get v rest.
Proof.
  intros Hidx Ht. destruct t; try discriminate Ht; cbn [Config.assign].
  - destruct (Config.arrayIndex name) as [i|] eqn:Hi; [|now elim (Hidx items)].
    cbn [Config.get Config.ownProperty]. now rewrite Hi, nth_error_assignIndex_same.
  - cbn [Config.get Config.ownProperty]. now rewrite lookup_upsert_same.
  - cbn [Config.get Config.ownProperty]. now rewrite lookup_upsert_same.
Qed.

(** Frame property of [config.set]: a key that diverges from the key
    written reads the same value before and after. *)
Lemma get_set_diverge (r : Config.key) :
  forall t a b p' q' v, a <> b ->
    Config.get (Config.set t (r ++ b :: q') v) (r ++ a :: p')
    = Config.get t (r ++ a :: p').
Proof.
  induction r as [|x r IH]; intros t a b p' q' v Hab.
  - cbn [app]. rewrite set_cons. now apply get_assign_other.
  - cbn [app].
    assert (Hne : r ++ b :: q' <> []) by (now destruct r).
    assert (Hne' : r ++ a :: p' <> []) by (now destruct r).
    rewrite set_cons_deep by assumption.
    destruct t; try reflexivity; cbn [Config.assign].
    + destruct (Config.arrayIndex x) as [i|] eqn:Hx; [|reflexivity].
      cbn [Config.get Config.ownProperty]. rewrite Hx, nth_error_assignIndex_same.
      rewrite IH by assumption.
      rewrite get_objectAt by assumption.
      cbn [Config.get Config.ownProperty]. now rewrite Hx.
    + cbn [Config.get Config.ownProperty]. rewrite lookup_upsert_same.
      rewrite IH by assumption.
      now rewrite get_objectAt by assumption.
    + cbn [Config.get Config.ownProperty]. rewrite lookup_upsert_same.
      rewrite IH by assumption.
      now rewrite get_objectAt by assumption.
Qed.

Lemma diverge_head (a b : string) (p q : Config.key) : a <> b -> diverge (a :: p) (b :: q).
Proof. intros H. now exists [], a, b, p, q. Qed.

Lemma diverge_cons (x : string) (p q : Config.key) : diverge p q -> diverge (x :: p) (x :: q).
Proof.
  intros (r & a & b & p' & q' & -> & -> & H). now exists (x :: r), a, b, p', q'.
Qed.

Lemma get_set_frame (p q : Config.key) (t v : node) :
  diverge p q -> Config.get (Config.set t q v) p = Config.get t p.
Proof.
  intros (r & a & b & p' & q' & -> & -> & Hab). now apply get_set_diverge.
Qed.

(** Writing a key under which the document holds a value, then reading
    it, gives the value written. *)
Lemma get_set_present (p : Config.key) :
  forall t v, p <> [] -> Config.get t p <> Undefined ->
    Config.get (Config.set t p v) p = v.
Proof.
  induction p as [|name rest IH]; intros t v Hp Hget; [congruence|].
  rewrite set_cons.
  cbn [Config.get] in Hget.
  destruct (Config.ownProperty t name) as [c|] eqn:Hc; [|congruence].
  assert (Ht : Config.isObject t = true /\
               (forall items, t = Arr items -> Config.arrayIndex name <> None)).
  { destruct t; try discriminate Hc; split; try reflexivity; try discriminate.
    intros items' [= <-]. cbn in Hc. now destruct (Config.arrayIndex name). }
  destruct Ht as [Ht Hidx].
  rewrite get_assign_same by assumption.
  destruct rest as [|name' rest']; [reflexivity|].
  apply IH; [discriminate|].
  rewrite get_objectAt by discriminate.
  cbn [Config.get]. now rewrite Hc.
Qed.

(* ===================================================================== *)
(** ** The resolver: detection and decryption *)
(* ===================================================================== *)

Lemma lookup_In (name : string) (entries : list (string * node)) (c : node) :
  Config.lookup name entries = Some c -> exists k, In (k, c) entries.
Proof.
  induction entries as [|[k v] r IH]; cbn; [discriminate|].
  destruct (String.eqb k name).
  - intros [= <-]. exists k. now left.
  - intros H. destruct (IH H) as [k' Hk']. exists k'. now right.
Qed.

Lemma hasEncryptedValues_ownProperty (t : node) (name : string) (c : node) :
  hasEncryptedValues t = false -> Config.ownProperty t name = Some c ->
  hasEncryptedValues c = false.
Proof.
  intros Ht Hc. destruct t; try discriminate Hc; cbn in Ht, Hc.
  - destruct (Config.arrayIndex name) as [i|]; [|discriminate].
    apply nth_error_In in Hc.
    destruct (hasEncryptedValues c) eqn:E; [|reflexivity].
    assert (existsb hasEncryptedValues items = true)
      by (apply existsb_exists; now exists c).
    congruence.
  - apply lookup_In in Hc. destruct Hc as [k Hk].
    destruct (hasEncryptedValues c) eqn:E; [|reflexivity].
    assert (existsb (fun entry => hasEncryptedValues (snd entry)) entries = true)
      by (apply existsb_exists; now exists (k, c)).
    congruence.
  - apply lookup_In in Hc. destruct Hc as [k Hk].
    destruct (hasEncryptedValues c) eqn:E; [|reflexivity].
    assert (existsb (fun entry => hasEncryptedValues (snd entry)) entries = true)
      by (apply existsb_exists; now exists (k, c)).
    congruence.
Qed.

(** A document without encrypted leaves has none under any key. *)
Lemma hasEncryptedValues_get (p : Config.key) :
  forall t, hasEncryptedValues t = false -> hasEncryptedValues (Config.get t p) = false.
Proof.
  induction p as [|name rest IH]; intros t Ht; [exact Ht|].
  cbn [Config.get].
  destruct (Config.ownProperty t name) as [c|] eqn:Hc; [|reflexivity].
  apply IH. exact (hasEncryptedValues_ownProperty _ _ Ht Hc).
Qed.

Lemma hasEncryptedValues_Str (v : node) :
  isEncrypted v = true -> hasEncryptedValues v = true.
Proof. destruct v; try discriminate. now cbn. Qed.

Lemma decryptIfNeeded_plain (env : Env) (cfg : node) :
  hasEncryptedValues (Config.get cfg ["banks"]) = false ->
  isEncrypted (Config.get cfg ["firefly"; "tokenApi"]) = false ->
  decryptIfNeeded env cfg = Ok cfg.
Proof. intros Hb Ht. unfold decryptIfNeeded. now rewrite Hb, Ht. Qed.

Lemma decryptIfNeeded_locked (env : Env) (cfg : node) :
  hasEncryptedValues (Config.get cfg ["banks"]) = true
  \/ isEncrypted (Config.get cfg ["firefly"; "tokenApi"]) = true ->
  missing (env "MASTER_PASSWORD") ->
  decryptIfNeeded env cfg = Throw MASTER_PASSWORD_REQUIRED.
Proof.
  intros Hneeds Hmp. unfold decryptIfNeeded.
  replace (hasEncryptedValues (Config.get cfg ["banks"])
           || isEncrypted (Config.get cfg ["firefly"; "tokenApi"])) with true
    by (symmetry; apply orb_true_iff; exact Hneeds).
  now destruct Hmp as [-> | ->].
Qed.

Lemma mapR_Ok {A B} (f : A -> B) (r : result A) (b : B) :
  mapR f r = Ok b -> exists a, r = Ok a /\ b = f a.
Proof. destruct r as [a|m]; [|discriminate]. intros [= <-]. now exists a. Qed.

Lemma bindR_Ok {A B} (r : result A) (k : A -> result B) (b : B) :
  bindR r k = Ok b -> exists a, r = Ok a /\ k a = Ok b.
Proof. destruct r as [a|m]; [|discriminate]. intros H. now exists a. Qed.

Lemma decryptBanksConfig_frame mp (cfg cfg' : node) (p : Config.key) :
  decryptBanksConfig mp cfg = Ok cfg' -> diverge p ["banks"] ->
  Config.get cfg' p = Config.get cfg p.
Proof.
  unfold decryptBanksConfig. intros H Hp.
  destruct (negb (truthy (Config.get cfg ["banks"]))); [now injection H as <-|].
  apply bindR_Ok in H. destruct H as (banks' & _ & [= <-]).
  exact (@get_set_frame p ["banks"] cfg banks' Hp).
Qed.

(** *** The object graph of a document without aliases *)

Lemma getFrom_Owned (cells : list Live.value) (path : Config.key) :
  forall t, Live.getFrom cells (Live.Owned t) path = Config.get t path.
Proof.
  induction path as [|name rest IH]; intros t; [reflexivity|].
  cbn [Live.getFrom Live.deref Live.ownProperty Config.get].
  destruct (Config.ownProperty t name) as [c|]; [apply IH | reflexivity].
Qed.

Lemma stored_unshared (cfg : node) (key : Config.key) :
  Live.stored (Live.unshared cfg) key = Config.get cfg key.
Proof. apply getFrom_Owned. Qed.

Lemma set_unshared (cfg : node) (key : Config.key) (x : node) :
  Live.set (Live.unshared cfg) key x = Live.unshared (Config.set cfg key x).
Proof.
  destruct key as [|name rest]; unfold Live.set, Live.unshared;
    cbn [Live.setFrom Live.cells Live.top Config.set]; [|reflexivity].
  now destruct (Config.isObject x).
Qed.

(** The store of the environment holds nothing under [banks]. *)
Lemma environmentStore_banks (env : Env) (rest : Config.key) :
  Config.get (Live.environmentStore env) ("banks" :: rest) = Undefined.
Proof.
  unfold Live.environmentStore, Live.envMap. cbn [fold_left fst snd].
  destruct (env "FIREFLY_BASE_URL"), (env "FIREFLY_TOKEN_API"), (env "CRON"),
    (env "SCRAPER_PARALLEL"), (env "SCRAPER_TIMEOUT"), (env "SCRAPER_START_DATE"),
    (env "LOG_LEVEL"); reflexivity.
Qed.

Lemma get_banks (env : Env) (st : Live.store) (rest : Config.key) :
  Live.get env st ("banks" :: rest) = Live.stored st ("banks" :: rest).
Proof. unfold Live.get. now rewrite environmentStore_banks. Qed.

(** FIREFLY_TOKEN_API, when it is set, is what the provider reads at
    [firefly:tokenApi]. *)
Lemma get_tokenApi (env : Env) (st : Live.store) :
  Live.get env st ["firefly"; "tokenApi"]
  = match env "FIREFLY_TOKEN_API" with
    | Some value => Str value
    | None => Live.stored st ["firefly"; "tokenApi"]
    end.
Proof.
  unfold Live.get, Live.environmentStore, Live.envMap. cbn [fold_left fst snd].
  destruct (env "FIREFLY_BASE_URL"), (env "FIREFLY_TOKEN_API"), (env "CRON"),
    (env "SCRAPER_PARALLEL"), (env "SCRAPER_TIMEOUT"), (env "SCRAPER_START_DATE"),
    (env "LOG_LEVEL"); reflexivity.
Qed.

(** What the provider reads under a key depends on the file through
    what the file holds under that key. *)
Lemma get_stored (env : Env) (st st' : Live.store) (p : Config.key) :
  Live.stored st' p = Live.stored st p -> Live.get env st' p = Live.get env st p.
Proof. intros H. unfold Live.get. now rewrite H. Qed.

(** With no variable of [envMap] set, the provider reads the file. *)
Lemma get_unshared (env : Env) (cfg : node) (key : Config.key) :
  Forall (fun entry => env (fst entry) = None) Live.envMap -> key <> [] ->
  Live.get env (Live.unshared cfg) key = Config.get cfg key.
Proof.
  intros Hquiet Hkey. unfold Live.get, Live.environmentStore.
  replace (fold_left _ Live.envMap (Obj [])) with (Obj []).
  - destruct key as [|name rest]; [congruence|].
    cbn [Config.get Config.ownProperty Config.lookup]. apply stored_unshared.
  - generalize (Obj []). induction Hquiet as [|entry l Hentry _ IH]; intros t; [reflexivity|].
    cbn [fold_left]. rewrite Hentry. apply IH.
Qed.

Lemma decryptBanksConfig_unshared (env : Env) (mp : option string) (cfg : node) :
  Live.decryptBanksConfig decryptObject env mp (Live.unshared cfg)
  = mapR Live.unshared (decryptBanksConfig mp cfg).
Proof.
  unfold Live.decryptBanksConfig, decryptBanksConfig.
  rewrite get_banks, stored_unshared.
  destruct (negb (truthy (Config.get cfg ["banks"]))); [reflexivity|].
  destruct (decryptObject _ mp) as [banks'|m]; [|reflexivity].
  cbn [bindR mapR]. now rewrite set_unshared.
Qed.

(** Without FIREFLY_TOKEN_API the decryption step over a document
    without aliases is the one over [node]. *)
Lemma decryptIfNeeded_unshared (env : Env) (cfg : node) :
  env "FIREFLY_TOKEN_API" = None ->
  Live.decryptIfNeeded decryptObject env (Live.unshared cfg)
  = mapR Live.unshared (decryptIfNeeded env cfg).
Proof.
  intros Htoken. unfold Live.decryptIfNeeded, decryptIfNeeded.
  rewrite get_banks, get_tokenApi, Htoken, !stored_unshared.
  destruct (hasEncryptedValues _ || isEncrypted _); [|reflexivity].
  destruct (negb (truthy (valueOf (env "MASTER_PASSWORD")))); [reflexivity|].
  rewrite decryptBanksConfig_unshared.
  destruct (decryptBanksConfig (env "MASTER_PASSWORD") cfg) as [cfg1|m];
    cbn [bindR mapR]; [|reflexivity].
  unfold Live.decryptFireflyConfig, decryptFireflyConfig.
  rewrite get_tokenApi, Htoken, stored_unshared.
  destruct (truthy _ && isEncrypted _); [|reflexivity].
  destruct (decryptObject _ _) as [token|m]; [|reflexivity].
  cbn [bindR mapR]. now rewrite set_unshared.
Qed.

(** The store that the decryption step returns for a document without
    aliases is again one of a document without aliases: the document
    that [decryptBanksConfig] returns when the step goes that far, with
    [firefly:tokenApi] written or not. *)
Lemma decryptIfNeeded_unshared_Ok (env : Env) (cfg : node) (st' : Live.store) :
  Live.decryptIfNeeded decryptObject env (Live.unshared cfg) = Ok st' ->
  exists cfg1 cfg',
    st' = Live.unshared cfg'
    /\ (cfg1 = cfg /\ hasEncryptedValues (Config.get cfg ["banks"]) = false
        \/ decryptBanksConfig (env "MASTER_PASSWORD") cfg = Ok cfg1)
    /\ (cfg' = cfg1 \/ exists token, cfg' = Config.set cfg1 ["firefly"; "tokenApi"] token).
Proof.
  unfold Live.decryptIfNeeded. rewrite get_banks, stored_unshared. intros H.
  destruct (hasEncryptedValues (Config.get cfg ["banks"])) eqn:Hbanks; cbn [orb] in H.
  2: destruct (isEncrypted _);
       [|injection H as <-; exists cfg, cfg; repeat split; auto].
  all: destruct (negb (truthy (valueOf (env "MASTER_PASSWORD")))); [discriminate|];
    destruct (bindR _ _) as [st2|m] eqn:Hsteps; [|discriminate];
    injection H as <-;
    apply bindR_Ok in Hsteps; destruct Hsteps as (st1 & H1 & H2);
    rewrite decryptBanksConfig_unshared in H1;
    apply mapR_Ok in H1; destruct H1 as (cfg1 & H1 & ->);
    unfold Live.decryptFireflyConfig in H2;
    (destruct (truthy _ && isEncrypted _);
     [apply bindR_Ok in H2; destruct H2 as (token & _ & [= <-]);
      rewrite set_unshared; exists cfg1, (Config.set cfg1 ["firefly"; "tokenApi"] token);
      repeat split; eauto
     |injection H2 as <-; exists cfg1, cfg1; repeat split; auto]).
Qed.

(** C9, as the code has it.  The decryption step of the resolver is
    decided by what [config.get] reads at [banks] and at
    [firefly:tokenApi]: when neither holds an encrypted string the step
    returns with the store as it is, with or without a master secret and
    whatever the rest of the configuration holds, be it envelopes.  It
    writes [banks] and [firefly:tokenApi] only: over a document without
    aliases, whenever the step returns, every key outside the two places
    reads the same value as before, so that an envelope there is still
    an envelope in the resolved configuration. *)
Theorem decryption_touches_banks_and_token_only (env : Env) :
  (forall st,
     hasEncryptedValues (Live.get env st ["banks"]) = false ->
     isEncrypted (Live.get env st ["firefly"; "tokenApi"]) = false ->
     Live.decryptIfNeeded decryptObject env st = Ok st)
  /\ (forall cfg st',
        Live.decryptIfNeeded decryptObject env (Live.unshared cfg) = Ok st' ->
        forall p, outsideDecryption p ->
          Live.get env st' p = Live.get env (Live.unshared cfg) p
          /\ (forall envelope,
                Live.get env (Live.unshared cfg) p = Str envelope ->
                isEncrypted (Str envelope) = true ->
                isEncrypted (Live.get env st' p) = true)).
Proof.
  split.
  - intros st Hb Ht. unfold Live.decryptIfNeeded. now rewrite Hb, Ht.
  - intros cfg st' H p [Hbanks Htoken].
    apply decryptIfNeeded_unshared_Ok in H.
    destruct H as (cfg1 & cfg' & -> & H1 & H2).
    assert (Hframe : Live.get env (Live.unshared cfg') p
                     = Live.get env (Live.unshared cfg) p).
    { apply get_stored. rewrite !stored_unshared.
      transitivity (Config.get cfg1 p).
      - destruct H2 as [-> | [token ->]]; [reflexivity|].
        now apply get_set_frame.
      - destruct H1 as [[-> _] | H1]; [reflexivity|].
        exact (decryptBanksConfig_frame _ _ H1 Hbanks). }
    split; [exact Hframe|].
    intros envelope Hget Henc. now rewrite Hframe, Hget.
Qed.

(** C4, as the code has it.  Once the required keys are present and the
    credential overrides are applied, [loadConfig] looks for encrypted
    strings in the [banks] subtree and at [firefly.tokenApi] only.  When
    there is none there, in particular when the whole document has no
    encrypted leaf, it returns the document with no master secret in the
    environment.  When there is one there and [MASTER_PASSWORD] is absent
    or empty, it throws the master-secret error, whatever the cipher
    primitives are: nothing is decrypted. *)
Theorem loadConfig_gating (env : Env) (cfg cfg1 : node) :
  Config.required requiredKeys cfg = Ok tt ->
  applyCredentialEnvOverrides env cfg = Ok cfg1 ->
  (hasEncryptedValues (Config.get cfg1 ["banks"]) = false ->
   isEncrypted (Config.get cfg1 ["firefly"; "tokenApi"]) = false ->
   loadConfig env cfg = Ok cfg1)
  /\ (hasEncryptedValues cfg1 = false -> loadConfig env cfg = Ok cfg1)
  /\ (hasEncryptedValues (Config.get cfg1 ["banks"]) = true
      \/ isEncrypted (Config.get cfg1 ["firefly"; "tokenApi"]) = true ->
      missing (env "MASTER_PASSWORD") ->
      loadConfig env cfg = Throw MASTER_PASSWORD_REQUIRED
      /\ errorKind MASTER_PASSWORD_REQUIRED = MasterSecretRequired).
Proof.
  intros Hreq Hover.
  assert (Hload : loadConfig env cfg = decryptIfNeeded env cfg1).
  { unfold loadConfig. now rewrite Hreq, Hover. }
  rewrite Hload. repeat split.
  - apply decryptIfNeeded_plain.
  - intros Hnone. apply decryptIfNeeded_plain.
    + now apply hasEncryptedValues_get.
    + pose proof (hasEncryptedValues_get ["firefly"; "tokenApi"] _ Hnone) as H.
      destruct (isEncrypted _) eqn:E; [|reflexivity].
      now rewrite (hasEncryptedValues_Str _ E) in H.
  - now apply decryptIfNeeded_locked.
Qed.

(* ===================================================================== *)
(** ** The resolver: credential overrides *)
(* ===================================================================== *)

Lemma ofNat_neq (i k : nat) : i <> k -> JsString.ofNat i <> JsString.ofNat k.
Proof. intros H E. now apply ofNat_inj in E. Qed.

Lemma bankKey_bankKey (i k : nat) (f g : string) :
  i <> k \/ f <> g -> diverge (bankKey i f) (bankKey k g).
Proof.
  unfold bankKey. intros H. apply diverge_cons.
  destruct (Nat.eq_dec i k) as [->|Hik].
  - do 2 apply diverge_cons. apply diverge_head. now destruct H.
  - now apply diverge_head, ofNat_neq.
Qed.

Lemma bankKey_creditCardKey (i k j : nat) (f g : string) :
  diverge (bankKey i f) (creditCardKey k j g).
Proof.
  unfold bankKey, creditCardKey. apply diverge_cons.
  destruct (Nat.eq_dec i k) as [->|Hik].
  - apply diverge_cons, diverge_head. discriminate.
  - now apply diverge_head, ofNat_neq.
Qed.

Lemma creditCardKey_bankKey (i j k : nat) (f g : string) :
  diverge (creditCardKey i j f) (bankKey k g).
Proof.
  unfold bankKey, creditCardKey. apply diverge_cons.
  destruct (Nat.eq_dec i k) as [->|Hik].
  - apply diverge_cons, diverge_head. discriminate.
  - now apply diverge_head, ofNat_neq.
Qed.

Lemma creditCardKey_creditCardKey (i j k l : nat) (f g : string) :
  i <> k \/ j <> l \/ f <> g -> diverge (creditCardKey i j f) (creditCardKey k l g).
Proof.
  unfold creditCardKey. intros H. apply diverge_cons.
  destruct (Nat.eq_dec i k) as [->|Hik]; [|now apply diverge_head, ofNat_neq].
  do 2 apply diverge_cons.
  destruct (Nat.eq_dec j l) as [->|Hjl]; [|now apply diverge_head, ofNat_neq].
  do 2 apply diverge_cons. apply diverge_head. intuition congruence.
Qed.

Lemma setIfTruthy_frame (k p : Config.key) (value : option string) (cfg : node) :
  diverge p k -> Config.get (setIfTruthy k value cfg) p = Config.get cfg p.
Proof.
  intros H. unfold setIfTruthy.
  destruct (truthy (valueOf value)); [now apply get_set_frame | reflexivity].
Qed.

Lemma setIfTruthy_present (p : Config.key) (value : option string) (cfg : node) :
  p <> [] -> Config.get cfg p <> Undefined ->
  Config.get (setIfTruthy p value cfg) p = overridden value (Config.get cfg p).
Proof.
  intros Hp H. unfold setIfTruthy, overridden.
  destruct (truthy (valueOf value)); [now apply get_set_present | reflexivity].
Qed.

Lemma overrideBank_frame (env : Env) (k : nat) (cfg : node) (p : Config.key) :
  (forall f, diverge p (bankKey k f)) ->
  Config.get (overrideBank env k cfg) p = Config.get cfg p.
Proof.
  intros H. unfold overrideBank. now rewrite !setIfTruthy_frame by apply H.
Qed.

Lemma overrideCreditCard_frame (env : Env) (k j : nat) (cfg : node) (p : Config.key) :
  (forall f, diverge p (creditCardKey k j f)) ->
  Config.get (overrideCreditCard env k j cfg) p = Config.get cfg p.
Proof.
  intros H. unfold overrideCreditCard. now rewrite !setIfTruthy_frame by apply H.
Qed.

Lemma overrideBank_password (env : Env) (i : nat) (cfg : node) :
  Config.get cfg (bankKey i "password") <> Undefined ->
  Config.get (overrideBank env i cfg) (bankKey i "password")
  = overridden (env (bankVariable i "PASSWORD")) (Config.get cfg (bankKey i "password")).
Proof.
  intros H. unfold overrideBank.
  rewrite !(@setIfTruthy_frame _ (bankKey i "password"))
    by (apply bankKey_bankKey; right; discriminate).
  rewrite setIfTruthy_present; [|discriminate|].
  - now rewrite setIfTruthy_frame by (apply bankKey_bankKey; right; discriminate).
  - now rewrite setIfTruthy_frame by (apply bankKey_bankKey; right; discriminate).
Qed.

Lemma overrideCreditCard_password (env : Env) (i j : nat) (cfg : node) :
  Config.get cfg (creditCardKey i j "password") <> Undefined ->
  Config.get (overrideCreditCard env i j cfg) (creditCardKey i j "password")
  = overridden (env (creditCardVariable i j "PASSWORD"))
      (Config.get cfg (creditCardKey i j "password")).
Proof.
  intros H. unfold overrideCreditCard.
  rewrite !(@setIfTruthy_frame _ (creditCardKey i j "password"))
    by (apply creditCardKey_creditCardKey; right; right; discriminate).
  rewrite setIfTruthy_present; [|discriminate|].
  - now rewrite setIfTruthy_frame
      by (apply creditCardKey_creditCardKey; right; right; discriminate).
  - now rewrite setIfTruthy_frame
      by (apply creditCardKey_creditCardKey; right; right; discriminate).
Qed.

Lemma forEachIndexed_app {A S} (g : nat -> A -> S -> S) (l1 l2 : list A) :
  forall k s,
    forEachIndexed g k (l1 ++ l2) s
    = forEachIndexed g (k + length l1) l2 (forEachIndexed g k l1 s).
Proof.
  induction l1 as [|x r IH]; intros k s; cbn [app forEachIndexed length].
  - now rewrite Nat.add_0_r.
  - rewrite IH. now rewrite Nat.add_succ_r.
Qed.

Lemma forEachThrowing_app {A S} (g : nat -> A -> S -> result S) (l1 l2 : list A) :
  forall k s,
    forEachThrowing g k (l1 ++ l2) s
    = bindR (forEachThrowing g k l1 s) (forEachThrowing g (k + length l1) l2).
Proof.
  induction l1 as [|x r IH]; intros k s; cbn [app forEachThrowing length bindR].
  - now rewrite Nat.add_0_r.
  - destruct (g k x s) as [s1|m]; cbn [bindR]; [|reflexivity].
    rewrite IH. now rewrite Nat.add_succ_r.
Qed.

(** The overrides of the credit cards of bank [k], from card [j0] on,
    leave alone every key that diverges from the keys of these cards. *)
Lemma creditCards_frame (env : Env) (k : nat) (p : Config.key) (ccs : list node) :
  forall j0 cfg,
    (forall j, j0 <= j < j0 + length ccs -> forall f, diverge p (creditCardKey k j f)) ->
    Config.get (forEachIndexed (fun ccIndex _ c => overrideCreditCard env k ccIndex c)
                  j0 ccs cfg) p
    = Config.get cfg p.
Proof.
  induction ccs as [|cc r IH]; intros j0 cfg H; [reflexivity|].
  cbn [forEachIndexed]. rewrite IH.
  - apply overrideCreditCard_frame. apply H. cbn [length]. lia.
  - intros j Hj. apply H. cbn [length]. lia.
Qed.

Lemma creditCards_password (env : Env) (i j : nat) (ccs : list node) (cc cfg : node) :
  nth_error ccs j = Some cc ->
  Config.get cfg (creditCardKey i j "password") <> Undefined ->
  Config.get (forEachIndexed (fun ccIndex _ c => overrideCreditCard env i ccIndex c)
                0 ccs cfg) (creditCardKey i j "password")
  = overridden (env (creditCardVariable i j "PASSWORD"))
      (Config.get cfg (creditCardKey i j "password")).
Proof.
  intros Hj Hget.
  destruct (nth_error_split _ _ Hj) as (l1 & l2 & -> & Hlen).
  rewrite forEachIndexed_app. cbn [forEachIndexed plus]. rewrite Hlen.
  rewrite creditCards_frame
    by (intros j' Hj' f; apply creditCardKey_creditCardKey; right; left; lia).
  assert (Hbefore :
    Config.get (forEachIndexed (fun ccIndex _ c => overrideCreditCard env i ccIndex c)
                  0 l1 cfg) (creditCardKey i j "password")
    = Config.get cfg (creditCardKey i j "password")).
  { apply creditCards_frame. intros j' Hj' f.
    apply creditCardKey_creditCardKey. right; left. lia. }
  rewrite overrideCreditCard_password by (now rewrite Hbefore).
  now rewrite Hbefore.
Qed.

Lemma overrideEntry_frame (env : Env) (k : nat) (bank cfg cfg' : node) (p : Config.key) :
  overrideEntry env k bank cfg = Ok cfg' ->
  (forall f, diverge p (bankKey k f)) ->
  (forall j f, diverge p (creditCardKey k j f)) ->
  Config.get cfg' p = Config.get cfg p.
Proof.
  intros H Hb Hc. unfold overrideEntry in H.
  apply bindR_Ok in H. destruct H as (ccs & _ & [= <-]).
  rewrite creditCards_frame by (intros; apply Hc).
  now apply overrideBank_frame.
Qed.

Lemma overrideEntry_bank_password (env : Env) (i : nat) (bank cfg cfg' : node) :
  overrideEntry env i bank cfg = Ok cfg' ->
  Config.get cfg (bankKey i "password") <> Undefined ->
  Config.get cfg' (bankKey i "password")
  = overridden (env (bankVariable i "PASSWORD")) (Config.get cfg (bankKey i "password")).
Proof.
  intros H Hget. unfold overrideEntry in H.
  apply bindR_Ok in H. destruct H as (ccs & _ & [= <-]).
  rewrite creditCards_frame by (intros; apply bankKey_creditCardKey).
  now apply overrideBank_password.
Qed.

Lemma overrideEntry_creditCard_password (env : Env) (i j : nat)
  (bank cfg cfg' : node) (ccs : list node) (cc : node) :
  overrideEntry env i bank cfg = Ok cfg' ->
  creditCardsOf bank = Ok ccs -> nth_error ccs j = Some cc ->
  Config.get cfg (creditCardKey i j "password") <> Undefined ->
  Config.get cfg' (creditCardKey i j "password")
  = overridden (env (creditCardVariable i j "PASSWORD"))
      (Config.get cfg (creditCardKey i j "password")).
Proof.
  intros H Hccs Hj Hget. unfold overrideEntry in H. rewrite Hccs in H.
  cbn [bindR] in H. injection H as <-.
  assert (Hbank : Config.get (overrideBank env i cfg) (creditCardKey i j "password")
                  = Config.get cfg (creditCardKey i j "password"))
    by (apply overrideBank_frame; intros; apply creditCardKey_bankKey).
  rewrite creditCards_password with (cc := cc) by (assumption || now rewrite Hbank).
  now rewrite Hbank.
Qed.

(** The overrides of the banks from [k0] on leave alone every key that
    diverges from the keys of these banks and of their cards. *)
Lemma banks_frame (env : Env) (p : Config.key) (l : list node) :
  forall k0 cfg cfg',
    forEachThrowing (overrideEntry env) k0 l cfg = Ok cfg' ->
    (forall k, k0 <= k < k0 + length l ->
       (forall f, diverge p (bankKey k f))
       /\ (forall j f, diverge p (creditCardKey k j f))) ->
    Config.get cfg' p = Config.get cfg p.
Proof.
  induction l as [|bank r IH]; intros k0 cfg cfg' H Hk.
  - now injection H as <-.
  - cbn [forEachThrowing] in H.
    apply bindR_Ok in H. destruct H as (cfg1 & H1 & H2).
    erewrite IH; [| exact H2 | intros k Hk'; apply Hk; cbn [length]; lia].
    destruct (Hk k0) as [Hb Hc]; [cbn [length]; lia|].
    eapply overrideEntry_frame; eassumption.
Qed.

(** The loop over the banks, seen from a key that only the entry at
    [i] may write. *)
Lemma banks_target (env : Env) (p : Config.key) (i : nat) (l : list node)
  (bank cfg cfg' : node) (f : node -> node) :
  nth_error l i = Some bank ->
  forEachThrowing (overrideEntry env) 0 l cfg = Ok cfg' ->
  (forall k, k <> i ->
     (forall g, diverge p (bankKey k g)) /\ (forall j g, diverge p (creditCardKey k j g))) ->
  (forall c c', overrideEntry env i bank c = Ok c' ->
     Config.get c p = Config.get cfg p -> Config.get c' p = f (Config.get c p)) ->
  Config.get cfg' p = f (Config.get cfg p).
Proof.
  intros Hi H Hother Hstep.
  destruct (nth_error_split _ _ Hi) as (l1 & l2 & -> & Hlen).
  rewrite forEachThrowing_app in H. cbn [plus] in H.
  apply bindR_Ok in H. destruct H as (c1 & H1 & H).
  cbn [forEachThrowing] in H.
  apply bindR_Ok in H. destruct H as (c2 & H2 & H3).
  assert (E1 : Config.get c1 p = Config.get cfg p).
  { eapply banks_frame; [exact H1|]. intros k Hk. apply Hother. lia. }
  assert (E3 : Config.get cfg' p = Config.get c2 p).
  { eapply banks_frame; [exact H3|]. intros k Hk. apply Hother. lia. }
  rewrite Hlen in H2.
  rewrite E3, (Hstep _ _ H2 E1). now rewrite E1.
Qed.

(** When the overrides return and the document holds a value under a key
    of bank [i], [banks] is an array with an entry at [i], and the loop
    ran over that array. *)
Lemma overrides_bank_entry (env : Env) (cfg cfg' : node) (i : nat) (rest : Config.key) :
  applyCredentialEnvOverrides env cfg = Ok cfg' ->
  Config.get cfg ("banks" :: JsString.ofNat i :: rest) <> Undefined ->
  exists entries bank,
    nth_error entries i = Some bank
    /\ Config.get bank rest = Config.get cfg ("banks" :: JsString.ofNat i :: rest)
    /\ forEachThrowing (overrideEntry env) 0 entries cfg = Ok cfg'.
Proof.
  unfold applyCredentialEnvOverrides. intros H Hget.
  change (Config.get cfg ("banks" :: JsString.ofNat i :: rest))
    with (match Config.ownProperty cfg "banks" with
          | Some c => Config.get c (JsString.ofNat i :: rest)
          | None => Undefined
          end) in Hget |- *.
  change (Config.get cfg ["banks"])
    with (match Config.ownProperty cfg "banks" with
          | Some c => c
          | None => Undefined
          end) in H.
  destruct (Config.ownProperty cfg "banks") as [banks|]; [|congruence].
  destruct banks as [| |b|n|s|entries|fields|time fields];
    try (now elim Hget); try discriminate H.
  cbn [truthy] in H. exists entries.
  cbn [Config.get Config.ownProperty] in Hget |- *.
  rewrite arrayIndex_ofNat in Hget |- *.
  destruct (nth_error entries i) as [bank|]; [|congruence].
  now exists bank.
Qed.

(** The value read at the password leaf of a bank, or of a credit card
    of a bank, once [applyCredentialEnvOverrides] has returned. *)
Lemma applyCredentialEnvOverrides_password (env : Env) (cfg cfg' : node) (i : nat) :
  applyCredentialEnvOverrides env cfg = Ok cfg' ->
  (Config.get cfg (bankKey i "password") <> Undefined ->
   Config.get cfg' (bankKey i "password")
   = overridden (env (bankVariable i "PASSWORD")) (Config.get cfg (bankKey i "password")))
  /\ (forall j, Config.get cfg (creditCardKey i j "password") <> Undefined ->
      Config.get cfg' (creditCardKey i j "password")
      = overridden (env (creditCardVariable i j "PASSWORD"))
          (Config.get cfg (creditCardKey i j "password"))).
Proof.
  intros H. split.
  - intros Hget.
    destruct (@overrides_bank_entry env cfg cfg' i _ H Hget)
      as (entries & bank & Hi & _ & Hloop).
    apply (@banks_target env (bankKey i "password") i entries bank cfg cfg'
             (overridden (env (bankVariable i "PASSWORD"))) Hi Hloop).
    + intros k Hk. split; intros; [apply bankKey_bankKey; left; congruence|].
      apply bankKey_creditCardKey.
    + intros c c' Hstep Hc.
      apply (@overrideEntry_bank_password env i bank c c' Hstep). now rewrite Hc.
  - intros j Hget.
    destruct (@overrides_bank_entry env cfg cfg' i _ H Hget)
      as (entries & bank & Hi & Hbank & Hloop).
    assert (Hccs : exists ccs, creditCardsOf bank = Ok ccs
                               /\ exists cc, nth_error ccs j = Some cc).
    { destruct (nth_error_split _ _ Hi) as (l1 & l2 & -> & Hlen).
      rewrite forEachThrowing_app in Hloop.
      apply bindR_Ok in Hloop. destruct Hloop as (c1 & _ & Hloop).
      cbn [forEachThrowing] in Hloop.
      apply bindR_Ok in Hloop. destruct Hloop as (c2 & Hentry & _).
      unfold overrideEntry in Hentry.
      apply bindR_Ok in Hentry. destruct Hentry as (ccs & Hccs & _).
      exists ccs. split; [exact Hccs|].
      unfold creditCardKey in Hget. rewrite <- Hbank in Hget.
      clear - Hget Hccs.
      destruct bank as [| |b|n|s|items|fields|time fields]; try (now elim Hget);
        (cbn [Config.get Config.ownProperty] in Hget; cbn [creditCardsOf] in Hccs;
         (destruct (Config.lookup "creditCards" fields) as [cards|]; [|now elim Hget]);
         (destruct cards as [| |b|n|s|cards|fields'|time' fields']; try (now elim Hget);
          cbn [truthy] in Hccs; try discriminate Hccs);
         injection Hccs as <-;
         cbn [Config.get Config.ownProperty] in Hget; rewrite arrayIndex_ofNat in Hget;
         destruct (nth_error cards j) as [cc|]; [now exists cc | now elim Hget]). }
    destruct Hccs as (ccs & Hccs & cc & Hj).
    apply (@banks_target env (creditCardKey i j "password") i entries bank cfg cfg'
             (overridden (env (creditCardVariable i j "PASSWORD"))) Hi Hloop).
    + intros k Hk. split; intros; [apply creditCardKey_bankKey|].
      apply creditCardKey_creditCardKey. left. congruence.
    + intros c c' Hstep Hc.
      apply (@overrideEntry_creditCard_password env i j bank c c' ccs cc Hstep Hccs Hj).
      now rewrite Hc.
Qed.

(** *** The overrides over a document without aliases *)

Lemma setIfTruthy_unshared (k : Config.key) (value : option string) (cfg : node) :
  Live.setIfTruthy k value (Live.unshared cfg) = Live.unshared (setIfTruthy k value cfg).
Proof.
  unfold Live.setIfTruthy, setIfTruthy.
  destruct (truthy (valueOf value)); [apply set_unshared | reflexivity].
Qed.

Lemma overrideBank_unshared (env : Env) (k : nat) (cfg : node) :
  Live.overrideBank env k (Live.unshared cfg) = Live.unshared (overrideBank env k cfg).
Proof. unfold Live.overrideBank, overrideBank. now rewrite !setIfTruthy_unshared. Qed.

Lemma overrideCreditCard_unshared (env : Env) (k j : nat) (cfg : node) :
  Live.overrideCreditCard env k j (Live.unshared cfg)
  = Live.unshared (overrideCreditCard env k j cfg).
Proof.
  unfold Live.overrideCreditCard, overrideCreditCard. now rewrite !setIfTruthy_unshared.
Qed.

Lemma creditCards_unshared (env : Env) (k : nat) (ccs : list node) :
  forall j0 cfg,
    forEachIndexed (fun ccIndex _ s => Live.overrideCreditCard env k ccIndex s)
      j0 ccs (Live.unshared cfg)
    = Live.unshared
        (forEachIndexed (fun ccIndex _ c => overrideCreditCard env k ccIndex c) j0 ccs cfg).
Proof.
  induction ccs as [|cc r IH]; intros j0 cfg; [reflexivity|].
  cbn [forEachIndexed]. rewrite overrideCreditCard_unshared. apply IH.
Qed.

(** The credit cards that the body of the loop iterates over: the
    overrides of the bank write below its [credentials], and leave
    [creditCards] as the element of the array has it. *)
Lemma creditCardsOf_unshared (env : Env) (k : nat) (cfg : node) :
  Live.creditCardsOf k (Config.get cfg ["banks"; JsString.ofNat k])
    (Live.unshared (overrideBank env k cfg))
  = creditCardsOf (Config.get cfg ["banks"; JsString.ofNat k]).
Proof.
  unfold Live.creditCardsOf. rewrite stored_unshared.
  rewrite overrideBank_frame
    by (intros f; unfold bankKey; do 2 apply diverge_cons; apply diverge_head; discriminate).
  change ["banks"; JsString.ofNat k; "creditCards"]
    with (["banks"; JsString.ofNat k] ++ ["creditCards"]).
  rewrite get_app.
  destruct (Config.get cfg ["banks"; JsString.ofNat k])
    as [| |b|n|s|items|entries|time entries]; try reflexivity.
  - cbn [Config.isObject Config.get Config.ownProperty creditCardsOf].
    now destruct (Config.lookup "creditCards" entries).
  - cbn [Config.isObject Config.get Config.ownProperty creditCardsOf].
    now destruct (Config.lookup "creditCards" entries).
Qed.

Lemma overrideEntry_unshared (env : Env) (k : nat) (cfg : node) :
  Live.overrideEntry env k (Live.unshared cfg)
  = mapR Live.unshared
      (overrideEntry env k (Config.get cfg ["banks"; JsString.ofNat k]) cfg).
Proof.
  unfold Live.overrideEntry, overrideEntry.
  rewrite stored_unshared, overrideBank_unshared, creditCardsOf_unshared.
  destruct (creditCardsOf _) as [ccs|m]; [|reflexivity].
  cbn [bindR mapR]. now rewrite creditCards_unshared.
Qed.

(** The loop over the banks, from the bank at [k0] on: the body of an
    entry leaves the entries after it as the array had them. *)
Lemma banks_unshared (env : Env) (l : list node) :
  forall k0 cfg,
    (forall n bank, nth_error l n = Some bank ->
       Config.get cfg ["banks"; JsString.ofNat (k0 + n)] = bank) ->
    forEachThrowing (fun bankIndex _ s => Live.overrideEntry env bankIndex s)
      k0 l (Live.unshared cfg)
    = mapR Live.unshared (forEachThrowing (overrideEntry env) k0 l cfg).
Proof.
  induction l as [|bank r IH]; intros k0 cfg Hl; [reflexivity|].
  cbn [forEachThrowing]. rewrite overrideEntry_unshared.
  pose proof (Hl 0 bank eq_refl) as Hbank. rewrite Nat.add_0_r in Hbank. rewrite Hbank.
  destruct (overrideEntry env k0 bank cfg) as [cfg1|m] eqn:Hentry; [|reflexivity].
  cbn [bindR mapR]. apply IH. intros n b Hn.
  rewrite <- (Hl (S n) b Hn), Nat.add_succ_r. cbn [plus].
  apply (overrideEntry_frame _ _ _ Hentry).
  - intros f. unfold bankKey. apply diverge_cons, diverge_head, ofNat_neq. lia.
  - intros j f. unfold creditCardKey. apply diverge_cons, diverge_head, ofNat_neq. lia.
Qed.

(** Over a document without aliases the overrides are those over
    [node], whatever the variables are set to. *)
Lemma applyCredentialEnvOverrides_unshared (env : Env) (cfg : node) :
  Live.applyCredentialEnvOverrides env (Live.unshared cfg)
  = mapR Live.unshared (applyCredentialEnvOverrides env cfg).
Proof.
  unfold Live.applyCredentialEnvOverrides, applyCredentialEnvOverrides.
  rewrite get_banks, stored_unshared.
  destruct (truthy (Config.get cfg ["banks"])); [|reflexivity].
  destruct (Config.get cfg ["banks"]) as [| |b|n|s|entries|fields|time fields] eqn:Hbanks;
    try reflexivity.
  apply banks_unshared. intros n bank Hn.
  change ["banks"; JsString.ofNat (0 + n)] with (["banks"] ++ [JsString.ofNat n]).
  rewrite get_app, Hbanks. cbn [Config.get Config.ownProperty].
  now rewrite arrayIndex_ofNat, Hn.
Qed.

(** The steps of [loadConfig] over a document without aliases, when it
    returns. *)
Lemma loadConfig_unshared_Ok (env : Env) (cfg : node) (st' : Live.store) :
  Live.loadConfig decryptObject env (Live.unshared cfg) = Ok st' ->
  exists cfg1,
    Live.required env requiredKeys (Live.unshared cfg) = Ok tt
    /\ applyCredentialEnvOverrides env cfg = Ok cfg1
    /\ Live.decryptIfNeeded decryptObject env (Live.unshared cfg1) = Ok st'.
Proof.
  unfold Live.loadConfig. intros H.
  apply bindR_Ok in H. destruct H as ([] & Hreq & H).
  apply bindR_Ok in H. destruct H as (st1 & Hover & H).
  rewrite applyCredentialEnvOverrides_unshared in Hover.
  apply mapR_Ok in Hover. destruct Hover as (cfg1 & Hover & ->).
  now exists cfg1.
Qed.

(** With no variable of [envMap] set, [loadConfig] over a document
    without aliases is [loadConfig] over [node]. *)
Lemma loadConfig_unshared (env : Env) (cfg : node) :
  Forall (fun entry => env (fst entry) = None) Live.envMap ->
  Live.loadConfig decryptObject env (Live.unshared cfg)
  = mapR Live.unshared (loadConfig env cfg).
Proof.
  intros Hquiet. unfold Live.loadConfig, loadConfig.
  pose proof (fun c k => @get_unshared env c k Hquiet) as Hget.
  assert (Hreq : Live.required env requiredKeys (Live.unshared cfg)
                 = Config.required requiredKeys cfg).
  { unfold Live.required, Config.required, requiredKeys. cbn [filter].
    now rewrite !Hget by discriminate. }
  rewrite Hreq. destruct (Config.required requiredKeys cfg) as [u|m]; [|reflexivity].
  cbn [bindR]. rewrite applyCredentialEnvOverrides_unshared.
  destruct (applyCredentialEnvOverrides env cfg) as [cfg1|m]; [|reflexivity].
  cbn [bindR mapR]. apply decryptIfNeeded_unshared.
  inversion Hquiet as [|? ? _ Hrest]. now inversion Hrest.
Qed.

Lemma allR_cons_Ok {A B} (f : A -> result B) (x : A) (r : list A) (l' : list B) :
  allR f (x :: r) = Ok l' ->
  exists y ys, f x = Ok y /\ allR f r = Ok ys /\ l' = y :: ys.
Proof.
  cbn [allR]. destruct (f x) as [y|m]; [|discriminate].
  fold (allR f r).
  destruct (allR f r) as [ys|m'].
  - intros [= <-]. exists y, ys. auto.
  - discriminate.
Qed.

Lemma allR_nth {A B} (f : A -> result B) (l : list A) :
  forall l', allR f l = Ok l' ->
  forall n x, nth_error l n = Some x ->
  exists y, nth_error l' n = Some y /\ f x = Ok y.
Proof.
  induction l as [|a r IH]; intros l' H n x Hn; [now destruct n|].
  apply allR_cons_Ok in H. destruct H as (y & ys & Hy & Hys & ->).
  destruct n as [|n].
  - injection Hn as <-. now exists y.
  - cbn [nth_error] in Hn |- *. eapply IH; eassumption.
Qed.

Lemma allR_lookup (mp : option string) (name : string) (l : list (string * node)) :
  forall l',
    allR (fun entry => mapR (pair (fst entry)) (decryptObject (snd entry) mp)) l = Ok l' ->
  forall c, Config.lookup name l = Some c ->
  exists c', Config.lookup name l' = Some c' /\ decryptObject c mp = Ok c'.
Proof.
  induction l as [|[k v] r IH]; intros l' H c Hc; [discriminate|].
  apply allR_cons_Ok in H. destruct H as (y & ys & Hy & Hys & ->).
  cbn [fst snd] in Hy. apply mapR_Ok in Hy. destruct Hy as (v' & Hv' & ->).
  cbn [Config.lookup] in Hc |- *.
  destruct (String.eqb k name).
  - injection Hc as <-. now exists v'.
  - eapply IH; eassumption.
Qed.

Lemma decryptObject_ownProperty (t t' : node) mp (name : string) (c : node) :
  decryptObject t mp = Ok t' -> Config.ownProperty t name = Some c ->
  exists c', Config.ownProperty t' name = Some c' /\ decryptObject c mp = Ok c'.
Proof.
  intros H Hc. destruct t; try discriminate Hc; cbn [decryptObject] in H.
  - apply mapR_Ok in H. destruct H as (items' & Hall & ->).
    cbn [Config.ownProperty] in Hc |- *.
    destruct (Config.arrayIndex name) as [i|]; [|discriminate].
    exact (@allR_nth _ _ _ items items' Hall i c Hc).
  - apply mapR_Ok in H. destruct H as (entries' & Hall & ->).
    cbn [Config.ownProperty] in Hc |- *.
    exact (@allR_lookup mp name entries entries' Hall c Hc).
  - apply mapR_Ok in H. destruct H as (entries' & Hall & ->).
    cbn [Config.ownProperty] in Hc |- *.
    exact (@allR_lookup mp name entries entries' Hall c Hc).
Qed.

(** [decryptObject] keeps a string that is not encrypted where it is. *)
Lemma decryptObject_get_plain (mp : option string) (p : Config.key) :
  forall t t' v,
    decryptObject t mp = Ok t' ->
    Config.get t p = Str v -> isEncrypted (Str v) = false ->
    Config.get t' p = Str v.
Proof.
  induction p as [|name rest IH]; intros t t' v H Hget Hplain.
  - cbn [Config.get] in *. subst t. cbn [decryptObject] in H.
    rewrite Hplain in H. now injection H as <-.
  - cbn [Config.get] in Hget |- *.
    destruct (Config.ownProperty t name) as [c|] eqn:Hc; [|discriminate].
    destruct (@decryptObject_ownProperty t t' mp name c H Hc) as (c' & -> & Hc').
    eapply IH; eassumption.
Qed.

Lemma get_set_top (cfg : node) (name : string) (v : node) (rest : Config.key) :
  Config.ownProperty cfg name <> None ->
  Config.get (Config.set cfg [name] v) (name :: rest) = Config.get v rest.
Proof.
  intros H. cbn [Config.set]. apply get_assign_same.
  - intros items ->. cbn in H. now destruct (Config.arrayIndex name).
  - destruct cfg; try (now elim H); reflexivity.
Qed.

(** [decryptBanksConfig] keeps a string of the [banks] subtree that is
    not encrypted. *)
Lemma decryptBanksConfig_keeps_plain (mp : option string) (cfg cfg1 : node)
  (rest : Config.key) (v : string) :
  decryptBanksConfig mp cfg = Ok cfg1 ->
  Config.get cfg ("banks" :: rest) = Str v -> isEncrypted (Str v) = false ->
  Config.get cfg1 ("banks" :: rest) = Str v.
Proof.
  intros H1 Hget Hplain. unfold decryptBanksConfig in H1.
  destruct (negb (truthy (Config.get cfg ["banks"]))); [now injection H1 as <-|].
  apply bindR_Ok in H1. destruct H1 as (banks' & Hdec & [= <-]).
  change (Config.assign cfg "banks" banks') with (Config.set cfg ["banks"] banks').
  cbn [Config.get] in Hget, Hdec.
  destruct (Config.ownProperty cfg "banks") as [banks|] eqn:Hb; [|discriminate].
  rewrite get_set_top by congruence.
  eapply decryptObject_get_plain; eassumption.
Qed.

(** What the provider reads under [banks] once the decryption step has
    returned for a document without aliases: what [decryptBanksConfig]
    wrote there, when the step went that far. *)
Lemma decryptIfNeeded_unshared_banks (env : Env) (cfg : node) (st' : Live.store)
  (rest : Config.key) :
  Live.decryptIfNeeded decryptObject env (Live.unshared cfg) = Ok st' ->
  exists cfg1,
    Live.get env st' ("banks" :: rest) = Config.get cfg1 ("banks" :: rest)
    /\ (cfg1 = cfg /\ hasEncryptedValues (Config.get cfg ["banks"]) = false
        \/ decryptBanksConfig (env "MASTER_PASSWORD") cfg = Ok cfg1).
Proof.
  intros H. apply decryptIfNeeded_unshared_Ok in H.
  destruct H as (cfg1 & cfg' & -> & H1 & H2).
  exists cfg1. split; [|exact H1].
  rewrite get_banks, stored_unshared.
  destruct H2 as [-> | [token ->]]; [reflexivity|].
  apply get_set_frame, diverge_head. discriminate.
Qed.

(** The decryption step keeps a string of the [banks] subtree that is
    not encrypted. *)
Lemma decryptIfNeeded_keeps_plain (env : Env) (cfg : node) (st' : Live.store)
  (rest : Config.key) (v : string) :
  Live.decryptIfNeeded decryptObject env (Live.unshared cfg) = Ok st' ->
  Config.get cfg ("banks" :: rest) = Str v -> isEncrypted (Str v) = false ->
  Live.get env st' ("banks" :: rest) = Str v.
Proof.
  intros H Hget Hplain.
  destruct (@decryptIfNeeded_unshared_banks env cfg st' rest H) as (cfg1 & -> & H1).
  destruct H1 as [[-> _] | H1]; [exact Hget|].
  exact (@decryptBanksConfig_keeps_plain _ cfg cfg1 rest v H1 Hget Hplain).
Qed.

(** C5, as the code has it.  For a document without aliases: when
    [loadConfig] returns and the document holds a value at the password
    leaf of bank [i], a variable [BANK_i_PASSWORD] that is set to a
    non-empty string that is not an envelope is the value of
    [banks[i].credentials.password] in the resolved configuration,
    whatever the file value was; the same holds for the password leaf of
    credit card [j] of bank [i] and [BANK_i_CC_j_PASSWORD].  A variable
    that is not set, or is set to the empty string, leaves the leaf as
    the file has it when the override step returns. *)
Theorem env_password_overrides_file (env : Env) (cfg : node) (i : nat) :
  (forall resolved v,
     Live.loadConfig decryptObject env (Live.unshared cfg) = Ok resolved ->
     Config.get cfg (bankKey i "password") <> Undefined ->
     env (bankVariable i "PASSWORD") = Some v -> v <> EmptyString ->
     isEncrypted (Str v) = false ->
     Live.get env resolved (bankKey i "password") = Str v)
  /\ (forall resolved j v,
     Live.loadConfig decryptObject env (Live.unshared cfg) = Ok resolved ->
     Config.get cfg (creditCardKey i j "password") <> Undefined ->
     env (creditCardVariable i j "PASSWORD") = Some v -> v <> EmptyString ->
     isEncrypted (Str v) = false ->
     Live.get env resolved (creditCardKey i j "password") = Str v)
  /\ (forall st1,
     Live.applyCredentialEnvOverrides env (Live.unshared cfg) = Ok st1 ->
     (Config.get cfg (bankKey i "password") <> Undefined ->
      missing (env (bankVariable i "PASSWORD")) ->
      Live.get env st1 (bankKey i "password") = Config.get cfg (bankKey i "password"))
     /\ (forall j,
      Config.get cfg (creditCardKey i j "password") <> Undefined ->
      missing (env (creditCardVariable i j "PASSWORD")) ->
      Live.get env st1 (creditCardKey i j "password")
      = Config.get cfg (creditCardKey i j "password"))).
Proof.
  assert (Hover : forall variable v, variable = Some v -> v <> EmptyString ->
            forall before, overridden variable before = Str v).
  { intros variable v -> Hv before. unfold overridden. cbn [valueOf truthy stringOf].
    now rewrite isEmpty_false. }
  assert (Hmiss : forall variable, missing variable ->
            forall before, overridden variable before = before).
  { intros variable [-> | ->] before; reflexivity. }
  split; [|split].
  - intros resolved v H Hget Hv Hne Hplain.
    destruct (@loadConfig_unshared_Ok env cfg resolved H) as (cfg1 & _ & H1 & H2).
    destruct (@applyCredentialEnvOverrides_password env cfg cfg1 i H1) as [Hb _].
    specialize (Hb Hget). rewrite (Hover _ _ Hv Hne) in Hb.
    exact (@decryptIfNeeded_keeps_plain env cfg1 resolved _ v H2 Hb Hplain).
  - intros resolved j v H Hget Hv Hne Hplain.
    destruct (@loadConfig_unshared_Ok env cfg resolved H) as (cfg1 & _ & H1 & H2).
    destruct (@applyCredentialEnvOverrides_password env cfg cfg1 i H1) as [_ Hc].
    specialize (Hc j Hget). rewrite (Hover _ _ Hv Hne) in Hc.
    exact (@decryptIfNeeded_keeps_plain env cfg1 resolved _ v H2 Hc Hplain).
  - intros st1 H. rewrite applyCredentialEnvOverrides_unshared in H.
    apply mapR_Ok in H. destruct H as (cfg1 & H & ->).
    destruct (@applyCredentialEnvOverrides_password env cfg cfg1 i H) as [Hb Hc].
    split.
    + intros Hget Hm. unfold bankKey. rewrite get_banks, stored_unshared.
      fold (bankKey i "password"). rewrite (Hb Hget). now apply Hmiss.
    + intros j Hget Hm. unfold creditCardKey. rewrite get_banks, stored_unshared.
      fold (creditCardKey i j "password"). rewrite (Hc j Hget). now apply Hmiss.
Qed.

(* ===================================================================== *)
(** ** Decrypting with another secret *)
(* ===================================================================== *)

Lemma In_allBytes (b : byte) : In b allBytes.
Proof.
  unfold allBytes. apply in_map_iff. exists (N.to_nat (Byte.to_N b)). split.
  - rewrite N2Nat.id. apply byteOfN_to_N.
  - apply in_seq. pose proof (Byte.to_N_bounded b). lia.
Qed.

Lemma In_buffersOfLength (buf : Buffer) : In buf (buffersOfLength (length buf)).
Proof.
  induction buf as [|b r IH]; [now left|].
  cbn [length buffersOfLength]. apply in_flat_map. exists b. split.
  - apply In_allBytes.
  - now apply in_map.
Qed.

(** No function from the natural numbers to the buffers of one length
    is injective. *)
Lemma buffers_pigeonhole (n : nat) (f : nat -> Buffer) :
  (forall i, length (f i) = n) -> ~ (forall i j, f i = f j -> i = j).
Proof.
  intros Hlen Hinj.
  set (universe := buffersOfLength n).
  set (images := List.map f (seq 0 (S (length universe)))).
  assert (Hnodup : NoDup images).
  { apply NoDup_map_NoDup_ForallPairs; [|apply seq_NoDup].
    intros i j _ _. apply Hinj. }
  assert (Hincl : incl images universe).
  { intros buf Hbuf. apply in_map_iff in Hbuf. destruct Hbuf as (i & <- & _).
    unfold universe. rewrite <- (Hlen i). apply In_buffersOfLength. }
  pose proof (NoDup_incl_length Hnodup Hincl) as Hle.
  unfold images in Hle. rewrite length_map, length_seq in Hle. lia.
Qed.

Lemma ofNat_nonempty (i : nat) : JsString.ofNat i <> EmptyString.
Proof.
  intros H. pose proof (arrayIndex_ofNat i) as Hi. rewrite H in Hi. discriminate Hi.
Qed.

(** The envelope depends on the secret through the derived key only. *)
Lemma envelopeOf_key (p s1 s2 : string) (salt iv : Buffer) :
  deriveKey s1 salt = deriveKey s2 salt ->
  envelopeOf p s1 salt iv = envelopeOf p s2 salt iv.
Proof. unfold envelopeOf. now intros ->. Qed.

(** [decrypt] on an envelope, as far as the call of the decipher. *)
Lemma decrypt_envelopeOf_other (p s1 s2 : string) (salt iv : Buffer) :
  s2 <> EmptyString ->
  length salt = SALT_LENGTH -> length iv = IV_LENGTH ->
  let sealed := cipher ALGORITHM (deriveKey s1 salt) iv (utf8Bytes p) in
  decrypt (Some (envelopeOf p s1 salt iv)) (Some s2)
  = match decipher ALGORITHM (deriveKey s2 salt) iv (snd sealed) (fst sealed) with
    | Plain decrypted => Ok (utf8String decrypted)
    | SetupThrows message => Throw message
    | FinalThrows message =>
        if JsString.includes message "Unsupported state" || JsString.includes message "auth"
        then Throw DECRYPTION_FAILED
        else Throw message
    end.
Proof.
  intros Hs Hsalt Hiv sealed. unfold decrypt, envelopeOf. fold sealed.
  rewrite !truthy_Some, (isEmpty_false Hs).
  change (JsString.isEmpty (ENCRYPTED_PREFIX ++ _)) with false.
  cbn [negb orb valueOf stringOf].
  rewrite envelope_isEncrypted. cbn [negb].
  rewrite slice_append, decode_encode.
  destruct (@envelope_fields salt iv (snd sealed) (fst sealed) Hsalt Hiv
              (authTag_length _ iv (utf8Bytes p))) as (E1 & E2 & E3 & E4).
  now rewrite E1, E2, E3, E4.
Qed.

(** C6, as the code has it.  For non-empty [p], [s1] and [s2],
    [decrypt(encrypt(p, s1), s2)] hands the fields of the envelope to
    the decipher with the key derived from [s2].  When the decipher
    rejects the authentication tag, [decrypt] throws the
    authentication-failed error and returns no plaintext; when [s2]
    derives the key that [s1] derives, it returns the string that the
    UTF-8 bytes of [p] decode to, which is [p] when [p] holds no
    unpaired surrogate. *)
Theorem decrypt_with_other_secret (p s1 s2 : string) (e : entropy) :
  p <> EmptyString -> s1 <> EmptyString -> s2 <> EmptyString ->
  exists envelope e',
    encrypt (Some p) (Some s1) e = Ok (envelope, e')
    /\ let salt := fst (randomBytes SALT_LENGTH e) in
       let iv := fst (randomBytes IV_LENGTH (snd (randomBytes SALT_LENGTH e))) in
       let sealed := cipher ALGORITHM (deriveKey s1 salt) iv (utf8Bytes p) in
       (decipher ALGORITHM (deriveKey s2 salt) iv (snd sealed) (fst sealed)
        = FinalThrows UNAUTHENTIC ->
        decrypt (Some envelope) (Some s2) = Throw DECRYPTION_FAILED
        /\ errorKind DECRYPTION_FAILED = AuthenticationFailed)
       /\ (deriveKey s2 salt = deriveKey s1 salt ->
           decrypt (Some envelope) (Some s2) = Ok (utf8String (utf8Bytes p))
           /\ (wellFormed p = true -> decrypt (Some envelope) (Some s2) = Ok p)).
Proof.
  intros Hp Hs1 Hs2. eexists _, _. split; [now apply encrypt_ok|].
  cbv zeta. split.
  - intros Hreject. split; [|reflexivity].
    rewrite decrypt_envelopeOf_other by (assumption || apply randomBytes_length).
    now rewrite Hreject.
  - intros Hkey. rewrite (@envelopeOf_key p s1 s2 _ _ (eq_sym Hkey)). split.
    + apply decrypt_envelopeOf; [assumption | apply randomBytes_length ..].
    + intros Hw. apply decrypt_envelopeOf_wellFormed;
        [assumption | assumption | apply randomBytes_length ..].
Qed.

(** Whatever the primitives, as long as they meet their contracts, it
    is not the case that every pair of distinct non-empty secrets is
    told apart.  The derived keys have [KEY_LENGTH] bytes, so two of the
    secrets ["0"], ["1"], ["2"], ... derive the same key from the salt of
    the envelope, and each decrypts what the other encrypted. *)
Lemma some_other_secret_decrypts (p : string) (e : entropy) :
  p <> EmptyString ->
  ~ (forall s1 s2 envelope e',
       s1 <> EmptyString -> s2 <> EmptyString -> s1 <> s2 ->
       encrypt (Some p) (Some s1) e = Ok (envelope, e') ->
       decrypt (Some envelope) (Some s2) = Throw DECRYPTION_FAILED).
Proof.
  intros Hp Hclaim.
  set (salt := fst (randomBytes SALT_LENGTH e)).
  set (iv := fst (randomBytes IV_LENGTH (snd (randomBytes SALT_LENGTH e)))).
  apply (@buffers_pigeonhole KEY_LENGTH (fun i => deriveKey (JsString.ofNat i) salt)).
  - intros i. apply pbkdf2_length.
  - intros i j Hkey.
    destruct (Nat.eq_dec i j) as [|Hij]; [assumption|]. exfalso.
    pose proof (@encrypt_ok p (JsString.ofNat i) e Hp (ofNat_nonempty i)) as Henc.
    pose proof (Hclaim _ _ _ _ (ofNat_nonempty i) (ofNat_nonempty j)
                  (ofNat_neq Hij) Henc) as Hthrow.
    fold salt iv in Hthrow.
    rewrite (@envelopeOf_key p _ _ salt iv Hkey) in Hthrow.
    rewrite decrypt_envelopeOf in Hthrow;
      [discriminate | apply ofNat_nonempty | apply randomBytes_length ..].
Qed.

(* ===================================================================== *)
(** ** The tree codec: passes over whole documents *)
(* ===================================================================== *)

Lemma allM_Forall2i {A B} (f : nat -> A -> M B) (R : nat -> A -> B -> Prop) (l : list A) :
  Forall (fun x => forall i e y e', f i x e = Ok (y, e') -> R i x y) l ->
  forall i e l' e', allM f i l e = Ok (l', e') -> Forall2i R i l l'.
Proof.
  induction 1 as [|x r Hx _ IH]; intros i e l' e' H.
  - apply allM_nil_Ok in H. destruct H as [-> _]. constructor.
  - apply allM_cons_Ok in H. destruct H as (y & e1 & ys & Hy & Hys & ->).
    constructor; [eapply Hx; exact Hy | eapply IH; exact Hys].
Qed.

(** A relation between a document and what a pass returns for it holds
    as soon as it holds at the leaves and is passed on by arrays and
    objects. *)
Lemma encryptSensitiveFields_rel (mp : option string) (P : string -> node -> node -> Prop) :
  (forall path d, Config.isObject d = false -> (forall s, d <> Str s) -> P path d d) ->
  (forall path s, wantsEncryption path s && negb (isEncrypted (Str s)) = false ->
     P path (Str s) (Str s)) ->
  (forall path s e envelope e',
     wantsEncryption path s && negb (isEncrypted (Str s)) = true ->
     encrypt (Some s) mp e = Ok (envelope, e') -> P path (Str s) (Str envelope)) ->
  (forall path items items',
     Forall2i (fun i => P (indexPath path i)) 0 items items' ->
     P path (Arr items) (Arr items')) ->
  (forall path entries entries',
     Forall2i (fun _ x y => fst y = fst x /\ P (keyPath path (fst x)) (snd x) (snd y))
       0 entries entries' ->
     P path (Obj entries) (Obj entries')) ->
  (forall path time entries entries',
     Forall2i (fun _ x y => fst y = fst x /\ P (keyPath path (fst x)) (snd x) (snd y))
       0 entries entries' ->
     P path (Date time entries) (Obj entries')) ->
  forall d path e d' e', encryptSensitiveFields d mp path e = Ok (d', e') -> P path d d'.
Proof.
  intros Hscalar Hno Hyes HArr HObj HDate.
  induction d as [| |b|n|s|items IH|entries IH|time entries IH] using node_induction;
    intros path e d' e' H.
  1-4: cbn in H; apply ret_Ok in H; destruct H as [<- _];
       apply Hscalar; [reflexivity | discriminate].
  - rewrite encryptSensitiveFields_Str in H.
    destruct (wantsEncryption path s && negb (isEncrypted (Str s))) eqn:Hc.
    + apply bind_Ok in H. destruct H as (envelope & e1 & Henc & H).
      apply ret_Ok in H. destruct H as [<- <-].
      eapply Hyes; [exact Hc | exact Henc].
    + apply ret_Ok in H. destruct H as [<- <-]. now apply Hno.
  - cbn [encryptSensitiveFields] in H.
    apply bind_Ok in H. destruct H as (items' & e1 & Hall & H).
    apply ret_Ok in H. destruct H as [<- <-].
    apply HArr. eapply allM_Forall2i; [|exact Hall].
    eapply Forall_impl; [|exact IH].
    intros item Hitem i e0 y e0' Hy. eapply Hitem; exact Hy.
  - cbn [encryptSensitiveFields] in H.
    apply bind_Ok in H. destruct H as (entries' & e1 & Hall & H).
    apply ret_Ok in H. destruct H as [<- <-].
    apply HObj. eapply allM_Forall2i; [|exact Hall].
    eapply Forall_impl; [|exact IH].
    intros [k v] Hv i e0 y e0' Hy. cbn [fst snd] in *.
    apply bind_Ok in Hy. destruct Hy as (v' & e4 & Hv' & Hy).
    apply ret_Ok in Hy. destruct Hy as [<- <-]. cbn [fst snd].
    split; [reflexivity|]. eapply Hv; exact Hv'.
  - cbn [encryptSensitiveFields] in H.
    apply bind_Ok in H. destruct H as (entries' & e1 & Hall & H).
    apply ret_Ok in H. destruct H as [<- <-].
    apply HDate. eapply allM_Forall2i; [|exact Hall].
    eapply Forall_impl; [|exact IH].
    intros [k v] Hv i e0 y e0' Hy. cbn [fst snd] in *.
    apply bind_Ok in Hy. destruct Hy as (v' & e4 & Hv' & Hy).
    apply ret_Ok in Hy. destruct Hy as [<- <-]. cbn [fst snd].
    split; [reflexivity|]. eapply Hv; exact Hv'.
Qed.

(** *** Counting encrypted values *)

Lemma countEncryptedFields_forEach {A} (count : A -> Counts.t -> Counts.t)
  (leaves : A -> nat) (l : list A) :
  Forall (fun x => forall c,
            count x c = {| Counts.encrypted := Counts.encrypted c + leaves x;
                           Counts.total := Counts.total c |}) l ->
  forall i c,
    forEachIndexed
      (fun (_ : nat) x result =>
         let next := count x result in
         {| Counts.encrypted := Counts.encrypted next; Counts.total := Counts.total next |})
      i l c
    = {| Counts.encrypted := Counts.encrypted c + list_sum (List.map leaves l);
         Counts.total := Counts.total c |}.
Proof.
  induction 1 as [|x r Hx _ IH]; intros i c.
  - cbn. destruct c as [n t]. cbn. f_equal. lia.
  - cbn [forEachIndexed]. rewrite IH, Hx. simpl. f_equal. lia.
Qed.

Lemma countEncryptedFields_leaves (d : node) :
  forall count,
    countEncryptedFields d count
    = {| Counts.encrypted := Counts.encrypted count + encryptedLeaves d;
         Counts.total := Counts.total count |}.
Proof.
  induction d as [| |b|n|s|items IH|entries IH|time entries IH] using node_induction; intros c.
  1-4: cbn; f_equal; lia.
  - cbn [countEncryptedFields encryptedLeaves].
    destruct (isEncrypted (Str s)); cbn; f_equal; lia.
  - cbn [countEncryptedFields encryptedLeaves].
    rewrite (@countEncryptedFields_forEach _ countEncryptedFields encryptedLeaves items IH).
    reflexivity.
  - cbn [countEncryptedFields encryptedLeaves].
    rewrite (@countEncryptedFields_forEach _
               (fun entry => countEncryptedFields (snd entry))
               (fun entry => encryptedLeaves (snd entry)) entries IH).
    reflexivity.
  - cbn [countEncryptedFields encryptedLeaves].
    rewrite (@countEncryptedFields_forEach _
               (fun entry => countEncryptedFields (snd entry))
               (fun entry => encryptedLeaves (snd entry)) entries IH).
    reflexivity.
Qed.

(** X1.  [countEncryptedFields(obj, count)] adds the number of encrypted
    string leaves of [obj] to [count.encrypted] and returns [count.total]
    as it was passed, for every document: no statement of the function
    increments [total]. *)
Theorem countEncryptedFields_total_never_advances (d : node) (count : Counts.t) :
  Counts.total (countEncryptedFields d count) = Counts.total count
  /\ Counts.encrypted (countEncryptedFields d count)
     = Counts.encrypted count + Counts.encrypted (countEncryptedFields d noCount)
  /\ Counts.encrypted (countEncryptedFields d noCount) = encryptedLeaves d.
Proof.
  rewrite !countEncryptedFields_leaves. cbn. repeat split.
Qed.

Lemma encryptedLeaves_zero (d : node) :
  encryptedLeaves d = 0 <-> hasEncryptedValues d = false.
Proof.
  induction d as [| |b|n|s|items IH|entries IH|time entries IH] using node_induction.
  1-4: cbn; tauto.
  - cbn [encryptedLeaves hasEncryptedValues].
    destruct (isEncrypted (Str s)); split; intros H; try discriminate H; reflexivity.
  - cbn [encryptedLeaves hasEncryptedValues].
    induction IH as [|x r Hx _ IHr]; [cbn; tauto|].
    cbn [List.map list_sum existsb]. simpl list_sum.
    rewrite orb_false_iff, <- Hx, <- IHr. lia.
  - cbn [encryptedLeaves hasEncryptedValues].
    induction IH as [|x r Hx _ IHr]; [cbn; tauto|].
    cbn [List.map list_sum existsb]. simpl list_sum.
    rewrite orb_false_iff, <- Hx, <- IHr. lia.
  - cbn [encryptedLeaves hasEncryptedValues].
    induction IH as [|x r Hx _ IHr]; [cbn; tauto|].
    cbn [List.map list_sum existsb]. simpl list_sum.
    rewrite orb_false_iff, <- Hx, <- IHr. lia.
Qed.

(** X2.  The count of the tool and the detection of the loader agree:
    [countEncryptedFields(obj).encrypted] is zero exactly when
    [hasEncryptedValues(obj)] is false. *)
Theorem countEncryptedFields_agrees_with_hasEncryptedValues (d : node) :
  Counts.encrypted (countEncryptedFields d noCount) = 0 <-> hasEncryptedValues d = false.
Proof.
  rewrite countEncryptedFields_leaves. cbn.
  apply encryptedLeaves_zero.
Qed.

(** *** After a pass *)

Lemma listSensitiveFields_pass (d : node) (mp : option string)
  (path : string) (e : entropy) (d' : node) (e' : entropy) :
  encryptSensitiveFields d mp path e = Ok (d', e') ->
  forall fields, listSensitiveFields d' path fields = fields.
Proof.
  revert d path e d' e'.
  apply (@encryptSensitiveFields_rel mp
           (fun path _ d' => forall fields, listSensitiveFields d' path fields = fields)).
  - intros path [| |b|n|s|items|entries|time entries] Hobj Hstr fields; try reflexivity;
      try discriminate Hobj. now elim (Hstr s).
  - intros path s Hc fields. cbn [listSensitiveFields]. now rewrite Hc.
  - intros path s e envelope e' _ Henc fields. cbn [listSensitiveFields].
    rewrite (encrypt_isEncrypted _ _ _ Henc). now rewrite andb_false_r.
  - intros path items items' H fields. cbn [listSensitiveFields].
    revert fields. induction H as [i|i x y l l' Hxy _ IH]; intros fields; [reflexivity|].
    cbn [forEachIndexed]. now rewrite Hxy, IH.
  - intros path entries entries' H fields. cbn [listSensitiveFields].
    revert fields. induction H as [i|i x y l l' [Hk Hxy] _ IH]; intros fields; [reflexivity|].
    cbn [forEachIndexed]. now rewrite Hk, Hxy, IH.
  - intros path time entries entries' H fields. cbn [listSensitiveFields].
    revert fields. induction H as [i|i x y l l' [Hk Hxy] _ IH]; intros fields; [reflexivity|].
    cbn [forEachIndexed]. now rewrite Hk, Hxy, IH.
Qed.

(** X3.  Nothing is left to encrypt after a pass: when
    [encryptSensitiveFields] returns a document, [listSensitiveFields]
    finds no field in it (and pushes nothing onto a list it is given),
    so the tool run again on its own output reports that there is
    nothing to encrypt. *)
Theorem listSensitiveFields_after_encryption (d : node) (mp : option string)
  (path : string) (e : entropy) (d' : node) (e' : entropy) :
  encryptSensitiveFields d mp path e = Ok (d', e') ->
  forall fields, listSensitiveFields d' path fields = fields.
Proof. intros H fields. exact (listSensitiveFields_pass _ _ _ _ H fields). Qed.

Lemma countEncryptedFields_pass (d : node) (mp : option string)
  (path : string) (e : entropy) (d' : node) (e' : entropy) :
  encryptSensitiveFields d mp path e = Ok (d', e') ->
  Counts.encrypted (countEncryptedFields d' noCount)
  = Counts.encrypted (countEncryptedFields d noCount)
    + length (listSensitiveFields d path []).
Proof.
  intros H.
  rewrite (listSensitiveFields_replacedPaths _ _ _ _ [] H), !countEncryptedFields_leaves.
  cbn [Counts.encrypted noCount app Nat.add].
  revert d path e d' e' H.
  apply (@encryptSensitiveFields_rel mp
           (fun path d d' =>
              encryptedLeaves d' = encryptedLeaves d + length (replacedPaths d d' path))).
  - intros path [| |b|n|s|items|entries|time entries] Hobj Hstr; try reflexivity;
      try discriminate Hobj. now elim (Hstr s).
  - intros path s _. cbn [encryptedLeaves replacedPaths].
    rewrite String.eqb_refl. cbn. lia.
  - intros path s e envelope e' Hc Henc. cbn [encryptedLeaves replacedPaths].
    rewrite (encrypt_isEncrypted _ _ _ Henc).
    apply andb_prop in Hc. destruct Hc as [_ Hc]. apply negb_true_iff in Hc.
    rewrite Hc.
    destruct (String.eqb_spec s envelope) as [->|_]; [|reflexivity].
    rewrite (encrypt_isEncrypted _ _ _ Henc) in Hc. discriminate Hc.
  - intros path items items' H. cbn [encryptedLeaves replacedPaths].
    induction H as [i|i x y l l' Hxy _ IH]; [reflexivity|].
    cbn [List.map concatZip]. simpl list_sum. rewrite length_app. lia.
  - intros path entries entries' H. cbn [encryptedLeaves replacedPaths].
    induction H as [i|i x y l l' [Hk Hxy] _ IH]; [reflexivity|].
    cbn [List.map concatZip]. simpl list_sum. rewrite length_app. lia.
  - intros path time entries entries' H. cbn [encryptedLeaves replacedPaths].
    induction H as [i|i x y l l' [Hk Hxy] _ IH]; [reflexivity|].
    cbn [List.map concatZip]. simpl list_sum. rewrite length_app. lia.
Qed.

(** X4.  The number that the tool reports after a run: the encrypted
    values of the document returned by a pass are those of the document
    it was given and one more for every field that [listSensitiveFields]
    lists. *)
Theorem countEncryptedFields_after_encryption (d : node) (mp : option string)
  (path : string) (e : entropy) (d' : node) (e' : entropy) :
  encryptSensitiveFields d mp path e = Ok (d', e') ->
  Counts.encrypted (countEncryptedFields d' noCount)
  = Counts.encrypted (countEncryptedFields d noCount)
    + length (listSensitiveFields d path []).
Proof. intros H. exact (countEncryptedFields_pass _ _ _ _ H). Qed.

Lemma encryptSensitiveFields_shape (mp : option string) :
  forall d path e d' e',
    encryptSensitiveFields d mp path e = Ok (d', e') -> shape d' = shape d.
Proof.
  apply (@encryptSensitiveFields_rel mp (fun _ d d' => shape d' = shape d)).
  - reflexivity.
  - reflexivity.
  - reflexivity.
  - intros _ items items' H. cbn [shape]. f_equal.
    induction H as [i|i x y l l' Hxy _ IH]; [reflexivity|].
    cbn [List.map]. now rewrite Hxy, IH.
  - intros path entries entries' H. cbn [shape]. f_equal.
    induction H as [i|i x y l l' [Hk Hxy] _ IH]; [reflexivity|].
    cbn [List.map]. now rewrite Hk, Hxy, IH.
  - intros path time entries entries' H. cbn [shape]. f_equal.
    induction H as [i|i x y l l' [Hk Hxy] _ IH]; [reflexivity|].
    cbn [List.map]. now rewrite Hk, Hxy, IH.
Qed.

(** *** Decrypting whole documents *)

Lemma allR_guarded {A B} (f : A -> result B) (g : A -> B) (guard : A -> bool)
  (message : string) (l : list A) :
  Forall (fun x => f x = if guard x then Throw message else Ok (g x)) l ->
  allR f l = if existsb guard l then Throw message else Ok (List.map g l).
Proof.
  induction 1 as [|x r Hx _ IH]; [reflexivity|].
  cbn [allR existsb List.map]. fold (allR f). rewrite Hx, IH.
  destruct (guard x); [reflexivity|]. cbn [orb].
  now destruct (existsb guard r).
Qed.

Lemma existsb_false_Forall {A} (guard : A -> bool) (P : A -> Prop) (l : list A) :
  Forall (fun x => guard x = false -> P x) l -> existsb guard l = false -> Forall P l.
Proof.
  induction 1 as [|x r Hx _ IH]; intros H; [constructor|].
  cbn [existsb] in H. apply orb_false_iff in H. destruct H as [H1 H2].
  constructor; auto.
Qed.

Lemma allR_map {A B} (f : A -> result B) (g : A -> B) (l : list A) :
  Forall (fun x => f x = Ok (g x)) l -> allR f l = Ok (List.map g l).
Proof.
  induction 1 as [|x r Hx _ IH]; [reflexivity|].
  cbn [allR List.map]. fold (allR f). now rewrite Hx, IH.
Qed.

Lemma rebuilt_plainData (d : node) : plainData d = true -> rebuilt d = d.
Proof.
  induction d as [| |b|n|s|items IH|entries IH|time entries IH] using node_induction;
    intros H; try reflexivity; try discriminate H.
  - cbn [rebuilt plainData] in *. f_equal.
    induction IH as [|x r Hx _ IHr]; [reflexivity|].
    cbn [forallb List.map] in *. apply andb_prop in H. destruct H as [H1 H2].
    now rewrite Hx, IHr.
  - cbn [rebuilt plainData] in *. f_equal.
    induction IH as [|[k v] r Hx _ IHr]; [reflexivity|].
    cbn [forallb List.map fst snd] in *. apply andb_prop in H. destruct H as [H1 H2].
    now rewrite Hx, IHr.
Qed.

Lemma decryptObject_plain (d : node) (mp : option string) :
  hasEncryptedValues d = false -> decryptObject d mp = Ok (rebuilt d).
Proof.
  induction d as [| |b|n|s|items IH|entries IH|time entries IH] using node_induction; intros H;
    try reflexivity.
  - cbn [hasEncryptedValues] in H. cbn [decryptObject]. now rewrite H.
  - cbn [hasEncryptedValues] in H. cbn [decryptObject rebuilt].
    rewrite (@allR_map _ _ _ rebuilt); [reflexivity|].
    eapply existsb_false_Forall; [|exact H]. exact IH.
  - cbn [hasEncryptedValues] in H. cbn [decryptObject rebuilt].
    rewrite (@allR_map _ _ _ (fun entry => (fst entry, rebuilt (snd entry))));
      [reflexivity|].
    eapply (@existsb_false_Forall _ (fun entry => hasEncryptedValues (snd entry)));
      [|exact H].
    eapply Forall_impl; [|exact IH].
    intros [k v] Hv Hf. cbn [fst snd] in *. now rewrite Hv.
  - cbn [hasEncryptedValues] in H. cbn [decryptObject rebuilt].
    rewrite (@allR_map _ _ _ (fun entry => (fst entry, rebuilt (snd entry))));
      [reflexivity|].
    eapply (@existsb_false_Forall _ (fun entry => hasEncryptedValues (snd entry)));
      [|exact H].
    eapply Forall_impl; [|exact IH].
    intros [k v] Hv Hf. cbn [fst snd] in *. now rewrite Hv.
Qed.

(** X5.  For a document without encrypted values [decryptObject]
    never calls [decrypt]: whatever the master password, also when none
    is given, it returns the document rebuilt, that is with a plain
    object in the place of every [Date], and so the document itself
    when it holds no [Date]. *)
Theorem decryptObject_without_encrypted_values (d : node) (mp : option string) :
  hasEncryptedValues d = false ->
  decryptObject d mp = Ok (rebuilt d)
  /\ (plainData d = true -> decryptObject d mp = Ok d).
Proof.
  intros H. split; [now apply decryptObject_plain|].
  intros Hd. rewrite (decryptObject_plain _ mp H). now rewrite rebuilt_plainData.
Qed.

Lemma missing_falsy (o : option string) : missing o -> truthy (valueOf o) = false.
Proof. intros [->| ->]; reflexivity. Qed.

(** X6.  Without a master password, [decryptObject] fails exactly on the
    documents that hold an encrypted value, with the invalid-input error
    of [decrypt]; every other document is returned rebuilt, with a plain
    object in the place of every [Date], and so as it is when it holds
    no [Date]. *)
Theorem decryptObject_requires_password (d : node) (mp : option string) :
  missing mp ->
  decryptObject d mp
  = (if hasEncryptedValues d then Throw ENCRYPTED_TEXT_REQUIRED else Ok (rebuilt d))
  /\ (plainData d = true -> rebuilt d = d).
Proof.
  intros Hmp. split; [|apply rebuilt_plainData].
  induction d as [| |b|n|s|items IH|entries IH|time entries IH] using node_induction;
    try reflexivity.
  - cbn [decryptObject hasEncryptedValues].
    destruct (isEncrypted (Str s)); [|reflexivity].
    unfold decrypt. rewrite (missing_falsy Hmp). cbn [negb].
    now rewrite orb_true_r.
  - cbn [decryptObject hasEncryptedValues rebuilt].
    rewrite (@allR_guarded _ _ _ rebuilt hasEncryptedValues ENCRYPTED_TEXT_REQUIRED items IH).
    now destruct (existsb hasEncryptedValues items).
  - cbn [decryptObject hasEncryptedValues rebuilt].
    rewrite (@allR_guarded _ _ _ (fun entry => (fst entry, rebuilt (snd entry)))
               (fun entry => hasEncryptedValues (snd entry))
               ENCRYPTED_TEXT_REQUIRED entries).
    + now destruct (existsb _ entries).
    + eapply Forall_impl; [|exact IH].
      intros [k v] Hv. cbn [fst snd] in *. rewrite Hv.
      now destruct (hasEncryptedValues v).
  - cbn [decryptObject hasEncryptedValues rebuilt].
    rewrite (@allR_guarded _ _ _ (fun entry => (fst entry, rebuilt (snd entry)))
               (fun entry => hasEncryptedValues (snd entry))
               ENCRYPTED_TEXT_REQUIRED entries).
    + now destruct (existsb _ entries).
    + eapply Forall_impl; [|exact IH].
      intros [k v] Hv. cbn [fst snd] in *. rewrite Hv.
      now destruct (hasEncryptedValues v).
Qed.

Lemma encrypt_Ok_inv (p : string) (mp : option string) (e : entropy)
  (envelope : string) (e' : entropy) :
  encrypt (Some p) mp e = Ok (envelope, e') ->
  exists s, mp = Some s /\ s <> EmptyString /\ p <> EmptyString
    /\ envelope = envelopeOf p s (fst (randomBytes SALT_LENGTH e))
                    (fst (randomBytes IV_LENGTH (snd (randomBytes SALT_LENGTH e)))).
Proof.
  intros H.
  destruct p as [|c p]; [discriminate H|].
  destruct mp as [[|c' s]|]; try discriminate H.
  exists (String c' s). repeat split; try discriminate.
  rewrite encrypt_ok in H by discriminate. now injection H as <- _.
Qed.

Lemma Forall2i_impl {A B} (R R' : nat -> A -> B -> Prop) :
  (forall i x y, R i x y -> R' i x y) ->
  forall i l l', Forall2i R i l l' -> Forall2i R' i l l'.
Proof. intros HR i l l' H. induction H; constructor; auto. Qed.

(** Decrypting what a pass returned is decrypting what the pass was
    given, when the strings of the latter hold no unpaired surrogate. *)
Lemma allR_same_when {A B} (f : A -> result B) (ok : A -> bool) (i : nat)
  (l l' : list A) :
  Forall2i (fun _ x y => ok x = true -> f y = f x) i l l' ->
  forallb ok l = true -> allR f l' = allR f l.
Proof.
  induction 1 as [i|i x y l l' Hxy _ IH]; intros Hok; [reflexivity|].
  cbn [forallb] in Hok. apply andb_prop in Hok. destruct Hok as [Hx Hl].
  cbn [allR]. fold (allR f). now rewrite (Hxy Hx), (IH Hl).
Qed.

Lemma decryptObject_after_pass (mp : option string) :
  forall d path e d' e',
    encryptSensitiveFields d mp path e = Ok (d', e') ->
    wellFormedStrings d = true ->
    decryptObject d' mp = decryptObject d mp.
Proof.
  apply (@encryptSensitiveFields_rel mp
           (fun _ d d' => wellFormedStrings d = true ->
                          decryptObject d' mp = decryptObject d mp)).
  - reflexivity.
  - reflexivity.
  - intros path s e envelope e' Hc Henc Hw.
    apply andb_prop in Hc. destruct Hc as [_ Hc]. apply negb_true_iff in Hc.
    cbn [decryptObject]. rewrite Hc, (encrypt_isEncrypted _ _ _ Henc).
    destruct (@encrypt_Ok_inv _ _ _ _ _ Henc) as (pw & -> & Hpw & _ & ->).
    rewrite decrypt_envelopeOf_wellFormed;
      [reflexivity | exact Hw | exact Hpw | |]; apply randomBytes_length.
  - intros _ items items' H Hw. cbn [decryptObject]. f_equal.
    eapply allR_same_when; [exact H | exact Hw].
  - intros path entries entries' H Hw. cbn [decryptObject]. f_equal.
    eapply (@allR_same_when _ _ _ (fun entry => wellFormedStrings (snd entry)));
      [|exact Hw].
    eapply Forall2i_impl; [|exact H].
    intros i x y [Hk Hxy] Hx. cbn beta. now rewrite Hk, (Hxy Hx).
  - intros path time entries entries' H Hw. cbn [decryptObject]. f_equal.
    eapply (@allR_same_when _ _ _ (fun entry => wellFormedStrings (snd entry)));
      [|exact Hw].
    eapply Forall2i_impl; [|exact H].
    intros i x y [Hk Hxy] Hx. cbn beta. now rewrite Hk, (Hxy Hx).
Qed.

(** X7.  The round trip on documents whose strings hold no unpaired
    surrogate: when [encryptSensitiveFields] returns [d'] for such a
    document [d], [decryptObject] with the same master password returns
    for [d'] exactly the documents it returns for [d]; for a [d] that
    held no encrypted value it returns [d] rebuilt, with a plain object
    in the place of every [Date], and so [d] itself when [d] holds no
    [Date].  The primitives are assumed to meet their contracts. *)
Theorem decryptObject_undoes_encryptSensitiveFields (d : node) (mp : option string)
  (path : string) (e : entropy) (d' : node) (e' : entropy) :
  encryptSensitiveFields d mp path e = Ok (d', e') ->
  wellFormedStrings d = true ->
  (forall plain, decryptObject d' mp = Ok plain <-> decryptObject d mp = Ok plain)
  /\ (hasEncryptedValues d = false ->
      decryptObject d' mp = Ok (rebuilt d)
      /\ (plainData d = true -> decryptObject d' mp = Ok d)).
Proof.
  intros H Hw. pose proof (decryptObject_after_pass _ _ _ _ H Hw) as Heq.
  split; [intros plain; now rewrite Heq|].
  intros Hplain. rewrite Heq, (decryptObject_plain _ mp Hplain).
  split; [reflexivity|]. intros Hd. now rewrite rebuilt_plainData.
Qed.

(** *** What a pass leaves alone *)

Lemma lookup_shape (name : string) (entries : list (string * node)) :
  Config.lookup name (List.map (fun entry => (fst entry, shape (snd entry))) entries)
  = option_map shape (Config.lookup name entries).
Proof.
  induction entries as [|[k v] r IH]; [reflexivity|].
  cbn [List.map Config.lookup fst snd]. destruct (String.eqb k name); [reflexivity | exact IH].
Qed.

Lemma descend_shape (address : list step) :
  forall d, descend (shape d) address = option_map shape (descend d address).
Proof.
  induction address as [|st rest IH]; intros d; [reflexivity|].
  cbn [descend].
  assert (Hc : child (shape d) st = option_map shape (child d st)).
  { destruct st as [name|i], d as [| |b|n|s|items|entries|time entries]; try reflexivity.
    - apply lookup_shape.
    - apply lookup_shape.
    - cbn [shape child]. apply nth_error_map. }
  rewrite Hc. destruct (child d st) as [c|]; [apply IH | reflexivity].
Qed.

(** X8.  A pass adds and removes no node: the document returned by
    [encryptSensitiveFields] has a node at an address exactly when the
    document given has one; where the latter holds [null], a boolean or
    a number, the former holds the same value; and where the latter
    holds a [Date], the former holds a plain object, the time value
    lost. *)
Theorem encryptSensitiveFields_keeps_structure (d : node) (mp : option string)
  (path : string) (e : entropy) (d' : node) (e' : entropy) :
  encryptSensitiveFields d mp path e = Ok (d', e') ->
  forall address,
    (descend d' address = None <-> descend d address = None)
    /\ (forall c, descend d address = Some c ->
          (forall s, c <> Str s) -> Config.isObject c = false ->
          descend d' address = Some c)
    /\ (forall time entries, descend d address = Some (Date time entries) ->
          exists entries', descend d' address = Some (Obj entries')).
Proof.
  intros H address. split; [|split].
  - pose proof (descend_shape address d') as H1.
    rewrite (@encryptSensitiveFields_shape mp _ _ _ _ _ H), descend_shape in H1.
    destruct (descend d' address), (descend d address); cbn in H1;
      split; intros Hn; congruence.
  - intros c Hc Hstr Hobj.
    destruct (descend_encryptSensitiveFields _ _ _ _ _ H Hc) as (c' & e1 & e1' & Hc' & Hpass).
    rewrite Hc'. f_equal.
    destruct c as [| |b|n|s|items|entries|time entries]; try discriminate Hobj;
      try (cbn in Hpass; apply ret_Ok in Hpass; now destruct Hpass as [<- _]).
    now elim (Hstr s).
  - intros time entries Hc.
    destruct (descend_encryptSensitiveFields _ _ _ _ _ H Hc) as (c' & e1 & e1' & Hc' & Hpass).
    cbn [encryptSensitiveFields] in Hpass.
    apply bind_Ok in Hpass. destruct Hpass as (entries' & e2 & _ & Hpass).
    apply ret_Ok in Hpass. destruct Hpass as [<- _]. now exists entries'.
Qed.

(** *** Passes that have nothing to encrypt, or no password *)

Lemma forEachIndexed_acc {A} (g : nat -> A -> list string -> list string) (l : list A) :
  Forall (fun x => forall i acc, g i x acc = acc ++ g i x []) l ->
  forall i acc, forEachIndexed g i l acc = acc ++ forEachIndexed g i l [].
Proof.
  induction 1 as [|x r Hx _ IH]; intros i acc.
  - cbn. now rewrite app_nil_r.
  - cbn [forEachIndexed]. rewrite IH, (IH _ (g i x [])), Hx. now rewrite app_assoc.
Qed.

Lemma listSensitiveFields_app (d : node) :
  forall path fields,
    listSensitiveFields d path fields = fields ++ listSensitiveFields d path [].
Proof.
  induction d as [| |b|n|s|items IH|entries IH|time entries IH] using node_induction; intros path fields;
    try (cbn; now rewrite app_nil_r).
  - cbn [listSensitiveFields].
    destruct (wantsEncryption path s && negb (isEncrypted (Str s)));
      [reflexivity | now rewrite app_nil_r].
  - cbn [listSensitiveFields]. apply forEachIndexed_acc.
    eapply Forall_impl; [|exact IH]. intros item Hitem i acc. apply Hitem.
  - cbn [listSensitiveFields].
    apply (@forEachIndexed_acc _
             (fun (_ : nat) entry acc =>
                listSensitiveFields (snd entry) (keyPath path (fst entry)) acc)).
    eapply Forall_impl; [|exact IH]. intros entry Hentry i acc. apply Hentry.
  - cbn [listSensitiveFields].
    apply (@forEachIndexed_acc _
             (fun (_ : nat) entry acc =>
                listSensitiveFields (snd entry) (keyPath path (fst entry)) acc)).
    eapply Forall_impl; [|exact IH]. intros entry Hentry i acc. apply Hentry.
Qed.

(** A list pass returns the list and draws nothing when no item has
    anything to encrypt; with nothing to encrypt before it, the first
    item that throws makes the list pass throw. *)
Lemma allM_preview {A B} (f : nat -> A -> M B) (g : nat -> A -> list string -> list string)
  (h : A -> B) (message : string) (strict : Prop) (l : list A) :
  Forall (fun x => (forall i acc, g i x acc = acc ++ g i x [])
                   /\ forall i e, match g i x [] with
                                  | [] => f i x e = Ok (h x, e)
                                  | _ => strict -> f i x e = Throw message
                                  end) l ->
  forall i e, match forEachIndexed g i l [] with
              | [] => allM f i l e = Ok (List.map h l, e)
              | _ => strict -> allM f i l e = Throw message
              end.
Proof.
  intros H. induction H as [|x r [Happ Hx] Hr IH]; intros i e; [reflexivity|].
  cbn [forEachIndexed allM List.map].
  rewrite forEachIndexed_acc
    by (eapply Forall_impl; [|exact Hr]; intros y [Hy _]; exact Hy).
  specialize (Hx i e). specialize (IH (S i) e).
  destruct (g i x []) as [|p ps].
  - cbn [app]. erewrite bind_run by exact Hx.
    destruct (forEachIndexed g (S i) r []) as [|q qs].
    + erewrite bind_run by exact IH. reflexivity.
    + intros Hs. unfold bind at 1. now rewrite (IH Hs).
  - cbn [app]. intros Hs. unfold bind at 1. now rewrite (Hx Hs).
Qed.

Lemma bind_throw {A B} (m : M A) (k : A -> M B) (e : entropy) (message : string) :
  m e = Throw message -> bind m k e = Throw message.
Proof. unfold bind. now intros ->. Qed.

(** The pass over the entries of an object or of a [Date]. *)
Lemma entries_preview (mp : option string) (path : string)
  (entries : list (string * node)) :
  Forall (fun entry =>
            forall path e,
              match listSensitiveFields (snd entry) path [] with
              | [] => encryptSensitiveFields (snd entry) mp path e
                      = Ok (rebuilt (snd entry), e)
              | _ => missing mp ->
                     encryptSensitiveFields (snd entry) mp path e = Throw PLAINTEXT_REQUIRED
              end) entries ->
  forall e,
    match forEachIndexed
            (fun (_ : nat) entry acc =>
               listSensitiveFields (snd entry) (keyPath path (fst entry)) acc)
            0 entries [] with
    | [] => allM (fun (_ : nat) entry =>
                    bind (encryptSensitiveFields (snd entry) mp (keyPath path (fst entry)))
                         (fun value => ret (fst entry, value)))
                 0 entries e
            = Ok (List.map (fun entry => (fst entry, rebuilt (snd entry))) entries, e)
    | _ => missing mp ->
           allM (fun (_ : nat) entry =>
                   bind (encryptSensitiveFields (snd entry) mp (keyPath path (fst entry)))
                        (fun value => ret (fst entry, value)))
                0 entries e
           = Throw PLAINTEXT_REQUIRED
    end.
Proof.
  intros IH e.
  apply (@allM_preview _ _
           (fun (_ : nat) entry =>
              bind (encryptSensitiveFields (snd entry) mp (keyPath path (fst entry)))
                   (fun value => ret (fst entry, value)))
           (fun (_ : nat) entry acc =>
              listSensitiveFields (snd entry) (keyPath path (fst entry)) acc)
           (fun entry => (fst entry, rebuilt (snd entry)))
           PLAINTEXT_REQUIRED (missing mp) entries).
  eapply Forall_impl; [|exact IH]. intros [k v] Hv. cbn [fst snd] in *.
  split; [intros _ acc; apply listSensitiveFields_app|].
  intros _ e0. specialize (Hv (keyPath path k) e0).
  destruct (listSensitiveFields v (keyPath path k) []).
  - erewrite bind_run; [reflexivity | exact Hv].
  - intros Hs. apply bind_throw. exact (Hv Hs).
Qed.

Lemma encryptSensitiveFields_preview (mp : option string) (d : node) :
  forall path e,
    match listSensitiveFields d path [] with
    | [] => encryptSensitiveFields d mp path e = Ok (rebuilt d, e)
    | _ => missing mp -> encryptSensitiveFields d mp path e = Throw PLAINTEXT_REQUIRED
    end.
Proof.
  induction d as [| |b|n|s|items IH|entries IH|time entries IH] using node_induction; intros path e;
    try reflexivity.
  - rewrite encryptSensitiveFields_Str. cbn [listSensitiveFields].
    destruct (wantsEncryption path s && negb (isEncrypted (Str s))); [|reflexivity].
    cbn [app]. intros Hmp. unfold bind, encrypt.
    rewrite (missing_falsy Hmp). cbn [negb]. now rewrite orb_true_r.
  - cbn [listSensitiveFields encryptSensitiveFields rebuilt].
    pose proof (@allM_preview _ _
                  (fun index item => encryptSensitiveFields item mp (indexPath path index))
                  (fun index item acc => listSensitiveFields item (indexPath path index) acc)
                  rebuilt PLAINTEXT_REQUIRED (missing mp) items) as H.
    specialize (H (Forall_impl _ (fun item Hitem =>
                     conj (fun i acc => listSensitiveFields_app item (indexPath path i) acc)
                          (fun i e0 => Hitem (indexPath path i) e0)) IH) 0 e).
    destruct (forEachIndexed _ 0 items []) as [|q qs].
    + erewrite bind_run; [reflexivity | exact H].
    + intros Hs. apply bind_throw. exact (H Hs).
  - cbn [listSensitiveFields encryptSensitiveFields rebuilt].
    pose proof (@entries_preview mp path entries IH e) as H.
    destruct (forEachIndexed _ 0 entries []) as [|q qs].
    + erewrite bind_run; [reflexivity | exact H].
    + intros Hs. apply bind_throw. exact (H Hs).
  - cbn [listSensitiveFields encryptSensitiveFields rebuilt].
    pose proof (@entries_preview mp path entries IH e) as H.
    destruct (forEachIndexed _ 0 entries []) as [|q qs].
    + erewrite bind_run; [reflexivity | exact H].
    + intros Hs. apply bind_throw. exact (H Hs).
Qed.

(** X9.  From a document in which [listSensitiveFields] finds nothing,
    [encryptSensitiveFields] rewrites no string and draws no random
    bytes, with any master password or none: it returns the document
    rebuilt, with a plain object in the place of every [Date], and so
    the document as it is when it holds no [Date]. *)
Theorem encryptSensitiveFields_nothing_to_encrypt (d : node) (mp : option string)
  (path : string) (e : entropy) :
  listSensitiveFields d path [] = [] ->
  encryptSensitiveFields d mp path e = Ok (rebuilt d, e)
  /\ (plainData d = true -> encryptSensitiveFields d mp path e = Ok (d, e)).
Proof.
  intros H. pose proof (encryptSensitiveFields_preview mp d path e) as Hp.
  rewrite H in Hp. split; [exact Hp|].
  intros Hd. now rewrite Hp, rebuilt_plainData.
Qed.

(** X10.  Without a master password a pass over a document in which
    [listSensitiveFields] finds a field throws the invalid-input error
    of [encrypt]: the pass never returns a document in which a listed
    field is left in the clear. *)
Theorem encryptSensitiveFields_requires_password (d : node) (mp : option string)
  (path : string) (e : entropy) :
  missing mp -> listSensitiveFields d path [] <> [] ->
  encryptSensitiveFields d mp path e = Throw PLAINTEXT_REQUIRED
  /\ errorKind PLAINTEXT_REQUIRED = InvalidInput.
Proof.
  intros Hmp H. split; [|reflexivity].
  pose proof (encryptSensitiveFields_preview mp d path e) as Hp.
  destruct (listSensitiveFields d path []); [now elim H | now apply Hp].
Qed.

(** *** Paths below a nested [credentials] mapping *)

Lemma includes_unfold (s p : string) :
  JsString.includes s p
  = JsString.startsWith s p
    || match s with
       | EmptyString => false
       | String _ s' => JsString.includes s' p
       end.
Proof. destruct s; reflexivity. Qed.

Lemma includes_append (a literal b : string) :
  JsString.includes (a ++ literal ++ b) literal = true.
Proof.
  induction a as [|c a IH]; rewrite includes_unfold.
  - cbn [append]. now rewrite startsWith_append.
  - cbn [append]. rewrite IH. apply orb_true_r.
Qed.

Lemma append_assoc (a b c : string) : ((a ++ b) ++ c = a ++ b ++ c)%string.
Proof. induction a as [|x a IH]; cbn [append]; [reflexivity | now rewrite IH]. Qed.

Lemma append_empty (a : string) : (a ++ EmptyString)%string = a.
Proof. induction a as [|x a IH]; cbn [append]; [reflexivity | now rewrite IH]. Qed.

Lemma append_nonempty (a b : string) : a <> EmptyString -> (a ++ b)%string <> EmptyString.
Proof. destruct a; [congruence | discriminate]. Qed.

Lemma extend_suffix (path : string) (st : step) :
  path <> EmptyString ->
  exists suffix, extend path st = (path ++ suffix)%string.
Proof.
  intros Hp. destruct st as [name|i]; cbn [extend].
  - unfold keyPath. rewrite (isEmpty_false Hp). now exists ("." ++ name)%string.
  - unfold indexPath. now eexists.
Qed.

Lemma accumulated_suffix (address : list step) :
  forall path, path <> EmptyString ->
  exists suffix, accumulated path address = (path ++ suffix)%string.
Proof.
  induction address as [|st rest IH]; intros path Hp.
  - exists EmptyString. cbn. now rewrite append_empty.
  - destruct (extend_suffix st Hp) as (s1 & H1).
    unfold accumulated. cbn [fold_left]. fold (accumulated (extend path st) rest).
    rewrite H1.
    destruct (IH (path ++ s1)%string (append_nonempty s1 Hp)) as (s2 & H2).
    rewrite H2. exists (s1 ++ s2)%string. apply append_assoc.
Qed.

(** X11.  Everything reached through a key below a nested [credentials]
    mapping is sensitive: when the path accumulated down to a mapping is
    not empty, the path of every node reached from its [credentials]
    entry through a key, and then through any keys and indices, matches
    the sensitivity predicate, whatever the keys are called. *)
Theorem nested_credentials_are_sensitive (path name : string) (address : list step) :
  path <> EmptyString ->
  isSensitive (accumulated (keyPath path "credentials") (Key name :: address)) = true.
Proof.
  intros Hp. unfold keyPath at 1. rewrite (isEmpty_false Hp).
  unfold accumulated. cbn [fold_left extend].
  fold (accumulated (keyPath (path ++ "." ++ "credentials") name) address).
  assert (Hq : (path ++ "." ++ "credentials")%string <> EmptyString)
    by now apply append_nonempty.
  unfold keyPath. rewrite (isEmpty_false Hq).
  destruct (@accumulated_suffix address ((path ++ "." ++ "credentials") ++ "." ++ name)%string)
    as (suffix & ->); [now apply append_nonempty|].
  unfold isSensitive, sensitivePatterns. cbn [existsb test].
  replace (((path ++ "." ++ "credentials") ++ "." ++ name) ++ suffix)%string
    with (path ++ ".credentials." ++ (name ++ suffix))%string.
  - now rewrite includes_append.
  - repeat rewrite append_assoc. reflexivity.
Qed.

(** *** The envelope *)

(** X12.  [encrypt] throws its invalid-input error exactly when the
    plaintext or the master password is absent or empty, before any
    random byte is drawn. *)
Theorem encrypt_requires_inputs (plaintext masterPassword : option string) (e : entropy) :
  encrypt plaintext masterPassword e = Throw PLAINTEXT_REQUIRED
  <-> missing plaintext \/ missing masterPassword.
Proof.
  split.
  - intros H.
    destruct plaintext as [[|c p]|]; try (left; now (left + right)).
    destruct masterPassword as [[|c' s]|]; try (right; now (left + right)).
    rewrite encrypt_ok in H by discriminate. discriminate H.
  - intros [H|H]; unfold encrypt; rewrite (missing_falsy H); cbn [negb];
      [reflexivity | now rewrite orb_true_r].
Qed.

(** X13.  The layout of an envelope: what [encrypt] returns for
    non-empty inputs is the prefix followed by base64 text that decodes
    to the 32 bytes of the salt, the 12 bytes of the nonce, the 16 bytes
    of the authentication tag and the ciphertext, in this order; these
    are the offsets at which [decrypt] cuts.  The primitives are assumed
    to meet their contracts. *)
Theorem envelope_layout (p s : string) (e : entropy) :
  p <> EmptyString -> s <> EmptyString ->
  exists envelope e' salt iv authTag ciphertext,
    encrypt (Some p) (Some s) e = Ok (envelope, e')
    /\ JsString.startsWith envelope ENCRYPTED_PREFIX = true
    /\ Base64.decode (JsString.slice envelope (String.length ENCRYPTED_PREFIX))
       = salt ++ iv ++ authTag ++ ciphertext
    /\ length salt = SALT_LENGTH /\ length iv = IV_LENGTH
    /\ length authTag = AUTH_TAG_LENGTH
    /\ cipher ALGORITHM (deriveKey s salt) iv (utf8Bytes p) = (ciphertext, authTag).
Proof.
  intros Hp Hs. rewrite (encrypt_ok e Hp Hs).
  set (salt := fst (randomBytes SALT_LENGTH e)).
  set (iv := fst (randomBytes IV_LENGTH (snd (randomBytes SALT_LENGTH e)))).
  eexists _, _, salt, iv,
    (snd (cipher ALGORITHM (deriveKey s salt) iv (utf8Bytes p))),
    (fst (cipher ALGORITHM (deriveKey s salt) iv (utf8Bytes p))).
  split; [reflexivity|]. unfold envelopeOf.
  split; [apply startsWith_append|].
  split; [now rewrite slice_append, decode_encode|].
  split; [apply randomBytes_length|].
  split; [apply randomBytes_length|].
  split; [apply authTag_length|].
  now destruct (cipher _ _ _ _).
Qed.

(* ===================================================================== *)
(** ** The resolver: what the overrides leave alone *)
(* ===================================================================== *)

Lemma setIfTruthy_missing (k : Config.key) (value : option string) (cfg : node) :
  missing value -> setIfTruthy k value cfg = cfg.
Proof. intros H. unfold setIfTruthy. now rewrite (missing_falsy H). Qed.

Lemma overrideBank_unset (env : Env) (i : nat) (cfg : node) :
  (forall field, missing (env (bankVariable i field))) ->
  overrideBank env i cfg = cfg.
Proof. intros H. unfold overrideBank. now rewrite !setIfTruthy_missing by apply H. Qed.

Lemma overrideCreditCard_unset (env : Env) (i j : nat) (cfg : node) :
  (forall field, missing (env (creditCardVariable i j field))) ->
  overrideCreditCard env i j cfg = cfg.
Proof. intros H. unfold overrideCreditCard. now rewrite !setIfTruthy_missing by apply H. Qed.

Lemma creditCards_unset (env : Env) (i : nat) (ccs : list node) :
  (forall j field, missing (env (creditCardVariable i j field))) ->
  forall j0 cfg,
    forEachIndexed (fun ccIndex _ c => overrideCreditCard env i ccIndex c) j0 ccs cfg = cfg.
Proof.
  intros H. induction ccs as [|cc r IH]; intros j0 cfg; [reflexivity|].
  cbn [forEachIndexed]. rewrite overrideCreditCard_unset by apply H. apply IH.
Qed.

Lemma banks_unset (env : Env) (l : list node) :
  noCredentialVariables env ->
  forall k0 cfg cfg',
    forEachThrowing (overrideEntry env) k0 l cfg = Ok cfg' -> cfg' = cfg.
Proof.
  intros [Hb Hc]. induction l as [|bank r IH]; intros k0 cfg cfg' H.
  - now injection H as <-.
  - cbn [forEachThrowing] in H.
    apply bindR_Ok in H. destruct H as (cfg1 & H1 & H2).
    unfold overrideEntry in H1.
    apply bindR_Ok in H1. destruct H1 as (ccs & _ & [= <-]).
    rewrite creditCards_unset, overrideBank_unset in H2 by (intros; (apply Hb || apply Hc)).
    eapply IH; exact H2.
Qed.

Lemma applyCredentialEnvOverrides_unset (env : Env) (cfg cfg' : node) :
  noCredentialVariables env ->
  applyCredentialEnvOverrides env cfg = Ok cfg' -> cfg' = cfg.
Proof.
  intros Henv H. unfold applyCredentialEnvOverrides in H.
  destruct (truthy (Config.get cfg ["banks"])); [|now injection H as <-].
  destruct (Config.get cfg ["banks"]) as [| |b|n|s|entries|fields|time fields]; try discriminate H.
  eapply banks_unset; eassumption.
Qed.

(** X14.  When no credential variable is set to a non-empty string,
    [applyCredentialEnvOverrides] writes nothing: if it returns, the
    configuration is the one it was given. *)
Theorem applyCredentialEnvOverrides_without_variables (env : Env) (cfg : node) :
  noCredentialVariables env ->
  match applyCredentialEnvOverrides env cfg with
  | Ok cfg' => cfg' = cfg
  | Throw _ => True
  end.
Proof.
  intros Henv. destruct (applyCredentialEnvOverrides env cfg) as [cfg'|m] eqn:H; [|exact I].
  eapply applyCredentialEnvOverrides_unset; eassumption.
Qed.

Lemma diverge_app (p q r : Config.key) : diverge p q -> diverge p (q ++ r).
Proof.
  intros (r0 & a & b & p' & q' & -> & -> & Hab).
  exists r0, a, b, p', (q' ++ r). rewrite <- app_assoc. now repeat split.
Qed.

Lemma overrides_frame (env : Env) (cfg cfg' : node) (p : Config.key) :
  applyCredentialEnvOverrides env cfg = Ok cfg' ->
  (forall i, diverge p (bankCredentials i)) ->
  (forall i j, diverge p (creditCardCredentials i j)) ->
  Config.get cfg' p = Config.get cfg p.
Proof.
  intros H Hb Hc. unfold applyCredentialEnvOverrides in H.
  destruct (truthy (Config.get cfg ["banks"])); [|now injection H as <-].
  destruct (Config.get cfg ["banks"]) as [| |b|n|s|entries|fields|time fields]; try discriminate H.
  eapply banks_frame; [exact H|].
  intros k _. split.
  - intros f. exact (diverge_app [f] (Hb k)).
  - intros j f. exact (diverge_app [f] (Hc k j)).
Qed.

(** X15.  The overrides write below the [credentials] mappings of the
    banks and of their credit cards only: for a document without
    aliases, every key that parts from all of these reads the same value
    after [applyCredentialEnvOverrides] as before it, whatever the
    variables are set to. *)
Theorem applyCredentialEnvOverrides_frame (env : Env) (cfg : node) (st' : Live.store)
  (p : Config.key) :
  Live.applyCredentialEnvOverrides env (Live.unshared cfg) = Ok st' ->
  (forall i, diverge p (bankCredentials i)) ->
  (forall i j, diverge p (creditCardCredentials i j)) ->
  Live.get env st' p = Live.get env (Live.unshared cfg) p.
Proof.
  intros H Hb Hc. rewrite applyCredentialEnvOverrides_unshared in H.
  apply mapR_Ok in H. destruct H as (cfg' & H & ->).
  apply get_stored. rewrite !stored_unshared.
  exact (@overrides_frame env cfg cfg' p H Hb Hc).
Qed.

(* ===================================================================== *)
(** ** The resolver: errors *)
(* ===================================================================== *)

Lemma required_missing (keys : list Config.key) (cfg : node) (k : Config.key) :
  In k keys -> Config.get cfg k = Undefined ->
  exists listing, Config.required keys cfg = Throw ("Missing required keys: " ++ listing).
Proof.
  intros Hin Hget. unfold Config.required.
  destruct (filter _ keys) as [|k0 ks] eqn:Hf.
  - assert (Hk : In k (filter (fun k => match Config.get cfg k with
                                         | Undefined => true
                                         | _ => false
                                         end) keys))
      by (apply filter_In; split; [exact Hin | now rewrite Hget]).
    rewrite Hf in Hk. destruct Hk.
  - eexists. reflexivity.
Qed.

(** X16.  A required key that reads [undefined] stops [loadConfig] at
    once: it throws the error of [config.required], whose message starts
    with ['Missing required keys: '], whatever the environment holds;
    neither the overrides nor the decryption are reached. *)
Theorem loadConfig_missing_required_key (env : Env) (cfg : node) (k : Config.key) :
  In k requiredKeys -> Config.get cfg k = Undefined ->
  exists message,
    loadConfig env cfg = Throw message
    /\ JsString.startsWith message "Missing required keys: " = true
    /\ errorKind message = MissingRequiredConfig.
Proof.
  intros Hin Hget.
  destruct (required_missing requiredKeys cfg k Hin Hget) as (listing & H).
  exists ("Missing required keys: " ++ listing)%string.
  unfold loadConfig. rewrite H. split; [reflexivity|].
  split; [apply startsWith_append|].
  unfold errorKind.
  replace (JsString.startsWith ("Missing required keys: " ++ listing) "Missing required keys: ")
    with true by (symmetry; apply startsWith_append).
  reflexivity.
Qed.

(** X17.  Once a non-empty master password is in the environment, every
    error of the decryption step of [loadConfig] is reported as a
    decryption failure: the message is that of the error thrown by
    [decryptObject] for [banks] or for [firefly:tokenApi], wrapped with
    the hint to verify MASTER_PASSWORD, and no configuration is
    returned. *)
Theorem loadConfig_reports_decryption_failure (env : Env) (cfg cfg1 : node)
  (secret message : string) :
  Config.required requiredKeys cfg = Ok tt ->
  applyCredentialEnvOverrides env cfg = Ok cfg1 ->
  env "MASTER_PASSWORD" = Some secret -> secret <> EmptyString ->
  loadConfig env cfg = Throw message ->
  exists cause,
    message = failedToDecrypt cause
    /\ errorKind message = DecryptionFailed
    /\ (decryptObject (Config.get cfg1 ["banks"]) (Some secret) = Throw cause
        \/ exists cfg2,
             decryptBanksConfig (Some secret) cfg1 = Ok cfg2
             /\ decryptObject (Config.get cfg2 ["firefly"; "tokenApi"]) (Some secret)
                = Throw cause).
Proof.
  intros Hreq Hov Hmp Hs H. unfold loadConfig in H.
  rewrite Hreq, Hov in H. cbn [bindR] in H. unfold decryptIfNeeded in H.
  destruct (hasEncryptedValues _ || isEncrypted _); [|discriminate H].
  rewrite Hmp, truthy_Some, (isEmpty_false Hs) in H. cbn [negb] in H.
  destruct (bindR _ _) as [cfg'|cause] eqn:Hd; [discriminate H|].
  injection H as <-. exists cause. split; [reflexivity|]. split; [reflexivity|].
  destruct (decryptBanksConfig (Some secret) cfg1) as [cfg2|m] eqn:Hb.
  - right. exists cfg2. split; [reflexivity|].
    cbn [bindR] in Hd. unfold decryptFireflyConfig in Hd.
    destruct (truthy _ && isEncrypted _); [|discriminate Hd].
    destruct (decryptObject _ _) as [t|m]; [discriminate Hd|].
    cbn [bindR] in Hd. now injection Hd as <-.
  - left. cbn [bindR] in Hd. injection Hd as <-.
    unfold decryptBanksConfig in Hb.
    destruct (negb (truthy _)); [discriminate Hb|].
    destruct (decryptObject _ _) as [t|m']; [discriminate Hb|].
    cbn [bindR] in Hb. now injection Hb as <-.
Qed.

(* ===================================================================== *)
(** ** The resolver: loading what the tool wrote *)
(* ===================================================================== *)

Lemma ownProperty_shape (d : node) (name : string) :
  Config.ownProperty (shape d) name = option_map shape (Config.ownProperty d name).
Proof.
  destruct d as [| |b|n|s|items|entries|time entries]; try reflexivity.
  - cbn [shape Config.ownProperty].
    destruct (Config.arrayIndex name) as [i|]; [apply nth_error_map | reflexivity].
  - apply lookup_shape.
  - apply lookup_shape.
Qed.

Lemma ownProperty_encryptSensitiveFields (mp : option string) (d : node)
  (path : string) (e : entropy) (d' : node) (e' : entropy) (name : string) :
  encryptSensitiveFields d mp path e = Ok (d', e') ->
  match Config.ownProperty d name with
  | Some c => exists c' path' e1 e1',
                Config.ownProperty d' name = Some c'
                /\ encryptSensitiveFields c mp path' e1 = Ok (c', e1')
  | None => Config.ownProperty d' name = None
  end.
Proof.
  intros H. destruct (Config.ownProperty d name) as [c|] eqn:Hc.
  - destruct d as [| |b|n|s|items|entries|time entries]; try discriminate Hc.
    + cbn [Config.ownProperty] in Hc.
      destruct (Config.arrayIndex name) as [i|] eqn:Hi; [|discriminate Hc].
      destruct (@child_encryptSensitiveFields _ mp path e d' e' (Index i) c H Hc)
        as (c' & e1 & e1' & Hc' & Hpass).
      exists c', (extend path (Index i)), e1, e1'. split; [|exact Hpass].
      destruct d' as [| |b'|n'|s'|items'|entries'|time' entries']; try discriminate Hc'.
      cbn [Config.ownProperty]. now rewrite Hi.
    + destruct (@child_encryptSensitiveFields _ mp path e d' e' (Key name) c H Hc)
        as (c' & e1 & e1' & Hc' & Hpass).
      exists c', (extend path (Key name)), e1, e1'. split; [|exact Hpass].
      now destruct d' as [| |b'|n'|s'|items'|entries'|time' entries']; try discriminate Hc'.
    + destruct (@child_encryptSensitiveFields _ mp path e d' e' (Key name) c H Hc)
        as (c' & e1 & e1' & Hc' & Hpass).
      exists c', (extend path (Key name)), e1, e1'. split; [|exact Hpass].
      now destruct d' as [| |b'|n'|s'|items'|entries'|time' entries']; try discriminate Hc'.
  - pose proof (ownProperty_shape d' name) as Hs.
    rewrite (@encryptSensitiveFields_shape mp _ _ _ _ _ H), ownProperty_shape, Hc in Hs.
    now destruct (Config.ownProperty d' name).
Qed.

(** What a pass returns reads, under every key, what a pass over the
    value read before returns. *)
Lemma get_encryptSensitiveFields (mp : option string) (p : Config.key) :
  forall d path e d' e',
    encryptSensitiveFields d mp path e = Ok (d', e') ->
    exists path' e1 e1',
      encryptSensitiveFields (Config.get d p) mp path' e1 = Ok (Config.get d' p, e1').
Proof.
  induction p as [|name rest IH]; intros d path e d' e' H.
  - now exists path, e, e'.
  - cbn [Config.get].
    pose proof (@ownProperty_encryptSensitiveFields mp d path e d' e' name H) as Hn.
    destruct (Config.ownProperty d name) as [c|].
    + destruct Hn as (c' & path' & e1 & e1' & -> & Hpass).
      eapply IH; exact Hpass.
    + rewrite Hn. now exists path, e, e.
Qed.

(** Decrypting, with the master password of the pass, what the document
    returned by a pass over a plain document holds under a key returns
    what the plain document holds there. *)
Lemma plainData_ownProperty (d : node) (name : string) (c : node) :
  plainData d = true -> Config.ownProperty d name = Some c -> plainData c = true.
Proof.
  intros Hd Hc. destruct d as [| |b|n|s|items|entries|time entries];
    try discriminate Hc; try discriminate Hd; cbn [plainData Config.ownProperty] in *.
  - destruct (Config.arrayIndex name) as [i|]; [|discriminate Hc].
    apply nth_error_In in Hc. rewrite forallb_forall in Hd. now apply Hd.
  - apply lookup_In in Hc. destruct Hc as [k Hk].
    rewrite forallb_forall in Hd. exact (Hd _ Hk).
Qed.

Lemma plainData_get (p : Config.key) :
  forall d, plainData d = true -> plainData (Config.get d p) = true.
Proof.
  induction p as [|name rest IH]; intros d Hd; [exact Hd|].
  cbn [Config.get].
  destruct (Config.ownProperty d name) as [c|] eqn:Hc; [|reflexivity].
  apply IH. exact (plainData_ownProperty _ _ Hd Hc).
Qed.

(** What a pass returns holds no [Date]. *)
Lemma encryptSensitiveFields_plainData (mp : option string) :
  forall d path e d' e',
    encryptSensitiveFields d mp path e = Ok (d', e') -> plainData d' = true.
Proof.
  apply (@encryptSensitiveFields_rel mp (fun _ _ d' => plainData d' = true)).
  - intros _ [| |b|n|s|items|entries|time entries] Hobj _; try reflexivity;
      discriminate Hobj.
  - reflexivity.
  - reflexivity.
  - intros _ items items' H. cbn [plainData].
    induction H as [i|i x y l l' Hxy _ IH]; [reflexivity|].
    cbn [forallb]. now rewrite Hxy, IH.
  - intros path entries entries' H. cbn [plainData].
    induction H as [i|i x y l l' [_ Hxy] _ IH]; [reflexivity|].
    cbn [forallb]. now rewrite Hxy, IH.
  - intros path time entries entries' H. cbn [plainData].
    induction H as [i|i x y l l' [_ Hxy] _ IH]; [reflexivity|].
    cbn [forallb]. now rewrite Hxy, IH.
Qed.

Lemma wellFormedStrings_ownProperty (d : node) (name : string) (c : node) :
  wellFormedStrings d = true -> Config.ownProperty d name = Some c ->
  wellFormedStrings c = true.
Proof.
  intros Hd Hc. destruct d as [| |b|n|s|items|entries|time entries];
    try discriminate Hc; cbn [wellFormedStrings Config.ownProperty] in *.
  - destruct (Config.arrayIndex name) as [i|]; [|discriminate Hc].
    apply nth_error_In in Hc. rewrite forallb_forall in Hd. now apply Hd.
  - apply lookup_In in Hc. destruct Hc as [k Hk].
    rewrite forallb_forall in Hd. exact (Hd _ Hk).
  - apply lookup_In in Hc. destruct Hc as [k Hk].
    rewrite forallb_forall in Hd. exact (Hd _ Hk).
Qed.

Lemma wellFormedStrings_get (p : Config.key) :
  forall d, wellFormedStrings d = true -> wellFormedStrings (Config.get d p) = true.
Proof.
  induction p as [|name rest IH]; intros d Hd; [exact Hd|].
  cbn [Config.get].
  destruct (Config.ownProperty d name) as [c|] eqn:Hc; [|reflexivity].
  apply IH. exact (wellFormedStrings_ownProperty _ _ Hd Hc).
Qed.

Lemma decryptObject_get_pass (mp : option string) (d : node) (path : string)
  (e : entropy) (d' : node) (e' : entropy) (p : Config.key) :
  hasEncryptedValues d = false -> wellFormedStrings d = true ->
  encryptSensitiveFields d mp path e = Ok (d', e') ->
  decryptObject (Config.get d' p) mp = Ok (rebuilt (Config.get d p)).
Proof.
  intros Hplain Hw H.
  destruct (@get_encryptSensitiveFields mp p _ _ _ _ _ H) as (path' & e1 & e1' & Hp).
  rewrite (decryptObject_after_pass _ _ _ _ Hp) by now apply wellFormedStrings_get.
  apply decryptObject_plain. now apply hasEncryptedValues_get.
Qed.

Lemma decryptObject_falsy (v : node) (mp : option string) :
  truthy v = false -> decryptObject v mp = Ok v.
Proof.
  destruct v as [| |b|n|s|items|entries|time entries]; try reflexivity; try discriminate.
  destruct s; [reflexivity | discriminate].
Qed.

Lemma decryptObject_Str_inv (v : node) (mp : option string) (t : string) :
  decryptObject v mp = Ok (Str t) -> truthy v && isEncrypted v = false -> v = Str t.
Proof.
  intros H Hc. destruct v as [| |b|n|s|items|entries|time entries]; try discriminate H.
  - cbn [decryptObject] in H. destruct (isEncrypted (Str s)) eqn:Hen.
    + rewrite andb_true_r in Hc. destruct s; [discriminate Hen | discriminate Hc].
    + exact (f_equal (fun r => match r with Ok x => x | Throw _ => Str s end) H).
  - cbn [decryptObject] in H. apply mapR_Ok in H. destruct H as (l & _ & H). discriminate H.
  - cbn [decryptObject] in H. apply mapR_Ok in H. destruct H as (l & _ & H). discriminate H.
  - cbn [decryptObject] in H. apply mapR_Ok in H. destruct H as (l & _ & H). discriminate H.
Qed.

Lemma truthy_ownProperty (cfg : node) (name : string) :
  truthy (Config.get cfg [name]) = true -> Config.ownProperty cfg name <> None.
Proof.
  cbn [Config.get]. destruct (Config.ownProperty cfg name); [discriminate | intros H; discriminate H].
Qed.

(** The decryption step on what the tool wrote, with the password of
    the tool in MASTER_PASSWORD. *)
Lemma decryptIfNeeded_resolves (env : Env) (plain written : node)
  (secret : string) (e e' : entropy) :
  hasEncryptedValues plain = false -> wellFormedStrings plain = true ->
  encryptSensitiveFields plain (Some secret) EmptyString e = Ok (written, e') ->
  secret <> EmptyString ->
  env "MASTER_PASSWORD" = Some secret ->
  exists resolved,
    decryptIfNeeded env written = Ok resolved
    /\ Config.get resolved ["banks"] = rebuilt (Config.get plain ["banks"])
    /\ (forall t, Config.get plain ["firefly"; "tokenApi"] = Str t ->
        Config.get resolved ["firefly"; "tokenApi"] = Str t).
Proof.
  intros Hplain Hw Hpass Hs Hmp.
  pose proof (@decryptObject_get_pass (Some secret) plain _ _ _ _ ["banks"] Hplain Hw Hpass)
    as Hbanks.
  pose proof (@decryptObject_get_pass (Some secret) plain _ _ _ _ ["firefly"; "tokenApi"]
                Hplain Hw Hpass) as Htoken.
  unfold decryptIfNeeded.
  destruct (hasEncryptedValues (Config.get written ["banks"])
            || isEncrypted (Config.get written ["firefly"; "tokenApi"])) eqn:Hneed.
  - rewrite Hmp, truthy_Some, (isEmpty_false Hs). cbn [negb].
    assert (Hstep : exists cfg2,
              decryptBanksConfig (Some secret) written = Ok cfg2
              /\ Config.get cfg2 ["banks"] = rebuilt (Config.get plain ["banks"])
              /\ Config.get cfg2 ["firefly"; "tokenApi"]
                 = Config.get written ["firefly"; "tokenApi"]).
    { unfold decryptBanksConfig.
      destruct (truthy (Config.get written ["banks"])) eqn:Htb; cbn [negb].
      - rewrite Hbanks. cbn [bindR]. eexists. split; [reflexivity|]. split.
        + exact (@get_set_top written "banks" _ [] (truthy_ownProperty _ _ Htb)).
        + apply get_set_frame. apply diverge_head. discriminate.
      - exists written. split; [reflexivity|]. split; [|reflexivity].
        rewrite (decryptObject_falsy _ (Some secret) Htb) in Hbanks.
        now injection Hbanks. }
    destruct Hstep as (cfg2 & -> & Hb2 & Ht2). cbn [bindR].
    unfold decryptFireflyConfig. rewrite Ht2.
    destruct (truthy (Config.get written ["firefly"; "tokenApi"])
              && isEncrypted (Config.get written ["firefly"; "tokenApi"])) eqn:Hc.
    + rewrite Htoken. cbn [bindR]. eexists. split; [reflexivity|]. split.
      * rewrite get_set_frame by (apply diverge_head; discriminate). exact Hb2.
      * intros t Ht. rewrite Ht. cbn [rebuilt].
        rewrite get_set_present; [reflexivity | discriminate |].
        rewrite Ht2. apply andb_prop in Hc. destruct Hc as [Hc _].
        intros Hu. rewrite Hu in Hc. discriminate Hc.
    + exists cfg2. split; [reflexivity|]. split; [exact Hb2|].
      intros t Ht. rewrite Ht2. rewrite Ht in Htoken.
      exact (decryptObject_Str_inv _ _ Htoken Hc).
  - apply orb_false_iff in Hneed. destruct Hneed as [Hnb Hnt].
    exists written. split; [reflexivity|]. split.
    + rewrite (decryptObject_plain _ (Some secret) Hnb) in Hbanks.
      rewrite rebuilt_plainData in Hbanks
        by (apply plainData_get; exact (encryptSensitiveFields_plainData _ _ _ _ Hpass)).
      now injection Hbanks.
    + intros t Ht. rewrite Ht in Htoken.
      apply (decryptObject_Str_inv _ _ Htoken). rewrite Hnt. apply andb_false_r.
Qed.

(** X18.  Loading what the tool wrote: let [written] be the document
    that [encryptSensitiveFields] returns for a document [plain] without
    aliases, without encrypted values and without unpaired surrogates in
    its strings, and a non-empty master password.  When MASTER_PASSWORD
    holds that password, no credential variable and no FIREFLY_TOKEN_API
    is set, the configuration has the required keys and the overrides
    return, [loadConfig] returns a configuration whose [banks] are those
    of [plain] as the traversals rebuild them (a plain object in the
    place of a [Date]), and whose [firefly:tokenApi] is that of [plain]
    when it is a string.  The primitives are assumed to meet their
    contracts. *)
Theorem loadConfig_resolves_encrypted_file (env : Env) (plain written : node)
  (secret : string) (e e' : entropy) :
  hasEncryptedValues plain = false -> wellFormedStrings plain = true ->
  encryptSensitiveFields plain (Some secret) EmptyString e = Ok (written, e') ->
  secret <> EmptyString ->
  env "MASTER_PASSWORD" = Some secret ->
  noCredentialVariables env ->
  env "FIREFLY_TOKEN_API" = None ->
  Live.required env requiredKeys (Live.unshared written) = Ok tt ->
  (exists st1, Live.applyCredentialEnvOverrides env (Live.unshared written) = Ok st1) ->
  exists resolved,
    Live.loadConfig decryptObject env (Live.unshared written) = Ok resolved
    /\ Live.get env resolved ["banks"] = rebuilt (Config.get plain ["banks"])
    /\ (forall t, Config.get plain ["firefly"; "tokenApi"] = Str t ->
        Live.get env resolved ["firefly"; "tokenApi"] = Str t).
Proof.
  intros Hplain Hw Hpass Hs Hmp Henv Htoken Hreq [st1 Hov].
  rewrite applyCredentialEnvOverrides_unshared in Hov.
  destruct (applyCredentialEnvOverrides env written) as [cfg1|m] eqn:Hover;
    [|discriminate Hov].
  assert (cfg1 = written) as -> by (eapply applyCredentialEnvOverrides_unset; eassumption).
  destruct (@decryptIfNeeded_resolves env plain written secret e e' Hplain Hw Hpass Hs Hmp)
    as (resolved & Hdec & Hb & Ht).
  exists (Live.unshared resolved). split; [|split].
  - unfold Live.loadConfig. rewrite Hreq. cbn [bindR].
    rewrite applyCredentialEnvOverrides_unshared, Hover. cbn [bindR mapR].
    now rewrite (@decryptIfNeeded_unshared env written Htoken), Hdec.
  - now rewrite get_banks, stored_unshared.
  - intros t Hplaintoken. rewrite get_tokenApi, Htoken, stored_unshared.
    exact (Ht t Hplaintoken).
Qed.

(* ===================================================================== *)
(** ** The resolver: every credential variable *)
(* ===================================================================== *)

Lemma get_isObject (c : node) (rest : Config.key) (entries : list (string * node)) :
  Config.get c rest = Obj entries -> Config.isObject c = true.
Proof.
  intros H. destruct rest as [|name rest]; [cbn in H; now subst|].
  destruct (Config.isObject c) eqn:Hc; [reflexivity|].
  rewrite get_nonobject in H by (assumption || discriminate). discriminate H.
Qed.

(** Writing a leaf of a mapping that is there: the leaf reads the value
    written and the mapping is still a mapping. *)
Lemma get_set_mapping (q : Config.key) :
  forall t entries g v,
    Config.get t q = Obj entries ->
    Config.get (Config.set t (q ++ [g]) v) q = Obj (Config.upsert g v entries)
    /\ Config.get (Config.set t (q ++ [g]) v) (q ++ [g]) = v.
Proof.
  induction q as [|name rest IH]; intros t entries g v Hget.
  - cbn in Hget. subst t. cbn [app Config.set Config.assign Config.get Config.ownProperty].
    now rewrite lookup_upsert_same.
  - cbn [app]. rewrite set_cons_deep by (now destruct rest).
    cbn [Config.get] in Hget.
    destruct (Config.ownProperty t name) as [c|] eqn:Hc; [|discriminate Hget].
    assert (Ht : Config.isObject t = true /\
                 (forall items, t = Arr items -> Config.arrayIndex name <> None)).
    { destruct t; try discriminate Hc; split; try reflexivity; try discriminate.
      intros items' [= <-]. cbn in Hc. now destruct (Config.arrayIndex name). }
    destruct Ht as [Ht Hidx].
    assert (Hobj : Config.objectAt t name = c).
    { unfold Config.objectAt. now rewrite Hc, (@get_isObject c rest entries Hget). }
    rewrite Hobj, !get_assign_same by assumption.
    now apply IH.
Qed.

Lemma setIfTruthy_leaf (q : Config.key) (f : string) (value : option string) (cfg : node) :
  hasMapping cfg q ->
  hasMapping (setIfTruthy (q ++ [f]) value cfg) q
  /\ Config.get (setIfTruthy (q ++ [f]) value cfg) (q ++ [f])
     = overridden value (Config.get cfg (q ++ [f])).
Proof.
  intros [entries H]. unfold setIfTruthy, overridden.
  destruct (truthy (valueOf value)).
  - destruct (@get_set_mapping q cfg entries f (Str (stringOf value)) H) as [H1 H2].
    split; [eexists; exact H1 | exact H2].
  - split; [now exists entries | reflexivity].
Qed.

Lemma diverge_leaves (q : Config.key) (f g : string) : f <> g -> diverge (q ++ [f]) (q ++ [g]).
Proof. intros H. now exists q, f, g, [], []. Qed.

(** A chain of overrides of distinct leaves of one mapping. *)
Lemma setIfTruthy_chain (q : Config.key) (value : string -> option string)
  (fields : list (string * string)) :
  NoDup (List.map snd fields) ->
  forall cfg, hasMapping cfg q ->
    let cfg' := fold_left (fun c field =>
                             setIfTruthy (q ++ [snd field]) (value (fst field)) c)
                          fields cfg in
    hasMapping cfg' q
    /\ (forall f, ~ In f (List.map snd fields) ->
          Config.get cfg' (q ++ [f]) = Config.get cfg (q ++ [f]))
    /\ (forall V f, In (V, f) fields ->
          Config.get cfg' (q ++ [f]) = overridden (value V) (Config.get cfg (q ++ [f]))).
Proof.
  induction fields as [|[V0 f0] r IH]; intros Hnd cfg Hq; cbn [fold_left].
  - split; [exact Hq|]. split; [reflexivity | intros V f []].
  - cbn [List.map snd fst] in *. inversion Hnd as [|? ? Hnotin Hnd']; subst.
    destruct (@setIfTruthy_leaf q f0 (value V0) cfg Hq) as [Hq1 Hleaf].
    destruct (IH Hnd' _ Hq1) as (Hq' & Hout & Hin). cbn zeta in *.
    split; [exact Hq'|]. split.
    + intros f Hf. rewrite Hout by (intros H; apply Hf; now right).
      apply setIfTruthy_frame. apply diverge_leaves. intros ->. apply Hf. now left.
    + intros V f [[= -> ->]|Hr].
      * rewrite Hout by exact Hnotin. exact Hleaf.
      * rewrite (Hin _ _ Hr). f_equal.
        apply setIfTruthy_frame. apply diverge_leaves. intros ->.
        apply Hnotin. apply (in_map snd) in Hr. exact Hr.
Qed.

Lemma overrideBank_fields (env : Env) (i : nat) (cfg : node) (V f : string) :
  hasMapping cfg (bankCredentials i) -> In (V, f) bankFields ->
  Config.get (overrideBank env i cfg) (bankKey i f)
  = overridden (env (bankVariable i V)) (Config.get cfg (bankKey i f)).
Proof.
  intros Hq Hin.
  destruct (@setIfTruthy_chain (bankCredentials i) (fun V => env (bankVariable i V))
              bankFields) with (cfg := cfg) as (_ & _ & H); [|exact Hq|].
  - repeat constructor; cbn; intuition discriminate.
  - exact (H V f Hin).
Qed.

Lemma overrideCreditCard_fields (env : Env) (i j : nat) (cfg : node) (V f : string) :
  hasMapping cfg (creditCardCredentials i j) -> In (V, f) creditCardFields ->
  Config.get (overrideCreditCard env i j cfg) (creditCardKey i j f)
  = overridden (env (creditCardVariable i j V)) (Config.get cfg (creditCardKey i j f)).
Proof.
  intros Hq Hin.
  destruct (@setIfTruthy_chain (creditCardCredentials i j)
              (fun V => env (creditCardVariable i j V))
              creditCardFields) with (cfg := cfg) as (_ & _ & H); [|exact Hq|].
  - repeat constructor; cbn; intuition discriminate.
  - exact (H V f Hin).
Qed.

Lemma bankCredentials_bankKey (i k : nat) (g : string) :
  i <> k -> diverge (bankCredentials i) (bankKey k g).
Proof. intros H. apply diverge_cons. now apply diverge_head, ofNat_neq. Qed.

Lemma bankCredentials_creditCardKey (i k j : nat) (g : string) :
  diverge (bankCredentials i) (creditCardKey k j g).
Proof.
  apply diverge_cons. destruct (Nat.eq_dec i k) as [->|Hik].
  - apply diverge_cons, diverge_head. discriminate.
  - now apply diverge_head, ofNat_neq.
Qed.

Lemma creditCardCredentials_bankKey (i j k : nat) (g : string) :
  diverge (creditCardCredentials i j) (bankKey k g).
Proof.
  apply diverge_cons. destruct (Nat.eq_dec i k) as [->|Hik].
  - apply diverge_cons, diverge_head. discriminate.
  - now apply diverge_head, ofNat_neq.
Qed.

Lemma creditCardCredentials_creditCardKey (i j k l : nat) (g : string) :
  i <> k \/ j <> l -> diverge (creditCardCredentials i j) (creditCardKey k l g).
Proof.
  intros H. apply diverge_cons.
  destruct (Nat.eq_dec i k) as [->|Hik]; [|now apply diverge_head, ofNat_neq].
  do 2 apply diverge_cons.
  destruct (Nat.eq_dec j l) as [->|Hjl]; [|now apply diverge_head, ofNat_neq].
  intuition congruence.
Qed.

Lemma creditCards_fields (env : Env) (i j : nat) (ccs : list node) (cc cfg : node)
  (V f : string) :
  nth_error ccs j = Some cc ->
  hasMapping cfg (creditCardCredentials i j) -> In (V, f) creditCardFields ->
  Config.get (forEachIndexed (fun ccIndex _ c => overrideCreditCard env i ccIndex c)
                0 ccs cfg) (creditCardKey i j f)
  = overridden (env (creditCardVariable i j V)) (Config.get cfg (creditCardKey i j f)).
Proof.
  intros Hj [entries Hq] Hin.
  destruct (nth_error_split _ _ Hj) as (l1 & l2 & -> & Hlen).
  rewrite forEachIndexed_app. cbn [forEachIndexed plus]. rewrite Hlen.
  rewrite creditCards_frame
    by (intros j' Hj' g; apply creditCardKey_creditCardKey; right; left; lia).
  set (c1 := forEachIndexed (fun ccIndex _ c => overrideCreditCard env i ccIndex c) 0 l1 cfg).
  assert (Hleaf : Config.get c1 (creditCardKey i j f) = Config.get cfg (creditCardKey i j f)).
  { apply creditCards_frame. intros j' Hj' g.
    apply creditCardKey_creditCardKey. right; left. lia. }
  assert (Hmap : Config.get c1 (creditCardCredentials i j)
                 = Config.get cfg (creditCardCredentials i j)).
  { apply creditCards_frame. intros j' Hj' g.
    apply creditCardCredentials_creditCardKey. right. lia. }
  rewrite overrideCreditCard_fields with (V := V);
    [now rewrite Hleaf | exists entries; now rewrite Hmap | exact Hin].
Qed.

Lemma overrideEntry_bank_fields (env : Env) (i : nat) (bank c c' : node) (V f : string) :
  overrideEntry env i bank c = Ok c' ->
  hasMapping c (bankCredentials i) -> In (V, f) bankFields ->
  Config.get c' (bankKey i f)
  = overridden (env (bankVariable i V)) (Config.get c (bankKey i f)).
Proof.
  intros H Hq Hin. unfold overrideEntry in H.
  apply bindR_Ok in H. destruct H as (ccs & _ & [= <-]).
  rewrite creditCards_frame by (intros; apply bankKey_creditCardKey).
  now apply overrideBank_fields.
Qed.

Lemma overrideEntry_creditCard_fields (env : Env) (i j : nat) (bank c c' : node)
  (ccs : list node) (cc : node) (V f : string) :
  overrideEntry env i bank c = Ok c' ->
  creditCardsOf bank = Ok ccs -> nth_error ccs j = Some cc ->
  hasMapping c (creditCardCredentials i j) -> In (V, f) creditCardFields ->
  Config.get c' (creditCardKey i j f)
  = overridden (env (creditCardVariable i j V)) (Config.get c (creditCardKey i j f)).
Proof.
  intros H Hccs Hj [entries Hq] Hin. unfold overrideEntry in H. rewrite Hccs in H.
  cbn [bindR] in H. injection H as <-.
  rewrite creditCards_fields with (cc := cc) (V := V); [| exact Hj | | exact Hin].
  - f_equal. apply overrideBank_frame. intros; apply creditCardKey_bankKey.
  - exists entries. rewrite <- Hq.
    apply overrideBank_frame. intros; apply creditCardCredentials_bankKey.
Qed.

(** The loop over the banks, around the entry at [i]: the keys that
    only this entry may write read the same before it as at the start,
    and the same after it as at the end. *)
Lemma banks_around (env : Env) (i : nat) (l : list node) (bank cfg cfg' : node) :
  nth_error l i = Some bank ->
  forEachThrowing (overrideEntry env) 0 l cfg = Ok cfg' ->
  exists c c',
    overrideEntry env i bank c = Ok c'
    /\ forall q,
         (forall k, k <> i ->
            (forall g, diverge q (bankKey k g))
            /\ (forall j g, diverge q (creditCardKey k j g))) ->
         Config.get c q = Config.get cfg q /\ Config.get cfg' q = Config.get c' q.
Proof.
  intros Hi H.
  destruct (nth_error_split _ _ Hi) as (l1 & l2 & -> & Hlen).
  rewrite forEachThrowing_app in H. cbn [plus] in H.
  apply bindR_Ok in H. destruct H as (c1 & H1 & H).
  cbn [forEachThrowing] in H.
  apply bindR_Ok in H. destruct H as (c2 & H2 & H3).
  rewrite Hlen in H2. exists c1, c2. split; [exact H2|].
  intros q Hq. split.
  - eapply banks_frame; [exact H1|]. intros k Hk. apply Hq. lia.
  - eapply banks_frame; [exact H3|]. intros k Hk. apply Hq. lia.
Qed.

Lemma creditCardsOf_nth (bank : node) (ccs : list node) (j : nat) (rest : Config.key) :
  creditCardsOf bank = Ok ccs ->
  Config.get bank ("creditCards" :: JsString.ofNat j :: rest) <> Undefined ->
  exists cc, nth_error ccs j = Some cc.
Proof.
  intros Hccs Hget.
  destruct bank as [| |b|n|s|items|fields|time fields]; try (now elim Hget);
    (cbn [Config.get Config.ownProperty] in Hget; cbn [creditCardsOf] in Hccs;
     (destruct (Config.lookup "creditCards" fields) as [cards|]; [|now elim Hget]);
     (destruct cards as [| |b|n|s|cards|fields'|time' fields']; try (now elim Hget);
      cbn [truthy] in Hccs; try discriminate Hccs);
     injection Hccs as <-;
     cbn [Config.get Config.ownProperty] in Hget; rewrite arrayIndex_ofNat in Hget;
     destruct (nth_error cards j) as [cc|]; [now exists cc | now elim Hget]).
Qed.

Lemma overrides_fields (env : Env) (cfg cfg' : node) (i : nat) :
  applyCredentialEnvOverrides env cfg = Ok cfg' ->
  (hasMapping cfg (bankCredentials i) ->
   forall V f, In (V, f) bankFields ->
     Config.get cfg' (bankKey i f)
     = overridden (env (bankVariable i V)) (Config.get cfg (bankKey i f)))
  /\ (forall j, hasMapping cfg (creditCardCredentials i j) ->
      forall V f, In (V, f) creditCardFields ->
        Config.get cfg' (creditCardKey i j f)
        = overridden (env (creditCardVariable i j V)) (Config.get cfg (creditCardKey i j f))).
Proof.
  intros H. split.
  - intros [entries Hq] V f Hin.
    destruct (@overrides_bank_entry env cfg cfg' i ["credentials"] H)
      as (banks & bank & Hi & _ & Hloop);
      [unfold bankCredentials in Hq; now rewrite Hq|].
    destruct (@banks_around env i banks bank cfg cfg' Hi Hloop) as (c & c' & Hstep & Hframe).
    destruct (Hframe (bankKey i f)) as [E1 E2].
    { intros k Hk. split; intros; [apply bankKey_bankKey; left; congruence|].
      apply bankKey_creditCardKey. }
    destruct (Hframe (bankCredentials i)) as [M1 _].
    { intros k Hk. split; intros; [apply bankCredentials_bankKey; congruence|].
      apply bankCredentials_creditCardKey. }
    rewrite E2, <- E1.
    apply (@overrideEntry_bank_fields env i bank c c' V f Hstep); [|exact Hin].
    exists entries. now rewrite M1.
  - intros j [entries Hq] V f Hin.
    destruct (@overrides_bank_entry env cfg cfg' i
                ["creditCards"; JsString.ofNat j; "credentials"] H)
      as (banks & bank & Hi & Hbank & Hloop);
      [unfold creditCardCredentials in Hq; now rewrite Hq|].
    destruct (@banks_around env i banks bank cfg cfg' Hi Hloop) as (c & c' & Hstep & Hframe).
    assert (Hccs : exists ccs, creditCardsOf bank = Ok ccs).
    { unfold overrideEntry in Hstep. apply bindR_Ok in Hstep.
      destruct Hstep as (ccs & Hccs & _). now exists ccs. }
    destruct Hccs as (ccs & Hccs).
    destruct (@creditCardsOf_nth bank ccs j ["credentials"] Hccs) as (cc & Hj).
    { rewrite Hbank. unfold creditCardCredentials in Hq. now rewrite Hq. }
    destruct (Hframe (creditCardKey i j f)) as [E1 E2].
    { intros k Hk. split; intros; [apply creditCardKey_bankKey|].
      apply creditCardKey_creditCardKey. left. congruence. }
    destruct (Hframe (creditCardCredentials i j)) as [M1 _].
    { intros k Hk. split; intros; [apply creditCardCredentials_bankKey|].
      apply creditCardCredentials_creditCardKey. left. congruence. }
    rewrite E2, <- E1.
    apply (@overrideEntry_creditCard_fields env i j bank c c' ccs cc V f Hstep Hccs Hj);
      [|exact Hin].
    exists entries. now rewrite M1.
Qed.

(** X19.  Every credential variable, for a document without aliases:
    when the overrides return and the configuration holds a
    [credentials] mapping for bank [i], each of its leaves [username],
    [password], [id] and [userCode] reads BANK_i_USERNAME,
    BANK_i_PASSWORD, BANK_i_ID and BANK_i_USERCODE when that variable is
    set to a non-empty string, and what it read before otherwise,
    whether or not the leaf was there; the same holds for the leaves
    [username], [password], [id] and [card6Digits] of credit card [j]
    and the variables BANK_i_CC_j_USERNAME, ..._PASSWORD, ..._ID and
    ..._CARD6DIGITS. *)
Theorem applyCredentialEnvOverrides_fields (env : Env) (cfg : node) (st' : Live.store)
  (i : nat) :
  Live.applyCredentialEnvOverrides env (Live.unshared cfg) = Ok st' ->
  (hasMapping cfg (bankCredentials i) ->
   forall V f, In (V, f) bankFields ->
     Live.get env st' (bankKey i f)
     = overridden (env (bankVariable i V)) (Config.get cfg (bankKey i f)))
  /\ (forall j, hasMapping cfg (creditCardCredentials i j) ->
      forall V f, In (V, f) creditCardFields ->
        Live.get env st' (creditCardKey i j f)
        = overridden (env (creditCardVariable i j V)) (Config.get cfg (creditCardKey i j f))).
Proof.
  intros H. rewrite applyCredentialEnvOverrides_unshared in H.
  apply mapR_Ok in H. destruct H as (cfg' & H & ->).
  destruct (@overrides_fields env cfg cfg' i H) as [Hbank Hcard].
  split.
  - intros Hmap V f Hin. unfold bankKey at 1. rewrite get_banks, stored_unshared.
    exact (Hbank Hmap V f Hin).
  - intros j Hmap V f Hin. unfold creditCardKey at 1. rewrite get_banks, stored_unshared.
    exact (Hcard j Hmap V f Hin).
Qed.

(* ===================================================================== *)
(** ** The command line *)
(* ===================================================================== *)

Lemma list_pair_induction {A} (P : list A -> Prop) :
  P [] -> (forall a, P [a]) -> (forall a b l, P l -> P (b :: l) -> P (a :: b :: l)) ->
  forall l, P l.
Proof.
  intros H0 H1 H2 l.
  assert (H : P l /\ forall a, P (a :: l)); [|exact (proj1 H)].
  induction l as [|b l [IH1 IH2]]; [now split|].
  split; [apply IH2|]. intros a. now apply H2.
Qed.

(** The branch of [parseFrom] taken for an argument. *)
Lemma parseFrom_cons (arg : string) (rest : list string) (options : Options.t) :
  (In arg ["--input"; "-i"]
   /\ parseFrom (arg :: rest) options
      = match rest with
        | [] => Parsed_options (Options.withInput None options)
        | value :: rest' => parseFrom rest' (Options.withInput (Some value) options)
        end)
  \/ (In arg ["--output"; "-o"]
      /\ parseFrom (arg :: rest) options
         = match rest with
           | [] => Parsed_options (Options.withOutput None options)
           | value :: rest' => parseFrom rest' (Options.withOutput (Some value) options)
           end)
  \/ (In arg ["--decrypt"; "-d"; "--encrypt-value"; "-e"; "--help"; "-h"]
      /\ exists options', parseFrom (arg :: rest) options = parseFrom rest options')
  \/ (~ In arg knownOptions /\ JsString.startsWith arg "-" = true
      /\ parseFrom (arg :: rest) options = Parsed_unknown arg)
  \/ (~ In arg knownOptions /\ JsString.startsWith arg "-" = false
      /\ parseFrom (arg :: rest) options = parseFrom rest options).
Proof.
  cbn [parseFrom].
  destruct (String.eqb_spec arg "--input") as [->|N1];
    [left; split; [now left | reflexivity]|].
  destruct (String.eqb_spec arg "-i") as [->|N2];
    [left; split; [now right; left | reflexivity]|].
  destruct (String.eqb_spec arg "--output") as [->|N3];
    [right; left; split; [now left | reflexivity]|].
  destruct (String.eqb_spec arg "-o") as [->|N4];
    [right; left; split; [now right; left | reflexivity]|].
  right; right.
  destruct (String.eqb_spec arg "--decrypt") as [->|N5];
    [left; split; [cbn; tauto | now eexists]|].
  destruct (String.eqb_spec arg "-d") as [->|N6];
    [left; split; [cbn; tauto | now eexists]|].
  destruct (String.eqb_spec arg "--encrypt-value") as [->|N7];
    [left; split; [cbn; tauto | now eexists]|].
  destruct (String.eqb_spec arg "-e") as [->|N8];
    [left; split; [cbn; tauto | now eexists]|].
  destruct (String.eqb_spec arg "--help") as [->|N9];
    [left; split; [cbn; tauto | now eexists]|].
  destruct (String.eqb_spec arg "-h") as [->|N10];
    [left; split; [cbn; tauto | now eexists]|].
  right. cbn [orb].
  assert (Hk : ~ In arg knownOptions) by (cbn; intuition congruence).
  destruct (JsString.startsWith arg "-"); [left | right]; now repeat split.
Qed.

(** X20.  [parseArgs] stops at an unknown option only: the argument it
    reports is one of the arguments after the first two, starts with
    [-], and is none of the ten spellings it knows; when every argument
    that starts with [-] is one of these, it returns options, also when
    a value of [--input] or [--output] is missing. *)
Theorem parseArgs_unknown_option (argv : list string) :
  (forall arg, parseArgs argv = Parsed_unknown arg ->
     In arg (skipn 2 argv) /\ JsString.startsWith arg "-" = true /\ ~ In arg knownOptions)
  /\ ((forall arg, In arg (skipn 2 argv) -> JsString.startsWith arg "-" = true ->
         In arg knownOptions) ->
      exists options, parseArgs argv = Parsed_options options).
Proof.
  unfold parseArgs. generalize Options.initial. generalize (skipn 2 argv). clear argv.
  intros args. induction args as [|a|a b l IH1 IH2] using list_pair_induction;
    intros options.
  - split; [discriminate | now eexists].
  - destruct (parseFrom_cons a [] options)
      as [[_ ->]|[[_ ->]|[[_ [o' ->]]|[(Hk & Hs & ->)|(_ & _ & ->)]]]]; cbn [parseFrom].
    1-3, 5: split; [discriminate | now eexists].
    split.
    + intros arg [= <-]. split; [now left | now split].
    + intros H. elim Hk. apply H; [now left | exact Hs].
  - destruct (parseFrom_cons a (b :: l) options)
      as [[_ ->]|[[_ ->]|[[_ [o' ->]]|[(Hk & Hs & ->)|(_ & _ & ->)]]]].
    + destruct (IH1 (Options.withInput (Some b) options)) as [H1 H2]. split.
      * intros arg H. destruct (H1 arg H) as (Hin & Hrest). split; [now do 2 right | exact Hrest].
      * intros H. apply H2. intros arg Hin. apply H. now do 2 right.
    + destruct (IH1 (Options.withOutput (Some b) options)) as [H1 H2]. split.
      * intros arg H. destruct (H1 arg H) as (Hin & Hrest). split; [now do 2 right | exact Hrest].
      * intros H. apply H2. intros arg Hin. apply H. now do 2 right.
    + destruct (IH2 o') as [H1 H2]. split.
      * intros arg H. destruct (H1 arg H) as (Hin & Hrest). split; [now right | exact Hrest].
      * intros H. apply H2. intros arg Hin. apply H. now right.
    + split.
      * intros arg [= <-]. split; [now left | now split].
      * intros H. elim Hk. apply H; [now left | exact Hs].
    + destruct (IH2 options) as [H1 H2]. split.
      * intros arg H. destruct (H1 arg H) as (Hin & Hrest). split; [now right | exact Hrest].
      * intros H. apply H2. intros arg Hin. apply H. now right.
Qed.

(* ===================================================================== *)
(** ** The tool at the terminal *)
(* ===================================================================== *)

Lemma keepsFiles_andThen {A B} (m : Cli A) (k : A -> Cli B) :
  keepsFiles m -> (forall a, keepsFiles (k a)) -> keepsFiles (andThen m k).
Proof.
  intros Hm Hk w. unfold andThen. specialize (Hm w).
  destruct (m w) as [a w1|code w1|w1]; cbn [worldOf] in *; [|exact Hm|exact Hm].
  now rewrite Hk.
Qed.

Lemma keepsFiles_print (line : Line) : keepsFiles (print line).
Proof. intros w. reflexivity. Qed.

Lemma keepsFiles_exit {A} (code : nat) : keepsFiles (@exit A code).
Proof. intros w. reflexivity. Qed.

Lemma keepsFiles_prompt (question : string) (hidden : bool) :
  keepsFiles (prompt question hidden).
Proof. intros w. unfold prompt. now destruct (typed w). Qed.

Lemma keepsFiles_Returns {A} (a : A) : keepsFiles (fun w => Returns a w).
Proof. intros w. reflexivity. Qed.

Ltac keeps_files :=
  repeat first
    [ apply keepsFiles_andThen; [|intros ?]
    | apply keepsFiles_print | apply keepsFiles_exit | apply keepsFiles_prompt
    | apply keepsFiles_Returns
    | match goal with |- keepsFiles (if ?c then _ else _) => destruct c end ].

Lemma keepsFiles_promptMasterPassword (confirm : bool) :
  keepsFiles (promptMasterPassword confirm).
Proof. unfold promptMasterPassword, log, logError. keeps_files. Qed.

Lemma keepsFiles_encryptionFailed {A} (message : string) :
  keepsFiles (@encryptionFailed A message).
Proof. unfold encryptionFailed, logError. keeps_files. Qed.

Lemma keepsFiles_encryptSingleValue : keepsFiles encryptSingleValue.
Proof.
  unfold encryptSingleValue, log, logError. keeps_files;
    try apply keepsFiles_promptMasterPassword.
  intros w. destruct (encrypt _ _ _) as [[envelope e']|message];
    [reflexivity | apply keepsFiles_encryptionFailed].
Qed.

Lemma logFields_prints (fields : list string) (w : World) :
  logFields fields w
  = Returns tt (printedMore (List.map (fun field => Log ("  - " ++ field)) fields) w).
Proof.
  unfold logFields.
  assert (H : forall (before : Cli unit) lines i,
            (forall w, before w = Returns tt (printedMore lines w)) ->
            forall w,
              forEachIndexed
                (fun (_ : nat) field (before : Cli unit) =>
                   andThen before (fun _ => log ("  - " ++ field)))
                i fields before w
              = Returns tt (printedMore
                              (lines ++ List.map (fun field => Log ("  - " ++ field)) fields)
                              w)).
  { induction fields as [|field r IH]; intros before lines i Hb w0.
    - cbn. now rewrite Hb, app_nil_r.
    - cbn [forEachIndexed List.map].
      rewrite (IH _ (lines ++ [Log ("  - " ++ field)])).
      + now rewrite <- app_assoc.
      + intros w1. unfold andThen. rewrite Hb. unfold log, print, printedMore. cbn.
        now rewrite <- app_assoc. }
  apply (H _ [] 0). intros w0. unfold printedMore. rewrite app_nil_r. now destruct w0.
Qed.

Lemma keepsFiles_logFields (fields : list string) : keepsFiles (logFields fields).
Proof. intros w. now rewrite logFields_prints. Qed.

(** What [promptMasterPassword] returns: a password of at least eight
    code units, typed twice when the confirmation is asked for. *)
Lemma promptMasterPassword_Returns (confirm : bool) (w : World) (password : string)
  (w' : World) :
  promptMasterPassword confirm w = Returns password w' ->
  8 <= utf16Length password
  /\ typed w = (if confirm then [password; password] else [password]) ++ typed w'
  /\ random w' = random w /\ printed w' = printed w /\ written w' = written w.
Proof.
  unfold promptMasterPassword, andThen, prompt, logError, print, exit.
  destruct (typed w) as [|p rest] eqn:Ht; [discriminate|]. cbn [random typed printed written].
  destruct (Nat.ltb_spec (utf16Length p) 8) as [Hlt|Hge]; [discriminate|].
  destruct confirm.
  - destruct rest as [|c rest']; [discriminate|]. cbn [random typed printed written].
    destruct (String.eqb_spec p c) as [->|Hne]; cbn [negb]; [|discriminate].
    intros [= <- <-]. now repeat split.
  - intros [= <- <-]. now repeat split.
Qed.

Lemma andThen_log {B} (text : string) (k : unit -> Cli B) (w : World) :
  andThen (log text) k w = k tt (printedMore [Log text] w).
Proof. reflexivity. Qed.

Lemma andThen_logError {B} (text : string) (k : unit -> Cli B) (w : World) :
  andThen (logError text) k w = k tt (printedMore [Error text] w).
Proof. reflexivity. Qed.

Lemma andThen_logFields {B} (fields : list string) (k : unit -> Cli B) (w : World) :
  andThen (logFields fields) k w
  = k tt (printedMore (List.map (fun field => Log ("  - " ++ field)) fields) w).
Proof. unfold andThen. now rewrite logFields_prints. Qed.

Lemma andThen_prompt {B} (question : string) (hidden : bool) (k : string -> Cli B)
  (w : World) :
  andThen (prompt question hidden) k w
  = match typed w with
    | [] => Waits w
    | answer :: rest =>
        k answer {| random := random w; typed := rest;
                    printed := printed w; written := written w |}
    end.
Proof. unfold andThen, prompt. now destruct (typed w). Qed.

Lemma utf16Length_nonempty (s : string) : 8 <= utf16Length s -> s <> EmptyString.
Proof. intros H ->. cbn in H. lia. Qed.

(** What a run of [encryptConfig] may write. *)
Lemma encryptConfig_writes (io : Platform) (inputFile outputFile : option string)
  (w : World) :
  written (worldOf (encryptConfig io inputFile outputFile w)) = written w
  \/ exists text config proceed password encryptedConfig e' content rest,
       readFile io inputFile = Ok text
       /\ yamlLoad io text = Ok config
       /\ typed w = proceed :: password :: password :: rest
       /\ toLowerCase proceed = "y"
       /\ 8 <= utf16Length password
       /\ encryptSensitiveFields config (Some password) EmptyString (random w)
          = Ok (encryptedConfig, e')
       /\ listSensitiveFields encryptedConfig EmptyString [] = []
       /\ yamlDump io encryptedConfig = Ok content
       /\ written (worldOf (encryptConfig io inputFile outputFile w))
          = written w ++ [(outputFile, content)]
       /\ exists w', encryptConfig io inputFile outputFile w = Returns tt w'.
Proof.
  remember (encryptConfig io inputFile outputFile w) as o eqn:Ho.
  unfold encryptConfig in Ho. rewrite andThen_log in Ho.
  destruct (readFile io inputFile) as [text|m] eqn:Hread;
    [|left; subst o; rewrite andThen_logError; reflexivity].
  destruct (yamlLoad io text) as [config|m] eqn:Hload;
    [|left; subst o; rewrite andThen_logError; reflexivity].
  cbn zeta in Ho.
  destruct (length (listSensitiveFields config EmptyString []) =? 0)%nat;
    [left; subst o; rewrite !andThen_log; reflexivity|].
  rewrite andThen_log, andThen_logFields, andThen_prompt in Ho.
  cbn [typed printedMore random printed written] in Ho.
  destruct (typed w) as [|proceed answers] eqn:Htyped; [left; subst o; reflexivity|].
  destruct (String.eqb_spec (toLowerCase proceed) "y") as [Hyes|Hno]; cbn [negb] in Ho;
    [|left; subst o; rewrite andThen_log; reflexivity].
  match type of Ho with
  | context [andThen (promptMasterPassword true) ?k ?w0] =>
      set (continue := k) in Ho; set (w2 := w0) in Ho
  end.
  pose proof (keepsFiles_promptMasterPassword true w2) as Hkeep.
  unfold andThen at 1 in Ho.
  destruct (promptMasterPassword true w2) as [password w3|code w3|w3] eqn:Hpw;
    [|left; subst o; exact Hkeep|left; subst o; exact Hkeep].
  destruct (promptMasterPassword_Returns _ _ Hpw) as (Hlen & Ht & Hr & _ & Hw).
  subst continue w2. cbn beta in Ho. rewrite andThen_log in Ho. unfold encryptAndWrite in Ho.
  cbn [typed printedMore random printed written] in *.
  rewrite Hr in Ho.
  destruct (encryptSensitiveFields config (Some password) EmptyString (random w))
    as [[encryptedConfig e']|m] eqn:Hpass;
    [|left; subst o; etransitivity; [apply keepsFiles_encryptionFailed | exact Hw]].
  destruct (yamlDump io encryptedConfig) as [content|m] eqn:Hdump;
    [|left; subst o; etransitivity; [apply keepsFiles_encryptionFailed | exact Hw]].
  destruct (writeFile io outputFile content) as [u|m] eqn:Hwrite;
    [|left; subst o; etransitivity; [apply keepsFiles_encryptionFailed | exact Hw]].
  right. exists text, config, proceed, password, encryptedConfig, e', content, (typed w3).
  split; [first [reflexivity | exact Hread]|].
  split; [first [reflexivity | exact Hload]|].
  split; [first [now rewrite Ht | now rewrite Htyped, Ht]|].
  split; [exact Hyes|]. split; [exact Hlen|].
  split; [first [reflexivity | exact Hpass]|].
  split; [exact (listSensitiveFields_pass _ _ _ _ Hpass [])|].
  split; [first [reflexivity | exact Hdump]|].
  unfold andThen, log, print in Ho.
  cbn [worldOf written printedMore random typed printed] in Ho.
  subst o. cbn [worldOf written]. rewrite Hw. split; [reflexivity | now eexists].
Qed.

(** X21.  What the tool may write: whatever the arguments, the files
    and the answers of the operator, a run of [main] writes nothing or
    writes one file, the output file.  It writes it only when the input
    was read and parsed, the operator answered the question with [y] or
    [Y] and typed the same master password of at least eight code units
    twice; the content is then the YAML dump of the document that
    [encryptSensitiveFields] returned for the parsed input and that
    password, in which [listSensitiveFields] finds nothing, and [main]
    returns. *)
Theorem main_writes_encrypted_output_only (io : Platform) (argv : list string) (w : World) :
  written (worldOf (main io argv w)) = written w
  \/ exists options text config proceed password encryptedConfig e' content rest,
       parseArgs argv = Parsed_options options
       /\ readFile io (Options.input options) = Ok text
       /\ yamlLoad io text = Ok config
       /\ typed w = proceed :: password :: password :: rest
       /\ toLowerCase proceed = "y"
       /\ 8 <= utf16Length password
       /\ encryptSensitiveFields config (Some password) EmptyString (random w)
          = Ok (encryptedConfig, e')
       /\ listSensitiveFields encryptedConfig EmptyString [] = []
       /\ yamlDump io encryptedConfig = Ok content
       /\ written (worldOf (main io argv w))
          = written w ++ [(Options.output options, content)]
       /\ exists w', main io argv w = Returns tt w'.
Proof.
  unfold main. destruct (parseArgs argv) as [options|arg] eqn:Hparse;
    [|left; rewrite andThen_logError; reflexivity].
  destruct (Options.help options); [left; rewrite andThen_log; reflexivity|].
  destruct (Options.encryptValue options).
  { left. apply (@keepsFiles_andThen _ unit encryptSingleValue (fun _ => exit 0)).
    - apply keepsFiles_encryptSingleValue.
    - intros _. apply keepsFiles_exit. }
  destruct (Options.decrypt options).
  { left. rewrite !andThen_log, andThen_prompt.
    cbn [typed printedMore random printed written].
    destruct (typed w) as [|proceed answers]; [reflexivity|].
    destruct (negb _); [reflexivity|]. rewrite !andThen_log. reflexivity. }
  destruct (encryptConfig_writes io (Options.input options) (Options.output options) w)
    as [H|(text & config & proceed & password & encryptedConfig & e' & content & rest & H)];
    [now left|].
  right. exists options, text, config, proceed, password, encryptedConfig, e', content, rest.
  split; [reflexivity | exact H].
Qed.

Lemma promptMasterPassword_accepts (password : string) (rest : list string) (w : World) :
  typed w = password :: password :: rest -> 8 <= utf16Length password ->
  promptMasterPassword true w
  = Returns password {| random := random w; typed := rest;
                        printed := printed w; written := written w |}.
Proof.
  intros Ht Hlen. unfold promptMasterPassword. rewrite andThen_prompt, Ht.
  destruct (Nat.ltb_spec (utf16Length password) 8) as [Hlt|_]; [lia|].
  rewrite andThen_prompt. cbn [typed]. now rewrite String.eqb_refl.
Qed.

(** X22.  Once the operator has confirmed and typed an acceptable
    master password twice, the encryption step of [encryptConfig] cannot
    fail: [encryptSensitiveFields] returns a document, and when the dump
    and the write succeed the tool returns, having written the dump to
    the output file and nothing else, consumed the three answers, and
    reported as the number of encrypted fields the number of fields it
    listed plus the number of values that were encrypted before. *)
Theorem encryptConfig_succeeds (io : Platform) (inputFile outputFile : option string)
  (w : World) (text : string) (config : node) (proceed password : string)
  (rest : list string) :
  readFile io inputFile = Ok text -> yamlLoad io text = Ok config ->
  listSensitiveFields config EmptyString [] <> [] ->
  typed w = proceed :: password :: password :: rest ->
  toLowerCase proceed = "y" -> 8 <= utf16Length password ->
  exists encryptedConfig e',
    encryptSensitiveFields config (Some password) EmptyString (random w)
    = Ok (encryptedConfig, e')
    /\ forall content,
         yamlDump io encryptedConfig = Ok content ->
         writeFile io outputFile content = Ok tt ->
         exists w',
           encryptConfig io inputFile outputFile w = Returns tt w'
           /\ written w' = written w ++ [(outputFile, content)]
           /\ typed w' = rest /\ random w' = e'
           /\ In (Log (LF ++ "Success! Encrypted "
                         ++ JsString.ofNat
                              (encryptedLeaves config
                               + length (listSensitiveFields config EmptyString []))
                         ++ " sensitive field(s)."))
                 (printed w').
Proof.
  intros Hread Hload Hlist Htyped Hyes Hlen.
  destruct (@encryptSensitiveFields_total config password (utf16Length_nonempty Hlen)
              EmptyString (random w)) as (encryptedConfig & e' & Hpass).
  exists encryptedConfig, e'. split; [exact Hpass|].
  intros content Hdump Hwrite.
  unfold encryptConfig. rewrite andThen_log, Hread, Hload. cbn zeta.
  destruct (listSensitiveFields config EmptyString []) as [|field fields] eqn:Hfields;
    [now elim Hlist|].
  cbn [length Nat.eqb].
  rewrite andThen_log, andThen_logFields, andThen_prompt.
  cbn [typed printedMore random printed written]. rewrite Htyped, Hyes.
  cbn [String.eqb Ascii.eqb Bool.eqb negb andb].
  unfold andThen at 1.
  erewrite promptMasterPassword_accepts; [|reflexivity|exact Hlen].
  cbn [typed printedMore random printed written].
  rewrite andThen_log. unfold encryptAndWrite.
  cbn [typed printedMore random printed written].
  rewrite Hpass, Hdump, Hwrite.
  eexists. split; [reflexivity|].
  cbn [typed printedMore random printed written worldOf].
  split; [reflexivity|]. split; [reflexivity|]. split; [reflexivity|].
  rewrite (countEncryptedFields_pass _ _ _ _ Hpass), countEncryptedFields_leaves, Hfields.
  cbn [Counts.encrypted noCount Nat.add].
  rewrite !in_app_iff. left. left. left. left. left. right. now left.
Qed.

(** X23.  The tool run on what a pass wrote asks nothing and writes
    nothing: when the input parses to a document that
    [encryptSensitiveFields] returned, [encryptConfig] reports that no
    sensitive fields were found and exits with status 0, before any
    prompt. *)
Theorem encryptConfig_on_encrypted_input (io : Platform)
  (inputFile outputFile : option string) (w : World) (text : string)
  (d config : node) (mp : option string) (e e' : entropy) :
  readFile io inputFile = Ok text -> yamlLoad io text = Ok config ->
  encryptSensitiveFields d mp EmptyString e = Ok (config, e') ->
  encryptConfig io inputFile outputFile w
  = Exits 0 (printedMore
               [ Log (LF ++ "Reading configuration from: " ++ show inputFile);
                 Log (LF ++ "No sensitive fields found to encrypt.");
                 Log "Fields already encrypted or no credentials present." ] w).
Proof.
  intros Hread Hload Hpass.
  unfold encryptConfig. rewrite andThen_log, Hread, Hload. cbn zeta.
  rewrite (listSensitiveFields_pass _ _ _ _ Hpass []). cbn [length Nat.eqb].
  rewrite !andThen_log. unfold exit, printedMore. cbn [random typed printed written].
  now rewrite <- !app_assoc.
Qed.

(** X24.  The value printed by [--encrypt-value] decrypts to the value
    typed: when the operator types a non-empty value and then an
    acceptable master password twice, [encryptSingleValue] prints, as
    its last line, the envelope that [encrypt] returned, and [decrypt]
    returns for that envelope and password the string that the UTF-8
    bytes of the value decode to: the value itself, since a line read
    from the terminal holds no unpaired surrogate.  The primitives are
    assumed to meet their contracts. *)
Theorem encryptSingleValue_prints_envelope (w : World) (value password : string)
  (rest : list string) :
  typed w = value :: password :: password :: rest ->
  value <> EmptyString -> 8 <= utf16Length password ->
  exists envelope e',
    encrypt (Some value) (Some password) (random w) = Ok (envelope, e')
    /\ encryptSingleValue w
       = Returns tt
           {| random := e'; typed := rest;
              printed := printed w
                         ++ [ Log (LF ++ "Encrypt a single value");
                              Log ("(Useful for manually adding encrypted values to config)"
                                   ++ LF);
                              Log (LF ++ "Encrypted value (copy this to your config):");
                              Log envelope ];
              written := written w |}
    /\ decrypt (Some envelope) (Some password) = Ok (utf8String (utf8Bytes value))
    /\ (wellFormed value = true -> decrypt (Some envelope) (Some password) = Ok value).
Proof.
  intros Htyped Hvalue Hlen.
  pose proof (utf16Length_nonempty Hlen) as Hpw.
  eexists _, _. split; [apply (encrypt_ok (random w) Hvalue Hpw)|]. split.
  - unfold encryptSingleValue. rewrite !andThen_log, andThen_prompt.
    cbn [typed printedMore random printed written]. rewrite Htyped.
    rewrite (isEmpty_false Hvalue). unfold andThen at 1.
    erewrite promptMasterPassword_accepts; [|reflexivity|exact Hlen].
    cbn [typed printedMore random printed written].
    rewrite (encrypt_ok (random w) Hvalue Hpw). rewrite !andThen_log.
    unfold log, print. cbn [typed printedMore random printed written].
    now rewrite <- !app_assoc.
  - split.
    + apply decrypt_envelopeOf; [exact Hpw | |]; apply randomBytes_length.
    + intros Hw. apply decrypt_envelopeOf_wellFormed;
        [exact Hw | exact Hpw | |]; apply randomBytes_length.
Qed.

(* ===================================================================== *)
(** ** The configuration snapshot *)
(* ===================================================================== *)

Lemma child_ownProperty (d : node) (st : step) (c : node) :
  child d st = Some c -> Config.ownProperty d (keyOf st) = Some c.
Proof.
  destruct st as [name|i], d as [| |b|n|s|items|entries|time entries]; try discriminate; cbn [child keyOf].
  - intros H. exact H.
  - intros H. exact H.
  - intros H. cbn [Config.ownProperty]. now rewrite arrayIndex_ofNat.
Qed.

Lemma descend_get (address : list step) :
  forall v x, descend v address = Some x -> Config.get v (List.map keyOf address) = x.
Proof.
  induction address as [|st rest IH]; intros v x H.
  - now injection H.
  - cbn [descend] in H. destruct (child v st) as [c|] eqn:Hc; [|discriminate H].
    cbn [List.map Config.get]. rewrite (child_ownProperty _ _ Hc). now apply IH.
Qed.

Lemma property_get (owner : node) (name : string) (v : node) :
  Config.arrayIndex name = None -> property owner name = Ok v ->
  v = Config.get owner [name].
Proof.
  intros Hname H. destruct owner as [| |b|n|s|items|entries|time entries]; try discriminate H;
    cbn [property] in H; injection H as <-; cbn [Config.get Config.ownProperty];
    try reflexivity; try (now rewrite Hname);
    try (now destruct (Config.lookup name entries)).
Qed.

Lemma descend_orNull (v : node) (rest : list step) (s : string) :
  descend (orNull v) rest = Some (Str s) -> descend v rest = Some (Str s).
Proof. destruct v; try (intros H; exact H); destruct rest as [|[name|i] rest]; discriminate. Qed.

(** A string found in the value read from a property of [owner] is
    found in [owner] below the name of the property. *)
Lemma property_origin (owner : node) (name : string) (v : node) (rest : list step)
  (s : string) :
  Config.arrayIndex name = None -> property owner name = Ok v ->
  descend v rest = Some (Str s) ->
  Config.get owner (name :: List.map keyOf rest) = Str s.
Proof.
  intros Hname Hv H. apply descend_get in H.
  rewrite (@property_get owner name v Hname Hv) in H.
  now rewrite <- (get_app [name]) in H.
Qed.

Lemma mapThrowing_nth {A B} (f : nat -> A -> result B) (l : list A) :
  forall i l', mapThrowing f i l = Ok l' ->
  forall n y, nth_error l' n = Some y ->
  exists x, nth_error l n = Some x /\ f (i + n) x = Ok y.
Proof.
  induction l as [|a r IH]; intros i l' H n y Hn.
  - injection H as <-. now destruct n.
  - cbn [mapThrowing] in H. apply bindR_Ok in H. destruct H as (b & Hb & H).
    apply bindR_Ok in H. destruct H as (bs & Hbs & [= <-]).
    destruct n as [|n].
    + injection Hn as <-. exists a. now rewrite Nat.add_0_r.
    + cbn [nth_error] in Hn |- *. rewrite Nat.add_succ_r.
      exact (IH (S i) bs Hbs n y Hn).
Qed.

(** The items that a loop runs over, when the value looped over is
    [value || []] for a value read from the configuration. *)
Lemma itemsOf_orElse (what : string) (value : node) (items : list node) (n : nat) (x : node) :
  itemsOf what (orElse value (Arr [])) = Ok items -> nth_error items n = Some x ->
  value = Arr items.
Proof.
  unfold orElse. intros H Hn. destruct (truthy value).
  - destruct value; try discriminate H. now injection H as <-.
  - injection H as <-. now destruct n.
Qed.

Lemma get_Arr_nth (t : node) (p : Config.key) (items : list node) (n : nat) (x : node)
  (rest : Config.key) :
  Config.get t p = Arr items -> nth_error items n = Some x ->
  Config.get t (p ++ JsString.ofNat n :: rest) = Config.get x rest.
Proof.
  intros Hp Hn. rewrite get_app, Hp. cbn [Config.get Config.ownProperty].
  now rewrite arrayIndex_ofNat, Hn.
Qed.

Lemma descend_Number (n : Z) (rest : list step) (s : string) :
  descend (Number n) rest = Some (Str s) -> False.
Proof. destruct rest as [|[name|i] rest]; discriminate. Qed.

Lemma cardSnapshot_origin (j : nat) (cc cs : node) (rest : list step) (s : string) :
  cardSnapshot j cc = Ok cs -> descend cs rest = Some (Str s) ->
  exists field rest',
    In field ["type"; "startDate"; "timeout"] /\ Config.get cc (field :: rest') = Str s.
Proof.
  unfold cardSnapshot. intros H Hd.
  apply bindR_Ok in H. destruct H as (type & Htype & H).
  apply bindR_Ok in H. destruct H as (startDate & HstartDate & H).
  apply bindR_Ok in H. destruct H as (timeout & Htimeout & [= <-]).
  destruct rest as [|[k|i] rest]; try discriminate Hd.
  cbn [descend child Config.lookup] in Hd.
  destruct (String.eqb "index" k); [now apply descend_Number in Hd|].
  destruct (String.eqb "type" k).
  { exists "type", (List.map keyOf rest). split; [cbn; tauto|].
    now apply (@property_origin cc "type" type). }
  destruct (String.eqb "startDate" k).
  { exists "startDate", (List.map keyOf rest). split; [cbn; tauto|].
    apply descend_orNull in Hd. now apply (@property_origin cc "startDate" startDate). }
  destruct (String.eqb "timeout" k); [|discriminate Hd].
  exists "timeout", (List.map keyOf rest). split; [cbn; tauto|].
  apply descend_orNull in Hd. now apply (@property_origin cc "timeout" timeout).
Qed.

Lemma bankSnapshot_origin (i : nat) (b bs : node) (rest : list step) (s : string) :
  bankSnapshot i b = Ok bs -> descend bs rest = Some (Str s) ->
  (exists field rest',
     In field ["type"; "startDate"; "timeout"] /\ Config.get b (field :: rest') = Str s)
  \/ (exists j field rest',
        In field ["type"; "startDate"; "timeout"]
        /\ Config.get b ("creditCards" :: JsString.ofNat j :: field :: rest') = Str s).
Proof.
  unfold bankSnapshot. intros H Hd.
  apply bindR_Ok in H. destruct H as (type & Htype & H).
  apply bindR_Ok in H. destruct H as (startDate & HstartDate & H).
  apply bindR_Ok in H. destruct H as (timeout & Htimeout & H).
  apply bindR_Ok in H. destruct H as (creditCards & Hcards & H).
  apply bindR_Ok in H. destruct H as (ccs & Hccs & H).
  apply bindR_Ok in H. destruct H as (cards & Hmap & [= <-]).
  destruct rest as [|[k|n] rest]; try discriminate Hd.
  cbn [descend child Config.lookup] in Hd.
  destruct (String.eqb "index" k); [now apply descend_Number in Hd|].
  destruct (String.eqb "type" k).
  { left. exists "type", (List.map keyOf rest). split; [cbn; tauto|].
    now apply (@property_origin b "type" type). }
  destruct (String.eqb "startDate" k).
  { left. exists "startDate", (List.map keyOf rest). split; [cbn; tauto|].
    apply descend_orNull in Hd. now apply (@property_origin b "startDate" startDate). }
  destruct (String.eqb "timeout" k).
  { left. exists "timeout", (List.map keyOf rest). split; [cbn; tauto|].
    apply descend_orNull in Hd. now apply (@property_origin b "timeout" timeout). }
  destruct (String.eqb "creditCards" k); [|discriminate Hd].
  destruct rest as [|[k'|j] rest]; try discriminate Hd.
  cbn [descend child] in Hd.
  destruct (nth_error cards j) as [cs|] eqn:Hj; [|discriminate Hd].
  destruct (mapThrowing_nth _ _ _ Hmap _ Hj) as (cc & Hcc & Hcs).
  destruct (cardSnapshot_origin _ _ _ Hcs Hd) as (field & rest' & Hin & Hget).
  right. exists j, field, rest'. split; [exact Hin|].
  pose proof (itemsOf_orElse _ _ _ Hccs Hcc) as Harr.
  rewrite (@property_get b "creditCards" creditCards eq_refl Hcards) in Harr.
  exact (eq_trans (@get_Arr_nth b ["creditCards"] ccs j cc (field :: rest') Harr Hcc) Hget).
Qed.

(** X25.  What the configuration snapshot holds: every string in the
    object that [logConfigSnapshot] hands to the logger is the name of
    the configuration file, or is found in the configuration at or below
    one of the keys [scraper:startDate], [scraper:timeout],
    [banks:i:type], [banks:i:startDate], [banks:i:timeout] and the same
    three of [banks:i:creditCards:j]; nothing is taken from anywhere
    else, in particular from no [credentials] mapping of a bank or of a
    credit card. *)
Theorem logConfigSnapshot_origin (env : Env) (cfg snapshot : node)
  (address : list step) (s : string) :
  logConfigSnapshot env cfg = Ok snapshot ->
  descend snapshot address = Some (Str s) ->
  (address = [Key "configFile"]
   /\ Str s = orElse (valueOf (env "CONFIG_FILE")) (Str "./config.yaml"))
  \/ exists p rest, snapshotKey p /\ Config.get cfg (p ++ rest) = Str s.
Proof.
  unfold logConfigSnapshot. cbn zeta. intros H Hd.
  apply bindR_Ok in H. destruct H as (scraperStartDate & HstartDate & H).
  apply bindR_Ok in H. destruct H as (scraperTimeout & Htimeout & H).
  apply bindR_Ok in H. destruct H as (entries & Hentries & H).
  apply bindR_Ok in H. destruct H as (snapshots & Hmap & [= <-]).
  assert (Hscraper : forall field v rest,
            In field ["startDate"; "timeout"] ->
            property (orElse (Config.get cfg ["scraper"]) (Obj [])) field = Ok v ->
            Config.arrayIndex field = None ->
            descend v rest = Some (Str s) ->
            exists p rest', snapshotKey p /\ Config.get cfg (p ++ rest') = Str s).
  { intros field v rest Hin Hv Hname Hrest.
    pose proof (@property_origin _ field v rest s Hname Hv Hrest) as Hget.
    exists ["scraper"; field], (List.map keyOf rest). split; [left; now exists field|].
    unfold orElse in Hget. destruct (truthy (Config.get cfg ["scraper"])).
    - change (Config.get cfg (["scraper"] ++ field :: List.map keyOf rest) = Str s).
      now rewrite get_app.
    - cbn in Hget. discriminate Hget. }
  destruct address as [|[k|i] rest]; try discriminate Hd.
  cbn [descend child Config.lookup] in Hd.
  destruct (String.eqb_spec "configFile" k) as [<-|_].
  { left. unfold orElse in Hd |- *.
    destruct (truthy (valueOf (env "CONFIG_FILE"))).
    - destruct (env "CONFIG_FILE") as [name|]; cbn [valueOf] in Hd |- *;
        destruct rest as [|[k'|i'] rest]; try discriminate Hd.
      injection Hd as ->. now split.
    - destruct rest as [|[k'|i'] rest]; try discriminate Hd. injection Hd as ->. now split. }
  right.
  destruct (String.eqb "scraperStartDate" k).
  { apply descend_orNull in Hd.
    apply (Hscraper "startDate" scraperStartDate rest); [cbn; tauto | | reflexivity |];
      assumption. }
  destruct (String.eqb "scraperTimeout" k).
  { apply descend_orNull in Hd.
    apply (Hscraper "timeout" scraperTimeout rest); [cbn; tauto | | reflexivity |];
      assumption. }
  destruct (String.eqb "banks" k); [|discriminate Hd].
  destruct rest as [|[k'|i] rest]; try discriminate Hd.
  cbn [descend child] in Hd.
  destruct (nth_error snapshots i) as [bs|] eqn:Hi; [|discriminate Hd].
  destruct (mapThrowing_nth _ _ _ Hmap _ Hi) as (b & Hb & Hbs).
  pose proof (itemsOf_orElse _ _ _ Hentries Hb) as Harr.
  destruct (bankSnapshot_origin _ _ _ Hbs Hd)
    as [(field & rest' & Hin & Hget)|(j & field & rest' & Hin & Hget)].
  - exists ["banks"; JsString.ofNat i; field], rest'. split.
    + right; left. now exists i, field.
    + rewrite <- Hget.
      exact (@get_Arr_nth cfg ["banks"] entries i b (field :: rest') Harr Hb).
  - exists ["banks"; JsString.ofNat i; "creditCards"; JsString.ofNat j; field], rest'. split.
    + right; right. now exists i, j, field.
    + rewrite <- Hget.
      exact (@get_Arr_nth cfg ["banks"] entries i b
               ("creditCards" :: JsString.ofNat j :: field :: rest') Harr Hb).
Qed.

(* ===================================================================== *)
(** ** The accounts to scrape *)
(* ===================================================================== *)

Lemma noEarlierThan_latest (library : Moment) (start : node) (fallback : Z) :
  exists from,
    noEarlierThan library start (Some fallback) = Some from
    /\ (fallback <= from)%Z
    /\ (forall t, truthy start = true -> instant library start = Some t -> (t <= from)%Z)
    /\ (from = fallback \/ (truthy start = true /\ instant library start = Some from)).
Proof.
  unfold noEarlierThan. destruct (truthy start) eqn:Hs.
  - destruct (instant library start) as [t|] eqn:Ht; cbn [isValid isBefore andb].
    + destruct (Z.ltb_spec fallback t) as [Hlt|Hge].
      * exists t. repeat split; [lia | | now right].
        intros t' _ [= <-]. lia.
      * exists fallback. repeat split; [lia | | now left].
        intros t' _ [= <-]. exact Hge.
    + exists fallback. repeat split; [lia | discriminate | now left].
  - exists fallback. repeat split; [lia | discriminate | now left].
Qed.

Lemma noEarlierThan_invalid (library : Moment) (start : node) :
  noEarlierThan library start None = None.
Proof.
  unfold noEarlierThan. destruct (truthy start); [|reflexivity].
  cbn [isBefore]. now rewrite andb_false_r.
Qed.

(** X26.  Where scraping starts: [getScrapFrom] starts from the last
    import less seven days, or from five years ago when the account has
    no last import.  When that moment is valid it returns the latest of
    it, the configured [scraper:startDate] and the [startDate] of the
    account, an absent or invalid start date counting for nothing; when
    it is invalid (a last import that does not parse) the result is
    invalid whatever the start dates are. *)
Theorem getScrapFrom_latest (library : Moment) (cfg account lastImport startDate : node) :
  property account "lastImport" = Ok lastImport ->
  property account "startDate" = Ok startDate ->
  let initial :=
    if truthy lastImport
    then option_map (subtractDays library 7) (instant library lastImport)
    else Some (subtractYears library 5 (present library)) in
  let configured := Config.get cfg ["scraper"; "startDate"] in
  match initial with
  | None => getScrapFrom library cfg account = Ok None
  | Some fallback =>
      exists from,
        getScrapFrom library cfg account = Ok (Some from)
        /\ (fallback <= from)%Z
        /\ (forall t, truthy configured = true -> instant library configured = Some t ->
              (t <= from)%Z)
        /\ (forall t, truthy startDate = true -> instant library startDate = Some t ->
              (t <= from)%Z)
        /\ (from = fallback
            \/ (truthy configured = true /\ instant library configured = Some from)
            \/ (truthy startDate = true /\ instant library startDate = Some from))
  end.
Proof.
  intros Hli Hsd initial configured. unfold getScrapFrom. rewrite Hli, Hsd. cbn [bindR].
  fold initial. fold configured. destruct initial as [fallback|].
  - destruct (noEarlierThan_latest library configured fallback) as (f1 & -> & H1 & H2 & H3).
    destruct (noEarlierThan_latest library startDate f1) as (f2 & -> & H4 & H5 & H6).
    exists f2. split; [reflexivity|]. split; [lia|]. split.
    + intros t Ht Hi. specialize (H2 t Ht Hi). lia.
    + split; [exact H5|].
      destruct H6 as [->|H6]; [|now right; right].
      destruct H3 as [->|H3]; [now left | now right; left].
  - now rewrite !noEarlierThan_invalid.
Qed.

Lemma flatMapThrowing_map {A B C} (f : nat -> A -> result (list B)) (g : B -> C)
  (h : A -> list C) (l : list A) :
  (forall i x ys, f i x = Ok ys -> List.map g ys = h x) ->
  forall i ys, flatMapThrowing f i l = Ok ys -> List.map g ys = flat_map h l.
Proof.
  intros Hf. induction l as [|a r IH]; intros i ys H.
  - now injection H as <-.
  - cbn [flatMapThrowing] in H. apply bindR_Ok in H. destruct H as (zs & Hzs & H).
    apply bindR_Ok in H. destruct H as (rest & Hrest & [= <-]).
    cbn [flat_map]. now rewrite List.map_app, (Hf _ _ _ Hzs), (IH _ _ Hrest).
Qed.

Lemma mapThrowing_map {A B C} (f : nat -> A -> result B) (g : B -> C) (h : A -> C)
  (l : list A) :
  (forall i x y, f i x = Ok y -> g y = h x) ->
  forall i ys, mapThrowing f i l = Ok ys -> List.map g ys = List.map h l.
Proof.
  intros Hf. induction l as [|a r IH]; intros i ys H.
  - now injection H as <-.
  - cbn [mapThrowing] in H. apply bindR_Ok in H. destruct H as (b & Hb & H).
    apply bindR_Ok in H. destruct H as (bs & Hbs & [= <-]).
    cbn [List.map]. now rewrite (Hf _ _ _ Hb), (IH _ _ Hbs).
Qed.

Lemma allR_userOptions (scrap : node -> result (option Z)) (l : list node) :
  forall users,
    allR (fun x => mapR (fun from => {| userOptions := x; scrapFrom := from |}) (scrap x)) l
    = Ok users ->
    List.map userOptions users = l.
Proof.
  induction l as [|x r IH]; intros users H.
  - now injection H as <-.
  - apply allR_cons_Ok in H. destruct H as (u & us & Hu & Hus & ->).
    apply mapR_Ok in Hu. destruct Hu as (from & _ & ->).
    cbn [List.map userOptions]. now rewrite (IH _ Hus).
Qed.

Lemma filter_all {A} (l : list A) : filter (fun _ => true) l = l.
Proof. induction l as [|x r IH]; [reflexivity|]. cbn. now rewrite IH. Qed.

(** The user built for a bank or for a credit card, once [lastImport]
    is added: its kind and its credentials. *)
Lemma toUserOptions_user (item : node) (index : option nat) (user lastImport : node) :
  toUserOptions item index = Ok user ->
  kindOf (withProperty "lastImport" lastImport user)
  = Str (match index with Some _ => "credit-card" | None => "bank" end)
  /\ Config.get (withProperty "lastImport" lastImport user) ["credentials"]
     = Config.get item ["credentials"].
Proof.
  unfold toUserOptions. intros H.
  apply bindR_Ok in H. destruct H as (type & Htype & H).
  apply bindR_Ok in H. destruct H as (credentials & Hcredentials & H).
  apply bindR_Ok in H. destruct H as (name & Hname & H).
  apply bindR_Ok in H. destruct H as (startDate & HstartDate & H).
  apply bindR_Ok in H. destruct H as (timeout & Htimeout & [= <-]).
  rewrite <- (@property_get item "credentials" credentials eq_refl Hcredentials).
  destruct index as [i|]; split; reflexivity.
Qed.

Lemma cardsOf_items (bank creditCards : node) (ccs : list node) :
  property bank "creditCards" = Ok creditCards ->
  itemsOf "(bank.creditCards || [])" (orElse creditCards (Arr [])) = Ok ccs ->
  cardsOf bank = ccs.
Proof.
  intros Hp H. unfold cardsOf.
  rewrite <- (@property_get bank "creditCards" creditCards eq_refl Hp).
  unfold orElse in H. destruct (truthy creditCards) eqn:Ht.
  - destruct creditCards; try discriminate H. now injection H.
  - injection H as <-. now destruct creditCards.
Qed.

(** X27.  The accounts to scrape, when no selection of accounts is
    given: [getFlatUsers] returns, for every bank of the configuration
    in order, the bank followed by its credit cards, each with the
    credentials of its entry; and the kind that [enrichAccount] gives to
    the accounts of a user is ['bank'] for the banks and ['credit-card']
    for the credit cards, those of the first bank, whose index is 0,
    included. *)
Theorem getFlatUsers_banks_then_cards (library : Moment) (getLastImport : node -> node)
  (cfg : node) (users : list FlatUser) :
  getFlatUsers library getLastImport cfg None = Ok users ->
  exists entries,
    Config.get cfg ["banks"] = Arr entries
    /\ List.map (fun user => kindOf (userOptions user)) users
       = flat_map (fun bank => Str "bank"
                     :: List.map (fun _ => Str "credit-card") (cardsOf bank)) entries
    /\ List.map (fun user => Config.get (userOptions user) ["credentials"]) users
       = flat_map (fun bank => Config.get bank ["credentials"]
                     :: List.map (fun cc => Config.get cc ["credentials"]) (cardsOf bank))
                  entries.
Proof.
  unfold getFlatUsers. intros H.
  destruct (negb (truthy (Config.get cfg ["banks"]))); [discriminate H|].
  destruct (Config.get cfg ["banks"]) as [| |b|n|s|entries|fields|time fields]; try discriminate H.
  exists entries. split; [reflexivity|].
  apply bindR_Ok in H. destruct H as (flat & Hflat & H). cbn zeta in H.
  apply allR_userOptions in H. unfold selected in H. rewrite filter_all in H.
  rewrite <- (List.map_map userOptions kindOf),
          <- (List.map_map userOptions (fun x => Config.get x ["credentials"])), H.
  rewrite !List.map_map.
  assert (Hbank : forall i bank us,
            usersOfBank i bank = Ok us ->
            List.map (fun x => kindOf (withProperty "lastImport" (getLastImport x) x)) us
            = Str "bank" :: List.map (fun _ => Str "credit-card") (cardsOf bank)
            /\ List.map (fun x => Config.get (withProperty "lastImport" (getLastImport x) x)
                                    ["credentials"]) us
               = Config.get bank ["credentials"]
                 :: List.map (fun cc => Config.get cc ["credentials"]) (cardsOf bank)).
  { intros i bank us Hus. unfold usersOfBank in Hus.
    apply bindR_Ok in Hus. destruct Hus as (user & Huser & Hus).
    apply bindR_Ok in Hus. destruct Hus as (creditCards & Hcards & Hus).
    apply bindR_Ok in Hus. destruct Hus as (ccs & Hccs & Hus).
    apply bindR_Ok in Hus. destruct Hus as (cards & Hmap & [= <-]).
    rewrite (@cardsOf_items bank creditCards ccs Hcards Hccs). cbn [List.map].
    destruct (@toUserOptions_user bank None user (getLastImport user) Huser) as [-> ->].
    split; f_equal.
    - apply (@mapThrowing_map _ _ _ _ _ _ ccs
               (fun _ cc u Hu =>
                  proj1 (@toUserOptions_user cc (Some i) u (getLastImport u) Hu))
               0 cards Hmap).
    - apply (@mapThrowing_map _ _ _ _ _ _ ccs
               (fun _ cc u Hu =>
                  proj2 (@toUserOptions_user cc (Some i) u (getLastImport u) Hu))
               0 cards Hmap). }
  split.
  - apply (@flatMapThrowing_map _ _ _ _ _ _ entries
             (fun i bank us Hus => proj1 (Hbank i bank us Hus)) 0 flat Hflat).
  - apply (@flatMapThrowing_map _ _ _ _ _ _ entries
             (fun i bank us Hus => proj2 (Hbank i bank us Hus)) 0 flat Hflat).
Qed.

(* ===================================================================== *)
(** ** The selection of accounts, and credential variables at load time *)
(* ===================================================================== *)

Lemma selected_withProperty (useOnlyAccounts : option (list string)) (v x : node) :
  selected useOnlyAccounts (withProperty "lastImport" v x) = selected useOnlyAccounts x.
Proof.
  destruct useOnlyAccounts as [names|]; [|reflexivity].
  destruct x; try reflexivity;
    cbn [withProperty selected Config.get Config.ownProperty];
    rewrite lookup_upsert_other by discriminate; reflexivity.
Qed.

Lemma filter_map_commute {A B} (p : B -> bool) (g : A -> B) (l : list A) :
  filter p (List.map g l) = List.map g (filter (fun x => p (g x)) l).
Proof.
  induction l as [|x r IH]; [reflexivity|].
  cbn [List.map filter]. rewrite IH. now destruct (p (g x)).
Qed.

Lemma allR_cons {A B} (f : A -> result B) (x : A) (r : list A) (y : B) (ys : list B) :
  f x = Ok y -> allR f r = Ok ys -> allR f (x :: r) = Ok (y :: ys).
Proof.
  intros Hx Hr. unfold allR in Hr |- *. simpl. rewrite Hx, Hr. reflexivity.
Qed.

Lemma allR_filter (scrap : node -> result (option Z)) (p : node -> bool) (l : list node) :
  forall users,
    allR (fun x => mapR (fun from => {| userOptions := x; scrapFrom := from |}) (scrap x)) l
    = Ok users ->
    allR (fun x => mapR (fun from => {| userOptions := x; scrapFrom := from |}) (scrap x))
         (filter p l)
    = Ok (filter (fun user => p (userOptions user)) users).
Proof.
  induction l as [|x r IH]; intros users H.
  - now injection H as <-.
  - apply allR_cons_Ok in H. destruct H as (u & us & Hu & Hus & ->).
    specialize (IH _ Hus).
    destruct (scrap x) as [from|m] eqn:Hscrap; [|discriminate Hu].
    injection Hu as <-. cbn [filter userOptions].
    destruct (p x); [|exact IH].
    apply allR_cons; [|exact IH]. now rewrite Hscrap.
Qed.

(** X28.  The selection of accounts is a filter: when [getFlatUsers]
    returns for no selection, it returns for every list of account names
    the users of that result whose [name] is a string of the list, in
    the same order and with the same start of scraping; so every user it
    returns is named in the list, and an account without a name is never
    among them. *)
Theorem getFlatUsers_selection (library : Moment) (getLastImport : node -> node)
  (cfg : node) (names : list string) (everyone : list FlatUser) :
  getFlatUsers library getLastImport cfg None = Ok everyone ->
  exists users,
    getFlatUsers library getLastImport cfg (Some names) = Ok users
    /\ users = filter (fun user => selected (Some names) (userOptions user)) everyone
    /\ Forall (fun user => exists name,
                 Config.get (userOptions user) ["name"] = Str name /\ In name names)
              users.
Proof.
  unfold getFlatUsers. intros H.
  destruct (negb (truthy (Config.get cfg ["banks"]))); [discriminate H|].
  destruct (Config.get cfg ["banks"]) as [| |b|n|s|entries|fields|time fields]; try discriminate H.
  apply bindR_Ok in H. destruct H as (flat & Hflat & H). cbn zeta in H.
  unfold selected at 1 in H. rewrite filter_all in H.
  rewrite Hflat. cbn [bindR]. cbn zeta.
  eexists. split; [|split; [reflexivity|]].
  - rewrite <- (List.filter_ext _ _ (fun x => selected_withProperty (Some names) (getLastImport x) x)).
    rewrite <- (filter_map_commute (selected (Some names))
                  (fun x => withProperty "lastImport" (getLastImport x) x)).
    apply allR_filter. exact H.
  - apply Forall_forall. intros user Huser. apply filter_In in Huser.
    destruct Huser as [_ Hsel]. cbn [selected] in Hsel.
    destruct (Config.get (userOptions user) ["name"]) as [| |b|n|name|items|fields|time fields];
      try discriminate Hsel.
    exists name. split; [reflexivity|].
    apply existsb_exists in Hsel. destruct Hsel as (x & Hx & Heq).
    apply String.eqb_eq in Heq. now subst x.
Qed.

(** [decryptObject] opens an envelope where it is. *)
Lemma decryptObject_get_envelope (mp : option string) (p : Config.key) :
  forall t t' x plain,
    decryptObject t mp = Ok t' ->
    Config.get t p = Str x -> isEncrypted (Str x) = true ->
    decrypt (Some x) mp = Ok plain ->
    Config.get t' p = Str plain.
Proof.
  induction p as [|name rest IH]; intros t t' x plain H Hget Henc Hdec.
  - cbn [Config.get] in *. subst t. cbn [decryptObject] in H.
    rewrite Henc, Hdec in H. now injection H as <-.
  - cbn [Config.get] in Hget |- *.
    destruct (Config.ownProperty t name) as [c|] eqn:Hc; [|discriminate].
    destruct (@decryptObject_ownProperty t t' mp name c H Hc) as (c' & -> & Hc').
    eapply IH; eassumption.
Qed.

(** [decryptBanksConfig] opens an envelope of the [banks] subtree that
    the master password opens. *)
Lemma decryptBanksConfig_opens (mp : option string) (cfg cfg1 : node)
  (rest : Config.key) (x plain : string) :
  decryptBanksConfig mp cfg = Ok cfg1 ->
  Config.get cfg ("banks" :: rest) = Str x -> isEncrypted (Str x) = true ->
  decrypt (Some x) mp = Ok plain ->
  Config.get cfg1 ("banks" :: rest) = Str plain.
Proof.
  intros H1 Hget Henc Hdec.
  assert (Hbanks : hasEncryptedValues (Config.get cfg ["banks"]) = true).
  { destruct (hasEncryptedValues (Config.get cfg ["banks"])) eqn:E; [reflexivity|].
    pose proof (hasEncryptedValues_get rest _ E) as Hrest.
    change (Config.get cfg ("banks" :: rest))
      with (Config.get cfg (["banks"] ++ rest)) in Hget.
    rewrite get_app in Hget. rewrite Hget in Hrest.
    rewrite (hasEncryptedValues_Str _ Henc) in Hrest. discriminate Hrest. }
  unfold decryptBanksConfig in H1.
  destruct (negb (truthy (Config.get cfg ["banks"]))) eqn:Ht.
  { destruct (Config.get cfg ["banks"]) as [| |b|n|s|items|entries|time entries];
      try discriminate Hbanks; try discriminate Ht.
    destruct s; [discriminate Hbanks | discriminate Ht]. }
  apply bindR_Ok in H1. destruct H1 as (banks' & Hdo & [= <-]).
  change (Config.assign cfg "banks" banks') with (Config.set cfg ["banks"] banks').
  cbn [Config.get] in Hget, Hdo.
  destruct (Config.ownProperty cfg "banks") as [banks|] eqn:Hb; [|discriminate].
  rewrite get_set_top by congruence.
  eapply decryptObject_get_envelope; eassumption.
Qed.

(** The decryption step opens an envelope of the [banks] subtree that
    the master password opens. *)
Lemma decryptIfNeeded_opens (env : Env) (cfg : node) (st' : Live.store)
  (rest : Config.key) (x plain : string) :
  Live.decryptIfNeeded decryptObject env (Live.unshared cfg) = Ok st' ->
  Config.get cfg ("banks" :: rest) = Str x -> isEncrypted (Str x) = true ->
  decrypt (Some x) (env "MASTER_PASSWORD") = Ok plain ->
  Live.get env st' ("banks" :: rest) = Str plain.
Proof.
  intros H Hget Henc Hdec.
  destruct (@decryptIfNeeded_unshared_banks env cfg st' rest H) as (cfg1 & -> & H1).
  destruct H1 as [[-> Hnone] | H1].
  - pose proof (hasEncryptedValues_get rest _ Hnone) as Hrest.
    change (Config.get cfg ("banks" :: rest))
      with (Config.get cfg (["banks"] ++ rest)) in Hget.
    rewrite get_app in Hget. rewrite Hget in Hrest.
    rewrite (hasEncryptedValues_Str _ Henc) in Hrest. discriminate Hrest.
  - exact (@decryptBanksConfig_opens _ cfg cfg1 rest x plain H1 Hget Henc Hdec).
Qed.

Lemma credentialVariable_overridden (env : Env) (cfg cfg1 : node)
  (variable : string) (key : Config.key) :
  applyCredentialEnvOverrides env cfg = Ok cfg1 ->
  credentialVariable cfg variable key ->
  Config.get cfg1 key = overridden (env variable) (Config.get cfg key)
  /\ exists rest, key = "banks" :: rest.
Proof.
  intros Hover Hvar. destruct Hvar as [i V f Hmap Hin | i j V f Hmap Hin].
  - destruct (@overrides_fields env cfg cfg1 i Hover) as [Hbank _].
    split; [exact (Hbank Hmap V f Hin) | now eexists].
  - destruct (@overrides_fields env cfg cfg1 i Hover) as [_ Hcard].
    split; [exact (Hcard j Hmap V f Hin) | now eexists].
Qed.

(** X29.  Credential variables at load time, for a document without
    aliases: when [loadConfig] returns, a variable of the credential
    overrides (BANK_i_USERNAME, _PASSWORD, _ID, _USERCODE,
    BANK_i_CC_j_USERNAME, _PASSWORD, _ID, _CARD6DIGITS, for a bank or
    credit card that holds a [credentials] mapping) that is set to a
    non-empty string is what the resolved configuration holds at its key
    when that string is not an envelope; and when it is an envelope
    built with the non-empty value of [MASTER_PASSWORD] for a plaintext
    without unpaired surrogates, the resolved configuration holds that
    plaintext there. *)
Theorem loadConfig_reads_credential_variables (env : Env) (cfg : node)
  (resolved : Live.store) (variable : string) (key : Config.key) (v : string) :
  Live.loadConfig decryptObject env (Live.unshared cfg) = Ok resolved ->
  credentialVariable cfg variable key ->
  env variable = Some v -> v <> EmptyString ->
  (isEncrypted (Str v) = false -> Live.get env resolved key = Str v)
  /\ (forall p s salt iv,
        v = envelopeOf p s salt iv -> wellFormed p = true ->
        env "MASTER_PASSWORD" = Some s -> s <> EmptyString ->
        length salt = SALT_LENGTH -> length iv = IV_LENGTH ->
        Live.get env resolved key = Str p).
Proof.
  intros Hload Hvar Hv Hne.
  destruct (@loadConfig_unshared_Ok env cfg resolved Hload) as (cfg1 & _ & Hover & Hdec).
  destruct (@credentialVariable_overridden env cfg cfg1 variable key Hover Hvar)
    as (Hget & rest & ->).
  unfold overridden in Hget. rewrite Hv, truthy_Some, (isEmpty_false Hne) in Hget.
  cbn [negb stringOf] in Hget.
  split.
  - intros Hplain. exact (@decryptIfNeeded_keeps_plain env cfg1 resolved rest v Hdec Hget Hplain).
  - intros p s salt iv -> Hw Hmaster Hs Hsalt Hiv.
    apply (@decryptIfNeeded_opens env cfg1 resolved rest (envelopeOf p s salt iv) p Hdec Hget).
    + apply envelope_isEncrypted.
    + rewrite Hmaster. now apply decrypt_envelopeOf_wellFormed.
Qed.

End Crypto.

(* ===================================================================== *)
(** ** The sample primitives meet the contracts *)
(* ===================================================================== *)

Lemma Sample_randomBytes_length (size : nat) (e : Sample.entropy) :
  length (fst (Sample.randomBytes size e)) = size.
Proof. apply repeat_length. Qed.

Lemma Sample_pbkdf2_length (password : string) (salt : Buffer) (iterations : N)
  (keylen : nat) (digest : string) :
  length (Sample.pbkdf2 password salt iterations keylen digest) = keylen.
Proof.
  unfold Sample.pbkdf2. rewrite length_firstn, !length_app, repeat_length. lia.
Qed.

Lemma Sample_authTag_length (key iv plaintext : Buffer) :
  length (snd (Sample.cipher ALGORITHM key iv plaintext)) = AUTH_TAG_LENGTH.
Proof.
  unfold Sample.cipher, Sample.tagOf. cbn [snd].
  rewrite length_firstn, !length_app, repeat_length. lia.
Qed.

Lemma Sample_decipher_cipher (key iv plaintext : Buffer) :
  length key = KEY_LENGTH -> length iv = IV_LENGTH ->
  Sample.decipher ALGORITHM key iv
    (snd (Sample.cipher ALGORITHM key iv plaintext))
    (fst (Sample.cipher ALGORITHM key iv plaintext)) = Plain plaintext.
Proof.
  intros _ _. unfold Sample.decipher, Sample.cipher, Sample.bufferEqb. cbn [fst snd].
  destruct (list_eq_dec _ _ _) as [_|H]; [|now elim H].
  now rewrite rev_involutive.
Qed.

Lemma Sample_meetsContracts :
  meetsContracts Sample.randomBytes Sample.pbkdf2 Sample.cipher Sample.decipher.
Proof.
  repeat split.
  - exact Sample_randomBytes_length.
  - exact Sample_pbkdf2_length.
  - exact Sample_authTag_length.
  - exact Sample_decipher_cipher.
Qed.

(* ===================================================================== *)
(** ** The claims on concrete inputs *)
(* ===================================================================== *)

(** The round trip of the end-to-end example of the specification. *)
Lemma decrypt_encrypt_roundtrip_witness :
  wellFormed "abc123" = true
  /\ exists envelope e',
       encrypt Sample.randomBytes Sample.pbkdf2 Sample.cipher
         (Some "abc123") (Some "correct-horse-battery") 0 = Ok (envelope, e')
       /\ decrypt Sample.pbkdf2 Sample.decipher
            (Some envelope) (Some "correct-horse-battery") = Ok "abc123".
Proof.
  split; [reflexivity|].
  destruct (@decrypt_encrypt_roundtrip Sample.entropy Sample.randomBytes Sample.pbkdf2
              Sample.cipher Sample.decipher Sample_meetsContracts
              "abc123" "correct-horse-battery" 0 ltac:(discriminate) ltac:(discriminate))
    as (envelope & e' & Henc & _ & Hdec).
  exists envelope, e'. split; [exact Henc | apply Hdec; reflexivity].
Defined.

(** A plaintext that is one unpaired surrogate: [encrypt] returns an
    envelope, and [decrypt] returns for it the replacement character,
    which is another string. *)
Lemma lone_surrogate_counterexample :
  exists envelope e',
    loneSurrogate <> EmptyString
    /\ encrypt Sample.randomBytes Sample.pbkdf2 Sample.cipher
         (Some loneSurrogate) (Some "correct-horse-battery") 0 = Ok (envelope, e')
    /\ decrypt Sample.pbkdf2 Sample.decipher
         (Some envelope) (Some "correct-horse-battery") = Ok replacementCharacter
    /\ replacementCharacter <> loneSurrogate.
Proof.
  eexists _, _. split; [discriminate|].
  split; [vm_compute; reflexivity|].
  split; [vm_compute; reflexivity | discriminate].
Qed.

(** The empty envelope is an invalid input, not text that is not
    encrypted. *)
Lemma decrypt_requires_inputs_witness :
  decrypt Sample.pbkdf2 Sample.decipher (Some EmptyString) (Some "secret")
  = Throw ENCRYPTED_TEXT_REQUIRED
  /\ errorKind ENCRYPTED_TEXT_REQUIRED = InvalidInput
  /\ ENCRYPTED_TEXT_REQUIRED <> NOT_ENCRYPTED.
Proof.
  apply (@decrypt_requires_inputs Sample.pbkdf2 Sample.decipher
           (Some EmptyString) (Some "secret")).
  left. right. reflexivity.
Defined.

Lemma decrypt_other_version_witness :
  decrypt Sample.pbkdf2 Sample.decipher (Some "encrypted:v2:QUJD") (Some "secret")
  = Throw NOT_ENCRYPTED
  /\ errorKind NOT_ENCRYPTED = NotEncrypted.
Proof.
  apply (@decrypt_other_version Sample.pbkdf2 Sample.decipher
           "encrypted:v2:QUJD" "secret" "QUJD").
  - discriminate.
  - right. reflexivity.
Defined.

(** A string with the version tag [v2] is reported as not encrypted; no
    error of the code is an unsupported-version error. *)
Lemma unknown_version_counterexample :
  exists message,
    decrypt Sample.pbkdf2 Sample.decipher (Some "encrypted:v2:QUJD") (Some "secret") = Throw message
    /\ errorKind message = NotEncrypted
    /\ errorKind message <> UnsupportedFormatVersion.
Proof.
  exists NOT_ENCRYPTED. split; [reflexivity|]. split; [reflexivity | discriminate].
Qed.

Lemma encryptSensitiveFields_targets_witness :
  encryptSensitiveFields Sample.randomBytes Sample.pbkdf2 Sample.cipher
    exampleDocument (Some "s") EmptyString 0
  = Ok (Obj [ ("credentials",
               Obj [("username", Str "u");
                    ("password",
                     Str (envelopeOf Sample.pbkdf2 Sample.cipher "p" "s"
                            (fst (Sample.randomBytes SALT_LENGTH 0))
                            (fst (Sample.randomBytes IV_LENGTH 1))))]);
              ("name", Str "n") ], 2).
Proof.
  apply (proj1 (@encryptSensitiveFields_targets Sample.entropy Sample.randomBytes
                  Sample.pbkdf2 Sample.cipher "s" 0 ltac:(discriminate))).
Defined.

(** In the example document the leaf at [credentials.username] is not
    replaced: it is still ["u"] after the pass, and ["u"] is no
    envelope.  The same mapping one level down, under a key [bank], has
    its [username] replaced by an envelope. *)
Lemma root_credentials_username_in_clear :
  (exists d' e',
     encryptSensitiveFields Sample.randomBytes Sample.pbkdf2 Sample.cipher
       exampleDocument (Some "s") EmptyString 0 = Ok (d', e')
     /\ descend d' [Key "credentials"; Key "username"] = Some (Str "u")
     /\ isEncrypted (Str "u") = false
     /\ isSensitive (accumulated EmptyString [Key "credentials"; Key "username"]) = false)
  /\ (exists d' e' v,
        encryptSensitiveFields Sample.randomBytes Sample.pbkdf2 Sample.cipher
          (Obj [("bank", exampleDocument)]) (Some "s") EmptyString 0 = Ok (d', e')
        /\ descend d' [Key "bank"; Key "credentials"; Key "username"] = Some (Str v)
        /\ isEncrypted (Str v) = true
        /\ isSensitive (accumulated EmptyString
                          [Key "bank"; Key "credentials"; Key "username"]) = true).
Proof.
  split.
  - eexists _, _. split; [vm_compute; reflexivity|].
    split; [reflexivity|]. split; reflexivity.
  - eexists _, _, _. split; [vm_compute; reflexivity|].
    split; [reflexivity|]. split; reflexivity.
Qed.

Lemma encryptSensitiveFields_idempotent_witness :
  exists d' e',
    encryptSensitiveFields Sample.randomBytes Sample.pbkdf2 Sample.cipher
      exampleDocument (Some "s") EmptyString 0 = Ok (d', e')
    /\ encryptSensitiveFields Sample.randomBytes Sample.pbkdf2 Sample.cipher
         d' (Some "s") EmptyString 12 = Ok (d', 12).
Proof.
  eexists _, _. split; [vm_compute; reflexivity|].
  apply (@encryptSensitiveFields_idempotent Sample.entropy Sample.randomBytes
           Sample.pbkdf2 Sample.cipher exampleDocument (Some "s") EmptyString 0 _ 2).
  vm_compute. reflexivity.
Defined.

(** The preview of the setup guide: the six fields it lists. *)
Lemma listSensitiveFields_previews_rewrite_witness :
  exists d' e',
    encryptSensitiveFields Sample.randomBytes Sample.pbkdf2 Sample.cipher
      guideConfig (Some "master password") EmptyString 0 = Ok (d', e')
    /\ listSensitiveFields guideConfig EmptyString [] = replacedPaths guideConfig d' EmptyString.
Proof.
  apply (@listSensitiveFields_previews_rewrite Sample.entropy Sample.randomBytes
           Sample.pbkdf2 Sample.cipher guideConfig "master password" 0).
  discriminate.
Defined.

(** The decryption step on [sealedConfig] with the master password: it
    opens the envelopes at the password of the bank and at
    [firefly.tokenApi], and the string at [scraper.secret] is read as
    before, an envelope still.  On [strayConfig], which holds no
    envelope at the two places, the step returns the store as it is. *)
Lemma decryption_touches_banks_and_token_only_witness :
  (exists st',
     Live.decryptIfNeeded (decryptObject Sample.pbkdf2 Sample.decipher) masterOnly
       (Live.unshared sealedConfig) = Ok st'
     /\ Live.get masterOnly st' (bankKey 0 "password") = Str "hunter2"
     /\ Live.get masterOnly st' ["firefly"; "tokenApi"] = Str "hunter2"
     /\ Live.get masterOnly st' ["scraper"; "secret"]
        = Live.get masterOnly (Live.unshared sealedConfig) ["scraper"; "secret"]
     /\ isEncrypted (Live.get masterOnly st' ["scraper"; "secret"]) = true)
  /\ Live.decryptIfNeeded (decryptObject Sample.pbkdf2 Sample.decipher) (envOf [])
       (Live.unshared strayConfig) = Ok (Live.unshared strayConfig).
Proof.
  split.
  - eexists. split; [vm_compute; reflexivity|].
    split; [reflexivity|]. split; [reflexivity|].
    refine (_ (proj2 (@decryption_touches_banks_and_token_only
                        Sample.pbkdf2 Sample.decipher masterOnly)
                 sealedConfig _ _ ["scraper"; "secret"] _)).
    + intros [Hsame Hstays]. split; [exact Hsame|].
      apply (Hstays "encrypted:v1:QUJD"); reflexivity.
    + vm_compute. reflexivity.
    + split; apply diverge_head; discriminate.
  - apply (proj1 (@decryption_touches_banks_and_token_only
                    Sample.pbkdf2 Sample.decipher (envOf []))); reflexivity.
Defined.

(** A file in which [backup] is an alias of the mapping of [firefly]:
    the decryption step writes the plaintext of the token into the one
    object, and the envelope that [backup:tokenApi] held, outside the
    two places, is decrypted. *)
Lemma shared_token_counterexample :
  exists st',
    Live.decryptIfNeeded (decryptObject Sample.pbkdf2 Sample.decipher) masterOnly
      sharedFirefly = Ok st'
    /\ outsideDecryption ["backup"; "tokenApi"]
    /\ isEncrypted (Live.get masterOnly sharedFirefly ["backup"; "tokenApi"]) = true
    /\ Live.get masterOnly st' ["backup"; "tokenApi"] = Str "hunter2"
    /\ isEncrypted (Live.get masterOnly st' ["backup"; "tokenApi"]) = false.
Proof.
  eexists. split; [vm_compute; reflexivity|].
  split; [split; apply diverge_head; discriminate|].
  split; [reflexivity|]. split; reflexivity.
Qed.

Lemma loadConfig_gating_witness :
  loadConfig Sample.pbkdf2 Sample.decipher (envOf []) fileConfig = Ok fileConfig
  /\ loadConfig Sample.pbkdf2 Sample.decipher (envOf []) lockedConfig
     = Throw MASTER_PASSWORD_REQUIRED.
Proof.
  split.
  - apply (@loadConfig_gating Sample.pbkdf2 Sample.decipher (envOf []) fileConfig fileConfig);
      reflexivity.
  - apply (@loadConfig_gating Sample.pbkdf2 Sample.decipher (envOf []) lockedConfig
             lockedConfig); try reflexivity.
    + right. reflexivity.
    + left. reflexivity.
Defined.

(** A document with an encrypted leaf at [scraper.secret], and no master
    secret in the environment: [loadConfig] returns the document, with
    the envelope still in it. *)
Lemma stray_envelope_counterexample :
  hasEncryptedValues strayConfig = true
  /\ envOf [] "MASTER_PASSWORD" = None
  /\ loadConfig Sample.pbkdf2 Sample.decipher (envOf []) strayConfig = Ok strayConfig.
Proof. repeat split. Qed.

Lemma env_password_overrides_file_witness :
  exists resolved,
    Live.loadConfig (decryptObject Sample.pbkdf2 Sample.decipher)
      (envOf [("BANK_0_PASSWORD", "envval"); ("BANK_0_CC_0_PASSWORD", "ccenvval")])
      (Live.unshared fileConfig) = Ok resolved
    /\ Live.get (envOf [("BANK_0_PASSWORD", "envval"); ("BANK_0_CC_0_PASSWORD", "ccenvval")])
         resolved (bankKey 0 "password") = Str "envval"
    /\ Live.get (envOf [("BANK_0_PASSWORD", "envval"); ("BANK_0_CC_0_PASSWORD", "ccenvval")])
         resolved (creditCardKey 0 0 "password") = Str "ccenvval".
Proof.
  eexists. split; [vm_compute; reflexivity|].
  destruct (@env_password_overrides_file Sample.pbkdf2 Sample.decipher
              (envOf [("BANK_0_PASSWORD", "envval"); ("BANK_0_CC_0_PASSWORD", "ccenvval")])
              fileConfig 0) as (Hbank & Hcard & _).
  split.
  - apply Hbank; try reflexivity; discriminate.
  - apply Hcard; try reflexivity; discriminate.
Defined.

(** [BANK_0_PASSWORD] is set, to the empty string: the resolved
    configuration keeps the file value. *)
Lemma empty_variable_counterexample :
  exists resolved,
    envOf [("BANK_0_PASSWORD", EmptyString)] (bankVariable 0 "PASSWORD") = Some EmptyString
    /\ Config.get fileConfig (bankKey 0 "password") = Str "fileval"
    /\ Live.loadConfig (decryptObject Sample.pbkdf2 Sample.decipher)
         (envOf [("BANK_0_PASSWORD", EmptyString)]) (Live.unshared fileConfig) = Ok resolved
    /\ Live.get (envOf [("BANK_0_PASSWORD", EmptyString)]) resolved (bankKey 0 "password")
       = Str "fileval"
    /\ Live.get (envOf [("BANK_0_PASSWORD", EmptyString)]) resolved (bankKey 0 "password")
       <> Str EmptyString.
Proof.
  eexists. split; [reflexivity|]. split; [reflexivity|].
  split; [vm_compute; reflexivity|]. split; [reflexivity | discriminate].
Qed.

(** A file in which the two banks take their credentials from one
    anchor.  With BANK_0_PASSWORD alone, the password of bank 1 and the
    password under [shared] read the variable as well; with
    BANK_0_PASSWORD and BANK_1_PASSWORD, the password of bank 0 reads
    the second variable. *)
Lemma shared_credentials_example :
  (exists resolved,
     Live.loadConfig (decryptObject Sample.pbkdf2 Sample.decipher)
       (envOf [("BANK_0_PASSWORD", "envval")]) sharedCredentials = Ok resolved
     /\ Live.get (envOf [("BANK_0_PASSWORD", "envval")]) sharedCredentials
          (bankKey 1 "password") = Str "fileval"
     /\ Live.get (envOf [("BANK_0_PASSWORD", "envval")]) resolved
          (bankKey 0 "password") = Str "envval"
     /\ Live.get (envOf [("BANK_0_PASSWORD", "envval")]) resolved
          (bankKey 1 "password") = Str "envval"
     /\ Live.get (envOf [("BANK_0_PASSWORD", "envval")]) resolved
          ["shared"; "password"] = Str "envval")
  /\ (exists resolved,
        Live.loadConfig (decryptObject Sample.pbkdf2 Sample.decipher)
          (envOf [("BANK_0_PASSWORD", "first"); ("BANK_1_PASSWORD", "second")])
          sharedCredentials = Ok resolved
        /\ Live.get (envOf [("BANK_0_PASSWORD", "first"); ("BANK_1_PASSWORD", "second")])
             resolved (bankKey 0 "password") = Str "second").
Proof.
  split.
  - eexists. split; [vm_compute; reflexivity|]. repeat split.
  - eexists. split; [vm_compute; reflexivity|]. reflexivity.
Qed.

Lemma decrypt_with_other_secret_witness :
  exists envelope e',
    encrypt Sample.randomBytes Sample.pbkdf2 Sample.cipher
      (Some "abc123") (Some "correct-horse-battery") 0 = Ok (envelope, e')
    /\ decrypt Sample.pbkdf2 Sample.decipher (Some envelope) (Some "wrong-secret")
       = Throw DECRYPTION_FAILED.
Proof.
  destruct (@decrypt_with_other_secret Sample.entropy Sample.randomBytes Sample.pbkdf2
              Sample.cipher Sample.decipher Sample_meetsContracts
              "abc123" "correct-horse-battery" "wrong-secret" 0)
    as (envelope & e' & Henc & Hreject & _); try discriminate.
  exists envelope, e'. split; [exact Henc|].
  apply Hreject. vm_compute. reflexivity.
Defined.

(** No primitives that meet the contracts make every wrong secret fail:
    for every non-empty plaintext some pair of distinct non-empty secrets
    derives one key, and then the second secret decrypts the envelope of
    the first. *)
Lemma wrong_secret_counterexample :
  ~ exists (entropy : Type) (randomBytes : nat -> entropy -> Buffer * entropy)
      (pbkdf2 : string -> Buffer -> N -> nat -> string -> Buffer)
      (cipher : string -> Buffer -> Buffer -> Buffer -> Buffer * Buffer)
      (decipher : string -> Buffer -> Buffer -> Buffer -> Buffer -> Deciphered)
      (e : entropy),
      meetsContracts randomBytes pbkdf2 cipher decipher
      /\ forall p s1 s2 envelope e',
           p <> EmptyString -> s1 <> EmptyString -> s2 <> EmptyString -> s1 <> s2 ->
           encrypt randomBytes pbkdf2 cipher (Some p) (Some s1) e = Ok (envelope, e') ->
           decrypt pbkdf2 decipher (Some envelope) (Some s2) = Throw DECRYPTION_FAILED.
Proof.
  intros (entropy & randomBytes & pbkdf2 & cipher & decipher & e & Hmeets & Hclaim).
  apply (@some_other_secret_decrypts entropy randomBytes pbkdf2 cipher decipher
           Hmeets "p" e); [discriminate|].
  intros s1 s2 envelope e' Hs1 Hs2 Hne Henc.
  apply (Hclaim "p" s1 s2 envelope e'); (assumption || discriminate).
Qed.

(* ===================================================================== *)
(** ** Checks of the embedding against the documentation *)
(* ===================================================================== *)

Example trim_spaces : JsString.trim "  a b  " = "a b".
Proof. reflexivity. Qed.

Example trim_no_break_space :
  JsString.trim (" " ++ string_of_list_byte [xc2; xa0; xe2; x80; x8a]%byte) = EmptyString.
Proof. reflexivity. Qed.

Example base64_of_text :
  Base64.encode (utf8Bytes "Many hands make light work.")
  = "TWFueSBoYW5kcyBtYWtlIGxpZ2h0IHdvcmsu".
Proof. reflexivity. Qed.

Example base64_padding : Base64.encode (utf8Bytes "ab") = "YWI=".
Proof. reflexivity. Qed.

(** The list that the setup guide shows for its configuration. *)
Example guide_preview :
  listSensitiveFields guideConfig EmptyString []
  = [ "firefly.tokenApi";
      "banks[0].credentials.username";
      "banks[0].credentials.password";
      "banks[0].creditCards[0].credentials.id";
      "banks[0].creditCards[0].credentials.card6Digits";
      "banks[0].creditCards[0].credentials.password" ].
Proof. reflexivity. Qed.

Example required_keys_missing :
  Config.required requiredKeys (Obj [("firefly", Obj [("baseUrl", Str "u")])])
  = Throw "Missing required keys: firefly:tokenApi, banks".
Proof. reflexivity. Qed.

(** The encoder and the decoder of UTF-8 on a euro sign cut short, on
    an overlong form and on an unpaired surrogate. *)
Example decode_truncated :
  utf8String [xe2; x82]%byte = replacementCharacter.
Proof. reflexivity. Qed.

Example decode_overlong :
  utf8String [xc0; xaf]%byte = (replacementCharacter ++ replacementCharacter)%string.
Proof. reflexivity. Qed.

Example encode_lone_surrogate :
  utf8Bytes ("a" ++ loneSurrogate ++ "b")%string = ([x61]%byte ++ Utf8.replacement ++ [x62]%byte)%list.
Proof. reflexivity. Qed.

(** FIREFLY_TOKEN_API shadows the token of the file: [loadConfig]
    decrypts the envelope of the variable and writes the plaintext to
    the store of the file, and [config.get] reads the envelope as
    before. *)
Example token_variable_shadows_file :
  exists resolved,
    Live.loadConfig (decryptObject Sample.pbkdf2 Sample.decipher)
      (envOf [("MASTER_PASSWORD", "master password"); ("FIREFLY_TOKEN_API", sealedHunter2)])
      (Live.unshared fileConfig) = Ok resolved
    /\ Live.stored resolved ["firefly"; "tokenApi"] = Str "hunter2"
    /\ Live.get (envOf [("MASTER_PASSWORD", "master password");
                        ("FIREFLY_TOKEN_API", sealedHunter2)])
         resolved ["firefly"; "tokenApi"] = Str sealedHunter2.
Proof. eexists. split; [vm_compute; reflexivity|]. split; reflexivity. Qed.

(** With FIREFLY_BASE_URL in the environment the required keys are
    there for a file that holds the token and the banks only. *)
Example required_keys_from_environment :
  Live.required (envOf [("FIREFLY_BASE_URL", "http://firefly:8080")]) requiredKeys
    (Live.unshared (Obj [("firefly", Obj [("tokenApi", Str "t")]); ("banks", Arr [])]))
  = Ok tt
  /\ Live.required (envOf []) requiredKeys
       (Live.unshared (Obj [("firefly", Obj [("tokenApi", Str "t")]); ("banks", Arr [])]))
     = Throw "Missing required keys: firefly:baseUrl".
Proof. split; reflexivity. Qed.

(* ===================================================================== *)
(** ** Further properties on concrete inputs *)
(* ===================================================================== *)

Lemma listSensitiveFields_after_encryption_witness :
  exists d' e',
    encryptSensitiveFields Sample.randomBytes Sample.pbkdf2 Sample.cipher
      guideConfig (Some "master password") EmptyString 0 = Ok (d', e')
    /\ listSensitiveFields d' EmptyString [] = [].
Proof.
  eexists _, _. split; [vm_compute; reflexivity|].
  apply (@listSensitiveFields_after_encryption Sample.entropy Sample.randomBytes
           Sample.pbkdf2 Sample.cipher guideConfig (Some "master password") EmptyString 0 _ 12).
  vm_compute. reflexivity.
Defined.

Lemma countEncryptedFields_after_encryption_witness :
  exists d' e',
    encryptSensitiveFields Sample.randomBytes Sample.pbkdf2 Sample.cipher
      guideConfig (Some "master password") EmptyString 0 = Ok (d', e')
    /\ Counts.encrypted (countEncryptedFields d' noCount)
       = Counts.encrypted (countEncryptedFields guideConfig noCount)
         + length (listSensitiveFields guideConfig EmptyString []).
Proof.
  eexists _, _. split; [vm_compute; reflexivity|].
  apply (@countEncryptedFields_after_encryption Sample.entropy Sample.randomBytes
           Sample.pbkdf2 Sample.cipher guideConfig (Some "master password") EmptyString 0 _ 12).
  vm_compute. reflexivity.
Defined.

(** [datedConfig] comes back with a plain object in the place of its
    [Date]; [fileConfig], which holds none, comes back as it is. *)
Lemma decryptObject_without_encrypted_values_witness :
  decryptObject Sample.pbkdf2 Sample.decipher datedConfig None = Ok (rebuilt datedConfig)
  /\ rebuilt datedConfig <> datedConfig
  /\ decryptObject Sample.pbkdf2 Sample.decipher fileConfig None = Ok fileConfig.
Proof.
  split; [|split].
  - apply (proj1 (@decryptObject_without_encrypted_values Sample.pbkdf2 Sample.decipher
                    datedConfig None eq_refl)).
  - discriminate.
  - apply (proj2 (@decryptObject_without_encrypted_values Sample.pbkdf2 Sample.decipher
                    fileConfig None eq_refl)).
    reflexivity.
Defined.

Lemma decryptObject_requires_password_witness :
  decryptObject Sample.pbkdf2 Sample.decipher lockedConfig (Some EmptyString)
  = Throw ENCRYPTED_TEXT_REQUIRED
  /\ decryptObject Sample.pbkdf2 Sample.decipher datedConfig None = Ok (rebuilt datedConfig).
Proof.
  split.
  - apply (proj1 (@decryptObject_requires_password Sample.pbkdf2 Sample.decipher
                    lockedConfig (Some EmptyString) (or_intror eq_refl))).
  - apply (proj1 (@decryptObject_requires_password Sample.pbkdf2 Sample.decipher
                    datedConfig None (or_introl eq_refl))).
Defined.

Lemma decryptObject_undoes_encryptSensitiveFields_witness :
  (exists d' e',
     encryptSensitiveFields Sample.randomBytes Sample.pbkdf2 Sample.cipher
       guideConfig (Some "master password") EmptyString 0 = Ok (d', e')
     /\ decryptObject Sample.pbkdf2 Sample.decipher d' (Some "master password")
        = Ok guideConfig)
  /\ (exists d' e',
        encryptSensitiveFields Sample.randomBytes Sample.pbkdf2 Sample.cipher
          datedConfig (Some "master password") EmptyString 0 = Ok (d', e')
        /\ decryptObject Sample.pbkdf2 Sample.decipher d' (Some "master password")
           = Ok (rebuilt datedConfig)).
Proof.
  split.
  - eexists _, _. split; [vm_compute; reflexivity|].
    refine (proj2 (proj2 (@decryptObject_undoes_encryptSensitiveFields
                            Sample.entropy Sample.randomBytes
                            Sample.pbkdf2 Sample.cipher Sample.decipher Sample_meetsContracts
                            guideConfig (Some "master password") EmptyString 0 _ 12 _ eq_refl)
                     eq_refl) eq_refl).
    vm_compute. reflexivity.
  - eexists _, _. split; [vm_compute; reflexivity|].
    refine (proj1 (proj2 (@decryptObject_undoes_encryptSensitiveFields
                            Sample.entropy Sample.randomBytes
                            Sample.pbkdf2 Sample.cipher Sample.decipher Sample_meetsContracts
                            datedConfig (Some "master password") EmptyString 0 _ 6 _ eq_refl)
                     eq_refl)).
    vm_compute. reflexivity.
Defined.

Lemma encryptSensitiveFields_keeps_structure_witness :
  (exists d' e',
     encryptSensitiveFields Sample.randomBytes Sample.pbkdf2 Sample.cipher
       scraperConfig (Some "master password") EmptyString 0 = Ok (d', e')
     /\ descend d' [Key "scraper"; Key "timeout"] = Some (Number 60000))
  /\ (exists d' e',
        encryptSensitiveFields Sample.randomBytes Sample.pbkdf2 Sample.cipher
          datedConfig (Some "master password") EmptyString 0 = Ok (d', e')
        /\ exists entries',
             descend d' [Key "banks"; Index 0; Key "startDate"] = Some (Obj entries')).
Proof.
  split.
  - eexists _, _. split; [vm_compute; reflexivity|].
    apply (@encryptSensitiveFields_keeps_structure Sample.entropy Sample.randomBytes
             Sample.pbkdf2 Sample.cipher scraperConfig (Some "master password")
             EmptyString 0 _ 2).
    + vm_compute. reflexivity.
    + reflexivity.
    + discriminate.
    + reflexivity.
  - eexists _, _. split; [vm_compute; reflexivity|].
    apply (proj2 (proj2 (@encryptSensitiveFields_keeps_structure
                           Sample.entropy Sample.randomBytes
                           Sample.pbkdf2 Sample.cipher datedConfig (Some "master password")
                           EmptyString 0 _ 6 ltac:(vm_compute; reflexivity)
                           [Key "banks"; Index 0; Key "startDate"]))
             1704067200000%Z []).
    reflexivity.
Defined.

Lemma encryptSensitiveFields_nothing_to_encrypt_witness :
  encryptSensitiveFields Sample.randomBytes Sample.pbkdf2 Sample.cipher
    (Obj [("credentials", Obj [("username", Str "u")]); ("cron", Str "0 6 * * *")])
    None EmptyString 0
  = Ok (Obj [("credentials", Obj [("username", Str "u")]); ("cron", Str "0 6 * * *")], 0)
  /\ encryptSensitiveFields Sample.randomBytes Sample.pbkdf2 Sample.cipher
       (Obj [("startDate", Date 1704067200000 [])]) None EmptyString 0
     = Ok (Obj [("startDate", Obj [])], 0).
Proof.
  split.
  - apply (proj2 (@encryptSensitiveFields_nothing_to_encrypt Sample.entropy
                    Sample.randomBytes Sample.pbkdf2 Sample.cipher
                    (Obj [("credentials", Obj [("username", Str "u")]);
                          ("cron", Str "0 6 * * *")])
                    None EmptyString 0 eq_refl)).
    reflexivity.
  - apply (proj1 (@encryptSensitiveFields_nothing_to_encrypt Sample.entropy
                    Sample.randomBytes Sample.pbkdf2 Sample.cipher
                    (Obj [("startDate", Date 1704067200000 [])])
                    None EmptyString 0 eq_refl)).
Defined.

Lemma encryptSensitiveFields_requires_password_witness :
  encryptSensitiveFields Sample.randomBytes Sample.pbkdf2 Sample.cipher
    exampleDocument None EmptyString 0 = Throw PLAINTEXT_REQUIRED
  /\ errorKind PLAINTEXT_REQUIRED = InvalidInput.
Proof.
  apply (@encryptSensitiveFields_requires_password Sample.entropy Sample.randomBytes
           Sample.pbkdf2 Sample.cipher exampleDocument None EmptyString 0).
  - left. reflexivity.
  - discriminate.
Defined.

Lemma nested_credentials_are_sensitive_witness :
  isSensitive (accumulated (keyPath "banks[0]" "credentials") [Key "username"]) = true.
Proof.
  apply (@nested_credentials_are_sensitive "banks[0]" "username" []).
  discriminate.
Defined.

Lemma envelope_layout_witness :
  exists envelope e' salt iv authTag ciphertext,
    encrypt Sample.randomBytes Sample.pbkdf2 Sample.cipher
      (Some "abc123") (Some "correct-horse-battery") 0 = Ok (envelope, e')
    /\ JsString.startsWith envelope ENCRYPTED_PREFIX = true
    /\ Base64.decode (JsString.slice envelope (String.length ENCRYPTED_PREFIX))
       = salt ++ iv ++ authTag ++ ciphertext
    /\ length salt = SALT_LENGTH /\ length iv = IV_LENGTH
    /\ length authTag = AUTH_TAG_LENGTH
    /\ Sample.cipher ALGORITHM (deriveKey Sample.pbkdf2 "correct-horse-battery" salt) iv
         (utf8Bytes "abc123") = (ciphertext, authTag).
Proof.
  apply (@envelope_layout Sample.entropy Sample.randomBytes Sample.pbkdf2 Sample.cipher
           Sample.decipher Sample_meetsContracts "abc123" "correct-horse-battery" 0);
    discriminate.
Defined.

Lemma applyCredentialEnvOverrides_without_variables_witness :
  match applyCredentialEnvOverrides (envOf [("MASTER_PASSWORD", "master password")])
          fileConfig with
  | Ok cfg' => cfg' = fileConfig
  | Throw _ => True
  end.
Proof.
  apply (@applyCredentialEnvOverrides_without_variables
           (envOf [("MASTER_PASSWORD", "master password")]) fileConfig).
  split; intros; left; reflexivity.
Defined.

Lemma applyCredentialEnvOverrides_frame_witness :
  exists st',
    Live.applyCredentialEnvOverrides (envOf [("BANK_0_PASSWORD", "envval")])
      (Live.unshared fileConfig) = Ok st'
    /\ Live.get (envOf [("BANK_0_PASSWORD", "envval")]) st' (bankKey 0 "password")
       = Str "envval"
    /\ Live.get (envOf [("BANK_0_PASSWORD", "envval")]) st' ["firefly"; "tokenApi"]
       = Live.get (envOf [("BANK_0_PASSWORD", "envval")]) (Live.unshared fileConfig)
           ["firefly"; "tokenApi"].
Proof.
  eexists. split; [vm_compute; reflexivity|]. split; [reflexivity|].
  apply (@applyCredentialEnvOverrides_frame (envOf [("BANK_0_PASSWORD", "envval")])
           fileConfig _ ["firefly"; "tokenApi"]).
  - vm_compute. reflexivity.
  - intros i. apply diverge_head. discriminate.
  - intros i j. apply diverge_head. discriminate.
Defined.

Lemma loadConfig_missing_required_key_witness :
  exists message,
    loadConfig Sample.pbkdf2 Sample.decipher (envOf [])
      (Obj [("firefly", Obj [("baseUrl", Str "u"); ("tokenApi", Str "t")])])
    = Throw message
    /\ JsString.startsWith message "Missing required keys: " = true
    /\ errorKind message = MissingRequiredConfig.
Proof.
  apply (@loadConfig_missing_required_key Sample.pbkdf2 Sample.decipher (envOf [])
           (Obj [("firefly", Obj [("baseUrl", Str "u"); ("tokenApi", Str "t")])]) ["banks"]).
  - simpl. tauto.
  - reflexivity.
Defined.

Lemma loadConfig_reports_decryption_failure_witness :
  exists cause,
    failedToDecrypt DECRYPTION_FAILED = failedToDecrypt cause
    /\ errorKind (failedToDecrypt DECRYPTION_FAILED) = DecryptionFailed
    /\ (decryptObject Sample.pbkdf2 Sample.decipher
          (Config.get lockedConfig ["banks"]) (Some "wrong-secret") = Throw cause
        \/ exists cfg2,
             decryptBanksConfig Sample.pbkdf2 Sample.decipher (Some "wrong-secret") lockedConfig
             = Ok cfg2
             /\ decryptObject Sample.pbkdf2 Sample.decipher
                  (Config.get cfg2 ["firefly"; "tokenApi"]) (Some "wrong-secret")
                = Throw cause).
Proof.
  apply (@loadConfig_reports_decryption_failure Sample.pbkdf2 Sample.decipher
           (envOf [("MASTER_PASSWORD", "wrong-secret")]) lockedConfig lockedConfig
           "wrong-secret" (failedToDecrypt DECRYPTION_FAILED)).
  - reflexivity.
  - reflexivity.
  - reflexivity.
  - discriminate.
  - vm_compute. reflexivity.
Defined.

Lemma loadConfig_resolves_encrypted_file_witness :
  (exists written e',
     encryptSensitiveFields Sample.randomBytes Sample.pbkdf2 Sample.cipher
       guideConfig (Some "master password") EmptyString 0 = Ok (written, e')
     /\ exists resolved,
          Live.loadConfig (decryptObject Sample.pbkdf2 Sample.decipher) masterOnly
            (Live.unshared written) = Ok resolved
          /\ Live.get masterOnly resolved ["banks"] = rebuilt (Config.get guideConfig ["banks"])
          /\ (forall t, Config.get guideConfig ["firefly"; "tokenApi"] = Str t ->
              Live.get masterOnly resolved ["firefly"; "tokenApi"] = Str t))
  /\ (exists written e',
        encryptSensitiveFields Sample.randomBytes Sample.pbkdf2 Sample.cipher
          datedConfig (Some "master password") EmptyString 0 = Ok (written, e')
        /\ exists resolved,
             Live.loadConfig (decryptObject Sample.pbkdf2 Sample.decipher) masterOnly
               (Live.unshared written) = Ok resolved
             /\ Live.get masterOnly resolved ["banks"]
                = rebuilt (Config.get datedConfig ["banks"])
             /\ Live.get masterOnly resolved ["banks"; "0"; "startDate"] = Obj []).
Proof.
  split.
  - eexists _, _. split; [vm_compute; reflexivity|].
    apply (@loadConfig_resolves_encrypted_file Sample.entropy Sample.randomBytes
             Sample.pbkdf2 Sample.cipher Sample.decipher Sample_meetsContracts
             masterOnly guideConfig _ "master password" 0 12).
    + reflexivity.
    + reflexivity.
    + vm_compute. reflexivity.
    + discriminate.
    + reflexivity.
    + split; intros; left; reflexivity.
    + reflexivity.
    + vm_compute. reflexivity.
    + eexists. vm_compute. reflexivity.
  - eexists _, _. split; [vm_compute; reflexivity|].
    destruct (@loadConfig_resolves_encrypted_file Sample.entropy Sample.randomBytes
                Sample.pbkdf2 Sample.cipher Sample.decipher Sample_meetsContracts
                masterOnly datedConfig _ "master password" 0 6
                eq_refl eq_refl ltac:(vm_compute; reflexivity) ltac:(discriminate) eq_refl
                ltac:(split; intros; left; reflexivity) eq_refl
                ltac:(vm_compute; reflexivity)
                ltac:(eexists; vm_compute; reflexivity))
      as (resolved & Hload & Hbanks & _).
    exists resolved. split; [exact Hload|]. split; [exact Hbanks|].
    change (Live.get masterOnly resolved ["banks"; "0"; "startDate"])
      with (Live.get masterOnly resolved (["banks"] ++ ["0"; "startDate"])).
    revert Hbanks. rewrite !get_banks. cbn [app].
    unfold Live.stored. destruct resolved as [cells top]. cbn [Live.cells Live.top].
    intros Hbanks.
    vm_compute in Hload. injection Hload as <- <-. reflexivity.
Defined.

Lemma applyCredentialEnvOverrides_fields_witness :
  exists st',
    Live.applyCredentialEnvOverrides
      (envOf [("BANK_0_USERCODE", "code"); ("BANK_0_CC_0_CARD6DIGITS", "123456")])
      (Live.unshared envOnlyConfig) = Ok st'
    /\ Live.get (envOf [("BANK_0_USERCODE", "code"); ("BANK_0_CC_0_CARD6DIGITS", "123456")])
         st' (bankKey 0 "userCode") = Str "code"
    /\ Live.get (envOf [("BANK_0_USERCODE", "code"); ("BANK_0_CC_0_CARD6DIGITS", "123456")])
         st' (bankKey 0 "username") = Undefined
    /\ Live.get (envOf [("BANK_0_USERCODE", "code"); ("BANK_0_CC_0_CARD6DIGITS", "123456")])
         st' (creditCardKey 0 0 "card6Digits") = Str "123456"
    /\ Live.get (envOf [("BANK_0_USERCODE", "code"); ("BANK_0_CC_0_CARD6DIGITS", "123456")])
         st' (creditCardKey 0 0 "id") = Str "1".
Proof.
  eexists. split; [vm_compute; reflexivity|].
  destruct (@applyCredentialEnvOverrides_fields
              (envOf [("BANK_0_USERCODE", "code"); ("BANK_0_CC_0_CARD6DIGITS", "123456")])
              envOnlyConfig _ 0 ltac:(vm_compute; reflexivity)) as [Hbank Hcard].
  split; [|split; [|split]].
  - apply (Hbank (ex_intro _ [] eq_refl) "USERCODE" "userCode"). simpl. tauto.
  - apply (Hbank (ex_intro _ [] eq_refl) "USERNAME" "username"). simpl. tauto.
  - apply (Hcard 0 (ex_intro _ [("id", Str "1")] eq_refl) "CARD6DIGITS" "card6Digits").
    simpl. tauto.
  - apply (Hcard 0 (ex_intro _ [("id", Str "1")] eq_refl) "ID" "id"). simpl. tauto.
Defined.

Lemma encryptConfig_succeeds_witness :
  exists encryptedConfig e',
    encryptSensitiveFields Sample.randomBytes Sample.pbkdf2 Sample.cipher
      guideConfig (Some "correct horse") EmptyString 0 = Ok (encryptedConfig, e')
    /\ forall content,
         yamlDump (platformOf [("config.yaml", guideConfig)]) encryptedConfig = Ok content ->
         writeFile (platformOf [("config.yaml", guideConfig)])
           (Some "config.encrypted.yaml") content = Ok tt ->
         exists w',
           encryptConfig Sample.randomBytes Sample.pbkdf2 Sample.cipher
             (platformOf [("config.yaml", guideConfig)])
             (Some "config.yaml") (Some "config.encrypted.yaml")
             {| random := 0; typed := ["Y"; "correct horse"; "correct horse"];
                printed := []; written := [] |}
           = Returns tt w'
           /\ written w' = [] ++ [(Some "config.encrypted.yaml", content)]
           /\ typed w' = [] /\ random w' = e'
           /\ In (Log (LF ++ "Success! Encrypted "
                         ++ JsString.ofNat
                              (encryptedLeaves guideConfig
                               + length (listSensitiveFields guideConfig EmptyString []))
                         ++ " sensitive field(s)."))
                 (printed w').
Proof.
  apply (@encryptConfig_succeeds Sample.entropy Sample.randomBytes Sample.pbkdf2 Sample.cipher
           (platformOf [("config.yaml", guideConfig)])
           (Some "config.yaml") (Some "config.encrypted.yaml")
           {| random := 0; typed := ["Y"; "correct horse"; "correct horse"];
              printed := []; written := [] |}
           "config.yaml" guideConfig "Y" "correct horse" []).
  - reflexivity.
  - reflexivity.
  - discriminate.
  - reflexivity.
  - reflexivity.
  - vm_compute. lia.
Defined.

Lemma encryptConfig_on_encrypted_input_witness :
  exists config e',
    encryptSensitiveFields Sample.randomBytes Sample.pbkdf2 Sample.cipher
      guideConfig (Some "correct horse") EmptyString 0 = Ok (config, e')
    /\ encryptConfig Sample.randomBytes Sample.pbkdf2 Sample.cipher
         (platformOf [("config.encrypted.yaml", config)])
         (Some "config.encrypted.yaml") (Some "out.yaml")
         {| random := 12; typed := []; printed := []; written := [] |}
       = @Exits Sample.entropy unit 0
           (printedMore
              [ Log (LF ++ "Reading configuration from: " ++ show (Some "config.encrypted.yaml"));
                Log (LF ++ "No sensitive fields found to encrypt.");
                Log "Fields already encrypted or no credentials present." ]
              {| random := 12; typed := []; printed := []; written := [] |}).
Proof.
  eexists _, _. split; [vm_compute; reflexivity|].
  eapply (@encryptConfig_on_encrypted_input Sample.entropy Sample.randomBytes Sample.pbkdf2
           Sample.cipher _ (Some "config.encrypted.yaml") (Some "out.yaml") _
           "config.encrypted.yaml" guideConfig _ (Some "correct horse") 0 12).
  - reflexivity.
  - reflexivity.
  - vm_compute. reflexivity.
Defined.

Lemma encryptSingleValue_prints_envelope_witness :
  exists envelope e',
    encrypt Sample.randomBytes Sample.pbkdf2 Sample.cipher
      (Some "abc123") (Some "correct horse") 0 = Ok (envelope, e')
    /\ encryptSingleValue Sample.randomBytes Sample.pbkdf2 Sample.cipher
         {| random := 0; typed := ["abc123"; "correct horse"; "correct horse"];
            printed := []; written := [] |}
       = Returns tt
           {| random := e'; typed := [];
              printed := []
                         ++ [ Log (LF ++ "Encrypt a single value");
                              Log ("(Useful for manually adding encrypted values to config)"
                                   ++ LF);
                              Log (LF ++ "Encrypted value (copy this to your config):");
                              Log envelope ];
              written := [] |}
    /\ decrypt Sample.pbkdf2 Sample.decipher (Some envelope) (Some "correct horse")
       = Ok "abc123".
Proof.
  destruct (@encryptSingleValue_prints_envelope Sample.entropy Sample.randomBytes
              Sample.pbkdf2 Sample.cipher Sample.decipher Sample_meetsContracts
              {| random := 0; typed := ["abc123"; "correct horse"; "correct horse"];
                 printed := []; written := [] |}
              "abc123" "correct horse" [])
    as (envelope & e' & Henc & Hrun & _ & Hdec).
  - reflexivity.
  - discriminate.
  - vm_compute. lia.
  - exists envelope, e'. split; [exact Henc|]. split; [exact Hrun|].
    apply Hdec. reflexivity.
Defined.

Lemma logConfigSnapshot_origin_witness :
  exists snapshot,
    logConfigSnapshot (envOf []) guideConfig = Ok snapshot
    /\ descend snapshot [Key "banks"; Index 0; Key "creditCards"; Index 0; Key "type"]
       = Some (Str "isracard")
    /\ (([Key "banks"; Index 0; Key "creditCards"; Index 0; Key "type"] = [Key "configFile"]
         /\ Str "isracard" = orElse (valueOf (envOf [] "CONFIG_FILE")) (Str "./config.yaml"))
        \/ exists p rest,
             snapshotKey p /\ Config.get guideConfig (p ++ rest) = Str "isracard").
Proof.
  eexists. split; [vm_compute; reflexivity|]. split; [reflexivity|].
  eapply (@logConfigSnapshot_origin (envOf []) guideConfig).
  - vm_compute. reflexivity.
  - reflexivity.
Defined.

Lemma getScrapFrom_latest_witness :
  exists from,
    getScrapFrom sampleMoment scraperConfig
      (Obj [("lastImport", Number 1700000000000); ("startDate", Number 1750000000000)])
    = Ok (Some from)
    /\ (1700000000000 - 7 * 86400000 <= from)%Z
    /\ (forall t, truthy (Config.get scraperConfig ["scraper"; "startDate"]) = true ->
          instant sampleMoment (Config.get scraperConfig ["scraper"; "startDate"]) = Some t ->
          (t <= from)%Z)
    /\ (forall t, truthy (Number 1750000000000) = true ->
          instant sampleMoment (Number 1750000000000) = Some t -> (t <= from)%Z)
    /\ (from = (1700000000000 - 7 * 86400000)%Z
        \/ (truthy (Config.get scraperConfig ["scraper"; "startDate"]) = true
            /\ instant sampleMoment (Config.get scraperConfig ["scraper"; "startDate"])
               = Some from)
        \/ (truthy (Number 1750000000000) = true
            /\ instant sampleMoment (Number 1750000000000) = Some from)).
Proof.
  apply (@getScrapFrom_latest sampleMoment scraperConfig
           (Obj [("lastImport", Number 1700000000000); ("startDate", Number 1750000000000)])
           (Number 1700000000000) (Number 1750000000000));
    reflexivity.
Defined.

Lemma getFlatUsers_banks_then_cards_witness :
  exists users,
    getFlatUsers sampleMoment (fun _ => Undefined) guideConfig None = Ok users
    /\ exists entries,
         Config.get guideConfig ["banks"] = Arr entries
         /\ List.map (fun user => kindOf (userOptions user)) users
            = flat_map (fun bank => Str "bank"
                          :: List.map (fun _ => Str "credit-card") (cardsOf bank)) entries
         /\ List.map (fun user => Config.get (userOptions user) ["credentials"]) users
            = flat_map (fun bank => Config.get bank ["credentials"]
                          :: List.map (fun cc => Config.get cc ["credentials"]) (cardsOf bank))
                       entries.
Proof.
  eexists. split; [vm_compute; reflexivity|].
  apply (@getFlatUsers_banks_then_cards sampleMoment (fun _ => Undefined) guideConfig).
  vm_compute. reflexivity.
Defined.

Lemma getFlatUsers_selection_witness :
  exists everyone,
    getFlatUsers sampleMoment (fun _ => Undefined) namedConfig None = Ok everyone
    /\ exists users,
         getFlatUsers sampleMoment (fun _ => Undefined) namedConfig
           (Some ["card"; "savings"; "other"]) = Ok users
         /\ users = filter (fun user => selected (Some ["card"; "savings"; "other"])
                                          (userOptions user)) everyone
         /\ Forall (fun user => exists name,
                      Config.get (userOptions user) ["name"] = Str name
                      /\ In name ["card"; "savings"; "other"])
                   users.
Proof.
  eexists. split; [vm_compute; reflexivity|].
  apply (@getFlatUsers_selection sampleMoment (fun _ => Undefined) namedConfig).
  vm_compute. reflexivity.
Defined.

Lemma loadConfig_reads_credential_variables_witness :
  exists resolved,
    Live.loadConfig (decryptObject Sample.pbkdf2 Sample.decipher) sealedVariables
      (Live.unshared envOnlyConfig) = Ok resolved
    /\ Live.get sealedVariables resolved (bankKey 0 "username") = Str "dana"
    /\ Live.get sealedVariables resolved (creditCardKey 0 0 "password") = Str "hunter2".
Proof.
  eexists. split; [vm_compute; reflexivity|].
  split.
  - refine (proj1 (@loadConfig_reads_credential_variables Sample.entropy
                     Sample.randomBytes Sample.pbkdf2 Sample.cipher Sample.decipher
                     Sample_meetsContracts sealedVariables envOnlyConfig _
                     (bankVariable 0 "USERNAME") (bankKey 0 "username") "dana"
                     _ _ _ _) _).
    + vm_compute. reflexivity.
    + apply ofBank; [exists []; reflexivity | simpl; tauto].
    + reflexivity.
    + discriminate.
    + reflexivity.
  - refine (proj2 (@loadConfig_reads_credential_variables Sample.entropy
                     Sample.randomBytes Sample.pbkdf2 Sample.cipher Sample.decipher
                     Sample_meetsContracts sealedVariables envOnlyConfig _
                     (creditCardVariable 0 0 "PASSWORD") (creditCardKey 0 0 "password")
                     (stringOf (sealedVariables "BANK_0_CC_0_PASSWORD"))
                     _ _ _ _)
                  "hunter2" "master password"
                  (fst (Sample.randomBytes SALT_LENGTH 0))
                  (fst (Sample.randomBytes IV_LENGTH 5)) _ _ _ _ _ _).
    + vm_compute. reflexivity.
    + apply ofCreditCard; [exists [("id", Str "1")]; reflexivity | simpl; tauto].
    + reflexivity.
    + discriminate.
    + vm_compute. reflexivity.
    + reflexivity.
    + reflexivity.
    + discriminate.
    + reflexivity.
    + reflexivity.
Defined.
